(** * LibyaIntel alert dispatcher: a shallow embedding of
      [backend/runner/alerts/deliver.py]

    Python [str] values are lists of Unicode code points, SQL rows are
    records with nullable ([option]) columns, database timestamps are
    instants in microseconds, and the durable tables are threaded through
    the operations as explicit state. *)

From Stdlib Require Import ZArith NArith List Bool Lia String Ascii.
From Stdlib Require Import Sorting.Sorted Sorting.Permutation.
From Stdlib Require Import Numbers.DecimalString.
From stdpp Require Import base option list gmap.
Import ListNotations.

Local Open Scope N_scope.

(** ** Python strings *)

(** A Python [str] is a sequence of code points. *)
Abbreviation str := (list N).

(** A literal written in ASCII. *)
Definition lit (s : string) : str :=
  List.map N_of_ascii (list_ascii_of_string s).

(** The parts of the Python runtime that the dispatcher calls into and that
    are tables or codecs rather than code of this repository: the Unicode
    character database beyond ASCII, the UTF-8 codec used by [urllib], and
    the host validation of [urlsplit].  ASCII behaviour is written out in
    the functions below and never consults these fields. *)
Class PyRuntime := {
  (** [str.isalnum] of one code point >= 128 *)
  ucd_isalnum : N -> bool;
  (** [str.isspace] of one code point >= 128 *)
  ucd_isspace : N -> bool;
  (** [str.lower] of one code point >= 128 (may expand) *)
  ucd_lower : N -> list N;
  (** [str.encode('utf-8')] of one code point >= 128; [None] is
      [UnicodeEncodeError] (a lone surrogate) *)
  utf8_encode_cp : N -> option (list N);
  (** [bytes.decode('utf-8', 'replace')] of a byte string that is not pure
      ASCII *)
  utf8_decode_replace : list N -> list N;
  (** [urlsplit] raising [ValueError] for a netloc holding both brackets
      whose bracketed host is not an IPv6/IPvFuture literal *)
  bracketed_netloc_invalid : str -> bool;
  (** [urlsplit] raising [ValueError] for a non-ASCII netloc whose NFKC form
      contains a delimiter *)
  netloc_nfkc_invalid : str -> bool
}.

Definition str_eqb (a b : str) : bool := bool_decide (a = b).

Definition is_ascii (c : N) : bool := c <? 128.

Definition in_range (lo hi c : N) : bool := (lo <=? c) && (c <=? hi).

Definition is_ascii_upper (c : N) : bool := in_range 65 90 c.
Definition is_ascii_lower (c : N) : bool := in_range 97 122 c.
Definition is_ascii_digit (c : N) : bool := in_range 48 57 c.
Definition is_ascii_alpha (c : N) : bool := is_ascii_upper c || is_ascii_lower c.
Definition is_ascii_alnum (c : N) : bool := is_ascii_alpha c || is_ascii_digit c.

(** ASCII white space of [str.isspace]: TAB, LF, VT, FF, CR, FS, GS, RS, US
    and SPACE. *)
Definition is_ascii_space (c : N) : bool :=
  in_range 9 13 c || in_range 28 31 c || (c =? 32).

Section PyStr.
Context `{PyRuntime}.

Definition py_isalnum (c : N) : bool :=
  if is_ascii c then is_ascii_alnum c else ucd_isalnum c.

Definition py_isspace (c : N) : bool :=
  if is_ascii c then is_ascii_space c else ucd_isspace c.

Definition lower_cp (c : N) : list N :=
  if is_ascii c then [if is_ascii_upper c then c + 32 else c] else ucd_lower c.

(** [s.lower()] *)
Definition py_lower (s : str) : str := List.flat_map lower_cp s.

(** [s.lstrip()], [s.rstrip()], [s.strip()] *)
Fixpoint py_lstrip (s : str) : str :=
  match s with
  | c :: s' => if py_isspace c then py_lstrip s' else s
  | [] => []
  end.

Definition py_rstrip (s : str) : str := rev (py_lstrip (rev s)).

Definition py_strip (s : str) : str := py_rstrip (py_lstrip s).

(** [s.split()]: the maximal runs of non-space code points.  [cur] is the
    run being read, reversed. *)
Fixpoint split_ws_aux (cur : str) (s : str) : list str :=
  match s with
  | [] => if cur is [] then [] else [rev cur]
  | c :: s' =>
      if py_isspace c
      then (if cur is [] then [] else [rev cur]) ++ split_ws_aux [] s'
      else split_ws_aux (c :: cur) s'
  end.

Definition py_split_ws (s : str) : list str := split_ws_aux [] s.

End PyStr.

(** [sep.join(parts)] *)
Fixpoint py_join (sep : str) (parts : list str) : str :=
  match parts with
  | [] => []
  | [p] => p
  | p :: ps => p ++ sep ++ py_join sep ps
  end.

(** [s.rstrip(chars)] for a one-character [chars]. *)
Fixpoint lstrip_char (ch : N) (s : str) : str :=
  match s with
  | c :: s' => if c =? ch then lstrip_char ch s' else s
  | [] => []
  end.

Definition rstrip_char (ch : N) (s : str) : str := rev (lstrip_char ch (rev s)).

(** [s.startswith(p)] *)
Fixpoint py_startswith (p s : str) : bool :=
  match p, s with
  | [], _ => true
  | a :: p', b :: s' => (a =? b) && py_startswith p' s'
  | _ :: _, [] => false
  end.

(** [ch in s] *)
Definition has_char (ch : N) (s : str) : bool := existsb (N.eqb ch) s.

(** [s.split(ch, 1)] seen as (text before the first [ch], text after it), or
    [None] when [ch] does not occur. *)
Fixpoint cut_first (ch : N) (s : str) : option (str * str) :=
  match s with
  | [] => None
  | c :: s' =>
      if c =? ch then Some ([], s')
      else match cut_first ch s' with
           | Some (a, b) => Some (c :: a, b)
           | None => None
           end
  end.

(** [s.rsplit(ch, 1)], same convention, cutting at the last [ch]. *)
Definition cut_last (ch : N) (s : str) : option (str * str) :=
  match cut_first ch (rev s) with
  | Some (b, a) => Some (rev a, rev b)
  | None => None
  end.

(** [s.split(ch)] *)
Fixpoint split_on (ch : N) (s : str) : list str :=
  match s with
  | [] => [[]]
  | c :: s' =>
      match split_on ch s' with
      | p :: ps => if c =? ch then [] :: p :: ps else (c :: p) :: ps
      | [] => [[c]]
      end
  end.

(** [s.replace(a, b)] for single characters. *)
Definition replace_char (a b : N) (s : str) : str :=
  List.map (fun c => if c =? a then b else c) s.

(** [s.replace(a, "")] *)
Definition remove_char (a : N) (s : str) : str :=
  List.filter (fun c => negb (c =? a)) s.

(** [s[:n]] *)
Definition py_prefix (n : nat) (s : str) : str := firstn n s.

(** Lexicographic comparison of strings by code point, as Python compares
    [str] values. *)
Fixpoint str_compare (a b : str) : comparison :=
  match a, b with
  | [], [] => Eq
  | [], _ :: _ => Lt
  | _ :: _, [] => Gt
  | x :: a', y :: b' =>
      match x ?= y with
      | Eq => str_compare a' b'
      | c => c
      end
  end.

(** Python's ordering of [(str, str)] tuples. *)
Definition pair_compare (p q : str * str) : comparison :=
  match str_compare (fst p) (fst q) with
  | Eq => str_compare (snd p) (snd q)
  | c => c
  end.

Definition pair_leb (p q : str * str) : bool :=
  match pair_compare p q with Gt => false | _ => true end.

(** A stable sort, standing for [list.sort()] and for SQL's [ORDER BY]. *)
Fixpoint insert_by {A} (leb : A -> A -> bool) (x : A) (l : list A) : list A :=
  match l with
  | [] => [x]
  | y :: l' => if leb x y then x :: l else y :: insert_by leb x l'
  end.

Definition sort_by {A} (leb : A -> A -> bool) (l : list A) : list A :=
  fold_right (insert_by leb) [] l.

(** [x or ""] for an optional string. *)
Definition or_empty (o : option str) : str := default [] o.

(** Python truthiness of an optional string, and [a or b]. *)
Definition truthy (o : option str) : bool :=
  match o with Some (_ :: _) => true | _ => false end.

Definition py_or (a b : option str) : option str := if truthy a then a else b.

(** [str(n)] for an integer. *)
Definition str_of_Z (z : Z) : str := lit (NilEmpty.string_of_int (Z.to_int z)).

(** ** Timestamps *)

(** A timestamp column holds an instant, in microseconds since the Unix
    epoch.  The driver hands it to Python as an aware [datetime]: the same
    instant together with the session's UTC offset in seconds. *)
Record datetime := { dt_instant : Z; dt_utcoffset : Z }.

Definition usec_per_sec : Z := 1000000.
Definition usec_per_day : Z := 86400 * usec_per_sec.

(** Proleptic Gregorian date of a day number counted from 1970-01-01. *)
Definition civil_from_days (days : Z) : Z * Z * Z :=
  let z := (days + 719468)%Z in
  let era := (z / 146097)%Z in
  let doe := (z - era * 146097)%Z in
  let yoe := ((doe - doe / 1460 + doe / 36524 - doe / 146096) / 365)%Z in
  let y := (yoe + era * 400)%Z in
  let doy := (doe - (365 * yoe + yoe / 4 - yoe / 100))%Z in
  let mp := ((5 * doy + 2) / 153)%Z in
  let d := (doy - (153 * mp + 2) / 5 + 1)%Z in
  let m := (if mp <? 10 then mp + 3 else mp - 9)%Z in
  ((if m <=? 2 then y + 1 else y)%Z, m, d).

(** [ts.date()] as (year, month, day), in the datetime's own offset. *)
Definition dt_date (ts : datetime) : Z * Z * Z :=
  civil_from_days ((dt_instant ts + dt_utcoffset ts * usec_per_sec) / usec_per_day)%Z.

(** Decimal digits of [z], left-padded with zeros to [width]. *)
Definition zero_pad (width : nat) (z : Z) : str :=
  let s := str_of_Z z in
  repeat 48 (width - length s) ++ s.

(** [str(d)] for a [date]: ISO format [YYYY-MM-DD]. *)
Definition str_of_date (d : Z * Z * Z) : str :=
  let '(y, m, dd) := d in
  zero_pad 4 y ++ lit "-" ++ zero_pad 2 m ++ lit "-" ++ zero_pad 2 dd.

(** ** Title normalisation *)

Section Title.
Context `{PyRuntime}.

(** The loop of [normalize_title]: [last_space] is the loop's flag, the
    result is [cleaned]. *)
Fixpoint title_scan (last_space : bool) (raw : str) : str :=
  match raw with
  | [] => []
  | ch :: raw' =>
      if py_isalnum ch then ch :: title_scan false raw'
      else if last_space then title_scan true raw'
      else 32 :: title_scan true raw'
  end.

Definition normalize_title (raw : str) : str :=
  let raw := py_lower raw in
  let cleaned := title_scan false raw in
  py_join (lit " ") (py_split_ws cleaned).

End Title.

(** ** [urllib.parse] (CPython 3.11) *)

Record SplitResult := {
  sr_scheme : str; sr_netloc : str; sr_path : str; sr_query : str;
  sr_fragment : str
}.

(** [scheme_chars]: ASCII letters, digits and [+-.]. *)
Definition is_scheme_char (c : N) : bool :=
  is_ascii_alnum c || (c =? 43) || (c =? 45) || (c =? 46).

(** [uses_netloc] *)
Definition uses_netloc : list str :=
  List.map lit
    [""; "ftp"; "http"; "gopher"; "nntp"; "telnet"; "imap"; "wais"; "file";
     "mms"; "https"; "shttp"; "snews"; "prospero"; "rtsp"; "rtspu"; "rsync";
     "svn"; "svn+ssh"; "sftp"; "nfs"; "git"; "git+ssh"; "ws"; "wss"]%string.

Definition in_uses_netloc (s : str) : bool := existsb (str_eqb s) uses_netloc.

(** The longest prefix with no character satisfying [stop], and the rest. *)
Fixpoint span_until (stop : N -> bool) (s : str) : str * str :=
  match s with
  | [] => ([], [])
  | c :: s' =>
      if stop c then ([], s)
      else let '(a, b) := span_until stop s' in (c :: a, b)
  end.

(** The delimiters that end a netloc: [/], [?] and [#]. *)
Definition is_netloc_delim (c : N) : bool := (c =? 47) || (c =? 63) || (c =? 35).

(** [url.lstrip(_WHATWG_C0_CONTROL_OR_SPACE)] *)
Fixpoint lstrip_c0 (s : str) : str :=
  match s with
  | c :: s' => if c <=? 32 then lstrip_c0 s' else s
  | [] => []
  end.

(** Removal of [_UNSAFE_URL_BYTES_TO_REMOVE]: TAB, CR and LF. *)
Definition remove_unsafe (s : str) : str :=
  remove_char 10 (remove_char 13 (remove_char 9 s)).

Definition hex_value (c : N) : option N :=
  if is_ascii_digit c then Some (c - 48)
  else if in_range 65 70 c then Some (c - 55)
  else if in_range 97 102 c then Some (c - 87)
  else None.

(** An upper-case hexadecimal digit, as ['%02X'] prints it. *)
Definition hex_digit (v : N) : N := if v <? 10 then 48 + v else 55 + v.

(** [_ALWAYS_SAFE]: ASCII letters, digits and [_.-~]. *)
Definition is_always_safe (c : N) : bool :=
  is_ascii_alnum c || (c =? 95) || (c =? 46) || (c =? 45) || (c =? 126).

(** [unquote_to_bytes] on an ASCII run: [%XX] with two hexadecimal digits
    becomes the byte, any other [%] stays. *)
Fixpoint unquote_to_bytes (s : str) : list N :=
  match s with
  | [] => []
  | c :: rest0 =>
      if c =? 37 then
        match rest0 with
        | h1 :: h2 :: rest =>
            match hex_value h1, hex_value h2 with
            | Some a, Some b => (16 * a + b) :: unquote_to_bytes rest
            | _, _ => 37 :: unquote_to_bytes rest0
            end
        | _ => 37 :: unquote_to_bytes rest0
        end
      else c :: unquote_to_bytes rest0
  end.

Section Urllib.
Context `{PyRuntime}.

(** [bs.decode('utf-8', 'replace')] *)
Definition utf8_decode (bs : list N) : str :=
  if forallb is_ascii bs then bs else utf8_decode_replace bs.

(** [s.encode('utf-8')], strict. *)
Fixpoint utf8_encode (s : str) : option (list N) :=
  match s with
  | [] => Some []
  | c :: s' =>
      match (if is_ascii c then Some [c] else utf8_encode_cp c), utf8_encode s' with
      | Some b, Some bs => Some (b ++ bs)
      | _, _ => None
      end
  end.

(** One ASCII run of [unquote], decoded. [run] is the run, reversed. *)
Definition flush_run (run : str) : str :=
  if run is [] then [] else utf8_decode (unquote_to_bytes (rev run)).

(** The loop of [unquote] over [_asciire.split(string)]: ASCII runs are
    percent-decoded and read as UTF-8, other code points pass through. *)
Fixpoint unquote_runs (run : str) (s : str) : str :=
  match s with
  | [] => flush_run run
  | c :: s' =>
      if is_ascii c then unquote_runs (c :: run) s'
      else flush_run run ++ c :: unquote_runs [] s'
  end.

Definition unquote (s : str) : str :=
  if has_char 37 s then unquote_runs [] s else s.

(** [parse_qsl(qs, keep_blank_values=True)] *)
Definition parse_field (name_value : str) : str * str :=
  let nv := match cut_first 61 name_value with
            | Some nv => nv
            | None => (name_value, [])
            end in
  (unquote (replace_char 43 32 (fst nv)), unquote (replace_char 43 32 (snd nv))).

Definition parse_qsl (qs : str) : list (str * str) :=
  List.map parse_field
    (List.filter (fun nv => if nv is [] then false else true) (split_on 38 qs)).

(** [quote_from_bytes(bs, safe)] where [safe] is empty or one space. *)
Definition quote_byte (space_safe : bool) (b : N) : str :=
  if is_always_safe b || (space_safe && (b =? 32)) then [b]
  else [37; hex_digit (b / 16); hex_digit (b mod 16)].

(** [quote_plus(s)]; [None] when the string cannot be encoded. *)
Definition quote_plus (s : str) : option str :=
  match utf8_encode s with
  | Some bs =>
      if has_char 32 s
      then Some (replace_char 32 43 (List.flat_map (quote_byte true) bs))
      else Some (List.flat_map (quote_byte false) bs)
  | None => None
  end.

(** [urlencode(query, doseq=True)] for a list of string pairs. *)
Fixpoint urlencode_fields (query : list (str * str)) : option (list str) :=
  match query with
  | [] => Some []
  | (k, v) :: rest =>
      match quote_plus k, quote_plus v, urlencode_fields rest with
      | Some k', Some v', Some l => Some ((k' ++ 61 :: v') :: l)
      | _, _, _ => None
      end
  end.

Definition urlencode (query : list (str * str)) : option str :=
  match urlencode_fields query with
  | Some l => Some (py_join [38] l)
  | None => None
  end.

End Urllib.

(** [_splitnetloc(url, 2)] when [url] starts with two slashes. *)
Definition split_netloc (url : str) : str * str :=
  match url with
  | 47 :: 47 :: rest => span_until is_netloc_delim rest
  | _ => ([], url)
  end.

Section UrlSplit.
Context `{PyRuntime}.

(** The scheme test of [urlsplit]: the text before the first [:] is a
    scheme when it is not empty, starts with an ASCII letter and consists
    of [scheme_chars]. *)
Definition split_scheme (url : str) : str * str :=
  match cut_first 58 url with
  | Some (c :: pre, post) =>
      if is_ascii c && is_ascii_alpha c && forallb is_scheme_char (c :: pre)
      then (py_lower (c :: pre), post)
      else ([], url)
  | _ => ([], url)
  end.

(** The checks of [urlsplit] on a netloc that raise [ValueError]. *)
Definition netloc_raises (netloc : str) : bool :=
  let lb := has_char 91 netloc in
  let rb := has_char 93 netloc in
  (lb && negb rb) || (rb && negb lb)
  || (lb && rb && bracketed_netloc_invalid netloc)
  || (match netloc with
      | [] => false
      | _ => negb (forallb is_ascii netloc) && netloc_nfkc_invalid netloc
      end).

(** [urlsplit(url)]; [None] stands for [ValueError]. *)
Definition urlsplit (url : str) : option SplitResult :=
  let url := remove_unsafe (lstrip_c0 url) in
  let '(scheme, url) := split_scheme url in
  let '(netloc, url) := split_netloc url in
  let '(url, fragment) :=
    match cut_first 35 url with Some p => p | None => (url, []) end in
  let '(url, query) :=
    match cut_first 63 url with Some p => p | None => (url, []) end in
  if netloc_raises netloc then None
  else Some {| sr_scheme := scheme; sr_netloc := netloc; sr_path := url;
               sr_query := query; sr_fragment := fragment |}.

End UrlSplit.

(** [urlunsplit((scheme, netloc, url, query, fragment))] *)
Definition urlunsplit (scheme netloc url query fragment : str) : str :=
  let url :=
    if (if netloc is [] then false else true)
       || ((if scheme is [] then false else true)
           && in_uses_netloc scheme
           && negb (py_startswith [47; 47] url))
    then [47; 47] ++ netloc ++
         (match url with
          | [] => []
          | c :: _ => if c =? 47 then url else 47 :: url
          end)
    else url in
  let url := if scheme is [] then url else scheme ++ 58 :: url in
  let url := if query is [] then url else url ++ 63 :: query in
  if fragment is [] then url else url ++ 35 :: fragment.

(** ** The dedupe key deriver *)

Section Dedupe.
Context `{PyRuntime}.

(** The tracking parameters [normalize_url] drops. *)
Definition is_tracking_param (k : str) : bool :=
  let lk := py_lower k in
  py_startswith (lit "utm_") lk
  || str_eqb lk (lit "fbclid") || str_eqb lk (lit "gclid").

(** The default-port rule of [normalize_url]. *)
Definition drop_default_port (scheme netloc : str) : str :=
  match cut_last 58 netloc with
  | Some (host, port) =>
      if (str_eqb scheme (lit "http") && str_eqb port (lit "80"))
         || (str_eqb scheme (lit "https") && str_eqb port (lit "443"))
      then host else netloc
  | None => netloc
  end.

(** The [try] block of [normalize_url]; [None] stands for a raised
    exception. *)
Definition normalize_url_try (raw : str) : option str :=
  match urlsplit raw with
  | None => None
  | Some parts =>
      let scheme :=
        match py_lower (sr_scheme parts) with [] => lit "http" | s => s end in
      let netloc := drop_default_port scheme (py_lower (sr_netloc parts)) in
      let path := rstrip_char 47 (sr_path parts) in
      let qs := parse_qsl (sr_query parts) in
      let filtered :=
        List.filter (fun kv => negb (is_tracking_param (fst kv))) qs in
      let filtered := sort_by pair_leb filtered in
      match urlencode filtered with
      | None => None
      | Some query => Some (urlunsplit scheme netloc path query [])
      end
  end.

Definition normalize_url (raw : str) : str :=
  let raw := py_strip raw in
  match raw with
  | [] => []
  | _ => match normalize_url_try raw with
         | Some url => url
         | None => raw
         end
  end.

End Dedupe.

(** One row returned by the matcher, as the dictionary Python sees.  The
    keys [source], [published_at] and [created_at] are read by
    [compute_dedupe_key] through [item.get]; the matcher's [SELECT] does not
    produce them, so they are absent ([None]) on every matched row. *)
Record item := {
  it_id : Z;
  it_title : option str;
  it_url : option str;
  it_summary : option str;
  it_category_guess : option str;
  it_ts : option datetime;
  it_source_name : option str;
  it_source : option str;
  it_published_at : option datetime;
  it_created_at : option datetime
}.

(** [a or b] on optional datetimes: a [datetime] is always truthy. *)
Definition dt_or (a b : option datetime) : option datetime :=
  match a with Some _ => a | None => b end.

Section DedupeKey.
Context `{PyRuntime}.

Definition compute_dedupe_key (it : item) : str * str :=
  let url := normalize_url (or_empty (it_url it)) in
  match url with
  | _ :: _ => (url, url)
  | [] =>
      let source :=
        py_lower (py_strip (or_empty (py_or (it_source_name it) (it_source it)))) in
      let title := normalize_title (or_empty (it_title it)) in
      let ts := dt_or (dt_or (it_ts it) (it_published_at it)) (it_created_at it) in
      let day := match ts with
                 | Some t => str_of_date (dt_date t)
                 | None => []
                 end in
      let parts :=
        List.filter (fun p => if p is [] then false else true) [source; title; day] in
      let key := match parts with
                 | [] => lit "unknown:" ++ str_of_Z (it_id it)
                 | _ => py_join (lit "|") parts
                 end in
      (key, [])
  end.

End DedupeKey.

(** A runtime that knows nothing beyond ASCII: every other code point is a
    caseless symbol that cannot be encoded, undecodable bytes become U+FFFD
    one by one, and no host is rejected.  It agrees with CPython on ASCII
    input, which is all the closed examples below need of it. *)
Definition ascii_runtime : PyRuntime := {|
  ucd_isalnum := fun _ => false;
  ucd_isspace := fun _ => false;
  ucd_lower := fun c => [c];
  utf8_encode_cp := fun _ => None;
  utf8_decode_replace := List.map (fun b => if is_ascii b then b else 65533);
  bracketed_netloc_invalid := fun _ => false;
  netloc_nfkc_invalid := fun _ => false
|}.


(** ** The article catalog and the matcher's SQL *)

(** SQL's three-valued logic: [None] is NULL. *)
Definition sql_or (a b : option bool) : option bool :=
  match a, b with
  | Some true, _ | _, Some true => Some true
  | Some false, Some false => Some false
  | _, _ => None
  end.

Definition sql_and (a b : option bool) : option bool :=
  match a, b with
  | Some false, _ | _, Some false => Some false
  | Some true, Some true => Some true
  | _, _ => None
  end.

(** A [WHERE] clause keeps the rows on which it is true. *)
Definition sql_true (a : option bool) : bool :=
  match a with Some true => true | _ => false end.

(** [pattern LIKE s]: [%] matches any run, [_] any one character, and a
    backslash makes the next pattern character literal.  A pattern that ends
    in a lone backslash is an error in PostgreSQL; the dispatcher's patterns
    end in [%], so that case (answered [false] here) is never reached. *)
Fixpoint like_match (p : str) : str -> bool :=
  match p with
  | [] => fun s => if s is [] then true else false
  | c :: p' =>
      if c =? 37 then
        fix star (s : str) : bool :=
          like_match p' s || match s with [] => false | _ :: s' => star s' end
      else if c =? 95 then
        fun s => match s with [] => false | _ :: s' => like_match p' s' end
      else if c =? 92 then
        match p' with
        | [] => fun _ => false
        | e :: p'' =>
            fun s => match s with
                     | [] => false
                     | x :: s' => (x =? e) && like_match p'' s'
                     end
        end
      else
        fun s => match s with
                 | [] => false
                 | x :: s' => (x =? c) && like_match p' s'
                 end
  end.

Record article := {
  a_id : Z;
  a_title : option str;
  a_url : option str;
  a_summary : option str;
  a_content_clean : option str;
  a_content : option str;
  a_translated_content : option str;
  a_category_guess : option str;
  a_category : option str;
  (** [a.source_id::text] *)
  a_source_id : option str;
  a_source : option str;
  a_source_name : option str;
  a_published_at : option Z;
  a_created_at : option Z
}.

(** A row of [public.sources]: [s.id::text] and [s.name]. *)
Record source_row := { s_id : str; s_name : option str }.

(** What the column introspection of [run_once] found. *)
Record schema := {
  has_published_at : bool;
  has_search_tsv : bool;
  has_category_guess : bool;
  has_category : bool;
  has_source_id : bool;
  has_source : bool;
  has_source_name : bool;
  has_summary : bool;
  has_content_clean : bool;
  has_content : bool;
  has_translated_content : bool;
  has_sources_table : bool
}.

(** The catalog as the dispatcher reads it.  The full-text operators of
    PostgreSQL ([search_tsv @@ websearch_to_tsquery('english', q)] and
    [ts_rank_cd]) belong to the database: they are carried here as the
    catalog's match predicate and rank score. *)
Record catalog := {
  cat_schema : schema;
  cat_articles : list article;
  cat_sources : list source_row;
  cat_fts_match : article -> str -> option bool;
  cat_fts_rank : article -> str -> Z;
  (** UTC offset of the session, in seconds *)
  cat_utcoffset : Z
}.

(** The text columns an SQL fragment of [pick_search_sql] can name. *)
Inductive column :=
  | ColSummary | ColContentClean | ColContent | ColTranslatedContent
  | ColCategoryGuess | ColCategory
  | ColSourceName | ColSource | ColSourceId | ColSourcesName.

Inductive where_q :=
  | WhereTsv
  | WhereIlike (cols : list column)
  | WhereTrue.

Inductive order_by := OrderRankThenTs | OrderTs.

(** [COALESCE(a.published_at, a.created_at)] or [a.created_at]. *)
Inductive ts_expr := TsCoalescePublished | TsCreatedAt.

Definition pick_article_ts_expr (has_published_at : bool) : ts_expr :=
  if has_published_at then TsCoalescePublished else TsCreatedAt.

(** The choices [pick_search_sql] splices into its query text. *)
Record search_sql := {
  sq_ts_expr : ts_expr;
  sq_where_q : where_q;
  sq_order : order_by;
  sq_category_expr : option column;
  sq_source_filters : list column;
  sq_join_sources : bool;
  sq_summary_expr : option column;
  sq_category_select_expr : option column
}.

Definition opt_col (flag : bool) (c : column) : list column :=
  if flag then [c] else [].

Definition pick_search_sql (ts : ts_expr) (sc : schema) : search_sql :=
  let search_cols :=
    opt_col (has_summary sc) ColSummary
    ++ opt_col (has_content_clean sc) ColContentClean
    ++ opt_col (has_content sc) ColContent
    ++ opt_col (has_translated_content sc) ColTranslatedContent in
  let '(where_q, order) :=
    if has_search_tsv sc then (WhereTsv, OrderRankThenTs)
    else match search_cols with
         | _ :: _ => (WhereIlike search_cols, OrderTs)
         | [] => (WhereTrue, OrderTs)
         end in
  let category_expr :=
    if has_category_guess sc then Some ColCategoryGuess
    else if has_category sc then Some ColCategory
    else None in
  let source_filters :=
    opt_col (has_source_name sc) ColSourceName
    ++ opt_col (has_source sc) ColSource
    ++ opt_col (has_source_id sc) ColSourceId
    ++ opt_col (has_sources_table sc && has_source_id sc) ColSourcesName in
  {| sq_ts_expr := ts;
     sq_where_q := where_q;
     sq_order := order;
     sq_category_expr := category_expr;
     sq_source_filters := source_filters;
     sq_join_sources := has_sources_table sc && has_source_id sc;
     sq_summary_expr := if has_summary sc then Some ColSummary else None;
     sq_category_select_expr := category_expr |}.

(** The parameters [run_once] binds into the search query. *)
Record search_params := {
  p_q : str;
  p_q_like : str;
  p_q_present : bool;
  p_days : Z;
  p_category : option str;
  p_source : option str;
  p_source_like : option str;
  p_limit : Z;
  p_start_ts : option Z
}.

(** An article row after the [LEFT JOIN] with [public.sources]. *)
Definition joined_row : Type := article * option source_row.

Definition col_value (r : joined_row) (c : column) : option str :=
  let a := fst r in
  match c with
  | ColSummary => a_summary a
  | ColContentClean => a_content_clean a
  | ColContent => a_content a
  | ColTranslatedContent => a_translated_content a
  | ColCategoryGuess => a_category_guess a
  | ColCategory => a_category a
  | ColSourceName => a_source_name a
  | ColSource => a_source a
  | ColSourceId => a_source_id a
  | ColSourcesName => match snd r with Some s => s_name s | None => None end
  end.

Definition eval_ts (e : ts_expr) (a : article) : option Z :=
  match e with
  | TsCoalescePublished =>
      match a_published_at a with Some t => Some t | None => a_created_at a end
  | TsCreatedAt => a_created_at a
  end.

(** [LEFT JOIN public.sources s ON s.id::text = a.source_id::text] *)
Definition left_join_sources (sources : list source_row) (a : article)
  : list joined_row :=
  match a_source_id a with
  | None => [(a, None)]
  | Some sid =>
      match List.filter (fun s => str_eqb (s_id s) sid) sources with
      | [] => [(a, None)]
      | ss => List.map (fun s => (a, Some s)) ss
      end
  end.

Section Matcher.
Context `{PyRuntime}.

(** [x ILIKE pat] *)
Definition sql_ilike (x pat : option str) : option bool :=
  match x, pat with
  | Some s, Some p => Some (like_match (py_lower p) (py_lower s))
  | _, _ => None
  end.

(** [x = y] on text. *)
Definition sql_text_eq (x y : option str) : option bool :=
  match x, y with
  | Some a, Some b => Some (str_eqb a b)
  | _, _ => None
  end.

(** [e1 OR e2 OR ...] *)
Definition sql_any (l : list (option bool)) : option bool :=
  fold_right sql_or (Some false) l.

Definition eval_where_q (cat : catalog) (w : where_q) (p : search_params)
    (r : joined_row) : option bool :=
  match w with
  | WhereTsv => cat_fts_match cat (fst r) (p_q p)
  | WhereIlike cols =>
      sql_any (List.map (fun c => sql_ilike (col_value r c) (Some (p_q_like p))) cols)
  | WhereTrue => Some true
  end.

(** The [WHERE] clause of the search query, at database time [now]. *)
Definition search_where (cat : catalog) (sq : search_sql) (p : search_params)
    (now : Z) (r : joined_row) : option bool :=
  let since :=
    match p_start_ts p with
    | Some t => t
    | None => (now - p_days p * usec_per_day)%Z
    end in
  let in_window :=
    match eval_ts (sq_ts_expr sq) (fst r) with
    | Some t => Some (since <=? t)%Z
    | None => None
    end in
  let query_ok :=
    sql_or (Some (negb (p_q_present p))) (eval_where_q cat (sq_where_q sq) p r) in
  let category_ok :=
    match sq_category_expr sq with
    | Some c =>
        sql_or (Some (if p_category p is None then true else false))
               (sql_text_eq (col_value r c) (p_category p))
    | None => Some true
    end in
  let source_ok :=
    sql_or (Some (if p_source p is None then true else false))
           (match sq_source_filters sq with
            | [] => Some true
            | cols =>
                sql_any (List.map (fun c => sql_ilike (col_value r c) (p_source_like p)) cols)
            end) in
  sql_and in_window (sql_and query_ok (sql_and category_ok source_ok)).

(** The sort keys of a selected row: rank score and as-of timestamp. *)
Definition row_rank (cat : catalog) (p : search_params) (r : joined_row) : Z :=
  cat_fts_rank cat (fst r) (p_q p).

Definition row_ts (sq : search_sql) (r : joined_row) : Z :=
  default 0%Z (eval_ts (sq_ts_expr sq) (fst r)).

(** [x] may precede [y] under the query's [ORDER BY]. *)
Definition order_leb (cat : catalog) (sq : search_sql) (p : search_params)
    (x y : joined_row) : bool :=
  match sq_order sq with
  | OrderTs => (row_ts sq y <=? row_ts sq x)%Z
  | OrderRankThenTs =>
      (row_rank cat p y <? row_rank cat p x)%Z
      || ((row_rank cat p y =? row_rank cat p x)%Z
          && (row_ts sq y <=? row_ts sq x)%Z)
  end.

(** The [SELECT] list. *)
Definition project_row (cat : catalog) (sq : search_sql) (r : joined_row) : item :=
  let a := fst r in
  {| it_id := a_id a;
     it_title := a_title a;
     it_url := a_url a;
     it_summary := match sq_summary_expr sq with
                   | Some c => col_value r c | None => None end;
     it_category_guess := match sq_category_select_expr sq with
                          | Some c => col_value r c | None => None end;
     it_ts := match eval_ts (sq_ts_expr sq) a with
              | Some t => Some {| dt_instant := t; dt_utcoffset := cat_utcoffset cat |}
              | None => None
              end;
     it_source_name := if sq_join_sources sq
                       then col_value r ColSourcesName else None;
     it_source := None;
     it_published_at := None;
     it_created_at := None |}.

(** Running the search query: join, filter, order, limit, project. *)
Definition run_search (cat : catalog) (sq : search_sql) (p : search_params)
    (now : Z) : list item :=
  let rows :=
    List.flat_map
      (fun a => if sq_join_sources sq
                then left_join_sources (cat_sources cat) a
                else [(a, None)])
      (cat_articles cat) in
  let hits := List.filter (fun r => sql_true (search_where cat sq p now r)) rows in
  let sorted := sort_by (order_leb cat sq p) hits in
  List.map (project_row cat sq) (firstn (Z.to_nat (p_limit p)) sorted).

End Matcher.

(** ** Saved searches, preferences and deliveries *)

Local Open Scope Z_scope.

(** One row of the active-alerts query: an alert joined with its saved
    search ([query] is never NULL, [category] and [source] are NULL when
    empty). *)
Record alert := {
  al_alert_id : Z;
  al_user_id : str;
  al_channel : str;
  al_target : str;
  al_name : option str;
  al_query : str;
  al_days : Z;
  al_category : option str;
  al_source : option str
}.

Record prefs := {
  dedupe_window_sec : Z;
  immediate_priorities : list str;
  digest_priorities : list str;
  priority_categories : list str;
  channels_enabled : list str
}.

(** A row of [public.user_alert_prefs]; every column may be NULL. *)
Record prefs_row := {
  pr_dedupe_window_sec : option Z;
  pr_immediate_priorities : option (list str);
  pr_digest_priorities : option (list str);
  pr_priority_categories : option (list str);
  pr_channels_enabled : option (list str)
}.

(** [x or d] for an optional list: an empty list is falsy. *)
Definition list_or {A} (x : option (list A)) (d : list A) : list A :=
  match x with Some (a :: l) => a :: l | _ => d end.

Definition get_user_prefs (row : option prefs_row) (env_p1_categories : list str)
  : prefs :=
  match row with
  | Some r =>
      {| dedupe_window_sec :=
           match pr_dedupe_window_sec r with
           | Some w => if w =? 0 then 21600 else w
           | None => 21600
           end;
         immediate_priorities := list_or (pr_immediate_priorities r) [lit "P0"];
         digest_priorities := list_or (pr_digest_priorities r) [lit "P1"; lit "P2"];
         priority_categories := list_or (pr_priority_categories r) env_p1_categories;
         channels_enabled := list_or (pr_channels_enabled r) [lit "email"] |}
  | None =>
      {| dedupe_window_sec := 21600;
         immediate_priorities := [lit "P0"];
         digest_priorities := [lit "P1"; lit "P2"];
         priority_categories := env_p1_categories;
         channels_enabled := [lit "email"] |}
  end.

(** The environment settings read at the top of [run_once]. *)
Record config := {
  max_per_user : Z;
  max_attempts : Z;
  retry_base_sec : Z;
  retry_max_sec : Z;
  cursor_overlap_sec : Z;
  max_items_per_email : Z;
  backlog_warn_count : Z;
  backlog_warn_age_sec : Z;
  p1_categories : list str
}.

(** The defaults of those settings. *)
Definition default_config : config := {|
  max_per_user := 25;
  max_attempts := 5;
  retry_base_sec := 60;
  retry_max_sec := 3600;
  cursor_overlap_sec := 86400;
  max_items_per_email := 50;
  backlog_warn_count := 200;
  backlog_warn_age_sec := 3600;
  p1_categories := []
|}.

Inductive status := PENDING | SENT | FAILED.

Definition status_eqb (a b : status) : bool :=
  match a, b with
  | PENDING, PENDING | SENT, SENT | FAILED, FAILED => true
  | _, _ => false
  end.

(** A row of [public.alert_deliveries]. *)
Record delivery := {
  d_id : Z;
  d_alert_id : Z;
  d_user_id : str;
  d_article_id : Z;
  d_channel : str;
  d_status : status;
  d_error : option str;
  d_attempt_count : Z;
  d_last_attempt_at : option Z;
  d_next_attempt_at : option Z;
  d_queued_at : Z;
  d_queued_at_is_estimated : bool;
  d_delivered_at : option Z;
  d_dedupe_key : option str;
  d_dedupe_group : option str;
  d_normalized_url : option str;
  d_priority : option str;
  d_created_at : Z
}.

(** The uniqueness key of a delivery: (alert, article, channel). *)
Definition dkey : Type := Z * Z * str.

Definition key_of (d : delivery) : dkey :=
  (d_alert_id d, d_article_id d, d_channel d).

Definition dkey_eqb (a b : dkey) : bool := bool_decide (a = b).

Definition has_key (k : dkey) (d : delivery) : bool := dkey_eqb (key_of d) k.

(** The row with key [k], if any. *)
Definition find_delivery (tbl : list delivery) (k : dkey) : option delivery :=
  List.find (has_key k) tbl.

(** [UPDATE public.alert_deliveries SET ... WHERE alert_id=.. AND
    article_id=.. AND channel=..] *)
Definition update_where (k : dkey) (f : delivery -> delivery)
    (tbl : list delivery) : list delivery :=
  List.map (fun d => if has_key k d then f d else d) tbl.

(** What the due query selects of a delivery, with the alert's target. *)
Record due_row := {
  dr_alert_id : Z;
  dr_user_id : str;
  dr_article_id : Z;
  dr_channel : str;
  dr_attempt_count : Z;
  dr_target : str;
  dr_dedupe_key : option str;
  dr_priority : option str
}.

Definition dr_key (d : due_row) : dkey :=
  (dr_alert_id d, dr_article_id d, dr_channel d).

Definition compute_backoff_seconds (attempt_count base max_sec : Z) : Z :=
  Z.min max_sec (base * 2 ^ Z.max (attempt_count - 1) 0).

(** ** Operator escalation *)

(** The outcome of one provider call: success, a failure with its
    diagnostic, or a raised exception with its type name and message. *)
Inductive send_result :=
  | SendOk
  | SendFail (err : str)
  | SendRaise (exc_type msg : str).

Inductive admin_channel := AdminTelegram | AdminEmail.

(** What the dispatcher does to the outside world, in order. *)
Inductive event :=
  | EvCooldownWrite (key : str) (at_sec : Z)
  | EvAdminSend (ch : admin_channel) (key : str) (ok : bool)
  | EvUserSend (channel target : str) (batch : list dkey) (ok : bool).

(** The operator settings of the environment, and the providers' answers to
    operator messages (by channel, cooldown key and wall-clock second). *)
Record admin_env := {
  env_telegram_token : str;
  env_telegram_chat_id : str;
  env_admin_emails : str;
  giveup_cooldown_sec : Z;
  backlog_cooldown_sec : Z;
  admin_provider : admin_channel -> str -> Z -> send_result
}.

(** The state file [alerts_admin_notify.json] as [json.loads] reads it.
    [nf_data] holds the entries of the object, each with the integer that
    [int] makes of its value; it is [None] when the file is missing or is
    not JSON, which the code reads as [{}].  [nf_unreadable] tells the keys
    at which [int(data.get(key, 0))] raises: every key when the file holds
    JSON that is not an object, the keys whose value [int] rejects
    otherwise, and no key when the file is missing or is not JSON.
    [nf_writable] tells whether the file can be written. *)
Record notify_file := {
  nf_data : option (gmap str Z);
  nf_unreadable : str -> bool;
  nf_writable : bool
}.

(** The text after the first occurrence of [pat] in [s]. *)
Fixpoint after_sub (pat s : str) : option str :=
  if py_startswith pat s then Some (skipn (length pat) s)
  else match s with
       | [] => None
       | _ :: s' => after_sub pat s'
       end.

Section Admin.
Context `{PyRuntime}.

Definition nonblank (s : str) : bool :=
  if py_strip s is [] then false else true.

Definition admin_notify_enabled (e : admin_env) : bool :=
  (nonblank (env_telegram_token e) && nonblank (env_telegram_chat_id e))
  || nonblank (env_admin_emails e).

(** [admin_should_notify_with_cooldown]; [None] is an exception: of the
    lookup [int(data.get(key, 0))], which stands outside the [try], or of a
    state file that cannot be written. *)
Definition admin_should_notify_with_cooldown (key : str) (cooldown : Z)
    (now : Z) (fs : notify_file) : option (bool * notify_file) :=
  let data := default ∅ (nf_data fs) in
  if nf_unreadable fs key then None
  else
    let last := default 0 (data !! key) in
    if now - last <? cooldown then Some (false, fs)
    else if nf_writable fs
         then Some (true, {| nf_data := Some (<[key := now]> data);
                             nf_unreadable := nf_unreadable fs;
                             nf_writable := true |})
         else None.

Definition send_admin_telegram (e : admin_env) (key : str) (now : Z) : send_result :=
  if nonblank (env_telegram_token e) && nonblank (env_telegram_chat_id e)
  then admin_provider e AdminTelegram key now
  else SendFail (lit "not_configured").

Definition send_admin_email (e : admin_env) (key : str) (now : Z) : send_result :=
  if nonblank (env_admin_emails e)
  then admin_provider e AdminEmail key now
  else SendFail (lit "not_configured").

Definition is_ok (r : send_result) : bool :=
  match r with SendOk => true | _ => false end.

(** The two independent operator sends that end both escalations. *)
Definition admin_sends (e : admin_env) (key : str) (now : Z) : list event :=
  [EvAdminSend AdminTelegram key (is_ok (send_admin_telegram e key now));
   EvAdminSend AdminEmail key (is_ok (send_admin_email e key now))].

Definition classify_giveup_error (error : str) : str :=
  match error with
  | [] => lit "unknown"
  | _ =>
      match after_sub (lit "send_exception=") error with
      | Some tail =>
          py_strip (match fst (span_until (N.eqb 58) tail) with
                    | [] => lit "exception" | c => c end)
      | None =>
          py_strip (match fst (span_until (N.eqb 58) error) with
                    | [] => lit "error" | c => c end)
      end
  end.

Definition giveup_cooldown_key (channel error : str) : str :=
  lit "giveup:"
  ++ py_strip (match channel with [] => lit "unknown" | c => c end)
  ++ lit ":" ++ classify_giveup_error error.

(** An escalation either returns, with the state file and the events it
    produced, or raises ([None]). *)
Definition escalate (e : admin_env) (key : str) (cooldown now : Z)
    (fs : notify_file) : option (notify_file * list event) :=
  if admin_notify_enabled e then
    match admin_should_notify_with_cooldown key cooldown now fs with
    | None => None
    | Some (false, fs') => Some (fs', [])
    | Some (true, fs') =>
        Some (fs', EvCooldownWrite key now :: admin_sends e key now)
    end
  else Some (fs, []).

Definition notify_admin_giveup (e : admin_env) (now : Z) (fs : notify_file)
    (channel error : str) : option (notify_file * list event) :=
  escalate e (giveup_cooldown_key channel error) (giveup_cooldown_sec e) now fs.

Definition notify_admin_backlog (e : admin_env) (now : Z) (fs : notify_file)
  : option (notify_file * list event) :=
  escalate e (lit "backlog:global") (backlog_cooldown_sec e) now fs.

(** [log_delivery_giveup]: the escalation's exception is swallowed. *)
Definition log_delivery_giveup (e : admin_env) (now : Z) (fs : notify_file)
    (channel error : str) : notify_file * list event :=
  match notify_admin_giveup e now fs channel error with
  | Some r => r
  | None => (fs, [])
  end.

End Admin.

(** ** The durable state and the delivery updates *)

Record world := {
  w_deliveries : list delivery;
  (** [alert_delivery_cursors]: alert id to [last_ts] *)
  w_cursors : gmap Z Z;
  w_notify : notify_file;
  (** everything sent or written outside the database, oldest first *)
  w_trace : list event;
  (** the next value of the delivery id sequence *)
  w_next_id : Z
}.

Definition set_deliveries (tbl : list delivery) (w : world) : world :=
  {| w_deliveries := tbl; w_cursors := w_cursors w; w_notify := w_notify w;
     w_trace := w_trace w; w_next_id := w_next_id w |}.

(** The database clock [now()] in microseconds and the process clock
    [time.time()] in seconds, as read by one statement. *)
Record clock := { db_now : Z; wall_now : Z }.

Definition failed_row (error : str) (backoff now : Z) (d : delivery) : delivery :=
  {| d_id := d_id d; d_alert_id := d_alert_id d; d_user_id := d_user_id d;
     d_article_id := d_article_id d; d_channel := d_channel d;
     d_status := FAILED;
     d_error := Some (py_prefix 500 error);
     d_attempt_count := d_attempt_count d + 1;
     d_last_attempt_at := Some now;
     d_next_attempt_at := Some (now + backoff * usec_per_sec);
     d_queued_at := d_queued_at d;
     d_queued_at_is_estimated := d_queued_at_is_estimated d;
     d_delivered_at := d_delivered_at d;
     d_dedupe_key := d_dedupe_key d; d_dedupe_group := d_dedupe_group d;
     d_normalized_url := d_normalized_url d; d_priority := d_priority d;
     d_created_at := d_created_at d |}.

Definition sent_row (now : Z) (d : delivery) : delivery :=
  {| d_id := d_id d; d_alert_id := d_alert_id d; d_user_id := d_user_id d;
     d_article_id := d_article_id d; d_channel := d_channel d;
     d_status := SENT;
     d_error := None;
     d_attempt_count := d_attempt_count d + 1;
     d_last_attempt_at := Some now;
     d_next_attempt_at := Some now;
     d_queued_at := d_queued_at d;
     d_queued_at_is_estimated := d_queued_at_is_estimated d;
     d_delivered_at := Some now;
     d_dedupe_key := d_dedupe_key d; d_dedupe_group := d_dedupe_group d;
     d_normalized_url := d_normalized_url d; d_priority := d_priority d;
     d_created_at := d_created_at d |}.

Section Marks.
Context `{PyRuntime}.

Definition mark_delivery_failed (cfg : config) (e : admin_env) (clk : clock)
    (d : due_row) (error : str) (w : world) : world :=
  let new_attempt := dr_attempt_count d + 1 in
  let backoff :=
    compute_backoff_seconds new_attempt (retry_base_sec cfg) (retry_max_sec cfg) in
  let tbl := update_where (dr_key d) (failed_row error backoff (db_now clk))
               (w_deliveries w) in
  if max_attempts cfg <=? new_attempt then
    let '(fs, evs) :=
      log_delivery_giveup e (wall_now clk) (w_notify w) (dr_channel d) error in
    {| w_deliveries := tbl; w_cursors := w_cursors w; w_notify := fs;
       w_trace := w_trace w ++ evs; w_next_id := w_next_id w |}
  else set_deliveries tbl w.

Definition mark_delivery_sent (clk : clock) (d : due_row) (w : world) : world :=
  set_deliveries (update_where (dr_key d) (sent_row (db_now clk)) (w_deliveries w)) w.

End Marks.

(** ** Priority, claiming and the cursor *)

Section Claim.
Context `{PyRuntime}.

Definition priority_for_search (al : alert) (p1 : list str) : str :=
  match py_strip (al_query al) with
  | _ :: _ => lit "P0"
  | [] =>
      let category := py_lower (py_strip (or_empty (al_category al))) in
      match category with
      | _ :: _ => if existsb (str_eqb category) p1 then lit "P1" else lit "P2"
      | [] => lit "P2"
      end
  end.

(** The first loop over the matches: the newest as-of timestamp seen and
    the dedupe rows. *)
Definition newer (item_ts : option datetime) (max_ts : option datetime)
  : option datetime :=
  match item_ts with
  | Some t =>
      match max_ts with
      | None => Some t
      | Some m => if dt_instant m <? dt_instant t then Some t else Some m
      end
  | None => max_ts
  end.

Fixpoint scan_matches (max_ts : option datetime) (matches : list item)
  : option datetime * list (item * str * str) :=
  match matches with
  | [] => (max_ts, [])
  | it :: rest =>
      let max_ts := newer (it_ts it) max_ts in
      let '(dedupe_key, normalized_url) := compute_dedupe_key it in
      let '(m, rows) := scan_matches max_ts rest in
      (m, (it, dedupe_key, normalized_url) :: rows)
  end.

(** The recent-duplicate query: dedupe keys of this owner's deliveries on
    this channel created within the dedupe window. *)
Definition recent_keys (tbl : list delivery) (al : alert) (p : prefs)
    (now : Z) (keys : list str) : list str :=
  List.flat_map
    (fun d =>
       match d_dedupe_key d with
       | Some k =>
           if str_eqb (d_user_id d) (al_user_id al)
              && str_eqb (d_channel d) (al_channel al)
              && existsb (str_eqb k) keys
              && (now - dedupe_window_sec p * usec_per_sec <=? d_created_at d)
              && existsb (status_eqb (d_status d)) [PENDING; FAILED; SENT]
           then [k] else []
       | None => []
       end)
    tbl.

(** The row the claim inserts. *)
Definition new_delivery (id now : Z) (al : alert) (article_id : Z)
    (dedupe_key normalized_url priority : str) : delivery :=
  {| d_id := id; d_alert_id := al_alert_id al; d_user_id := al_user_id al;
     d_article_id := article_id; d_channel := al_channel al;
     d_status := PENDING; d_error := None; d_attempt_count := 0;
     d_last_attempt_at := None; d_next_attempt_at := Some now;
     d_queued_at := now; d_queued_at_is_estimated := false;
     d_delivered_at := None;
     d_dedupe_key := Some dedupe_key; d_dedupe_group := Some dedupe_key;
     d_normalized_url := match normalized_url with [] => None | u => Some u end;
     d_priority := Some priority; d_created_at := now |}.

(** [INSERT ... ON CONFLICT (alert_id, article_id, channel) DO NOTHING
    RETURNING id]: the table, the sequence and the returned id. *)
Definition insert_delivery (tbl : list delivery) (next_id : Z) (new : delivery)
  : list delivery * Z * option Z :=
  if existsb (has_key (key_of new)) tbl
  then (tbl, next_id + 1, None)
  else (tbl ++ [new], next_id + 1, Some (d_id new)).

(** The run's counters that claiming feeds. *)
Record counters := { queued : Z; skipped : Z; sent : Z; failed : Z }.

(** The claim proper: the guarded [INSERT] and its counting. *)
Definition claim_insert (al : alert) (now : Z) (priority : str)
    (row : item * str * str) (st : world * counters) : world * counters :=
  let '(it, dedupe_key, normalized_url) := row in
  let '(w, c) := st in
  let new := new_delivery (w_next_id w) now al (it_id it) dedupe_key
               normalized_url priority in
  let '(tbl, next_id, claimed) :=
    insert_delivery (w_deliveries w) (w_next_id w) new in
  let w' := {| w_deliveries := tbl; w_cursors := w_cursors w;
               w_notify := w_notify w; w_trace := w_trace w;
               w_next_id := next_id |} in
  match claimed with
  | None => (w', {| queued := queued c; skipped := skipped c + 1;
                    sent := sent c; failed := failed c |})
  | Some _ => (w', {| queued := queued c + 1; skipped := skipped c;
                      sent := sent c; failed := failed c |})
  end.

(** One turn of the claim loop: recent duplicates and disabled channels
    are passed over before anything is claimed. *)
Definition claim_one (al : alert) (p : prefs) (now : Z) (recent : list str)
    (priority : str) (row : item * str * str) (st : world * counters)
  : world * counters :=
  if existsb (str_eqb (snd (fst row))) recent then st
  else if negb (existsb (str_eqb (al_channel al)) (channels_enabled p)) then st
  else claim_insert al now priority row st.

Definition claim_all (al : alert) (p : prefs) (now : Z)
    (rows : list (item * str * str)) (st : world * counters)
  : world * counters :=
  let recent :=
    match rows with
    | [] => []
    | _ => recent_keys (w_deliveries (fst st)) al p now
             (List.map (fun r => snd (fst r)) rows)
    end in
  fold_left
    (fun st row =>
       claim_one al p now recent (priority_for_search al (priority_categories p))
         row st)
    rows st.

(** The cursor upsert: [last_ts = GREATEST(last_ts, EXCLUDED.last_ts)]. *)
Definition advance_cursor (alert_id : Z) (max_ts : option datetime)
    (cursors : gmap Z Z) : gmap Z Z :=
  match max_ts with
  | Some t =>
      match cursors !! alert_id with
      | Some last => <[alert_id := Z.max last (dt_instant t)]> cursors
      | None => <[alert_id := dt_instant t]> cursors
      end
  | None => cursors
  end.

End Claim.

(** ** The dispatcher *)

(** Dispatch eligibility: the status, time and attempt conditions of the
    due query. *)
Definition is_due (max_att now : Z) (d : delivery) : bool :=
  existsb (status_eqb (d_status d)) [PENDING; FAILED]
  && match d_next_attempt_at d with
     | Some t => t <=? now
     | None => false
     end
  && (d_attempt_count d <? max_att).

Definition to_due_row (al : alert) (d : delivery) : due_row :=
  {| dr_alert_id := d_alert_id d; dr_user_id := d_user_id d;
     dr_article_id := d_article_id d; dr_channel := d_channel d;
     dr_attempt_count := d_attempt_count d; dr_target := al_target al;
     dr_dedupe_key := d_dedupe_key d; dr_priority := d_priority d |}.

(** The due query of one alert: eligible rows of this alert and channel,
    soonest [next_attempt_at] first, at most [max_per_user] of them. *)
Definition due_query (cfg : config) (now : Z) (al : alert) (tbl : list delivery)
  : list due_row :=
  let rows :=
    List.filter
      (fun d => (d_alert_id d =? al_alert_id al)
                && str_eqb (d_channel d) (al_channel al)
                && is_due (max_attempts cfg) now d)
      tbl in
  let sorted :=
    sort_by (fun x y => default 0 (d_next_attempt_at x)
                        <=? default 0 (d_next_attempt_at y)) rows in
  List.map (to_due_row al) (firstn (Z.to_nat (max_per_user cfg)) sorted).

(** The run-wide per-owner cap. *)
Fixpoint filter_due (cfg : config) (per_user : gmap str Z) (due : list due_row)
  : gmap str Z * list due_row :=
  match due with
  | [] => (per_user, [])
  | d :: rest =>
      let n := default 0 (per_user !! dr_user_id d) in
      let per_user := <[dr_user_id d := n]> per_user in
      if max_per_user cfg <=? n then filter_due cfg per_user rest
      else
        let '(pu, l) := filter_due cfg (<[dr_user_id d := n + 1]> per_user) rest in
        (pu, d :: l)
  end.

(** A delivery is routed when its priority is in the owner's immediate or
    digest set. *)
Definition routed (p : prefs) (d : due_row) : bool :=
  match dr_priority d with
  | Some pr =>
      existsb (str_eqb pr) (immediate_priorities p)
      || existsb (str_eqb pr) (digest_priorities p)
  | None => false
  end.

(** [l[i : i + n]] for [i] in [range(0, len(l), n)], with [n >= 1]. *)
Fixpoint chunks_fuel {A} (fuel n : nat) (l : list A) : list (list A) :=
  match fuel, l with
  | S f, _ :: _ => firstn n l :: chunks_fuel f n (skipn n l)
  | _, _ => []
  end.

Definition chunks {A} (n : nat) (l : list A) : list (list A) :=
  chunks_fuel (length l) n l.

(** The user-facing providers' answers, by statement clock, channel,
    target and the deliveries covered. *)
Definition user_provider : Type :=
  clock -> str -> str -> list dkey -> send_result.

(** [(ok, err)] as the dispatcher derives it from a provider call. *)
Definition outcome (r : send_result) : bool * str :=
  match r with
  | SendOk => (true, [])
  | SendFail err => (false, err)
  | SendRaise ty msg => (false, lit "send_exception=" ++ ty ++ lit ":" ++ msg)
  end.

Definition bump_sent (c : counters) : counters :=
  {| queued := queued c; skipped := skipped c; sent := sent c + 1; failed := failed c |}.

Definition bump_failed (c : counters) : counters :=
  {| queued := queued c; skipped := skipped c; sent := sent c; failed := failed c + 1 |}.

Definition log_event (ev : event) (w : world) : world :=
  {| w_deliveries := w_deliveries w; w_cursors := w_cursors w;
     w_notify := w_notify w; w_trace := w_trace w ++ [ev];
     w_next_id := w_next_id w |}.

Section Dispatch.
Context `{PyRuntime}.

(** The lookup loop shared by both channels: unrouted deliveries are
    dropped, a missing article fails the delivery, the rest go on. *)
Fixpoint with_items (cfg : config) (e : admin_env) (clk : clock) (cat : catalog)
    (p : prefs) (due : list due_row) (st : world * counters)
  : list due_row * (world * counters) :=
  match due with
  | [] => ([], st)
  | d :: rest =>
      if negb (routed p d) then with_items cfg e clk cat p rest st
      else if existsb (fun a => a_id a =? dr_article_id d) (cat_articles cat)
      then let '(l, st') := with_items cfg e clk cat p rest st in (d :: l, st')
      else
        with_items cfg e clk cat p rest
          (mark_delivery_failed cfg e clk d (lit "missing_article") (fst st),
           bump_failed (snd st))
  end.

(** One e-mail batch: one send, then one outcome for every delivery. *)
Definition process_batch (cfg : config) (e : admin_env) (send : user_provider)
    (clk : clock) (batch : list due_row) (st : world * counters)
  : world * counters :=
  match batch with
  | [] => st
  | first :: _ =>
      let keys := List.map dr_key batch in
      let '(ok, err) := outcome (send clk (lit "email") (dr_target first) keys) in
      let st := (log_event (EvUserSend (lit "email") (dr_target first) keys ok)
                   (fst st), snd st) in
      if ok then
        fold_left
          (fun st d => (mark_delivery_sent clk d (fst st), bump_sent (snd st)))
          batch st
      else
        fold_left
          (fun st d => (mark_delivery_failed cfg e clk d err (fst st),
                        bump_failed (snd st)))
          batch st
  end.

(** The single-shot channels: one send per delivery. *)
Definition process_single (cfg : config) (e : admin_env) (send : user_provider)
    (clk : clock) (d : due_row) (st : world * counters) : world * counters :=
  let '(ok, err) :=
    if str_eqb (dr_channel d) (lit "telegram")
    then outcome (send clk (dr_channel d) (dr_target d) [dr_key d])
    else (false, lit "unsupported_channel=" ++ dr_channel d) in
  let st :=
    if str_eqb (dr_channel d) (lit "telegram")
    then (log_event (EvUserSend (dr_channel d) (dr_target d) [dr_key d] ok)
            (fst st), snd st)
    else st in
  if ok then (mark_delivery_sent clk d (fst st), bump_sent (snd st))
  else (mark_delivery_failed cfg e clk d err (fst st), bump_failed (snd st)).

End Dispatch.

Section Run.
Context `{PyRuntime}.

(** The single-shot branch of the dispatcher.  The subject line is built
    from [item.get('title','').strip()] before the [try]: [None] is the
    [AttributeError] of an article whose title is NULL. *)
Fixpoint dispatch_single (cfg : config) (e : admin_env) (send : user_provider)
    (clk : clock) (cat : catalog) (p : prefs) (due : list due_row)
    (st : world * counters) : option (world * counters) :=
  match due with
  | [] => Some st
  | d :: rest =>
      if negb (routed p d) then dispatch_single cfg e send clk cat p rest st
      else
        match List.find (fun a => a_id a =? dr_article_id d) (cat_articles cat) with
        | None =>
            dispatch_single cfg e send clk cat p rest
              (mark_delivery_failed cfg e clk d (lit "missing_article") (fst st),
               bump_failed (snd st))
        | Some a =>
            match a_title a with
            | None => None
            | Some _ =>
                dispatch_single cfg e send clk cat p rest
                  (process_single cfg e send clk d st)
            end
        end
  end.

(** The e-mail branch; [None] is the [ValueError] of a zero batch size. *)
Definition dispatch_email (cfg : config) (e : admin_env) (send : user_provider)
    (clk : clock) (cat : catalog) (p : prefs) (due : list due_row)
    (st : world * counters) : option (world * counters) :=
  let '(ready, st) := with_items cfg e clk cat p due st in
  if max_items_per_email cfg =? 0 then None
  else if max_items_per_email cfg <? 0 then Some st
  else
    Some (fold_left (fun st batch => process_batch cfg e send clk batch st)
            (chunks (Z.to_nat (max_items_per_email cfg)) ready) st).

(** The parameters of the search query for one alert. *)
Definition search_params_of (cfg : config) (al : alert) (cursor : option Z)
  : search_params :=
  let q := py_strip (al_query al) in
  {| p_q := q;
     p_q_like := (37%N :: q) ++ [37%N];
     p_q_present := if q is [] then false else true;
     p_days := if al_days al =? 0 then 7 else al_days al;
     p_category := al_category al;
     p_source := al_source al;
     p_source_like :=
       match al_source al with
       | Some (c :: s) => Some ((37%N :: c :: s) ++ [37%N])
       | _ => None
       end;
     p_limit := Z.max (max_per_user cfg) (max_items_per_email cfg);
     p_start_ts :=
       match cursor with
       | Some last => Some (last - cursor_overlap_sec cfg * usec_per_sec)
       | None => None
       end |}.

(** The matcher: the search query of [run_once] for one alert. *)
Definition matcher (cfg : config) (cat : catalog) (now : Z) (al : alert)
    (cursor : option Z) : list item :=
  run_search cat
    (pick_search_sql (pick_article_ts_expr (has_published_at (cat_schema cat)))
       (cat_schema cat))
    (search_params_of cfg al cursor) now.

(** The body of the loop of [run_once] for one alert; [per_user] is the
    run-wide per-owner send count. *)
Definition process_alert (cfg : config) (e : admin_env) (send : user_provider)
    (clk : clock) (cat : catalog) (p : prefs) (al : alert)
    (st : world * counters * gmap str Z) : option (world * counters * gmap str Z) :=
  let '(w, c, per_user) := st in
  let matches :=
    matcher cfg cat (db_now clk) al (w_cursors w !! al_alert_id al) in
  let '(max_ts, rows) := scan_matches None matches in
  let '(w, c) := claim_all al p (db_now clk) rows (w, c) in
  let w := {| w_deliveries := w_deliveries w;
              w_cursors := advance_cursor (al_alert_id al) max_ts (w_cursors w);
              w_notify := w_notify w; w_trace := w_trace w;
              w_next_id := w_next_id w |} in
  let due := due_query cfg (db_now clk) al (w_deliveries w) in
  let '(per_user, due) := filter_due cfg per_user due in
  if str_eqb (al_channel al) (lit "email") then
    match dispatch_email cfg e send clk cat p due (w, c) with
    | Some (w, c) => Some (w, c, per_user)
    | None => None
    end
  else
    match dispatch_single cfg e send clk cat p due (w, c) with
    | Some (w, c) => Some (w, c, per_user)
    | None => None
    end.

End Run.

(** ** Example data *)

(** The headline of the specification's example; U+2014 is the em dash. *)
Definition breaking_title : str :=
  lit "BREAKING: Oil Output Rises " ++ [8212%N] ++ lit " Reuters!!".

(** The example match, stamped 2024-05-01 12:30 UTC. *)
Definition reuters_item : item := {|
  it_id := 7; it_title := Some breaking_title; it_url := None;
  it_summary := None; it_category_guess := None;
  it_ts := Some {| dt_instant := 1714566600000000; dt_utcoffset := 0 |};
  it_source_name := Some (lit "Reuters"); it_source := None;
  it_published_at := None; it_created_at := None |}.

(** ** Specification-level notions *)

(** At most one delivery per (alert, article, channel). *)
Definition unique_keys (tbl : list delivery) : Prop :=
  NoDup (List.map key_of tbl).

(** A row update that leaves the uniqueness key alone. *)
Definition key_preserving (f : delivery -> delivery) : Prop :=
  forall d, key_of (f d) = key_of d.

(** The as-of instants of a batch of matches, in scan order. *)
Definition as_of_instants (matches : list item) : list Z :=
  omap (fun it => dt_instant <$> it_ts it) matches.

(** The user-facing sends of a trace. *)
Definition user_sends (tr : list event) : list event :=
  List.filter (fun ev => match ev with EvUserSend _ _ _ _ => true | _ => false end) tr.

(** Merging one more as-of instant into the running maximum. *)
Definition merge_ts (m : option Z) (t : Z) : option Z :=
  Some (match m with Some a => Z.max a t | None => t end).

(** An alert on e-mail for an empty-query saved search on "energy". *)
Definition sample_alert : alert := {|
  al_alert_id := 1; al_user_id := lit "u1"; al_channel := lit "email";
  al_target := lit "ops@example.org"; al_name := Some (lit "Energy");
  al_query := []; al_days := 7; al_category := Some (lit "energy");
  al_source := None |}.

(** A match that carries nothing but an id and an as-of instant. *)
Definition stamped_item (id ts : Z) : item := {|
  it_id := id; it_title := None; it_url := None; it_summary := None;
  it_category_guess := None;
  it_ts := Some {| dt_instant := ts; dt_utcoffset := 0 |};
  it_source_name := None; it_source := None;
  it_published_at := None; it_created_at := None |}.

(** A delivery of [sample_alert] for [article], claimed at instant 0, that
    has been attempted [attempts] times. *)
Definition sample_delivery (article attempts : Z) : delivery := {|
  d_id := article; d_alert_id := 1; d_user_id := lit "u1";
  d_article_id := article; d_channel := lit "email";
  d_status := if attempts =? 0 then PENDING else FAILED;
  d_error := if attempts =? 0 then None else Some (lit "resend_status=500");
  d_attempt_count := attempts;
  d_last_attempt_at := if attempts =? 0 then None else Some 0;
  d_next_attempt_at := Some 0;
  d_queued_at := 0; d_queued_at_is_estimated := false; d_delivered_at := None;
  d_dedupe_key := Some (lit "unknown:" ++ str_of_Z article);
  d_dedupe_group := Some (lit "unknown:" ++ str_of_Z article);
  d_normalized_url := None; d_priority := Some (lit "P1"); d_created_at := 0 |}.

Definition sample_due (article attempts : Z) : due_row :=
  to_due_row sample_alert (sample_delivery article attempts).

Definition sample_world (tbl : list delivery) : world := {|
  w_deliveries := tbl; w_cursors := {[ 1 := 100 ]};
  w_notify := {| nf_data := Some ∅; nf_unreadable := fun _ => false;
                 nf_writable := true |};
  w_trace := []; w_next_id := 1000 |}.

Definition noon : clock := {| db_now := 43200000000; wall_now := 43200 |}.

(** One turn of the single-shot loop whose subject line can be built. *)
Definition single_turn `{PyRuntime} (cfg : config) (e : admin_env)
    (send : user_provider) (clk : clock) (cat : catalog) (p : prefs)
    (st : world * counters) (d : due_row) : world * counters :=
  if negb (routed p d) then st
  else if existsb (fun a => a_id a =? dr_article_id d) (cat_articles cat)
  then process_single cfg e send clk d st
  else (mark_delivery_failed cfg e clk d (lit "missing_article") (fst st),
        bump_failed (snd st)).

(** The row with key [k] exists and carries status [s] and error [err]. *)
Definition row_has (s : status) (err : option str) (tbl : list delivery)
    (k : dkey) : Prop :=
  exists row, find_delivery tbl k = Some row
              /\ d_status row = s /\ d_error row = err.

(** A row update that writes status [s] and error [err]. *)
Definition writes_outcome (s : status) (err : option str)
    (f : delivery -> delivery) : Prop :=
  forall d, d_status (f d) = s /\ d_error (f d) = err.

(** The status and error every delivery of a batch must end with, given
    the provider's answer. *)
Definition batch_status (r : send_result) : status :=
  match r with SendOk => SENT | _ => FAILED end.

Definition batch_error (r : send_result) : option str :=
  match r with
  | SendOk => None
  | _ => Some (py_prefix 500 (snd (outcome r)))
  end.

(** A provider that is down: every call raises a timeout. *)
Definition provider_down : user_provider :=
  fun _ _ _ _ => SendRaise (lit "Timeout") (lit "read timed out").

(** Operator settings with a Telegram bot configured, whose sends fail. *)
Definition sample_admin : admin_env := {|
  env_telegram_token := lit "123:abc";
  env_telegram_chat_id := lit "-1001";
  env_admin_emails := [];
  giveup_cooldown_sec := 3600;
  backlog_cooldown_sec := 1800;
  admin_provider := fun _ _ _ => SendFail (lit "status_500")
|}.

(** The writes the dispatcher performs on the deliveries table: the guarded
    insert of a claim, and the two updates in place of the dispatcher. *)
Inductive table_write : list delivery -> list delivery -> Prop :=
  | write_claim (tbl : list delivery) (next : Z) (new : delivery) :
      table_write tbl (fst (fst (insert_delivery tbl next new)))
  | write_sent (tbl : list delivery) (k : dkey) (now : Z) :
      table_write tbl (update_where k (sent_row now) tbl)
  | write_failed (tbl : list delivery) (k : dkey) (error : str) (backoff now : Z) :
      table_write tbl (update_where k (failed_row error backoff now) tbl).

(** The number of rows with key [k]. *)
Definition rows_with (k : dkey) (tbl : list delivery) : nat :=
  length (List.filter (has_key k) tbl).

(** The triple a claim of [row] for [al] is about. *)
Definition claim_key (al : alert) (row : item * str * str) : dkey :=
  (al_alert_id al, it_id (fst (fst row)), al_channel al).

(** The deliveries table of a loop state. *)
Definition table_of (st : world * counters) : list delivery :=
  w_deliveries (fst st).

(** The cooldown timestamp stored for [key], [0] when there is none. *)
Definition last_notified (fs : notify_file) (key : str) : Z :=
  default 0 (default ∅ (nf_data fs) !! key).

(** The escalations of [key] that passed their cooldown check, each seen as
    its refresh of the state file. *)
Definition escalations (key : str) (tr : list event) : nat :=
  length
    (List.filter
       (fun ev => match ev with
                  | EvCooldownWrite k _ => str_eqb k key
                  | _ => false
                  end) tr).

(** What the operators get to see of [key]: the refreshes of its cooldown
    timestamp and the operator sends made for it, oldest first. *)
Definition operator_events (key : str) (tr : list event) : list event :=
  List.filter
    (fun ev => match ev with
               | EvCooldownWrite k _ => str_eqb k key
               | EvAdminSend _ k _ => str_eqb k key
               | EvUserSend _ _ _ _ => false
               end) tr.

(** A failure as the dispatcher records it: the statement clock, the due
    delivery and the error. *)
Definition failure : Type := clock * due_row * str.

Definition is_giveup (cfg : config) (f : failure) : bool :=
  max_attempts cfg <=? dr_attempt_count (snd (fst f)) + 1.

Section GiveupKey.
Context `{PyRuntime}.

Definition failure_key (f : failure) : str :=
  giveup_cooldown_key (dr_channel (snd (fst f))) (snd f).

(** A run of failures, in order. *)
Definition fail_all (cfg : config) (e : admin_env) (fails : list failure)
    (w : world) : world :=
  fold_left
    (fun w f => mark_delivery_failed cfg e (fst (fst f)) (snd (fst f)) (snd f) w)
    fails w.

End GiveupKey.

(** The as-of instant of a matched row. *)
Definition item_instant (it : item) : Z :=
  default 0 (dt_instant <$> it_ts it).

(** Newest first. *)
Definition recency_desc (a b : item) : Prop := item_instant b <= item_instant a.

(** A catalog with the optional columns [published_at], [summary],
    [content], [category] and [source_name], with or without the
    full-text column.  Its full-text operators are a toy stand-in: an
    article matches when the query occurs in its title or summary (ignoring
    case), and ranks higher when the occurrence is in the title. *)
Definition sample_schema (tsv : bool) : schema := {|
  has_published_at := true; has_search_tsv := tsv;
  has_category_guess := false; has_category := true;
  has_source_id := false; has_source := false; has_source_name := true;
  has_summary := true; has_content_clean := false; has_content := true;
  has_translated_content := false; has_sources_table := false |}.

Definition toy_contains (q : str) (text : option str) : bool :=
  match text with
  | Some s => like_match ((37%N :: @py_lower ascii_runtime q) ++ [37%N])
                (@py_lower ascii_runtime s)
  | None => false
  end.

Definition sample_article (id : Z) (title summary : string) (published : Z)
  : article := {|
  a_id := id; a_title := Some (lit title);
  a_url := None; a_summary := Some (lit summary);
  a_content_clean := None; a_content := Some (lit summary);
  a_translated_content := None; a_category_guess := None;
  a_category := Some (lit "energy"); a_source_id := None; a_source := None;
  a_source_name := Some (lit "Reuters");
  a_published_at := Some published; a_created_at := Some published |}.

Definition sample_catalog (tsv : bool) (articles : list article) : catalog := {|
  cat_schema := sample_schema tsv;
  cat_articles := articles;
  cat_sources := [];
  cat_fts_match := fun a q => Some (toy_contains q (a_title a) || toy_contains q (a_summary a));
  cat_fts_rank := fun a q => (if toy_contains q (a_title a) then 2 else 0)
                             + (if toy_contains q (a_summary a) then 1 else 0);
  cat_utcoffset := 0 |}.

(** An alert whose saved search asks for "oil". *)
Definition oil_alert : alert := {|
  al_alert_id := 2; al_user_id := lit "u1"; al_channel := lit "email";
  al_target := lit "ops@example.org"; al_name := Some (lit "Oil");
  al_query := lit "oil"; al_days := 7; al_category := None; al_source := None |}.

(** An older article with "oil" in its title and a newer one with "oil"
    only in its summary. *)
Definition oil_articles : list article :=
  [sample_article 21 "Oil tender awarded" "Weekly procurement notice" 100;
   sample_article 22 "Weekly market report" "Crude oil output rises" 200].

(** The order the full-text query puts on the joined rows: higher rank
    first, and newest first among equal ranks. *)
Definition rank_then_recency (cat : catalog) (sq : search_sql) (p : search_params)
    (x y : joined_row) : Prop :=
  cat_fts_rank cat (fst y) (p_q p) < cat_fts_rank cat (fst x) (p_q p)
  \/ (cat_fts_rank cat (fst y) (p_q p) = cat_fts_rank cat (fst x) (p_q p)
      /\ default 0 (eval_ts (sq_ts_expr sq) (fst y))
         <= default 0 (eval_ts (sq_ts_expr sq) (fst x))).

(** What the idempotence of URL normalisation needs to know of the runtime
    beyond ASCII: lower-casing is stable and never yields ASCII other than
    lower-case letters, an encoded code point is a string of bytes, and
    decoding undoes strict encoding. *)
Class PyRuntimeLaws `{PyRuntime} := {
  ucd_lower_stable :
    forall c, is_ascii c = false -> py_lower (ucd_lower c) = ucd_lower c;
  ucd_lower_plain :
    forall c d, is_ascii c = false -> In d (ucd_lower c) ->
                is_ascii d = false \/ is_ascii_lower d = true;
  utf8_byte_range :
    forall c bs b, utf8_encode_cp c = Some bs -> In b bs -> (b < 256)%N;
  utf8_roundtrip :
    forall s bs, utf8_encode s = Some bs -> utf8_decode bs = s
}.

(** The scheme and the authority [normalize_url] assembles from a split. *)
Definition normal_scheme `{PyRuntime} (parts : SplitResult) : str :=
  match py_lower (sr_scheme parts) with [] => lit "http" | s => s end.

Definition normal_netloc `{PyRuntime} (parts : SplitResult) : str :=
  drop_default_port (normal_scheme parts) (py_lower (sr_netloc parts)).

(** TAB, LF and CR, which [urlsplit] deletes. *)
Definition is_unsafe (c : N) : bool := (c =? 9)%N || (c =? 10)%N || (c =? 13)%N.

Definition clean (s : str) : Prop := Forall (fun c => is_unsafe c = false) s.

(** A scheme as [normalize_url] assembles it: scheme characters, none in
    upper case, the first a letter. *)
Definition lower_scheme (s : str) : Prop :=
  match s with [] => False | c :: _ => is_ascii_lower c = true end
  /\ Forall (fun c => is_scheme_char c = true /\ is_ascii_upper c = false) s.

(** The text is empty or starts with [c]. *)
Definition starts_with_or_empty (c : N) (s : str) : Prop :=
  match s with [] => True | x :: _ => x = c end.

(** The query part of an assembled URL. *)
Definition query_part (query : str) : str :=
  match query with [] => [] | _ => 63%N :: query end.

(** The characters of a quoted key or value: the unreserved ones, the
    percent sign and the plus sign. *)
Definition is_quoted_char (c : N) : bool :=
  is_always_safe c || (c =? 37)%N || (c =? 43)%N.

(** The characters of an encoded query: those, [=] and [&]. *)
Definition is_query_char (c : N) : bool :=
  is_quoted_char c || (c =? 61)%N || (c =? 38)%N.

(** Reading a quoted key or value back to bytes: [+] is a space, [%XX] a
    byte. *)
Definition unquote_plus_bytes (s : str) : list N :=
  unquote_to_bytes (replace_char 43 32 s).

(** A delivery the dispatcher has finished with: sent, or out of attempts. *)
Definition terminal (cfg : config) (d : delivery) : Prop :=
  d_status d = SENT \/ max_attempts cfg <= d_attempt_count d.

(** What a delivery looks like right after its claim for [al] at [now]. *)
Definition fresh_claim (al : alert) (now : Z) (d : delivery) : Prop :=
  d_status d = PENDING /\ d_attempt_count d = 0 /\ d_error d = None
  /\ d_next_attempt_at d = Some now /\ d_queued_at d = now
  /\ d_created_at d = now
  /\ d_alert_id d = al_alert_id al /\ d_user_id d = al_user_id al
  /\ d_channel d = al_channel al.

(** The instant the search window of an alert opens: the cursor less the
    overlap, or [days] before [now] on a first scan. *)
Definition window_start (cfg : config) (now : Z) (al : alert) (cursor : option Z) : Z :=
  match cursor with
  | Some last => last - cursor_overlap_sec cfg * usec_per_sec
  | None => now - (if al_days al =? 0 then 7 else al_days al) * usec_per_day
  end.

(** [q] occurs in [s] as a contiguous run. *)
Definition occurs_in (q s : str) : Prop := exists a b, s = a ++ q ++ b.

(** The characters [LIKE] reads as wildcards or escapes: [%], [_] and the
    backslash. *)
Definition is_like_meta (c : N) : bool := ((c =? 37) || (c =? 95) || (c =? 92))%N.

(** The deliveries of owner [u] among [l]. *)
Definition sends_of (u : str) (l : list due_row) : Z :=
  Z.of_nat (length (List.filter (fun d => str_eqb (dr_user_id d) u) l)).

(** No row of [l] is about the key of [row]. *)
Definition misses_row (row : delivery) (l : list due_row) : Prop :=
  Forall (fun d => dr_key d <> key_of row) l.

(** A word of a normalised title: not empty, made of alphanumeric code
    points, none of them white space. *)
Definition title_word `{PyRuntime} (w : str) : Prop :=
  w <> [] /\ Forall (fun c => py_isalnum c = true /\ py_isspace c = false) w.

(** Lower-casing leaves a lower-cased code point alone. *)
Definition lower_settles `{PyRuntime} : Prop :=
  forall c d, In d (lower_cp c) -> lower_cp d = [d].

(** The source and title parts of a title-fallback key, and the parts that
    are not empty. *)
Definition key_source `{PyRuntime} (it : item) : str :=
  py_lower (py_strip (or_empty (py_or (it_source_name it) (it_source it)))).

Definition key_title `{PyRuntime} (it : item) : str :=
  normalize_title (or_empty (it_title it)).

Definition nonempty_parts (parts : list str) : list str :=
  List.filter (fun p => if p is [] then false else true) parts.

(** The fields [normalize_url] keeps of a query string, in the order of the
    string. *)
Definition kept_fields `{PyRuntime} (query : str) : list (str * str) :=
  List.filter (fun kv => negb (is_tracking_param (fst kv))) (parse_qsl query).

(** A split with another query and no fragment, and with another
    fragment. *)
Definition with_query (query : str) (p : SplitResult) : SplitResult :=
  {| sr_scheme := sr_scheme p; sr_netloc := sr_netloc p; sr_path := sr_path p;
     sr_query := query; sr_fragment := [] |}.

Definition with_fragment (fragment : str) (p : SplitResult) : SplitResult :=
  {| sr_scheme := sr_scheme p; sr_netloc := sr_netloc p; sr_path := sr_path p;
     sr_query := sr_query p; sr_fragment := fragment |}.

(** ** Messages *)

(** The line feed. *)
Definition nl : str := [10%N].

(** Python truthiness of a [str]. *)
Definition not_empty (s : str) : bool := if s is [] then false else true.

Section Messages.
Context `{PyRuntime}.

Definition format_message (it : item) : str :=
  let title := py_strip (or_empty (it_title it)) in
  let source := py_strip (or_empty (it_source_name it)) in
  let cat := py_strip (or_empty (it_category_guess it)) in
  let url := py_strip (or_empty (it_url it)) in
  let summary := py_strip (or_empty (it_summary it)) in
  let lines := [title] in
  let meta := py_join (lit " | ") (List.filter not_empty [source; cat]) in
  let lines := if not_empty meta then lines ++ [meta] else lines in
  let lines :=
    if not_empty summary then lines ++ [[]; py_prefix 600 summary] else lines in
  let lines := if not_empty url then lines ++ [[]; url] else lines in
  py_strip (py_join nl lines).

(** The separator of the blocks of a digest. *)
Definition block_sep : str := nl ++ nl ++ lit "---" ++ nl ++ nl.

Definition digest_header (n : nat) : str :=
  str_of_Z (Z.of_nat n) ++ lit " new items from LibyaIntel".

Definition format_digest (items : list item) : str :=
  let header := digest_header (length items) in
  let blocks := List.map format_message items in
  let body := py_join block_sep blocks in
  py_strip (header ++ nl ++ nl ++ body).

(** The source loop of [format_grouped_digest]: the distinct source names
    of a group, compared in lower case, in order of first appearance. *)
Definition group_sources (items : list item) : list str :=
  snd (fold_left
         (fun (acc : gset str * list str) it =>
            let src := py_strip (or_empty (it_source_name it)) in
            let key := py_lower src in
            if not_empty src && negb (bool_decide (key ∈ fst acc))
            then ({[ key ]} ∪ fst acc, snd acc ++ [src])
            else acc)
         items (∅, [])).

(** One block of [format_grouped_digest]; [None] is the [IndexError] of an
    empty group. *)
Definition format_group (items : list item) : option str :=
  match items with
  | [] => None
  | first :: _ =>
      let title := py_strip (or_empty (it_title first)) in
      let url := py_strip (or_empty (it_url first)) in
      let summary := py_strip (or_empty (it_summary first)) in
      let sources := group_sources items in
      let lines := if not_empty title then [title] else [] in
      let lines :=
        match sources with
        | [] => lines
        | _ =>
            let shown := firstn 3 sources in
            let extra := (length sources - length shown)%nat in
            let src_line := lit "Sources: " ++ py_join (lit ", ") shown in
            let src_line :=
              if (0 <? extra)%nat
              then src_line ++ lit " (+" ++ str_of_Z (Z.of_nat extra) ++ lit " more)"
              else src_line in
            lines ++ [src_line]
        end in
      let lines :=
        if not_empty summary then lines ++ [[]; py_prefix 600 summary] else lines in
      let lines := if not_empty url then lines ++ [[]; url] else lines in
      Some (py_strip (py_join nl lines))
  end.

Fixpoint format_groups (groups : list (list item)) : option (list str) :=
  match groups with
  | [] => Some []
  | items :: rest =>
      match format_group items, format_groups rest with
      | Some b, Some bs => Some (b :: bs)
      | _, _ => None
      end
  end.

(** [format_grouped_digest(groups)] for a dictionary in insertion order. *)
Definition format_grouped_digest (groups : list (str * list item)) : option str :=
  let total_items := list_sum (List.map (fun g => length (snd g)) groups) in
  let header := digest_header total_items in
  match format_groups (List.map snd groups) with
  | Some blocks => Some (py_strip (header ++ nl ++ nl ++ py_join block_sep blocks))
  | None => None
  end.

End Messages.

(** ** Grouping an e-mail batch *)

(** [d.get("dedupe_key") or str(item.get("id"))] *)
Definition group_key (di : due_row * item) : str :=
  match dr_dedupe_key (fst di) with
  | Some (c :: k) => c :: k
  | _ => str_of_Z (it_id (snd di))
  end.

(** [grouped.setdefault(key, []).append(item)] on a dictionary kept in
    insertion order. *)
Fixpoint setdefault_append (key : str) (it : item) (g : list (str * list item))
  : list (str * list item) :=
  match g with
  | [] => [(key, [it])]
  | (k, items) :: g' =>
      if str_eqb k key then (k, items ++ [it]) :: g'
      else (k, items) :: setdefault_append key it g'
  end.

Definition group_batch (batch : list (due_row * item)) : list (str * list item) :=
  fold_left (fun g di => setdefault_append (group_key di) (snd di) g) batch [].

(** [[items[0] for items in grouped.values()]]; [None] is [IndexError]. *)
Fixpoint batch_items (grouped : list (str * list item)) : option (list item) :=
  match grouped with
  | [] => Some []
  | (_, items) :: rest =>
      match items, batch_items rest with
      | first :: _, Some l => Some (first :: l)
      | _, _ => None
      end
  end.

Section Subject.
Context `{PyRuntime}.

(** [(al.get("name") or "Saved search").strip()] *)
Definition alert_name (al : alert) : str :=
  py_strip (match al_name al with Some (c :: s) => c :: s | _ => lit "Saved search" end).

(** The subject of a batch e-mail. *)
Definition batch_subject (al : alert) (n_items : nat) : str :=
  lit "LibyaIntel alert: " ++ alert_name al ++ lit " ("
  ++ str_of_Z (Z.of_nat n_items) ++ lit " items)".

End Subject.

(** ** Fetching the article of a delivery *)

(** The choices [pick_article_by_id_sql] splices into its query text. *)
Record by_id_sql := {
  bi_join_sources : bool;
  bi_summary_expr : option column;
  bi_category_select_expr : option column
}.

Definition pick_article_by_id_sql (sc : schema) : by_id_sql :=
  {| bi_join_sources := has_sources_table sc && has_source_id sc;
     bi_summary_expr := if has_summary sc then Some ColSummary else None;
     bi_category_select_expr :=
       if has_category_guess sc then Some ColCategoryGuess
       else if has_category sc then Some ColCategory
       else None |}.

(** The [SELECT] list of the query by id: no as-of timestamp. *)
Definition project_by_id (bq : by_id_sql) (r : joined_row) : item :=
  let a := fst r in
  {| it_id := a_id a;
     it_title := a_title a;
     it_url := a_url a;
     it_summary := match bi_summary_expr bq with
                   | Some c => col_value r c | None => None end;
     it_category_guess := match bi_category_select_expr bq with
                          | Some c => col_value r c | None => None end;
     it_ts := None;
     it_source_name := if bi_join_sources bq
                       then col_value r ColSourcesName else None;
     it_source := None;
     it_published_at := None;
     it_created_at := None |}.

(** Running the query by id and fetching one row. *)
Definition article_by_id (cat : catalog) (bq : by_id_sql) (article_id : Z)
  : option item :=
  let rows :=
    List.flat_map
      (fun a => if bi_join_sources bq
                then left_join_sources (cat_sources cat) a
                else [(a, None)])
      (List.filter (fun a => a_id a =? article_id) (cat_articles cat)) in
  head (List.map (project_by_id bq) rows).

(** A match as the query by id returns it: without its as-of timestamp. *)
Definition without_ts (it : item) : item :=
  {| it_id := it_id it; it_title := it_title it; it_url := it_url it;
     it_summary := it_summary it; it_category_guess := it_category_guess it;
     it_ts := None; it_source_name := it_source_name it;
     it_source := it_source it; it_published_at := it_published_at it;
     it_created_at := it_created_at it |}.

(** The items of a batch filed under key [k], in batch order. *)
Definition items_of (k : str) (batch : list (due_row * item)) : list item :=
  List.map snd (List.filter (fun di => str_eqb (group_key di) k) batch).

(** The number of items in the groups. *)
Definition group_total (g : list (str * list item)) : nat :=
  list_sum (List.map (fun x => length (snd x)) g).

(** What the grouping loop keeps true of the dictionary. *)
Definition grouped_as (batch : list (due_row * item)) (g : list (str * list item))
  : Prop :=
  NoDup (List.map fst g)
  /\ (forall k items, In (k, items) g <-> items <> [] /\ items = items_of k batch)
  /\ group_total g = length batch.

(** An alert whose saved search filters on another category and source. *)
Definition with_filters (category source : option str) (al : alert) : alert :=
  {| al_alert_id := al_alert_id al; al_user_id := al_user_id al;
     al_channel := al_channel al; al_target := al_target al;
     al_name := al_name al; al_query := al_query al; al_days := al_days al;
     al_category := category; al_source := source |}.

(** A catalog whose articles table has only the mandatory columns and the
    text columns of [sample_schema]. *)
Definition bare_catalog : catalog := {|
  cat_schema := {|
    has_published_at := true; has_search_tsv := false;
    has_category_guess := false; has_category := false;
    has_source_id := false; has_source := false; has_source_name := false;
    has_summary := true; has_content_clean := false; has_content := true;
    has_translated_content := false; has_sources_table := true |};
  cat_articles := oil_articles;
  cat_sources := [];
  cat_fts_match := fun _ _ => None;
  cat_fts_rank := fun _ _ => 0;
  cat_utcoffset := 0 |}.

(** An article as a message shows it, with a title and a link. *)
Definition linked_item : item := {|
  it_id := 21; it_title := Some (lit " Oil tender awarded ");
  it_url := Some (lit "https://example.com/tenders/21");
  it_summary := Some (lit "Weekly procurement notice");
  it_category_guess := Some (lit "energy"); it_ts := None;
  it_source_name := Some (lit "Reuters"); it_source := None;
  it_published_at := None; it_created_at := None |}.

(** Since [tbl0], the deliveries with keys in [ks] were attempted once and
    every other delivery was left alone. *)
Definition marked_once (ks : list dkey) (tbl0 tbl : list delivery) : Prop :=
  forall k row0, find_delivery tbl0 k = Some row0 ->
    exists row, find_delivery tbl k = Some row
      /\ (In k ks -> d_attempt_count row = d_attempt_count row0 + 1)
      /\ (~ In k ks -> row = row0).

(** The same, with the keys attempted all satisfying [P]. *)
Definition marked_within (P : dkey -> Prop) (tbl0 tbl : list delivery) : Prop :=
  exists ks, marked_once ks tbl0 tbl /\ forall k, In k ks -> P k.

(** The path as [urlunsplit] writes it behind an authority. *)
Definition rooted (path : str) : str :=
  match path with
  | [] => []
  | c :: _ => if (c =? 47)%N then path else 47%N :: path
  end.

(** Whether a second pass leaves alone the authority it reads from the URL
    assembled from [scheme], [netloc] and [path].  That authority is
    [netloc], or, when [netloc] is empty and [path] begins with two slashes,
    the text between them and the next slash, which the first pass took for
    path.  It is left alone when it makes [urlsplit] raise, or when it is in
    lower case and carries no default port; an empty one read out of the
    path must in addition be written again, which takes a scheme of
    [uses_netloc] and a rest of the path that does not begin with two
    slashes. *)
Definition authority_stays `{PyRuntime} (scheme netloc path : str) : bool :=
  match netloc with
  | _ :: _ =>
      netloc_raises netloc || str_eqb (drop_default_port scheme netloc) netloc
  | [] =>
      if py_startswith [47%N; 47%N] path then
        let '(host, rest) := split_netloc path in
        netloc_raises host
        || match host with
           | [] => in_uses_netloc scheme && negb (py_startswith [47%N; 47%N] rest)
           | _ => str_eqb (drop_default_port scheme (py_lower host)) host
           end
      else true
  end.

(** The same of the scheme, authority and path that [normalize_url]
    assembles from a split. *)
Definition authority_settled `{PyRuntime} (parts : SplitResult) : bool :=
  authority_stays (normal_scheme parts) (normal_netloc parts)
    (rstrip_char 47 (sr_path parts)).

(** * Properties *)

(** ** The dedupe key of a match without URL *)

Example normalize_url_spec_example :
  @normalize_url ascii_runtime
    (lit "https://Example.com/News/Story/?utm_source=fb&ref=123")
  = lit "https://example.com/News/Story?ref=123".
Proof. vm_compute. reflexivity. Qed.

Example ex_date : civil_from_days 19844 = (2024, 5, 1)%Z.
Proof. reflexivity. Qed.

Lemma normalize_url_empty `{PyRuntime} : normalize_url [] = [].
Proof. reflexivity. Qed.

Lemma normalize_title_breaking `{PyRuntime} :
  ucd_isalnum 8212 = false ->
  ucd_lower 8212 = [8212%N] ->
  normalize_title breaking_title = lit "breaking oil output rises reuters".
Proof.
  intros Halnum Hlower.
  unfold normalize_title.
  assert (Hl : py_lower breaking_title
               = lit "breaking: oil output rises " ++ [8212%N] ++ lit " reuters!!").
  { unfold breaking_title, py_lower.
    rewrite !flat_map_app. cbn [flat_map].
    replace (lower_cp 8212) with [8212%N] by (symmetry; exact Hlower).
    reflexivity. }
  rewrite Hl.
  cbv -[ucd_isalnum ucd_isspace]. rewrite Halnum. reflexivity.
Qed.

(** C7: a match with no URL, the title "BREAKING: Oil Output Rises —
    Reuters!!", the source "Reuters" and an as-of timestamp on 2024-05-01
    gets the key "reuters|breaking oil output rises reuters|2024-05-01" and
    an empty normalized URL, in every runtime whose character database
    knows the em dash as a caseless non-alphanumeric symbol. *)
Theorem dedupe_key_title_fallback `{PyRuntime} (it : item) (t : datetime) :
  ucd_isalnum 8212 = false ->
  ucd_lower 8212 = [8212%N] ->
  it_url it = None ->
  it_title it = Some breaking_title ->
  it_source_name it = Some (lit "Reuters") ->
  it_ts it = Some t ->
  dt_date t = (2024, 5, 1) ->
  compute_dedupe_key it
  = (lit "reuters|breaking oil output rises reuters|2024-05-01", []).
Proof.
  intros Halnum Hlower Hurl Htitle Hsrc Hts Hdate.
  unfold compute_dedupe_key.
  rewrite Hurl, Htitle, Hsrc, Hts.
  change (or_empty None) with (@nil N).
  change (or_empty (Some breaking_title)) with breaking_title.
  rewrite normalize_url_empty.
  cbn [dt_or]. rewrite Hdate.
  rewrite (normalize_title_breaking Halnum Hlower).
  reflexivity.
Qed.

Lemma dedupe_key_title_fallback_witness :
  @compute_dedupe_key ascii_runtime reuters_item
  = (lit "reuters|breaking oil output rises reuters|2024-05-01", []).
Proof.
  apply (@dedupe_key_title_fallback ascii_runtime reuters_item
           {| dt_instant := 1714566600000000; dt_utcoffset := 0 |});
    reflexivity.
Defined.

(** ** Point updates of the delivery table *)

Section UpdateWhere.
Variable k : dkey.
Variable f : delivery -> delivery.
Hypothesis f_keeps_key : key_preserving f.

Lemma has_key_true (d : delivery) : has_key k d = true <-> key_of d = k.
Proof. unfold has_key, dkey_eqb. apply bool_decide_eq_true. Qed.

Lemma has_key_update (k' : dkey) (d : delivery) :
  has_key k' (if has_key k d then f d else d) = has_key k' d.
Proof.
  unfold has_key at 1 3. destruct (has_key k d); [|reflexivity].
  rewrite f_keeps_key. reflexivity.
Qed.

Lemma update_where_keys (tbl : list delivery) :
  List.map key_of (update_where k f tbl) = List.map key_of tbl.
Proof.
  unfold update_where. induction tbl as [|d tbl IH]; simpl; [reflexivity|].
  rewrite IH. destruct (has_key k d); [rewrite f_keeps_key|]; reflexivity.
Qed.

(** The updated row is the old row through [f]. *)
Lemma find_update_same (tbl : list delivery) :
  find_delivery (update_where k f tbl) k = f <$> find_delivery tbl k.
Proof.
  unfold find_delivery, update_where.
  induction tbl as [|d tbl IH]; simpl; [reflexivity|].
  rewrite has_key_update.
  destruct (has_key k d) eqn:E; simpl; [reflexivity|exact IH].
Qed.

(** Every other row is untouched. *)
Lemma find_update_other (k' : dkey) (tbl : list delivery) :
  k' <> k ->
  find_delivery (update_where k f tbl) k' = find_delivery tbl k'.
Proof.
  intros Hne. unfold find_delivery, update_where.
  induction tbl as [|d tbl IH]; simpl; [reflexivity|].
  rewrite has_key_update.
  destruct (has_key k' d) eqn:E'; [|exact IH].
  destruct (has_key k d) eqn:E; [|reflexivity].
  apply has_key_true in E. exfalso. apply Hne.
  unfold has_key, dkey_eqb in E'. apply bool_decide_eq_true in E'. congruence.
Qed.

Lemma update_where_unique (tbl : list delivery) :
  unique_keys tbl -> unique_keys (update_where k f tbl).
Proof. unfold unique_keys. rewrite update_where_keys. trivial. Qed.
End UpdateWhere.

Lemma sent_row_keeps_key (now : Z) : key_preserving (sent_row now).
Proof. intros d. reflexivity. Qed.

Lemma failed_row_keeps_key (error : str) (backoff now : Z) :
  key_preserving (failed_row error backoff now).
Proof. intros d. reflexivity. Qed.

(** ** Marking a delivery sent *)

(** C10: marking a delivery SENT sets the status, the delivered timestamp
    and clears the error, and it also adds one to [attempt_count] and sets
    both [last_attempt_at] and [next_attempt_at] to the current time; the
    other columns of the row, every other row, the cursors, the operator
    state and the trace stay as they were. *)
Theorem mark_sent_counts_the_attempt (clk : clock) (d : due_row) (w : world)
    (row : delivery) :
  find_delivery (w_deliveries w) (dr_key d) = Some row ->
  let w' := mark_delivery_sent clk d w in
  (exists row',
      find_delivery (w_deliveries w') (dr_key d) = Some row'
      /\ d_status row' = SENT
      /\ d_error row' = None
      /\ d_delivered_at row' = Some (db_now clk)
      /\ d_attempt_count row' = d_attempt_count row + 1
      /\ d_last_attempt_at row' = Some (db_now clk)
      /\ d_next_attempt_at row' = Some (db_now clk)
      /\ key_of row' = key_of row
      /\ d_id row' = d_id row /\ d_user_id row' = d_user_id row
      /\ d_queued_at row' = d_queued_at row
      /\ d_dedupe_key row' = d_dedupe_key row
      /\ d_normalized_url row' = d_normalized_url row
      /\ d_priority row' = d_priority row
      /\ d_created_at row' = d_created_at row)
  /\ (forall k', k' <> dr_key d ->
        find_delivery (w_deliveries w') k' = find_delivery (w_deliveries w) k')
  /\ w_cursors w' = w_cursors w
  /\ w_notify w' = w_notify w
  /\ w_trace w' = w_trace w.
Proof.
  intros Hrow w'. subst w'. unfold mark_delivery_sent, set_deliveries. simpl.
  split.
  - exists (sent_row (db_now clk) row).
    rewrite (find_update_same _ _ (sent_row_keeps_key _)), Hrow.
    repeat split.
  - split; [|auto].
    intros k' Hne. apply find_update_other; [apply sent_row_keeps_key|exact Hne].
Qed.

(** ** The cursor *)

Section Cursor.
Context `{PyRuntime}.

Lemma newer_instant (t : option datetime) (m : option datetime) :
  dt_instant <$> newer t m
  = match t with
    | Some x => merge_ts (dt_instant <$> m) (dt_instant x)
    | None => dt_instant <$> m
    end.
Proof.
  destruct t as [x|]; [|reflexivity].
  unfold merge_ts. destruct m as [a|]; simpl; [|reflexivity].
  destruct (dt_instant a <? dt_instant x) eqn:E; simpl; f_equal.
  - apply Z.ltb_lt in E. lia.
  - apply Z.ltb_ge in E. lia.
Qed.

(** The scan keeps the maximum of the instants it has seen. *)
Lemma scan_instant (matches : list item) (m : option datetime) :
  dt_instant <$> fst (scan_matches m matches)
  = fold_left merge_ts (as_of_instants matches) (dt_instant <$> m).
Proof.
  revert m. induction matches as [|it l IH]; intros m; [reflexivity|].
  simpl. destruct (compute_dedupe_key it) as [key url].
  specialize (IH (newer (it_ts it) m)).
  destruct (scan_matches (newer (it_ts it) m) l) as [m' rows]. simpl in *.
  rewrite IH, newer_instant. unfold as_of_instants. simpl.
  destruct (it_ts it) as [x|]; reflexivity.
Qed.

Lemma merge_ts_perm (ts ts' : list Z) (m : option Z) :
  Permutation ts ts' -> fold_left merge_ts ts m = fold_left merge_ts ts' m.
Proof.
  intros P. revert m.
  induction P as [|x l l' P IH|x y l|l l' l'' P1 IH1 P2 IH2]; intros m; simpl.
  - reflexivity.
  - apply IH.
  - f_equal. unfold merge_ts. destruct m; f_equal; lia.
  - rewrite IH1. apply IH2.
Qed.

Lemma merge_ts_max (ts : list Z) (a : Z) :
  fold_left merge_ts ts (Some a) = Some (fold_right Z.max a ts).
Proof.
  revert a. induction ts as [|t ts IH]; intros a; [reflexivity|].
  change (fold_left merge_ts ts (Some (Z.max a t))
          = Some (Z.max t (fold_right Z.max a ts))).
  rewrite IH. f_equal.
  clear IH. induction ts as [|u ts IH]; simpl; lia.
Qed.

Lemma fold_max_ge (ts : list Z) (a : Z) : a <= fold_right Z.max a ts.
Proof. induction ts as [|t ts IH]; simpl; lia. Qed.

(** The upsert only looks at the instant of the scanned maximum. *)
Lemma advance_cursor_instant (alert_id : Z) (mt : option datetime)
    (cursors : gmap Z Z) :
  advance_cursor alert_id mt cursors
  = match dt_instant <$> mt with
    | Some t =>
        <[alert_id := match cursors !! alert_id with
                      | Some last => Z.max last t
                      | None => t
                      end]> cursors
    | None => cursors
    end.
Proof.
  unfold advance_cursor. destruct mt as [t|]; simpl; [|reflexivity].
  destruct (cursors !! alert_id); reflexivity.
Qed.
End Cursor.

Lemma mark_sent_counts_the_attempt_witness :
  d_attempt_count
    <$> find_delivery
          (w_deliveries
             (mark_delivery_sent noon (sample_due 5 2)
                (sample_world [sample_delivery 4 0; sample_delivery 5 2])))
          (dr_key (sample_due 5 2))
  = Some 3.
Proof.
  destruct (mark_sent_counts_the_attempt noon (sample_due 5 2)
              (sample_world [sample_delivery 4 0; sample_delivery 5 2])
              (sample_delivery 5 2) eq_refl)
    as [[row' [Hfind [_ [_ [_ [Hcount _]]]]]] _].
  rewrite Hfind. simpl. rewrite Hcount. reflexivity.
Defined.

(** ** One outcome per e-mail batch *)

Section Outcome.
Variables (s : status) (err : option str).

Lemma update_sets_outcome (k : dkey) (f : delivery -> delivery)
    (tbl : list delivery) :
  key_preserving f -> writes_outcome s err f ->
  is_Some (find_delivery tbl k) ->
  row_has s err (update_where k f tbl) k.
Proof.
  intros Hk Hw [row Hrow]. exists (f row).
  rewrite (find_update_same _ _ Hk), Hrow. split; [reflexivity|apply Hw].
Qed.

Lemma update_keeps_outcome (k k' : dkey) (f : delivery -> delivery)
    (tbl : list delivery) :
  key_preserving f -> writes_outcome s err f ->
  row_has s err tbl k ->
  row_has s err (update_where k' f tbl) k.
Proof.
  intros Hk Hw Hrow. destruct (decide (k = k')) as [->|Hne].
  - apply update_sets_outcome; auto. destruct Hrow as [row [Hf _]]. eauto.
  - destruct Hrow as [row Hrow]. exists row.
    rewrite (find_update_other _ _ Hk); auto.
Qed.

Lemma update_keeps_row (k k' : dkey) (f : delivery -> delivery)
    (tbl : list delivery) :
  key_preserving f ->
  is_Some (find_delivery tbl k) ->
  is_Some (find_delivery (update_where k' f tbl) k).
Proof.
  intros Hk [row Hrow]. destruct (decide (k = k')) as [->|Hne].
  - rewrite (find_update_same _ _ Hk), Hrow. eauto.
  - rewrite (find_update_other _ _ Hk); eauto.
Qed.

(** A loop of such updates, one per element of [l], leaves every targeted
    row that exists with the outcome. *)
Lemma updates_outcome {A} (key : A -> dkey) (upd : A -> delivery -> delivery)
    (l : list A) (tbl : list delivery) :
  (forall a, key_preserving (upd a)) ->
  (forall a, writes_outcome s err (upd a)) ->
  let tbl' := fold_left (fun t a => update_where (key a) (upd a) t) l tbl in
  (forall k, row_has s err tbl k -> row_has s err tbl' k)
  /\ (forall a, In a l -> is_Some (find_delivery tbl (key a)) ->
        row_has s err tbl' (key a)).
Proof.
  intros Hk Hw. revert tbl.
  induction l as [|b l IH]; intros tbl; simpl.
  - split; [auto|]. intros a [].
  - destruct (IH (update_where (key b) (upd b) tbl)) as [IHkeep IHset].
    split.
    + intros k Hrow. apply IHkeep, update_keeps_outcome; auto.
    + intros a [->|Hin] Hsome.
      * apply IHkeep, update_sets_outcome; auto.
      * apply IHset; [exact Hin|]. apply update_keeps_row; auto.
Qed.
End Outcome.

(** Such a loop leaves alone every row it does not target. *)
Lemma updates_frame {A} (key : A -> dkey) (upd : A -> delivery -> delivery)
    (l : list A) (tbl : list delivery) (k : dkey) :
  (forall a, key_preserving (upd a)) ->
  ~ In k (List.map key l) ->
  find_delivery (fold_left (fun t a => update_where (key a) (upd a) t) l tbl) k
  = find_delivery tbl k.
Proof.
  intros Hk. revert tbl. induction l as [|b l IH]; intros tbl Hnot; simpl; [reflexivity|].
  rewrite IH by (intros Hin; apply Hnot; right; exact Hin).
  apply find_update_other; [apply Hk|].
  intros ->. apply Hnot. left. reflexivity.
Qed.

Section BatchMarks.
Context `{PyRuntime}.
Variables (cfg : config) (e : admin_env) (clk : clock).

Lemma user_sends_app (a b : list event) :
  user_sends (a ++ b) = user_sends a ++ user_sends b.
Proof. apply List.filter_app. Qed.

(** An escalation sends nothing to users. *)
Lemma escalate_no_user_send (key : str) (cooldown now : Z) (fs fs' : notify_file)
    (evs : list event) :
  escalate e key cooldown now fs = Some (fs', evs) -> user_sends evs = [].
Proof.
  unfold escalate. destruct (admin_notify_enabled e); [|intros [= _ <-]; reflexivity].
  destruct (admin_should_notify_with_cooldown key cooldown now fs)
    as [[[] fs1]|]; intros [= _ <-]; reflexivity.
Qed.

Lemma giveup_no_user_send (now : Z) (fs : notify_file) (channel error : str) :
  user_sends (snd (log_delivery_giveup e now fs channel error)) = [].
Proof.
  unfold log_delivery_giveup, notify_admin_giveup.
  destruct (escalate e _ _ now fs) as [[fs' evs]|] eqn:E; [|reflexivity].
  simpl. eapply escalate_no_user_send, E.
Qed.

(** What failing a delivery does to the table, whether or not it gives up. *)
Lemma mark_failed_deliveries (d : due_row) (error : str) (w : world) :
  w_deliveries (mark_delivery_failed cfg e clk d error w)
  = update_where (dr_key d)
      (failed_row error
         (compute_backoff_seconds (dr_attempt_count d + 1)
            (retry_base_sec cfg) (retry_max_sec cfg)) (db_now clk))
      (w_deliveries w).
Proof.
  unfold mark_delivery_failed.
  destruct (max_attempts cfg <=? dr_attempt_count d + 1); [|reflexivity].
  destruct (log_delivery_giveup e _ _ _ _); reflexivity.
Qed.

Lemma mark_failed_user_sends (d : due_row) (error : str) (w : world) :
  user_sends (w_trace (mark_delivery_failed cfg e clk d error w))
  = user_sends (w_trace w).
Proof.
  unfold mark_delivery_failed.
  destruct (max_attempts cfg <=? dr_attempt_count d + 1); [|reflexivity].
  pose proof (giveup_no_user_send (wall_now clk) (w_notify w) (dr_channel d) error) as G.
  destruct (log_delivery_giveup e _ _ _ _) as [fs evs]. simpl in *.
  rewrite user_sends_app, G. apply app_nil_r.
Qed.

Lemma fold_mark_sent (batch : list due_row) (st : world * counters) :
  let st' :=
    fold_left
      (fun st d => (mark_delivery_sent clk d (fst st), bump_sent (snd st)))
      batch st in
  w_deliveries (fst st')
  = fold_left (fun t d => update_where (dr_key d) (sent_row (db_now clk)) t)
      batch (w_deliveries (fst st))
  /\ w_trace (fst st') = w_trace (fst st)
  /\ sent (snd st') = sent (snd st) + Z.of_nat (length batch)
  /\ failed (snd st') = failed (snd st).
Proof.
  revert st. induction batch as [|d batch IH]; intros st; simpl.
  - repeat split; lia.
  - destruct (IH (mark_delivery_sent clk d (fst st), bump_sent (snd st)))
      as (Ht & Htr & Hs & Hf).
    simpl in *. rewrite Ht, Htr, Hs, Hf. repeat split; lia.
Qed.

Lemma fold_mark_failed (error : str) (batch : list due_row) (st : world * counters) :
  let st' :=
    fold_left
      (fun st d => (mark_delivery_failed cfg e clk d error (fst st),
                    bump_failed (snd st)))
      batch st in
  w_deliveries (fst st')
  = fold_left
      (fun t d =>
         update_where (dr_key d)
           (failed_row error
              (compute_backoff_seconds (dr_attempt_count d + 1)
                 (retry_base_sec cfg) (retry_max_sec cfg)) (db_now clk)) t)
      batch (w_deliveries (fst st))
  /\ user_sends (w_trace (fst st')) = user_sends (w_trace (fst st))
  /\ failed (snd st') = failed (snd st) + Z.of_nat (length batch)
  /\ sent (snd st') = sent (snd st).
Proof.
  revert st. induction batch as [|d batch IH]; intros st; simpl.
  - repeat split; lia.
  - destruct (IH (mark_delivery_failed cfg e clk d error (fst st),
                  bump_failed (snd st))) as (Ht & Htr & Hf & Hs).
    simpl in *.
    rewrite Ht, Htr, Hf, Hs, mark_failed_deliveries, mark_failed_user_sends.
    repeat split; lia.
Qed.
End BatchMarks.

Section EmailBatch.
Context `{PyRuntime}.
Variables (cfg : config) (e : admin_env) (send : user_provider) (clk : clock).

(** C5: an e-mail batch is sent once, and the single answer of the
    provider is written to every delivery of the batch: all SENT with the
    error cleared when the call succeeds, all FAILED with the same recorded
    error when it fails or raises. *)
Theorem email_batch_single_outcome (first : due_row) (rest : list due_row)
    (w : world) (c : counters) :
  let batch := first :: rest in
  (forall d, In d batch -> is_Some (find_delivery (w_deliveries w) (dr_key d))) ->
  let res := send clk (lit "email") (dr_target first) (List.map dr_key batch) in
  let st' := process_batch cfg e send clk batch (w, c) in
  user_sends (w_trace (fst st'))
  = user_sends (w_trace w)
    ++ [EvUserSend (lit "email") (dr_target first) (List.map dr_key batch) (is_ok res)]
  /\ (forall d, In d batch ->
        row_has (batch_status res) (batch_error res)
          (w_deliveries (fst st')) (dr_key d))
  /\ (forall k, ~ In k (List.map dr_key batch) ->
        find_delivery (w_deliveries (fst st')) k = find_delivery (w_deliveries w) k)
  /\ sent (snd st')
     = sent c + (if is_ok res then Z.of_nat (length batch) else 0)
  /\ failed (snd st')
     = failed c + (if is_ok res then 0 else Z.of_nat (length batch)).
Proof.
  intros batch Hrows res st'. subst st' batch. unfold process_batch.
  cbv zeta. fold res.
  assert (Hcase : outcome res = (is_ok res, snd (outcome res))).
  { destruct res; reflexivity. }
  rewrite Hcase. cbn [fst snd].
  set (ev := EvUserSend _ _ _ _).
  set (st0 := (log_event ev w, c)).
  destruct (is_ok res) eqn:Hok.
  - destruct (fold_mark_sent clk (first :: rest) st0) as (Ht & Htr & Hs & Hf).
    cbv zeta in Ht, Htr, Hs, Hf.
    rewrite Ht, Htr, Hs, Hf. simpl fst; simpl snd.
    assert (res = SendOk) as -> by (destruct res; try discriminate; reflexivity).
    split; [|split; [|split; [|split]]]; try (simpl; lia).
    + simpl. rewrite user_sends_app. reflexivity.
    + intros d Hin.
      apply (updates_outcome SENT None dr_key (fun _ => sent_row (db_now clk)));
        auto using sent_row_keeps_key.
      intros a. split; reflexivity.
    + intros k Hk.
      apply (updates_frame dr_key (fun _ => sent_row (db_now clk)));
        auto using sent_row_keeps_key.
  - destruct (fold_mark_failed cfg e clk (snd (outcome res)) (first :: rest) st0)
      as (Ht & Htr & Hf & Hs).
    cbv zeta in Ht, Htr, Hs, Hf.
    rewrite Ht, Htr, Hs, Hf. simpl fst; simpl snd.
    split; [|split; [|split; [|split]]]; try (simpl; lia).
    + simpl. rewrite user_sends_app. reflexivity.
    + intros d Hin.
      assert (Hst : batch_status res = FAILED) by (destruct res; [discriminate|reflexivity..]).
      assert (Her : batch_error res = Some (py_prefix 500 (snd (outcome res))))
        by (destruct res; [discriminate|reflexivity..]).
      rewrite Hst, Her.
      apply (updates_outcome FAILED (Some (py_prefix 500 (snd (outcome res)))) dr_key
               (fun a => failed_row (snd (outcome res))
                           (compute_backoff_seconds (dr_attempt_count a + 1)
                              (retry_base_sec cfg) (retry_max_sec cfg)) (db_now clk)));
        auto using failed_row_keeps_key.
      intros a. split; reflexivity.
    + intros k Hk.
      apply (updates_frame dr_key
               (fun a => failed_row (snd (outcome res))
                           (compute_backoff_seconds (dr_attempt_count a + 1)
                              (retry_base_sec cfg) (retry_max_sec cfg)) (db_now clk)));
        auto using failed_row_keeps_key.
Qed.
End EmailBatch.

Lemma email_batch_single_outcome_witness :
  row_has FAILED (Some (lit "send_exception=Timeout:read timed out"))
    (w_deliveries
       (fst (@process_batch ascii_runtime default_config sample_admin provider_down
               noon [sample_due 4 0; sample_due 5 2]
               (sample_world [sample_delivery 4 0; sample_delivery 5 2],
                {| queued := 0; skipped := 0; sent := 0; failed := 0 |}))))
    (dr_key (sample_due 4 0)).
Proof.
  apply (@email_batch_single_outcome ascii_runtime default_config sample_admin
           provider_down noon (sample_due 4 0) [sample_due 5 2]
           (sample_world [sample_delivery 4 0; sample_delivery 5 2])
           {| queued := 0; skipped := 0; sent := 0; failed := 0 |}).
  - intros d [<-|[<-|[]]]; vm_compute; eauto.
  - left. reflexivity.
Defined.

(** ** Uniqueness of deliveries *)

Lemma existsb_has_key (k : dkey) (tbl : list delivery) :
  existsb (has_key k) tbl = true <-> In k (List.map key_of tbl).
Proof.
  rewrite existsb_exists, in_map_iff. split.
  - intros [d [Hin Hk]]. exists d. split; [|exact Hin].
    apply has_key_true in Hk. exact Hk.
  - intros [d [Hk Hin]]. exists d. split; [exact Hin|].
    apply has_key_true. exact Hk.
Qed.

Lemma insert_delivery_present (tbl : list delivery) (next : Z) (new : delivery) :
  In (key_of new) (List.map key_of tbl) ->
  insert_delivery tbl next new = (tbl, next + 1, None).
Proof.
  intros Hin. unfold insert_delivery.
  apply existsb_has_key in Hin. rewrite Hin. reflexivity.
Qed.

Lemma insert_delivery_keys (tbl : list delivery) (next : Z) (new : delivery) :
  let tbl' := fst (fst (insert_delivery tbl next new)) in
  In (key_of new) (List.map key_of tbl')
  /\ (forall k, In k (List.map key_of tbl) -> In k (List.map key_of tbl'))
  /\ (unique_keys tbl -> unique_keys tbl').
Proof.
  unfold insert_delivery.
  destruct (existsb (has_key (key_of new)) tbl) eqn:E; simpl.
  - apply existsb_has_key in E. auto.
  - rewrite map_app. simpl. repeat split.
    + apply in_or_app. right. left. reflexivity.
    + intros k Hk. apply in_or_app. left. exact Hk.
    + unfold unique_keys. rewrite map_app. simpl. intros Hnd.
      apply NoDup_app. split; [exact Hnd|]. split.
      * intros k Hk Hk'. apply list_elem_of_In in Hk, Hk'.
        destruct Hk' as [<-|[]]. apply existsb_has_key in Hk. congruence.
      * apply NoDup_singleton.
Qed.

(** Every write keeps the keys present and keeps them unique. *)
Lemma table_write_keys (tbl tbl' : list delivery) :
  table_write tbl tbl' ->
  (forall k, In k (List.map key_of tbl) -> In k (List.map key_of tbl'))
  /\ (unique_keys tbl -> unique_keys tbl').
Proof.
  intros [t next new|t k now|t k error backoff now].
  - destruct (insert_delivery_keys t next new) as (_ & Hk & Hu). auto.
  - pose proof (update_where_keys k _ (sent_row_keeps_key now) t) as E.
    unfold unique_keys. rewrite E. auto.
  - pose proof (update_where_keys k _ (failed_row_keeps_key error backoff now) t) as E.
    unfold unique_keys. rewrite E. auto.
Qed.

Lemma table_writes_keys (tbl tbl' : list delivery) :
  rtc table_write tbl tbl' ->
  (forall k, In k (List.map key_of tbl) -> In k (List.map key_of tbl'))
  /\ (unique_keys tbl -> unique_keys tbl').
Proof.
  induction 1 as [t|t1 t2 t3 Hstep _ [IHk IHu]]; [auto|].
  destruct (table_write_keys _ _ Hstep) as [Hk Hu]. auto.
Qed.

Lemma rows_with_unique (k : dkey) (tbl : list delivery) :
  unique_keys tbl -> In k (List.map key_of tbl) -> rows_with k tbl = 1%nat.
Proof.
  unfold unique_keys, rows_with.
  induction tbl as [|d tbl IH]; simpl; [intros _ []|].
  intros Hnd Hin. apply NoDup_cons in Hnd as [Hnotin Hnd].
  destruct (has_key k d) eqn:E; simpl.
  - apply has_key_true in E. subst k. f_equal.
    apply length_zero_iff_nil.
    destruct (List.filter (has_key (key_of d)) tbl) as [|x l] eqn:F; [reflexivity|].
    exfalso. apply Hnotin, list_elem_of_In.
    assert (Hx : In x (x :: l)) by (left; reflexivity).
    rewrite <- F in Hx. apply filter_In in Hx as [Hx Hkx].
    apply has_key_true in Hkx. rewrite <- Hkx. apply in_map. exact Hx.
  - destruct Hin as [Hd|Hin]; [|auto].
    exfalso. apply has_key_true in Hd. congruence.
Qed.

(** Every loop of the dispatcher changes the table by such writes only. *)
Section Writes.
Context `{PyRuntime}.
Variables (cfg : config) (e : admin_env) (send : user_provider) (clk : clock).

Lemma fold_writes {A} (step : world * counters -> A -> world * counters)
    (l : list A) (st : world * counters) :
  (forall st a, rtc table_write (table_of st) (table_of (step st a))) ->
  rtc table_write (table_of st) (table_of (fold_left step l st)).
Proof.
  intros Hstep. revert st. induction l as [|a l IH]; intros st; simpl.
  - apply rtc_refl.
  - eapply rtc_trans; [apply Hstep|apply IH].
Qed.

Lemma claim_insert_writes (al : alert) (now : Z) (priority : str)
    (row : item * str * str) (st : world * counters) :
  table_write (table_of st) (table_of (claim_insert al now priority row st)).
Proof.
  destruct row as [[it key] url], st as [w c]. unfold claim_insert, table_of.
  set (new := new_delivery _ _ _ _ _ _ _).
  pose proof (write_claim (w_deliveries w) (w_next_id w) new) as Hw.
  destruct (insert_delivery (w_deliveries w) (w_next_id w) new) as [[tbl nxt] [id|]];
    exact Hw.
Qed.

Lemma claim_all_writes (al : alert) (p : prefs) (now : Z)
    (rows : list (item * str * str)) (st : world * counters) :
  rtc table_write (table_of st) (table_of (claim_all al p now rows st)).
Proof.
  unfold claim_all. apply fold_writes. intros st' row. unfold claim_one.
  destruct (existsb _ _); [apply rtc_refl|].
  destruct (negb _); [apply rtc_refl|].
  apply rtc_once, claim_insert_writes.
Qed.

Lemma mark_sent_writes (d : due_row) (w : world) :
  table_write (w_deliveries w) (w_deliveries (mark_delivery_sent clk d w)).
Proof. apply write_sent. Qed.

Lemma mark_failed_writes (d : due_row) (error : str) (w : world) :
  table_write (w_deliveries w) (w_deliveries (mark_delivery_failed cfg e clk d error w)).
Proof. rewrite mark_failed_deliveries. apply write_failed. Qed.

Lemma process_batch_writes (batch : list due_row) (st : world * counters) :
  rtc table_write (table_of st) (table_of (process_batch cfg e send clk batch st)).
Proof.
  unfold process_batch. destruct batch as [|first rest]; [apply rtc_refl|].
  destruct (outcome _) as [[] err].
  - apply (fold_writes _ _ (log_event _ (fst st), snd st)).
    intros st' d. apply rtc_once, mark_sent_writes.
  - apply (fold_writes _ _ (log_event _ (fst st), snd st)).
    intros st' d. apply rtc_once, mark_failed_writes.
Qed.

Lemma process_single_writes (d : due_row) (st : world * counters) :
  rtc table_write (table_of st) (table_of (process_single cfg e send clk d st)).
Proof.
  unfold process_single.
  destruct (str_eqb (dr_channel d) (lit "telegram")).
  - destruct (outcome _) as [[] err]; apply rtc_once.
    + exact (mark_sent_writes d (log_event _ (fst st))).
    + exact (mark_failed_writes d err (log_event _ (fst st))).
  - apply rtc_once, mark_failed_writes.
Qed.

Lemma with_items_writes (cat : catalog) (p : prefs) (due : list due_row)
    (st : world * counters) :
  rtc table_write (table_of st) (table_of (snd (with_items cfg e clk cat p due st))).
Proof.
  revert st. induction due as [|d due IH]; intros st; simpl; [apply rtc_refl|].
  destruct (negb (routed p d)); [apply IH|].
  destruct (existsb _ _).
  - specialize (IH st). destruct (with_items cfg e clk cat p due st). exact IH.
  - eapply rtc_l; [|apply IH]. apply mark_failed_writes.
Qed.

(** A single-shot loop that completes has taken the turns of its
    deliveries one after the other. *)
Lemma dispatch_single_turns (cat : catalog) (p : prefs) (due : list due_row)
    (st st' : world * counters) :
  dispatch_single cfg e send clk cat p due st = Some st' ->
  st' = fold_left (single_turn cfg e send clk cat p) due st.
Proof.
  revert st. induction due as [|d due IH]; intros st; cbn [dispatch_single fold_left].
  - intros [= <-]. reflexivity.
  - unfold single_turn at 2. destruct (negb (routed p d)); [apply IH|].
    destruct (List.find _ _) as [a|] eqn:Ef.
    + apply find_some in Ef as [Hin Hid].
      replace (existsb _ (cat_articles cat)) with true
        by (symmetry; apply existsb_exists; eauto).
      destruct (a_title a); [apply IH|discriminate].
    + replace (existsb _ (cat_articles cat)) with false; [apply IH|].
      symmetry. apply not_true_is_false. intros Hex.
      apply existsb_exists in Hex as (a & Hin & Hid).
      rewrite (find_none _ _ Ef a Hin) in Hid. discriminate.
Qed.

Lemma dispatch_single_writes (cat : catalog) (p : prefs) (due : list due_row)
    (st st' : world * counters) :
  dispatch_single cfg e send clk cat p due st = Some st' ->
  rtc table_write (table_of st) (table_of st').
Proof.
  intros Hrun. apply dispatch_single_turns in Hrun. subst st'.
  apply fold_writes. intros st' d. unfold single_turn.
  destruct (negb (routed p d)); [apply rtc_refl|].
  destruct (existsb _ _); [apply process_single_writes|].
  apply rtc_once, mark_failed_writes.
Qed.

Lemma dispatch_email_writes (cat : catalog) (p : prefs) (due : list due_row)
    (st st' : world * counters) :
  dispatch_email cfg e send clk cat p due st = Some st' ->
  rtc table_write (table_of st) (table_of st').
Proof.
  unfold dispatch_email.
  pose proof (with_items_writes cat p due st) as Hw.
  destruct (with_items cfg e clk cat p due st) as [ready st1]. simpl in Hw.
  destruct (max_items_per_email cfg =? 0); [discriminate|].
  destruct (max_items_per_email cfg <? 0); intros [= <-]; [exact Hw|].
  eapply rtc_trans; [exact Hw|].
  apply fold_writes. intros st2 batch. apply process_batch_writes.
Qed.

(** One alert's turn of the sweep changes the table by such writes only. *)
Lemma process_alert_writes (cat : catalog) (p : prefs) (al : alert)
    (w w' : world) (c c' : counters) (pu pu' : gmap str Z) :
  process_alert cfg e send clk cat p al (w, c, pu) = Some (w', c', pu') ->
  rtc table_write (w_deliveries w) (w_deliveries w').
Proof.
  unfold process_alert.
  destruct (scan_matches None _) as [max_ts rows].
  pose proof (claim_all_writes al p (db_now clk) rows (w, c)) as Hc.
  destruct (claim_all al p (db_now clk) rows (w, c)) as [w1 c1].
  unfold table_of in Hc. simpl in Hc. simpl w_deliveries.
  destruct (filter_due cfg pu _) as [pu1 due].
  destruct (str_eqb (al_channel al) (lit "email")).
  - destruct (dispatch_email _ _ _ _ _ _ _ _) as [[w2 c2]|] eqn:E; [|discriminate].
    intros [= <- <- <-]. apply dispatch_email_writes in E.
    eapply rtc_trans; [exact Hc|exact E].
  - destruct (dispatch_single _ _ _ _ _ _ _ _) as [[w2 c2]|] eqn:E; [|discriminate].
    intros [= <- <- <-]. apply dispatch_single_writes in E.
    eapply rtc_trans; [exact Hc|exact E].
Qed.
End Writes.

Lemma claim_insert_key (al : alert) (now : Z) (priority : str)
    (row : item * str * str) (w : world) :
  key_of (new_delivery (w_next_id w) now al (it_id (fst (fst row)))
            (snd (fst row)) (snd row) priority)
  = claim_key al row.
Proof. reflexivity. Qed.

(** C2: a claim keeps the deliveries unique per (alert, article, channel);
    and whatever the dispatcher writes afterwards, in this run or a later
    one, the table stays unique, holds exactly one row for the claimed
    triple, and a second claim of that triple changes nothing in the table
    and is counted as skipped, not as queued. *)
Theorem claim_is_unique_and_idempotent (al : alert) (now : Z) (priority : str)
    (row : item * str * str) (w : world) (c : counters) :
  unique_keys (w_deliveries w) ->
  let st1 := claim_insert al now priority row (w, c) in
  unique_keys (table_of st1)
  /\ forall tbl2, rtc table_write (table_of st1) tbl2 ->
       unique_keys tbl2
       /\ rows_with (claim_key al row) tbl2 = 1%nat
       /\ forall (al2 : alert) (now2 : Z) (priority2 : str)
                 (row2 : item * str * str) (w2 : world) (c2 : counters),
            w_deliveries w2 = tbl2 ->
            claim_key al2 row2 = claim_key al row ->
            let st2 := claim_insert al2 now2 priority2 row2 (w2, c2) in
            table_of st2 = tbl2
            /\ skipped (snd st2) = skipped c2 + 1
            /\ queued (snd st2) = queued c2.
Proof.
  intros Hu st1.
  assert (H1 : unique_keys (table_of st1)
               /\ In (claim_key al row) (List.map key_of (table_of st1))).
  { subst st1. destruct row as [[it key] url]. unfold claim_insert, table_of.
    set (new := new_delivery _ _ _ _ _ _ _).
    destruct (insert_delivery_keys (w_deliveries w) (w_next_id w) new)
      as (Hin & _ & Hun).
    destruct (insert_delivery (w_deliveries w) (w_next_id w) new)
      as [[tbl nxt] [id|]]; simpl in *; auto. }
  destruct H1 as [Hu1 Hin1]. split; [exact Hu1|].
  intros tbl2 Hw. destruct (table_writes_keys _ _ Hw) as [Hk2 Hu2].
  split; [auto|]. split; [apply rows_with_unique; auto|].
  intros al2 now2 priority2 row2 w2 c2 Htbl Hkey st2. subst st2 tbl2.
  destruct row2 as [[it2 key2] url2]. unfold claim_insert, table_of.
  rewrite insert_delivery_present; [simpl; auto|].
  change (In (claim_key al2 (it2, key2, url2)) (List.map key_of (w_deliveries w2))).
  rewrite Hkey. auto.
Qed.

Lemma claim_is_unique_and_idempotent_witness :
  let tbl := [sample_delivery 4 0] in
  let row := (stamped_item 5 300, lit "unknown:5", []) in
  let st1 := claim_insert sample_alert 0 (lit "P1") row
               (sample_world tbl, {| queued := 0; skipped := 0; sent := 0; failed := 0 |}) in
  let st2 := claim_insert sample_alert 86400000000 (lit "P1") row st1 in
  table_of st2 = table_of st1
  /\ skipped (snd st2) = skipped (snd st1) + 1
  /\ queued (snd st2) = queued (snd st1).
Proof.
  intros tbl row st1 st2.
  assert (Hu : unique_keys (w_deliveries (sample_world tbl))).
  { unfold unique_keys. simpl. apply NoDup_singleton. }
  destruct (claim_is_unique_and_idempotent sample_alert 0 (lit "P1") row
              (sample_world tbl)
              {| queued := 0; skipped := 0; sent := 0; failed := 0 |} Hu)
    as [_ Hafter].
  destruct (Hafter (table_of st1) (rtc_refl _ _)) as (_ & _ & Hagain).
  exact (Hagain sample_alert 86400000000 (lit "P1") row (fst st1) (snd st1)
           eq_refl eq_refl).
Defined.

(** ** Escalation and its cooldown *)

Section Cooldown.
Context `{PyRuntime}.

Lemma cooldown_pass (key : str) (cooldown now : Z) (fs fs' : notify_file) :
  admin_should_notify_with_cooldown key cooldown now fs = Some (true, fs') ->
  cooldown <= now - last_notified fs key
  /\ fs' = {| nf_data := Some (<[key := now]> (default ∅ (nf_data fs)));
              nf_unreadable := nf_unreadable fs;
              nf_writable := true |}.
Proof.
  unfold admin_should_notify_with_cooldown, last_notified.
  destruct (nf_unreadable fs key); [discriminate|].
  destruct (_ <? cooldown) eqn:E; [discriminate|].
  apply Z.ltb_ge in E.
  destruct (nf_writable fs); [|discriminate].
  intros [= <-]. auto.
Qed.

(** A check that returns has read the key's entry. *)
Lemma cooldown_read (key : str) (cooldown now : Z) (fs : notify_file)
    (r : bool * notify_file) :
  admin_should_notify_with_cooldown key cooldown now fs = Some r ->
  nf_unreadable fs key = false.
Proof.
  unfold admin_should_notify_with_cooldown.
  destruct (nf_unreadable fs key); [discriminate|reflexivity].
Qed.

Lemma cooldown_running (key : str) (cooldown now : Z) (fs : notify_file) :
  nf_unreadable fs key = false ->
  now - last_notified fs key < cooldown ->
  admin_should_notify_with_cooldown key cooldown now fs = Some (false, fs).
Proof.
  unfold admin_should_notify_with_cooldown, last_notified. intros Hread Hlt.
  apply Z.ltb_lt in Hlt. rewrite Hread, Hlt. reflexivity.
Qed.

(** Where the key's entry cannot be read, the escalation raises before its
    cooldown test; [log_delivery_giveup] swallows the exception, so nothing
    is written and nothing is sent. *)
Lemma unreadable_entry_silences (e : admin_env) (now : Z) (fs : notify_file)
    (channel error : str) :
  admin_notify_enabled e = true ->
  nf_unreadable fs (giveup_cooldown_key channel error) = true ->
  notify_admin_giveup e now fs channel error = None
  /\ log_delivery_giveup e now fs channel error = (fs, []).
Proof.
  intros Hen Hbad.
  assert (Hnone : notify_admin_giveup e now fs channel error = None).
  { unfold notify_admin_giveup, escalate, admin_should_notify_with_cooldown.
    rewrite Hen, Hbad. reflexivity. }
  split; [exact Hnone|]. unfold log_delivery_giveup. rewrite Hnone. reflexivity.
Qed.

Lemma last_notified_refreshed (key : str) (now : Z) (data : gmap str Z)
    (bad : str -> bool) :
  last_notified {| nf_data := Some (<[key := now]> data); nf_unreadable := bad;
                   nf_writable := true |} key
  = now.
Proof. unfold last_notified. simpl. rewrite lookup_insert_eq. reflexivity. Qed.

Lemma last_notified_other (key key' : str) (now : Z) (data : gmap str Z)
    (bad : str -> bool) (b : bool) :
  key' <> key ->
  last_notified {| nf_data := Some (<[key' := now]> data); nf_unreadable := bad;
                   nf_writable := b |} key
  = last_notified {| nf_data := Some data; nf_unreadable := bad;
                     nf_writable := b |} key.
Proof.
  intros Hne. unfold last_notified. simpl.
  rewrite lookup_insert_ne; [reflexivity|exact Hne].
Qed.

(** C9: when an escalation (give-up or backlog) passes its cooldown check,
    the state file is rewritten with the key's timestamp set to the current
    time before the two operator sends are attempted; the refreshed state
    does not depend on what the operator channels answer, and until the
    cooldown has run out every further escalation of that key returns
    without attempting anything. *)
Theorem escalation_consumes_cooldown (e : admin_env) (key : str)
    (cooldown now : Z) (fs fs' : notify_file) :
  admin_notify_enabled e = true ->
  admin_should_notify_with_cooldown key cooldown now fs = Some (true, fs') ->
  escalate e key cooldown now fs
  = Some (fs', EvCooldownWrite key now
               :: [EvAdminSend AdminTelegram key (is_ok (send_admin_telegram e key now));
                   EvAdminSend AdminEmail key (is_ok (send_admin_email e key now))])
  /\ last_notified fs' key = now
  /\ (forall (e' : admin_env) (now' : Z),
        now' - now < cooldown ->
        escalate e' key cooldown now' fs' = Some (fs', [])).
Proof.
  intros Hen Hpass. unfold escalate. rewrite Hen, Hpass.
  split; [reflexivity|].
  pose proof (cooldown_read _ _ _ _ _ Hpass) as Hread.
  apply cooldown_pass in Hpass as [_ ->].
  rewrite last_notified_refreshed. split; [reflexivity|].
  intros e' now' Hlt.
  rewrite cooldown_running;
    [|exact Hread|rewrite last_notified_refreshed; exact Hlt].
  destruct (admin_notify_enabled e'); reflexivity.
Qed.
End Cooldown.

Lemma escalation_consumes_cooldown_witness :
  @notify_admin_giveup ascii_runtime sample_admin 50000
    {| nf_data := None; nf_unreadable := fun _ => false; nf_writable := true |}
    (lit "email") (lit "resend_status=500")
  = Some ({| nf_data := Some {[ lit "giveup:email:resend_status=500" := 50000 ]};
             nf_unreadable := fun _ => false; nf_writable := true |},
          [EvCooldownWrite (lit "giveup:email:resend_status=500") 50000;
           EvAdminSend AdminTelegram (lit "giveup:email:resend_status=500") false;
           EvAdminSend AdminEmail (lit "giveup:email:resend_status=500") false]).
Proof.
  apply (@escalation_consumes_cooldown ascii_runtime sample_admin
           (lit "giveup:email:resend_status=500") 3600 50000
           {| nf_data := None; nf_unreadable := fun _ => false;
              nf_writable := true |}
           {| nf_data := Some {[ lit "giveup:email:resend_status=500" := 50000 ]};
              nf_unreadable := fun _ => false; nf_writable := true |});
    reflexivity.
Defined.

(** ** Give-up *)

Section Giveup.
Context `{PyRuntime}.
Variables (cfg : config) (e : admin_env).

Lemma escalations_app (key : str) (a b : list event) :
  escalations key (a ++ b) = (escalations key a + escalations key b)%nat.
Proof. unfold escalations. rewrite List.filter_app. apply length_app. Qed.

Lemma str_eqb_eq (a b : str) : str_eqb a b = true <-> a = b.
Proof. unfold str_eqb. apply bool_decide_eq_true. Qed.

Lemma str_eqb_refl (a : str) : str_eqb a a = true.
Proof. apply str_eqb_eq. reflexivity. Qed.

Lemma str_eqb_ne (a b : str) : a <> b -> str_eqb a b = false.
Proof. intros Hne. unfold str_eqb. apply bool_decide_eq_false. exact Hne. Qed.

(** What one failure does to the operator state and to the trace. *)
Lemma mark_failed_escalation (f : failure) (w : world) :
  let w' := mark_delivery_failed cfg e (fst (fst f)) (snd (fst f)) (snd f) w in
  if is_giveup cfg f then
    (w_notify w', w_trace w')
    = (let r := log_delivery_giveup e (wall_now (fst (fst f))) (w_notify w)
                  (dr_channel (snd (fst f))) (snd f) in
       (fst r, w_trace w ++ snd r))
  else (w_notify w', w_trace w') = (w_notify w, w_trace w).
Proof.
  destruct f as [[clk d] err]. unfold is_giveup, mark_delivery_failed. simpl.
  destruct (max_attempts cfg <=? dr_attempt_count d + 1); [|reflexivity].
  destruct (log_delivery_giveup e _ _ _ _); reflexivity.
Qed.

Lemma operator_events_app (key : str) (a b : list event) :
  operator_events key (a ++ b) = operator_events key a ++ operator_events key b.
Proof. unfold operator_events. apply List.filter_app. Qed.

(** While the cooldown of [key] runs from [t0], a failure leaves the
    timestamp of [key] alone, adds no escalation of [key] and sends the
    operators nothing about [key]. *)
Lemma failure_within_cooldown (key : str) (t0 : Z) (f : failure) (w : world) :
  nf_unreadable (w_notify w) key = false ->
  last_notified (w_notify w) key = t0 ->
  (is_giveup cfg f = true -> failure_key f = key ->
   wall_now (fst (fst f)) - t0 < giveup_cooldown_sec e) ->
  let w' := mark_delivery_failed cfg e (fst (fst f)) (snd (fst f)) (snd f) w in
  nf_unreadable (w_notify w') key = false
  /\ last_notified (w_notify w') key = t0
  /\ escalations key (w_trace w') = escalations key (w_trace w)
  /\ operator_events key (w_trace w') = operator_events key (w_trace w).
Proof.
  intros Hread Hlast Hwin w'. pose proof (mark_failed_escalation f w) as Hm.
  fold w' in Hm. destruct (is_giveup cfg f) eqn:Hg.
  2:{ injection Hm as -> ->. auto. }
  injection Hm as -> ->. rewrite escalations_app, operator_events_app.
  unfold log_delivery_giveup, notify_admin_giveup, escalate.
  fold (failure_key f).
  assert (Hnil : forall n : nat, (n + escalations key [])%nat = n)
    by (intros n; unfold escalations; simpl; lia).
  assert (Hnil' : forall l : list event, l ++ operator_events key [] = l)
    by (intros l; unfold operator_events; simpl; apply app_nil_r).
  destruct (admin_notify_enabled e); [|simpl; auto].
  destruct (decide (failure_key f = key)) as [Heq|Hne].
  - rewrite cooldown_running; [simpl; auto|rewrite Heq; exact Hread|].
    rewrite Heq, Hlast. auto.
  - destruct (admin_should_notify_with_cooldown _ _ _ _) as [[[] fs1]|] eqn:E;
      simpl; auto.
    + apply cooldown_pass in E as [_ ->].
      unfold escalations at 2. unfold operator_events at 2. simpl.
      rewrite (str_eqb_ne _ _ Hne). simpl.
      split; [exact Hread|]. split; [|split; [lia|apply app_nil_r]].
      rewrite last_notified_other; [|exact Hne].
      rewrite <- Hlast. unfold last_notified. simpl.
      destruct (nf_data (w_notify w)); reflexivity.
    + unfold admin_should_notify_with_cooldown in E.
      destruct (nf_unreadable (w_notify w) (failure_key f)); [discriminate|].
      destruct (_ <? _); [|destruct (nf_writable _); discriminate].
      injection E as <-. auto.
Qed.

Lemma failures_within_cooldown (key : str) (t0 : Z) (fails : list failure)
    (w : world) :
  nf_unreadable (w_notify w) key = false ->
  last_notified (w_notify w) key = t0 ->
  (forall f, In f fails -> is_giveup cfg f = true -> failure_key f = key ->
             wall_now (fst (fst f)) - t0 < giveup_cooldown_sec e) ->
  escalations key (w_trace (fail_all cfg e fails w)) = escalations key (w_trace w)
  /\ operator_events key (w_trace (fail_all cfg e fails w))
     = operator_events key (w_trace w).
Proof.
  revert w. induction fails as [|f fails IH]; intros w Hread Hlast Hwin; [auto|].
  unfold fail_all. simpl.
  destruct (failure_within_cooldown key t0 f w Hread Hlast)
    as (Hread' & Hlast' & Hesc & Hops).
  { intros Hg Hk. apply Hwin; auto. left. reflexivity. }
  fold (fail_all cfg e fails
          (mark_delivery_failed cfg e (fst (fst f)) (snd (fst f)) (snd f) w)).
  rewrite <- Hesc, <- Hops. apply IH; [exact Hread'|exact Hlast'|].
  intros f' Hin. apply Hwin. right. exact Hin.
Qed.
End Giveup.

(** No write of the dispatcher lowers an attempt count. *)
Lemma find_delivery_app (tbl : list delivery) (d : delivery) (k : dkey)
    (row : delivery) :
  find_delivery tbl k = Some row -> find_delivery (tbl ++ [d]) k = Some row.
Proof.
  unfold find_delivery. induction tbl as [|x tbl IH]; simpl; [discriminate|].
  destruct (has_key k x); auto.
Qed.

Lemma table_write_attempts (tbl tbl' : list delivery) (k : dkey) (row : delivery) :
  table_write tbl tbl' ->
  find_delivery tbl k = Some row ->
  exists row', find_delivery tbl' k = Some row'
               /\ d_attempt_count row <= d_attempt_count row'.
Proof.
  intros [t next new|t k' now|t k' error backoff now] Hrow.
  - exists row. split; [|lia]. unfold insert_delivery.
    destruct (existsb _ _); simpl; [exact Hrow|].
    apply find_delivery_app, Hrow.
  - destruct (decide (k = k')) as [->|Hne].
    + exists (sent_row now row).
      rewrite (find_update_same _ _ (sent_row_keeps_key now)), Hrow.
      split; [reflexivity|simpl; lia].
    + exists row. rewrite (find_update_other _ _ (sent_row_keeps_key now)); auto.
      split; [exact Hrow|lia].
  - destruct (decide (k = k')) as [->|Hne].
    + exists (failed_row error backoff now row).
      rewrite (find_update_same _ _ (failed_row_keeps_key error backoff now)), Hrow.
      split; [reflexivity|simpl; lia].
    + exists row.
      rewrite (find_update_other _ _ (failed_row_keeps_key error backoff now)); auto.
      split; [exact Hrow|lia].
Qed.

Lemma table_writes_attempts (tbl tbl' : list delivery) (k : dkey) (row : delivery) :
  rtc table_write tbl tbl' ->
  find_delivery tbl k = Some row ->
  exists row', find_delivery tbl' k = Some row'
               /\ d_attempt_count row <= d_attempt_count row'.
Proof.
  intros Hw. revert row. induction Hw as [t|t1 t2 t3 Hstep _ IH]; intros row Hrow.
  - exists row. split; [exact Hrow|lia].
  - destruct (table_write_attempts _ _ _ _ Hstep Hrow) as (r2 & Hr2 & Hle).
    destruct (IH _ Hr2) as (r3 & Hr3 & Hle'). exists r3. split; [exact Hr3|lia].
Qed.

Lemma exhausted_never_due (max_att now : Z) (row : delivery) :
  max_att <= d_attempt_count row -> is_due max_att now row = false.
Proof.
  intros Hle. unfold is_due.
  replace (d_attempt_count row <? max_att) with false
    by (symmetry; apply Z.ltb_ge; exact Hle).
  apply andb_false_r.
Qed.

Section GiveupFinal.
Context `{PyRuntime}.
Variables (cfg : config) (e : admin_env).

(** C4: with at most five attempts, the fifth consecutive failure of a
    delivery leaves it outside the due set at every later time and after
    any later writes of the dispatcher; and with an operator channel
    configured and the state file writable and readable at the key, it
    escalates once: however many further deliveries give up with the same
    (channel, error class) key before the cooldown has run out, the trace
    gains exactly one escalation of that key, and what the operators get
    about the key is that one refresh of its timestamp followed by one send
    on each operator channel, and nothing else. *)
Theorem giveup_is_final_and_throttled (f0 : failure) (rest : list failure)
    (w : world) (row : delivery) :
  let clk0 := fst (fst f0) in
  let d0 := snd (fst f0) in
  let key := failure_key f0 in
  max_attempts cfg = 5 ->
  admin_notify_enabled e = true ->
  nf_unreadable (w_notify w) key = false ->
  nf_writable (w_notify w) = true ->
  find_delivery (w_deliveries w) (dr_key d0) = Some row ->
  d_attempt_count row = 4 ->
  dr_attempt_count d0 = 4 ->
  giveup_cooldown_sec e <= wall_now clk0 - last_notified (w_notify w) key ->
  (forall f, In f rest -> is_giveup cfg f = true -> failure_key f = key ->
             wall_now (fst (fst f)) - wall_now clk0 < giveup_cooldown_sec e) ->
  let w1 := mark_delivery_failed cfg e clk0 d0 (snd f0) w in
  let w' := fail_all cfg e rest w1 in
  (forall tbl, rtc table_write (w_deliveries w1) tbl ->
     exists row', find_delivery tbl (dr_key d0) = Some row'
                  /\ forall now, is_due (max_attempts cfg) now row' = false)
  /\ escalations key (w_trace w') = S (escalations key (w_trace w))
  /\ operator_events key (w_trace w')
     = operator_events key (w_trace w)
       ++ [EvCooldownWrite key (wall_now clk0);
           EvAdminSend AdminTelegram key
             (is_ok (send_admin_telegram e key (wall_now clk0)));
           EvAdminSend AdminEmail key
             (is_ok (send_admin_email e key (wall_now clk0)))].
Proof.
  destruct f0 as [[clk0 d0] err0]. cbn [fst snd].
  set (key := failure_key (clk0, d0, err0)).
  intros Hmax Hen Hread Hwr Hrow Hcount Hdue Hexp Hwin.
  set (w1 := mark_delivery_failed cfg e clk0 d0 err0 w).
  split.
  - intros tbl Hw.
    assert (Hrow1 : find_delivery (w_deliveries w1) (dr_key d0)
                    = Some (failed_row err0
                              (compute_backoff_seconds (dr_attempt_count d0 + 1)
                                 (retry_base_sec cfg) (retry_max_sec cfg))
                              (db_now clk0) row)).
    { subst w1. rewrite mark_failed_deliveries.
      rewrite (find_update_same _ _ (failed_row_keeps_key _ _ _)), Hrow.
      reflexivity. }
    destruct (table_writes_attempts _ _ _ _ Hw Hrow1) as (row' & Hrow' & Hle).
    exists row'. split; [exact Hrow'|].
    intros now. apply exhausted_never_due. simpl in Hle. lia.
  - pose proof (mark_failed_escalation cfg e (clk0, d0, err0) w) as Hm.
    cbn [fst snd] in Hm. fold w1 in Hm.
    assert (Hg : is_giveup cfg (clk0, d0, err0) = true).
    { unfold is_giveup. cbn [fst snd]. apply Z.leb_le. lia. }
    rewrite Hg in Hm.
    unfold log_delivery_giveup, notify_admin_giveup, escalate in Hm.
    change (giveup_cooldown_key (dr_channel d0) err0) with key in Hm.
    rewrite Hen in Hm.
    assert (Hpass : admin_should_notify_with_cooldown key (giveup_cooldown_sec e)
                      (wall_now clk0) (w_notify w)
                    = Some (true, {| nf_data := Some (<[key := wall_now clk0]>
                                                       (default ∅ (nf_data (w_notify w))));
                                     nf_unreadable := nf_unreadable (w_notify w);
                                     nf_writable := true |})).
    { unfold admin_should_notify_with_cooldown.
      fold (last_notified (w_notify w) key). rewrite Hread.
      replace (_ <? _) with false by (symmetry; apply Z.ltb_ge; exact Hexp).
      rewrite Hwr. reflexivity. }
    rewrite Hpass in Hm. simpl in Hm. injection Hm as Hn Ht.
    destruct (failures_within_cooldown cfg e key (wall_now clk0) rest w1)
      as [Hesc Hops].
    + rewrite Hn. exact Hread.
    + rewrite Hn. apply last_notified_refreshed.
    + exact Hwin.
    + rewrite Hesc, Hops, Ht, escalations_app, operator_events_app.
      unfold escalations at 2. unfold operator_events at 2. simpl.
      rewrite str_eqb_refl. simpl. split; [lia|reflexivity].
Qed.
End GiveupFinal.

Lemma giveup_is_final_and_throttled_witness :
  operator_events (lit "giveup:email:resend_status=500")
    (w_trace
       (@fail_all ascii_runtime default_config sample_admin
          [({| db_now := 50010000000; wall_now := 50010 |}, sample_due 5 4,
            lit "resend_status=500")]
          (@mark_delivery_failed ascii_runtime default_config sample_admin
             {| db_now := 50000000000; wall_now := 50000 |} (sample_due 4 4)
             (lit "resend_status=500")
             (sample_world [sample_delivery 4 4; sample_delivery 5 4]))))
  = [EvCooldownWrite (lit "giveup:email:resend_status=500") 50000;
     EvAdminSend AdminTelegram (lit "giveup:email:resend_status=500") false;
     EvAdminSend AdminEmail (lit "giveup:email:resend_status=500") false].
Proof.
  apply (@giveup_is_final_and_throttled ascii_runtime default_config sample_admin
           ({| db_now := 50000000000; wall_now := 50000 |}, sample_due 4 4,
            lit "resend_status=500")
           [({| db_now := 50010000000; wall_now := 50010 |}, sample_due 5 4,
             lit "resend_status=500")]
           (sample_world [sample_delivery 4 4; sample_delivery 5 4])
           (sample_delivery 4 4));
    try reflexivity.
  - vm_compute. discriminate.
  - intros f [<-|[]] _ _. vm_compute. reflexivity.
Defined.

(** ** The order of the matches *)

Section Sorting.
Context {A : Type} (leb : A -> A -> bool).
Hypothesis leb_total : forall x y, leb x y = true \/ leb y x = true.

Let le (x y : A) : Prop := leb x y = true.

Lemma insert_by_hd (x a : A) (l : list A) :
  le a x -> HdRel le a l -> HdRel le a (insert_by leb x l).
Proof.
  intros Hax Hl. destruct l as [|y l]; simpl; [constructor; exact Hax|].
  destruct (leb x y); constructor; [exact Hax|].
  inversion Hl; assumption.
Qed.

Lemma insert_by_sorted (x : A) (l : list A) :
  Sorted le l -> Sorted le (insert_by leb x l).
Proof.
  induction l as [|y l IH]; simpl; intros Hs.
  - repeat constructor.
  - inversion Hs as [|? ? Hs' Hhd]; subst.
    destruct (leb x y) eqn:E.
    + constructor; [exact Hs|constructor; exact E].
    + constructor; [apply IH; exact Hs'|].
      apply insert_by_hd; [|exact Hhd].
      destruct (leb_total x y) as [Hxy|Hyx]; [congruence|exact Hyx].
Qed.

Lemma sort_by_sorted (l : list A) : Sorted le (sort_by leb l).
Proof.
  induction l as [|x l IH]; simpl; [constructor|].
  apply insert_by_sorted, IH.
Qed.
End Sorting.

Lemma Sorted_firstn {A} (R : A -> A -> Prop) (n : nat) (l : list A) :
  Sorted R l -> Sorted R (firstn n l).
Proof.
  revert l. induction n as [|n IH]; intros l Hs; [constructor|].
  destruct l as [|x l]; [constructor|]. cbn [firstn].
  inversion Hs as [|? ? Hs' Hhd]; subst.
  constructor; [apply IH; exact Hs'|].
  destruct l as [|y l]; [destruct n; constructor|].
  destruct n; cbn [firstn]; constructor. inversion Hhd; assumption.
Qed.

Lemma Sorted_map {A B} (R : A -> A -> Prop) (S : B -> B -> Prop) (f : A -> B)
    (l : list A) :
  (forall x y, R x y -> S (f x) (f y)) ->
  Sorted R l -> Sorted S (List.map f l).
Proof.
  intros Hf. induction 1 as [|x l Hs IH Hhd]; simpl; constructor; [exact IH|].
  destruct Hhd; simpl; constructor. auto.
Qed.

Lemma Sorted_weaken {A} (R S : A -> A -> Prop) (l : list A) :
  (forall x y, R x y -> S x y) -> Sorted R l -> Sorted S l.
Proof.
  intros HRS Hs. rewrite <- (map_id l). eapply Sorted_map; [|exact Hs]. exact HRS.
Qed.

Section MatchOrder.
Context `{PyRuntime}.

Lemma project_row_instant (cat : catalog) (sq : search_sql) (r : joined_row) :
  item_instant (project_row cat sq r) = row_ts sq r.
Proof.
  unfold item_instant, row_ts, project_row. simpl.
  destruct (eval_ts (sq_ts_expr sq) (fst r)); reflexivity.
Qed.

Lemma order_leb_total (cat : catalog) (sq : search_sql) (p : search_params)
    (x y : joined_row) :
  order_leb cat sq p x y = true \/ order_leb cat sq p y x = true.
Proof.
  unfold order_leb. destruct (sq_order sq).
  - destruct (Z.lt_trichotomy (row_rank cat p x) (row_rank cat p y)) as [Hlt|[Heq|Hgt]].
    + right. apply orb_true_iff. left. apply Z.ltb_lt. exact Hlt.
    + rewrite Heq, !Z.eqb_refl, !Z.ltb_irrefl. simpl.
      destruct (Z.le_ge_cases (row_ts sq x) (row_ts sq y)) as [Hle|Hle];
        [right|left]; apply Z.leb_le; exact Hle.
    + left. apply orb_true_iff. left. apply Z.ltb_lt. exact Hgt.
  - destruct (Z.le_ge_cases (row_ts sq x) (row_ts sq y)) as [Hle|Hle];
      [right|left]; apply Z.leb_le; exact Hle.
Qed.

Lemma pick_search_sql_order (ts : ts_expr) (sc : schema) :
  sq_order (pick_search_sql ts sc)
  = if has_search_tsv sc then OrderRankThenTs else OrderTs.
Proof.
  unfold pick_search_sql. destruct (has_search_tsv sc); [reflexivity|].
  destruct (_ ++ _); reflexivity.
Qed.

(** C6, as the code has it: without a full-text column the matches come
    newest first by their own as-of timestamp; with it they come by rank,
    highest first, and newest first only among matches of equal rank. *)
Theorem matcher_order (cfg : config) (cat : catalog) (now : Z) (al : alert)
    (cursor : option Z) :
  let sq := pick_search_sql
              (pick_article_ts_expr (has_published_at (cat_schema cat)))
              (cat_schema cat) in
  let p := search_params_of cfg al cursor in
  exists rows,
    matcher cfg cat now al cursor = List.map (project_row cat sq) rows
    /\ if has_search_tsv (cat_schema cat)
       then Sorted (rank_then_recency cat sq p) rows
       else Sorted recency_desc (matcher cfg cat now al cursor).
Proof.
  intros sq p. unfold matcher, run_search. fold sq p.
  set (hits := List.filter _ _).
  exists (firstn (Z.to_nat (p_limit p)) (sort_by (order_leb cat sq p) hits)).
  split; [reflexivity|].
  pose proof (Sorted_firstn _ (Z.to_nat (p_limit p)) _
                (sort_by_sorted (order_leb cat sq p) (order_leb_total cat sq p) hits))
    as Hs.
  pose proof (pick_search_sql_order
                (pick_article_ts_expr (has_published_at (cat_schema cat)))
                (cat_schema cat)) as Ho.
  fold sq in Ho.
  destruct (has_search_tsv (cat_schema cat)).
  - eapply Sorted_weaken; [|exact Hs]. intros x y. unfold order_leb. rewrite Ho.
    unfold rank_then_recency, row_rank, row_ts.
    intros [Hlt|[Heq Hle]%andb_true_iff]%orb_true_iff.
    + left. apply Z.ltb_lt. exact Hlt.
    + right. split; [apply Z.eqb_eq; exact Heq|apply Z.leb_le; exact Hle].
  - eapply Sorted_map; [|exact Hs]. intros x y. unfold order_leb. rewrite Ho.
    unfold recency_desc. rewrite !project_row_instant. apply Z.leb_le.
Qed.
End MatchOrder.

(** With a full-text column the older, better ranked article comes first:
    the matches are not in recency order. *)
Lemma matcher_order_counterexample :
  ~ Sorted recency_desc
      (@matcher ascii_runtime default_config (sample_catalog true oil_articles)
         1000 oil_alert None).
Proof.
  intros Hs. vm_compute in Hs.
  inversion Hs as [|? ? _ Hhd]; subst. inversion Hhd as [|? ? Hle]; subst.
  apply Hle. reflexivity.
Qed.

(** ** The substring fallback of the matcher *)

(** C1, at its failing input: the catalog has no full-text column, the
    saved search asks for "oil", and article 21 carries "Oil" in its title
    only.  Its title contains the query (ignoring case) and it lies in the
    window, yet the matcher returns article 22 alone: the fallback searches
    summary and content columns and never the title. *)
Theorem ilike_fallback_misses_title_match :
  toy_contains (lit "oil") (Some (lit "Oil tender awarded")) = true
  /\ List.map a_id (cat_articles (sample_catalog false oil_articles)) = [21; 22]
  /\ List.map it_id
       (@matcher ascii_runtime default_config (sample_catalog false oil_articles)
          1000 oil_alert None)
     = [22]
  /\ List.map it_id
       (@matcher ascii_runtime default_config (sample_catalog false oil_articles)
          1000 sample_alert None)
     = [22; 21].
Proof. vm_compute. repeat split. Qed.

(** ** URL normalisation *)

(** Normalising "http://x/a /" leaves a trailing space that the second
    pass strips. *)
Lemma normalize_url_counterexample :
  @normalize_url ascii_runtime (@normalize_url ascii_runtime (lit "http://x/a /"))
  <> @normalize_url ascii_runtime (lit "http://x/a /").
Proof. vm_compute. discriminate. Qed.

(** Two more ways in which a second pass finds work to do: a default port
    behind the one already dropped, and an authority that the first pass
    read as part of the path. *)
Example normalize_url_second_port :
  @normalize_url ascii_runtime (lit "http://x:80:80/") = lit "http://x:80"
  /\ @normalize_url ascii_runtime (lit "http://x:80") = lit "http://x".
Proof. vm_compute. auto. Qed.

Example normalize_url_hidden_authority :
  @normalize_url ascii_runtime (lit "http:////BAR/x") = lit "http://BAR/x"
  /\ @normalize_url ascii_runtime (lit "http://BAR/x") = lit "http://bar/x".
Proof. vm_compute. auto. Qed.

Section StripFacts.
Context `{PyRuntime}.

Lemma lstrip_head (s : str) :
  match py_lstrip s with [] => True | c :: _ => py_isspace c = false end.
Proof.
  induction s as [|c s IH]; simpl; [exact I|].
  destruct (py_isspace c) eqn:E; [exact IH|exact E].
Qed.

Lemma lstrip_id (c : N) (s : str) :
  py_isspace c = false -> py_lstrip (c :: s) = c :: s.
Proof. intros E. simpl. rewrite E. reflexivity. Qed.

Lemma lstrip_snoc (l : str) (c : N) :
  py_isspace c = false -> py_lstrip (l ++ [c]) = py_lstrip l ++ [c].
Proof.
  intros E. induction l as [|a l IH]; simpl; [rewrite E; reflexivity|].
  destruct (py_isspace a); [exact IH|reflexivity].
Qed.

Lemma rstrip_cons (c : N) (s : str) :
  py_isspace c = false -> py_rstrip (c :: s) = c :: py_rstrip s.
Proof.
  intros E. unfold py_rstrip. simpl.
  rewrite lstrip_snoc by exact E. rewrite rev_app_distr. reflexivity.
Qed.

Lemma lstrip_idem (s : str) : py_lstrip (py_lstrip s) = py_lstrip s.
Proof.
  pose proof (lstrip_head s) as Hh.
  destruct (py_lstrip s) as [|c t]; [reflexivity|]. apply lstrip_id, Hh.
Qed.

Lemma rstrip_idem (s : str) : py_rstrip (py_rstrip s) = py_rstrip s.
Proof.
  unfold py_rstrip. rewrite rev_involutive, lstrip_idem. reflexivity.
Qed.

(** Stripping is idempotent. *)
Lemma strip_idem (s : str) : py_strip (py_strip s) = py_strip s.
Proof.
  unfold py_strip. pose proof (lstrip_head s) as Hh.
  destruct (py_lstrip s) as [|c t]; [reflexivity|].
  rewrite rstrip_cons by exact Hh. rewrite lstrip_id by exact Hh.
  rewrite <- rstrip_cons by exact Hh. apply rstrip_idem.
Qed.

(** Where the [try] block raises, the stripped input comes back, and it
    comes back again. *)
Lemma normalize_url_raised (u : str) :
  normalize_url_try (py_strip u) = None ->
  normalize_url (normalize_url u) = normalize_url u.
Proof.
  intros Hnone.
  assert (Hn : normalize_url u = py_strip u).
  { unfold normalize_url. cbv zeta.
    destruct (py_strip u) as [|c r] eqn:E; [reflexivity|].
    rewrite Hnone. reflexivity. }
  rewrite Hn. unfold normalize_url. cbv zeta. rewrite strip_idem.
  destruct (py_strip u) as [|c r] eqn:E; [reflexivity|].
  rewrite Hnone. reflexivity.
Qed.
End StripFacts.

(** *** Cutting and spanning *)

Lemma cut_first_spec (ch : N) (s a b : str) :
  cut_first ch s = Some (a, b) -> s = a ++ ch :: b /\ ~ In ch a.
Proof.
  revert a. induction s as [|c s IH]; intros a; simpl; [discriminate|].
  destruct (N.eqb_spec c ch) as [->|Hne].
  - intros [= <- <-]. split; [reflexivity|intros []].
  - destruct (cut_first ch s) as [[a' b']|]; [|discriminate].
    intros [= <- <-]. destruct (IH a' eq_refl) as [-> Hnot].
    split; [reflexivity|]. intros [Heq|Hin]; [congruence|auto].
Qed.

Lemma cut_first_app (ch : N) (a b : str) :
  ~ In ch a -> cut_first ch (a ++ ch :: b) = Some (a, b).
Proof.
  induction a as [|c a IH]; simpl; intros Hnot.
  - rewrite N.eqb_refl. reflexivity.
  - destruct (N.eqb_spec c ch) as [->|Hne]; [exfalso; apply Hnot; left; reflexivity|].
    rewrite IH; [reflexivity|]. intros Hin. apply Hnot. right. exact Hin.
Qed.

Lemma cut_first_none (ch : N) (s : str) :
  ~ In ch s -> cut_first ch s = None.
Proof.
  induction s as [|c s IH]; simpl; intros Hnot; [reflexivity|].
  destruct (N.eqb_spec c ch) as [->|Hne]; [exfalso; apply Hnot; left; reflexivity|].
  rewrite IH; [reflexivity|]. intros Hin. apply Hnot. right. exact Hin.
Qed.

Lemma span_until_spec (stop : N -> bool) (s a b : str) :
  span_until stop s = (a, b) ->
  s = a ++ b
  /\ Forall (fun c => stop c = false) a
  /\ match b with [] => True | c :: _ => stop c = true end.
Proof.
  revert a. induction s as [|c s IH]; intros a; simpl.
  - intros [= <- <-]. repeat split. constructor.
  - destruct (stop c) eqn:E.
    + intros [= <- <-]. repeat split; [constructor|exact E].
    + destruct (span_until stop s) as [a' b']. intros [= <- <-].
      destruct (IH a' eq_refl) as (-> & Ha & Hb).
      repeat split; [constructor; assumption|exact Hb].
Qed.

Lemma span_until_app (stop : N -> bool) (a b : str) :
  Forall (fun c => stop c = false) a ->
  match b with [] => True | c :: _ => stop c = true end ->
  span_until stop (a ++ b) = (a, b).
Proof.
  intros Ha Hb. induction Ha as [|c a Hc Ha IH]; simpl.
  - destruct b as [|c b]; [reflexivity|]. simpl. rewrite Hb. reflexivity.
  - rewrite Hc, IH. reflexivity.
Qed.

Lemma remove_char_in (c x : N) (s : str) :
  In x (remove_char c s) <-> In x s /\ x <> c.
Proof.
  unfold remove_char. rewrite filter_In. split; intros [Hin Hx]; split; auto.
  - intros ->. rewrite N.eqb_refl in Hx. discriminate.
  - apply negb_true_iff, N.eqb_neq. exact Hx.
Qed.

Lemma remove_char_id (c : N) (s : str) : ~ In c s -> remove_char c s = s.
Proof.
  unfold remove_char. induction s as [|x s IH]; simpl; intros Hnot; [reflexivity|].
  destruct (N.eqb_spec x c) as [->|Hne]; [exfalso; apply Hnot; left; reflexivity|].
  simpl. rewrite IH; [reflexivity|]. intros Hin. apply Hnot. right. exact Hin.
Qed.

Lemma lstrip_c0_in (x : N) (s : str) : In x (lstrip_c0 s) -> In x s.
Proof.
  induction s as [|c s IH]; simpl; [auto|].
  destruct (c <=? 32)%N; [right; auto|auto].
Qed.

Lemma lstrip_char_idem (ch : N) (s : str) :
  lstrip_char ch (lstrip_char ch s) = lstrip_char ch s.
Proof.
  induction s as [|c s IH]; simpl; [reflexivity|].
  destruct (c =? ch)%N eqn:E; [exact IH|]. simpl. rewrite E. reflexivity.
Qed.

Lemma rstrip_char_idem (ch : N) (s : str) :
  rstrip_char ch (rstrip_char ch s) = rstrip_char ch s.
Proof.
  unfold rstrip_char. rewrite rev_involutive, lstrip_char_idem. reflexivity.
Qed.

Lemma lstrip_char_suffix (ch : N) (s : str) :
  exists pre, s = pre ++ lstrip_char ch s.
Proof.
  induction s as [|c s [pre IH]]; simpl; [exists []; reflexivity|].
  destruct (c =? ch)%N; [|exists []; reflexivity].
  exists (c :: pre). simpl. f_equal. exact IH.
Qed.

(** What [rstrip] leaves is a prefix. *)
Lemma rstrip_char_prefix (ch : N) (s : str) :
  exists post, s = rstrip_char ch s ++ post.
Proof.
  unfold rstrip_char. destruct (lstrip_char_suffix ch (rev s)) as [pre Hpre].
  exists (rev pre). rewrite <- rev_app_distr, <- Hpre, rev_involutive. reflexivity.
Qed.

(** *** Splitting an assembled URL *)

Lemma clean_app (a b : str) : clean (a ++ b) <-> clean a /\ clean b.
Proof. apply Forall_app. Qed.

Lemma clean_not_in (s : str) :
  clean s -> ~ In 9%N s /\ ~ In 10%N s /\ ~ In 13%N s.
Proof.
  unfold clean. rewrite List.Forall_forall. intros Hc.
  repeat split; intros Hin; apply Hc in Hin; discriminate.
Qed.

Lemma remove_unsafe_id (s : str) : clean s -> remove_unsafe s = s.
Proof.
  intros Hc. destruct (clean_not_in s Hc) as (H9 & H10 & H13).
  unfold remove_unsafe. rewrite (remove_char_id 9), (remove_char_id 13),
    (remove_char_id 10); auto.
Qed.

Lemma remove_unsafe_clean (s : str) : clean (remove_unsafe s).
Proof.
  unfold clean, remove_unsafe. apply List.Forall_forall. intros x Hin.
  apply remove_char_in in Hin as [Hin H10].
  apply remove_char_in in Hin as [Hin H13].
  apply remove_char_in in Hin as [Hin H9].
  unfold is_unsafe.
  apply N.eqb_neq in H9, H10, H13. rewrite H9, H10, H13. reflexivity.
Qed.

(** Scheme characters are printable and are not the colon. *)
Lemma scheme_char_facts (c : N) :
  is_scheme_char c = true ->
  c <> 58%N /\ is_unsafe c = false /\ (32 < c)%N /\ is_ascii c = true.
Proof.
  unfold is_scheme_char, is_ascii_alnum, is_ascii_alpha, is_ascii_upper,
    is_ascii_lower, is_ascii_digit, in_range, is_unsafe, is_ascii.
  intros Hc.
  repeat (apply orb_true_iff in Hc as [Hc|Hc]);
    repeat (apply andb_true_iff in Hc as [? Hc]);
    repeat match goal with
           | H : (_ <=? _)%N = true |- _ => apply N.leb_le in H
           | H : (_ =? _)%N = true |- _ => apply N.eqb_eq in H
           end;
    (split; [lia|]); (split; [|split; [lia|apply N.ltb_lt; lia]]);
    repeat (apply orb_false_iff; split); apply N.eqb_neq; lia.
Qed.

Lemma lower_scheme_facts (s : str) :
  lower_scheme s ->
  ~ In 58%N s /\ clean s /\ forallb is_scheme_char s = true.
Proof.
  intros [_ Hall]. rewrite List.Forall_forall in Hall. repeat split.
  - intros Hin. apply Hall in Hin as [Hin _]. discriminate.
  - apply List.Forall_forall. intros c Hin. apply Hall in Hin as [Hin _].
    apply scheme_char_facts in Hin. tauto.
  - apply forallb_forall. intros c Hin. apply Hall in Hin. tauto.
Qed.

Section Assembled.
Context `{PyRuntime}.

Lemma py_lower_ascii_fixed (s : str) :
  Forall (fun c => is_ascii c = true /\ is_ascii_upper c = false) s ->
  py_lower s = s.
Proof.
  unfold py_lower. induction 1 as [|c s [Ha Hu] _ IH]; simpl; [reflexivity|].
  rewrite IH. unfold lower_cp. rewrite Ha, Hu. reflexivity.
Qed.

Lemma lower_scheme_fixed (s : str) : lower_scheme s -> py_lower s = s.
Proof.
  intros [_ Hall]. apply py_lower_ascii_fixed.
  eapply Forall_impl; [exact Hall|]. intros c [Hc Hu]. split; [|exact Hu].
  apply scheme_char_facts in Hc. tauto.
Qed.

Lemma split_scheme_assembled (scheme rest : str) :
  lower_scheme scheme -> split_scheme (scheme ++ 58%N :: rest) = (scheme, rest).
Proof.
  intros Hsch. destruct (lower_scheme_facts scheme Hsch) as (Hs58 & _ & Hsc).
  pose proof (lower_scheme_fixed scheme Hsch) as Hfix.
  unfold split_scheme. rewrite cut_first_app by exact Hs58.
  destruct scheme as [|c sch]; [destruct Hsch as [[] _]|].
  destruct Hsch as [Hlow _]. simpl in Hlow.
  assert (Hhead : is_ascii c && is_ascii_alpha c = true).
  { unfold is_ascii_alpha. rewrite Hlow, orb_true_r, andb_true_r.
    unfold is_ascii_lower, in_range in Hlow.
    apply andb_true_iff in Hlow as [_ Hhi]. apply N.leb_le in Hhi.
    apply N.ltb_lt. lia. }
  rewrite Hhead, Hsc, Hfix. reflexivity.
Qed.

(** With an authority, [urlunsplit] writes scheme, "://", authority, path
    and query one after the other. *)
Lemma urlunsplit_authority (scheme netloc path query : str) :
  scheme <> [] -> netloc <> [] -> starts_with_or_empty 47 path ->
  urlunsplit scheme netloc path query []
  = scheme ++ 58%N :: [47%N; 47%N] ++ netloc ++ path ++ query_part query.
Proof.
  intros Hs Hn Hp. unfold urlunsplit.
  destruct netloc as [|n0 netloc]; [contradiction|].
  destruct scheme as [|s0 scheme]; [contradiction|]. cbn [orb].
  assert (Hpath : match path with
                  | [] => []
                  | c :: _ => if (c =? 47)%N then path else 47%N :: path
                  end = path).
  { destruct path as [|c path]; [reflexivity|]. simpl in Hp. subst c. reflexivity. }
  rewrite Hpath.
  destruct query as [|q0 query]; simpl.
  - rewrite !app_nil_r. reflexivity.
  - rewrite <- !app_assoc. simpl. rewrite <- !app_assoc. reflexivity.
Qed.

(** Splitting what [urlunsplit] assembled gives the components back,
    unless the authority makes [urlsplit] raise. *)
Lemma urlsplit_assembled (scheme netloc path query : str) :
  lower_scheme scheme ->
  netloc <> [] ->
  Forall (fun c => is_netloc_delim c = false) netloc -> clean netloc ->
  starts_with_or_empty 47 path ->
  ~ In 63%N path -> ~ In 35%N path -> clean path ->
  ~ In 35%N query -> clean query ->
  urlsplit (urlunsplit scheme netloc path query [])
  = if netloc_raises netloc then None
    else Some {| sr_scheme := scheme; sr_netloc := netloc; sr_path := path;
                 sr_query := query; sr_fragment := [] |}.
Proof.
  intros Hsch Hnl Hdelim Hcn Hp Hp63 Hp35 Hcp Hq35 Hcq.
  destruct (lower_scheme_facts scheme Hsch) as (Hs58 & Hcs & Hsc).
  assert (Hsne : scheme <> []) by (destruct Hsch as [Hh _]; destruct scheme; [contradiction|discriminate]).
  rewrite urlunsplit_authority by assumption.
  set (rest := path ++ query_part query).
  assert (Hcr : clean rest).
  { apply clean_app. split; [exact Hcp|].
    unfold query_part. destruct query; [constructor|].
    constructor; [reflexivity|exact Hcq]. }
  unfold urlsplit.
  (* nothing to strip or delete *)
  assert (Hl : lstrip_c0 (scheme ++ 58%N :: [47%N; 47%N] ++ netloc ++ rest)
               = scheme ++ 58%N :: [47%N; 47%N] ++ netloc ++ rest).
  { destruct scheme as [|c sch]; [contradiction|]. simpl.
    destruct Hsch as [Hlow _]. simpl in Hlow.
    unfold is_ascii_lower, in_range in Hlow.
    apply andb_true_iff in Hlow as [Hlo _]. apply N.leb_le in Hlo.
    replace (c <=? 32)%N with false by (symmetry; apply N.leb_gt; lia).
    reflexivity. }
  rewrite Hl. rewrite remove_unsafe_id.
  2:{ apply clean_app. split; [exact Hcs|].
      constructor; [reflexivity|]. constructor; [reflexivity|].
      constructor; [reflexivity|]. apply clean_app. split; assumption. }
  (* the scheme *)
  rewrite (split_scheme_assembled scheme _ Hsch).
  (* the authority *)
  unfold split_netloc. cbn [app].
  rewrite (span_until_app is_netloc_delim netloc rest Hdelim).
  2:{ subst rest. destruct path as [|p0 path]; simpl.
      - unfold query_part. destruct query; [exact I|reflexivity].
      - simpl in Hp. subst p0. reflexivity. }
  (* no fragment, and the query after the first question mark *)
  assert (Hr35 : ~ In 35%N rest).
  { subst rest. rewrite in_app_iff. intros [Hin|Hin]; [auto|].
    unfold query_part in Hin. destruct query; [destruct Hin|].
    destruct Hin as [Heq|Hin]; [discriminate|auto]. }
  rewrite (cut_first_none 35 rest Hr35).
  destruct (netloc_raises netloc); [destruct (cut_first 63 rest) as [[? ?]|]; reflexivity|].
  subst rest. unfold query_part. destruct query as [|q0 query].
  - rewrite app_nil_r, (cut_first_none 63 path Hp63). reflexivity.
  - rewrite (cut_first_app 63 path (q0 :: query) Hp63). reflexivity.
Qed.
End Assembled.

(** *** What a split yields *)

Section SplitFacts.
Context `{PyRuntime}.

Lemma lower_cp_scheme (c : N) :
  is_scheme_char c = true ->
  exists d, lower_cp c = [d]
            /\ is_scheme_char d = true /\ is_ascii_upper d = false
            /\ (is_ascii_alpha c = true -> is_ascii_lower d = true).
Proof.
  intros Hc. pose proof (scheme_char_facts c Hc) as (_ & _ & _ & Ha).
  unfold lower_cp. rewrite Ha.
  destruct (is_ascii_upper c) eqn:Hu.
  - exists (c + 32)%N. split; [reflexivity|].
    unfold is_ascii_upper, in_range in Hu.
    apply andb_true_iff in Hu as [Hlo Hhi].
    apply N.leb_le in Hlo, Hhi.
    assert (Hl : is_ascii_lower (c + 32) = true).
    { unfold is_ascii_lower, in_range. apply andb_true_iff.
      split; apply N.leb_le; lia. }
    repeat split.
    + unfold is_scheme_char, is_ascii_alnum, is_ascii_alpha. rewrite Hl.
      rewrite orb_true_r. reflexivity.
    + unfold is_ascii_upper, in_range. apply andb_false_iff. right.
      apply N.leb_gt. lia.
    + intros _. exact Hl.
  - exists c. repeat split; auto.
    unfold is_ascii_alpha. rewrite Hu. auto.
Qed.

Lemma py_lower_scheme (s : str) :
  Forall (fun c => is_scheme_char c = true) s ->
  match s with [] => False | c :: _ => is_ascii_alpha c = true end ->
  lower_scheme (py_lower s).
Proof.
  intros Hall Hhead. split.
  - destruct s as [|c s]; [contradiction|]. inversion Hall as [|? ? Hc _]; subst.
    destruct (lower_cp_scheme c Hc) as (d & Hd & _ & _ & Hl).
    unfold py_lower. simpl. rewrite Hd. simpl. auto.
  - clear Hhead. unfold py_lower.
    induction Hall as [|c s Hc _ IH]; simpl; [constructor|].
    destruct (lower_cp_scheme c Hc) as (d & Hd & Hs & Hu & _).
    rewrite Hd. simpl. constructor; auto.
Qed.

Lemma split_scheme_facts (url scheme rest : str) :
  split_scheme url = (scheme, rest) ->
  (scheme = [] \/ lower_scheme scheme) /\ (forall x, In x rest -> In x url).
Proof.
  unfold split_scheme.
  destruct (cut_first 58 url) as [[[|c pre] post]|] eqn:E;
    try (intros [= <- <-]; auto).
  destruct (is_ascii c && is_ascii_alpha c && forallb is_scheme_char (c :: pre)) eqn:G;
    intros [= <- <-]; [|auto].
  apply andb_true_iff in G as [G Gall]. apply andb_true_iff in G as [_ Galpha].
  split.
  - right. refine (py_lower_scheme (c :: pre) _ Galpha).
    apply List.Forall_forall. intros x Hx.
    rewrite forallb_forall in Gall. auto.
  - apply cut_first_spec in E as [-> _]. intros x Hx.
    apply in_or_app. right. right. exact Hx.
Qed.

Lemma clean_sub (a b : str) :
  (forall x, In x a -> In x b) -> clean b -> clean a.
Proof.
  unfold clean. rewrite !List.Forall_forall. auto.
Qed.

Lemma split_netloc_eq (url : str) :
  split_netloc url
  = if py_startswith [47%N; 47%N] url
    then span_until is_netloc_delim (skipn 2 url)
    else ([], url).
Proof.
  unfold split_netloc.
  destruct url as [|a url]; [reflexivity|].
  destruct a as [|p]; [reflexivity|].
  do 6 (destruct p as [p|p|]; try reflexivity).
  destruct url as [|b url]; [reflexivity|].
  destruct b as [|p]; [reflexivity|].
  do 6 (destruct p as [p|p|]; try reflexivity).
Qed.

Lemma split_netloc_facts (url : str) :
  clean url ->
  let sp := split_netloc url in
  Forall (fun c => is_netloc_delim c = false) (fst sp)
  /\ clean (fst sp) /\ clean (snd sp)
  /\ (fst sp <> [] ->
      match snd sp with [] => True | c :: _ => is_netloc_delim c = true end).
Proof.
  intros Hc sp.
  assert (Hcases : sp = ([], url)
                   \/ exists rest, url = 47%N :: 47%N :: rest
                                   /\ sp = span_until is_netloc_delim rest).
  { subst sp. rewrite split_netloc_eq.
    destruct url as [|a [|b rest]]; cbn [py_startswith skipn].
    - auto.
    - rewrite andb_false_r. auto.
    - rewrite andb_true_r.
      destruct (N.eqb_spec 47 a) as [<-|Ha]; [|auto].
      destruct (N.eqb_spec 47 b) as [<-|Hb]; [|auto].
      right. eauto. }
  destruct Hcases as [->|(rest & -> & ->)].
  - simpl. repeat split; [constructor|constructor|exact Hc|intros []; reflexivity].
  - destruct (span_until is_netloc_delim rest) as [nl u2] eqn:E2.
    apply span_until_spec in E2 as (-> & Hnl & Hu2). simpl.
    inversion Hc as [|? ? _ Hc']; subst. inversion Hc' as [|? ? _ Hc'']; subst.
    apply clean_app in Hc'' as [Hcn Hcu]. repeat split; auto.
Qed.

(** The components of a split: a scheme in lower case or none, an
    authority free of delimiters, a path free of [?] and [#] that starts
    with a slash when it follows an authority; nothing holds TAB, LF or
    CR. *)
Lemma urlsplit_facts (r : str) (parts : SplitResult) :
  urlsplit r = Some parts ->
  (sr_scheme parts = [] \/ lower_scheme (sr_scheme parts))
  /\ Forall (fun c => is_netloc_delim c = false) (sr_netloc parts)
  /\ clean (sr_netloc parts)
  /\ ~ In 63%N (sr_path parts) /\ ~ In 35%N (sr_path parts)
  /\ clean (sr_path parts)
  /\ (sr_netloc parts <> [] -> starts_with_or_empty 47 (sr_path parts)).
Proof.
  unfold urlsplit.
  pose proof (remove_unsafe_clean (lstrip_c0 r)) as Hc0.
  set (url0 := remove_unsafe (lstrip_c0 r)) in *.
  destruct (split_scheme url0) as [scheme url1] eqn:E1.
  apply split_scheme_facts in E1 as [Hscheme Hsub1].
  assert (Hc1 : clean url1) by (eapply clean_sub; eauto).
  pose proof (split_netloc_facts url1 Hc1) as Hsp.
  set (sp := split_netloc url1) in *.
  destruct sp as [netloc url2]. simpl in Hsp.
  destruct Hsp as (Hdelim & Hcn & Hc2 & Hhead2).
  set (fr := match cut_first 35 url2 with Some p => p | None => (url2, []) end).
  assert (Hfr : ~ In 35%N (fst fr) /\ exists post, url2 = fst fr ++ post).
  { subst fr. destruct (cut_first 35 url2) as [[a b]|] eqn:E3.
    - apply cut_first_spec in E3 as [-> Hnot]. split; [exact Hnot|]. eauto.
    - split; [|exists []; rewrite app_nil_r; reflexivity].
      intros Hin. clear -E3 Hin. induction url2 as [|c u IH]; [destruct Hin|].
      simpl in E3. destruct (N.eqb_spec c 35) as [->|Hne]; [discriminate|].
      destruct (cut_first 35 u) as [[? ?]|]; [discriminate|].
      destruct Hin as [Heq|Hin]; [congruence|auto]. }
  destruct fr as [url3 fragment]. simpl in Hfr. destruct Hfr as [H35 [post3 Hpost3]].
  set (qr := match cut_first 63 url3 with Some p => p | None => (url3, []) end).
  assert (Hqr : ~ In 63%N (fst qr) /\ exists post, url3 = fst qr ++ post).
  { subst qr. destruct (cut_first 63 url3) as [[a b]|] eqn:E4.
    - apply cut_first_spec in E4 as [-> Hnot]. split; [exact Hnot|]. eauto.
    - split; [|exists []; rewrite app_nil_r; reflexivity].
      intros Hin. clear -E4 Hin. induction url3 as [|c u IH]; [destruct Hin|].
      simpl in E4. destruct (N.eqb_spec c 63) as [->|Hne]; [discriminate|].
      destruct (cut_first 63 u) as [[? ?]|]; [discriminate|].
      destruct Hin as [Heq|Hin]; [congruence|auto]. }
  destruct qr as [url4 query]. simpl in Hqr. destruct Hqr as [H63 [post4 Hpost4]].
  destruct (netloc_raises netloc); [discriminate|].
  intros [= <-]. simpl.
  assert (Hsub4 : forall x, In x url4 -> In x url2).
  { intros x Hx. rewrite Hpost3, Hpost4. apply in_or_app. left.
    apply in_or_app. left. exact Hx. }
  repeat split; auto.
  - intros Hin. apply H35. rewrite Hpost4. apply in_or_app. left. exact Hin.
  - eapply clean_sub; eauto.
  - intros Hne. specialize (Hhead2 Hne).
    destruct url4 as [|c u4]; [exact I|]. simpl.
    rewrite Hpost3, Hpost4 in Hhead2. simpl in Hhead2.
    unfold is_netloc_delim in Hhead2.
    apply orb_true_iff in Hhead2 as [Hh|Hh];
      [apply orb_true_iff in Hh as [Hh|Hh]|]; apply N.eqb_eq in Hh; subst c.
    + reflexivity.
    + exfalso. apply H63. left. reflexivity.
    + exfalso. apply H35. rewrite Hpost4. left. reflexivity.
Qed.
End SplitFacts.

(** *** Quoting and unquoting *)

Lemma hex_digit_value (v : N) : (v < 16)%N -> hex_value (hex_digit v) = Some v.
Proof.
  intros Hv. unfold hex_digit, hex_value, is_ascii_digit, in_range.
  destruct (N.ltb_spec v 10) as [Hlt|Hge].
  - replace (48 <=? 48 + v)%N with true by (symmetry; apply N.leb_le; lia).
    replace (48 + v <=? 57)%N with true by (symmetry; apply N.leb_le; lia).
    simpl. f_equal. lia.
  - replace (55 + v <=? 57)%N with false by (symmetry; apply N.leb_gt; lia).
    rewrite andb_false_r.
    replace (65 <=? 55 + v)%N with true by (symmetry; apply N.leb_le; lia).
    replace (55 + v <=? 70)%N with true by (symmetry; apply N.leb_le; lia).
    simpl. f_equal. lia.
Qed.

Lemma hex_digit_safe (v : N) : (v < 16)%N -> is_always_safe (hex_digit v) = true.
Proof.
  intros Hv. unfold hex_digit, is_always_safe, is_ascii_alnum, is_ascii_alpha,
    is_ascii_upper, is_ascii_lower, is_ascii_digit, in_range.
  destruct (N.ltb_spec v 10) as [Hlt|Hge].
  - replace (48 <=? 48 + v)%N with true by (symmetry; apply N.leb_le; lia).
    replace (48 + v <=? 57)%N with true by (symmetry; apply N.leb_le; lia).
    simpl. rewrite !orb_true_r. reflexivity.
  - replace (65 <=? 55 + v)%N with true by (symmetry; apply N.leb_le; lia).
    replace (55 + v <=? 90)%N with true by (symmetry; apply N.leb_le; lia).
    reflexivity.
Qed.

(** Unreserved characters are ASCII and none of the characters with a
    role in a URL or in its quoting. *)
Lemma always_safe_facts (c : N) :
  is_always_safe c = true ->
  is_ascii c = true
  /\ c <> 37%N /\ c <> 43%N /\ c <> 61%N /\ c <> 38%N /\ c <> 35%N /\ c <> 32%N
  /\ is_unsafe c = false.
Proof.
  unfold is_always_safe, is_ascii_alnum, is_ascii_alpha, is_ascii_upper,
    is_ascii_lower, is_ascii_digit, in_range, is_unsafe, is_ascii.
  intros Hc.
  repeat (apply orb_true_iff in Hc as [Hc|Hc]);
    repeat (apply andb_true_iff in Hc as [? Hc]);
    repeat match goal with
           | H : (_ <=? _)%N = true |- _ => apply N.leb_le in H
           | H : (_ =? _)%N = true |- _ => apply N.eqb_eq in H
           end;
    (split; [apply N.ltb_lt; lia|]);
    repeat (split; [lia|]);
    repeat (apply orb_false_iff; split); apply N.eqb_neq; lia.
Qed.

Lemma quoted_char_facts (c : N) :
  is_quoted_char c = true ->
  is_ascii c = true /\ c <> 61%N /\ c <> 38%N /\ c <> 35%N /\ is_unsafe c = false.
Proof.
  unfold is_quoted_char. intros Hc.
  apply orb_true_iff in Hc as [Hc|Hc]; [apply orb_true_iff in Hc as [Hc|Hc]|].
  - apply always_safe_facts in Hc. tauto.
  - apply N.eqb_eq in Hc. subst c. repeat split; discriminate.
  - apply N.eqb_eq in Hc. subst c. repeat split; discriminate.
Qed.

Lemma unquote_plus_safe (b : N) (rest : str) :
  is_always_safe b = true ->
  unquote_plus_bytes (b :: rest) = b :: unquote_plus_bytes rest.
Proof.
  intros Hs. apply always_safe_facts in Hs as (_ & H37 & H43 & _).
  unfold unquote_plus_bytes. simpl.
  apply N.eqb_neq in H37, H43. rewrite H43. simpl. rewrite H37. reflexivity.
Qed.

Lemma unquote_plus_plus (rest : str) :
  unquote_plus_bytes (43%N :: rest) = 32%N :: unquote_plus_bytes rest.
Proof. reflexivity. Qed.

Lemma unquote_plus_pct (b : N) (rest : str) :
  (b < 256)%N ->
  unquote_plus_bytes (37%N :: hex_digit (b / 16) :: hex_digit (b mod 16) :: rest)
  = b :: unquote_plus_bytes rest.
Proof.
  intros Hb.
  assert (Hhi : (b / 16 < 16)%N) by (apply N.Div0.div_lt_upper_bound; lia).
  assert (Hlo : (b mod 16 < 16)%N) by (apply N.mod_lt; lia).
  pose proof (always_safe_facts _ (hex_digit_safe _ Hhi)) as (_ & _ & Hh & _).
  pose proof (always_safe_facts _ (hex_digit_safe _ Hlo)) as (_ & _ & Hl & _).
  unfold unquote_plus_bytes. simpl.
  apply N.eqb_neq in Hh, Hl. rewrite Hh, Hl.
  rewrite (hex_digit_value _ Hhi), (hex_digit_value _ Hlo).
  f_equal. rewrite (N.div_mod b 16) at 3 by lia. reflexivity.
Qed.

Lemma replace_char_app (a b : N) (x y : str) :
  replace_char a b (x ++ y) = replace_char a b x ++ replace_char a b y.
Proof. apply map_app. Qed.

Lemma quote_byte_plain (b : N) :
  (b < 256)%N ->
  forall rest,
    unquote_plus_bytes (quote_byte false b ++ rest) = b :: unquote_plus_bytes rest
    /\ Forall (fun c => is_quoted_char c = true) (quote_byte false b).
Proof.
  intros Hb rest. unfold quote_byte. rewrite andb_false_l, orb_false_r.
  destruct (is_always_safe b) eqn:Hs.
  - split; [apply unquote_plus_safe; exact Hs|].
    constructor; [|constructor]. unfold is_quoted_char. rewrite Hs. reflexivity.
  - split; [apply unquote_plus_pct; exact Hb|].
    assert (Hhi : (b / 16 < 16)%N) by (apply N.Div0.div_lt_upper_bound; lia).
    assert (Hlo : (b mod 16 < 16)%N) by (apply N.mod_lt; lia).
    unfold is_quoted_char.
    repeat constructor; rewrite ?(hex_digit_safe _ Hhi), ?(hex_digit_safe _ Hlo);
      reflexivity.
Qed.

Lemma quote_byte_spaced (b : N) :
  (b < 256)%N ->
  forall rest,
    unquote_plus_bytes (replace_char 32 43 (quote_byte true b) ++ rest)
    = b :: unquote_plus_bytes rest
    /\ Forall (fun c => is_quoted_char c = true)
         (replace_char 32 43 (quote_byte true b)).
Proof.
  intros Hb rest. unfold quote_byte. rewrite andb_true_l.
  destruct (is_always_safe b) eqn:Hs; cbn [orb].
  - pose proof (always_safe_facts b Hs) as (_ & _ & _ & _ & _ & _ & H32 & _).
    unfold replace_char. simpl. apply N.eqb_neq in H32. rewrite H32.
    split; [apply unquote_plus_safe; exact Hs|].
    constructor; [|constructor]. unfold is_quoted_char. rewrite Hs. reflexivity.
  - destruct (N.eqb_spec b 32) as [->|Hne].
    + split; [reflexivity|]. repeat constructor.
    + assert (Hhi : (b / 16 < 16)%N) by (apply N.Div0.div_lt_upper_bound; lia).
      assert (Hlo : (b mod 16 < 16)%N) by (apply N.mod_lt; lia).
      pose proof (always_safe_facts _ (hex_digit_safe _ Hhi))
        as (_ & _ & _ & _ & _ & _ & Hh & _).
      pose proof (always_safe_facts _ (hex_digit_safe _ Hlo))
        as (_ & _ & _ & _ & _ & _ & Hl & _).
      unfold replace_char. simpl. apply N.eqb_neq in Hh, Hl. rewrite Hh, Hl.
      split; [apply unquote_plus_pct; exact Hb|].
      unfold is_quoted_char.
      repeat constructor; rewrite ?(hex_digit_safe _ Hhi), ?(hex_digit_safe _ Hlo);
        reflexivity.
Qed.

Lemma quote_bytes_plain (bs : list N) :
  Forall (fun b => (b < 256)%N) bs ->
  unquote_plus_bytes (List.flat_map (quote_byte false) bs) = bs
  /\ Forall (fun c => is_quoted_char c = true) (List.flat_map (quote_byte false) bs).
Proof.
  induction 1 as [|b bs Hb _ [IHd IHq]]; simpl; [split; [reflexivity|constructor]|].
  destruct (quote_byte_plain b Hb (List.flat_map (quote_byte false) bs)) as [Hd Hq].
  rewrite Hd, IHd. split; [reflexivity|]. apply Forall_app. auto.
Qed.

Lemma quote_bytes_spaced (bs : list N) :
  Forall (fun b => (b < 256)%N) bs ->
  unquote_plus_bytes (replace_char 32 43 (List.flat_map (quote_byte true) bs)) = bs
  /\ Forall (fun c => is_quoted_char c = true)
       (replace_char 32 43 (List.flat_map (quote_byte true) bs)).
Proof.
  induction 1 as [|b bs Hb _ [IHd IHq]]; simpl; [split; [reflexivity|constructor]|].
  rewrite replace_char_app.
  destruct (quote_byte_spaced b Hb
              (replace_char 32 43 (List.flat_map (quote_byte true) bs))) as [Hd Hq].
  rewrite Hd, IHd. split; [reflexivity|]. apply Forall_app. auto.
Qed.

Lemma unquote_to_bytes_plain (s : str) : ~ In 37%N s -> unquote_to_bytes s = s.
Proof.
  induction s as [|c s IH]; intros Hnot; [reflexivity|].
  cbn [unquote_to_bytes].
  destruct (N.eqb_spec c 37) as [->|Hne]; [exfalso; apply Hnot; left; reflexivity|].
  rewrite IH; [reflexivity|]. intros Hin. apply Hnot. right. exact Hin.
Qed.

Lemma has_char_in (ch : N) (s : str) : has_char ch s = true <-> In ch s.
Proof.
  unfold has_char. rewrite existsb_exists. split.
  - intros [x [Hin Hx]]. apply N.eqb_eq in Hx. subst x. exact Hin.
  - intros Hin. exists ch. split; [exact Hin|apply N.eqb_refl].
Qed.

Lemma has_char_not_in (ch : N) (s : str) : has_char ch s = false <-> ~ In ch s.
Proof.
  rewrite <- has_char_in. destruct (has_char ch s); split; congruence.
Qed.

Section QuoteRoundTrip.
Context `{PyRuntimeLaws}.

Lemma utf8_encode_bytes (s : str) (bs : list N) :
  utf8_encode s = Some bs -> Forall (fun b => (b < 256)%N) bs.
Proof.
  revert bs. induction s as [|c s IH]; simpl; intros bs.
  - intros [= <-]. constructor.
  - destruct (is_ascii c) eqn:Ha.
    + destruct (utf8_encode s) as [bs'|]; [|discriminate]. intros [= <-].
      simpl. constructor; [|apply IH; reflexivity].
      unfold is_ascii in Ha. apply N.ltb_lt in Ha. lia.
    + destruct (utf8_encode_cp c) as [b|] eqn:Hc; [|discriminate].
      destruct (utf8_encode s) as [bs'|]; [|discriminate]. intros [= <-].
      apply Forall_app. split; [|apply IH; reflexivity].
      apply List.Forall_forall. intros x Hx. eapply utf8_byte_range; eauto.
Qed.

Lemma unquote_runs_ascii (s run : str) :
  Forall (fun c => is_ascii c = true) s ->
  unquote_runs run s = flush_run (rev s ++ run).
Proof.
  intros Hs. revert run. induction Hs as [|c s Hc _ IH]; intros run; simpl.
  - reflexivity.
  - rewrite Hc, IH, <- app_assoc. reflexivity.
Qed.

(** Unquoting a quoted key or value gives it back. *)
Lemma quote_plus_roundtrip (k k' : str) :
  quote_plus k = Some k' ->
  unquote (replace_char 43 32 k') = k
  /\ Forall (fun c => is_quoted_char c = true) k'.
Proof.
  unfold quote_plus. destruct (utf8_encode k) as [bs|] eqn:E; [|discriminate].
  pose proof (utf8_encode_bytes k bs E) as Hbs.
  pose proof (utf8_roundtrip k bs E) as Hrt.
  intros Hk'.
  assert (Hdec : unquote_plus_bytes k' = bs
                 /\ Forall (fun c => is_quoted_char c = true) k').
  { destruct (has_char 32 k); injection Hk' as <-.
    - apply quote_bytes_spaced, Hbs.
    - apply quote_bytes_plain, Hbs. }
  destruct Hdec as [Hdec Hq]. split; [|exact Hq].
  set (s := replace_char 43 32 k') in *.
  assert (Hascii : Forall (fun c => is_ascii c = true) s).
  { subst s. unfold replace_char. apply Forall_map.
    eapply Forall_impl; [exact Hq|]. intros c Hc. simpl.
    destruct (c =? 43)%N; [reflexivity|].
    apply quoted_char_facts in Hc. tauto. }
  unfold unquote. destruct (has_char 37 s) eqn:Hp.
  - rewrite (unquote_runs_ascii s [] Hascii), app_nil_r.
    unfold flush_run. destruct (rev s) as [|x r] eqn:Er.
    + apply has_char_in in Hp. apply (f_equal (@rev N)) in Er.
      rewrite rev_involutive in Er. rewrite Er in Hp. destruct Hp.
    + rewrite <- Er, rev_involutive.
      change (unquote_to_bytes s) with (unquote_plus_bytes k').
      rewrite Hdec. exact Hrt.
  - apply has_char_not_in in Hp.
    assert (Hs : s = bs).
    { rewrite <- Hdec. change (unquote_plus_bytes k') with (unquote_to_bytes s).
      symmetry. apply unquote_to_bytes_plain, Hp. }
    rewrite Hs in *. unfold utf8_decode in Hrt.
    replace (forallb is_ascii bs) with true in Hrt; [exact Hrt|].
    symmetry. apply forallb_forall. rewrite List.Forall_forall in Hascii. exact Hascii.
Qed.
End QuoteRoundTrip.

(** *** Encoding and parsing a query *)

Lemma split_on_nonempty (ch : N) (s : str) : split_on ch s <> [].
Proof.
  destruct s as [|c s]; simpl; [discriminate|].
  destruct (split_on ch s); [discriminate|]. destruct (c =? ch)%N; discriminate.
Qed.

Lemma split_on_plain (ch : N) (s : str) : ~ In ch s -> split_on ch s = [s].
Proof.
  induction s as [|c s IH]; intros Hnot; [reflexivity|]. simpl.
  rewrite IH by (intros Hin; apply Hnot; right; exact Hin).
  destruct (N.eqb_spec c ch) as [->|Hne]; [exfalso; apply Hnot; left; reflexivity|].
  reflexivity.
Qed.

Lemma split_on_app (ch : N) (a b : str) :
  ~ In ch a -> split_on ch (a ++ ch :: b) = a :: split_on ch b.
Proof.
  induction a as [|c a IH]; intros Hnot; simpl.
  - rewrite N.eqb_refl. pose proof (split_on_nonempty ch b) as Hne.
    destruct (split_on ch b); [contradiction|reflexivity].
  - rewrite IH by (intros Hin; apply Hnot; right; exact Hin).
    destruct (N.eqb_spec c ch) as [->|Hne]; [exfalso; apply Hnot; left; reflexivity|].
    reflexivity.
Qed.

Lemma split_on_join (ch : N) (fields : list str) :
  fields <> [] ->
  Forall (fun f => ~ In ch f) fields ->
  split_on ch (py_join [ch] fields) = fields.
Proof.
  intros Hne Hall. induction Hall as [|f fs Hf Hfs IH]; [contradiction|].
  destruct fs as [|g fs].
  - simpl. apply split_on_plain, Hf.
  - change (py_join [ch] (f :: g :: fs)) with (f ++ ch :: py_join [ch] (g :: fs)).
    rewrite split_on_app by exact Hf. rewrite IH by discriminate. reflexivity.
Qed.

Lemma py_join_chars (P : N -> Prop) (ch : N) (fields : list str) :
  P ch -> Forall (Forall P) fields -> Forall P (py_join [ch] fields).
Proof.
  intros Hch Hall. induction Hall as [|f fs Hf Hfs IH]; [constructor|].
  destruct fs as [|g fs]; [exact Hf|].
  change (py_join [ch] (f :: g :: fs)) with (f ++ ch :: py_join [ch] (g :: fs)).
  apply Forall_app. split; [exact Hf|]. constructor; [exact Hch|exact IH].
Qed.

Section QueryRoundTrip.
Context `{PyRuntimeLaws}.

Lemma parse_field_quoted (k v k' v' : str) :
  quote_plus k = Some k' -> quote_plus v = Some v' ->
  parse_field (k' ++ 61%N :: v') = (k, v)
  /\ ~ In 38%N (k' ++ 61%N :: v')
  /\ Forall (fun c => is_query_char c = true) (k' ++ 61%N :: v').
Proof.
  intros Hk Hv.
  destruct (quote_plus_roundtrip k k' Hk) as [Hku Hkq].
  destruct (quote_plus_roundtrip v v' Hv) as [Hvu Hvq].
  assert (Hk61 : ~ In 61%N k').
  { rewrite List.Forall_forall in Hkq. intros Hin. apply Hkq in Hin.
    apply quoted_char_facts in Hin. tauto. }
  repeat split.
  - unfold parse_field. rewrite (cut_first_app 61 k' v' Hk61). simpl.
    rewrite Hku, Hvu. reflexivity.
  - rewrite List.Forall_forall in Hkq, Hvq. rewrite in_app_iff.
    intros [Hin|[Heq|Hin]]; [apply Hkq in Hin|discriminate|apply Hvq in Hin];
      apply quoted_char_facts in Hin; tauto.
  - apply Forall_app. split; [|constructor; [reflexivity|]].
    + eapply Forall_impl; [exact Hkq|]. intros c Hc. unfold is_query_char.
      rewrite Hc. reflexivity.
    + eapply Forall_impl; [exact Hvq|]. intros c Hc. unfold is_query_char.
      rewrite Hc. reflexivity.
Qed.

Lemma urlencode_fields_facts (l : list (str * str)) (fields : list str) :
  urlencode_fields l = Some fields ->
  List.map parse_field fields = l
  /\ Forall (fun f => ~ In 38%N f) fields
  /\ Forall (fun f => f <> []) fields
  /\ Forall (Forall (fun c => is_query_char c = true)) fields.
Proof.
  revert fields. induction l as [|[k v] l IH]; simpl; intros fields.
  - intros [= <-]. repeat split; constructor.
  - destruct (quote_plus k) as [k'|] eqn:Hk; [|discriminate].
    destruct (quote_plus v) as [v'|] eqn:Hv; [|discriminate].
    destruct (urlencode_fields l) as [fs|]; [|discriminate].
    intros [= <-]. destruct (IH fs eq_refl) as (Hm & H38 & Hne & Hq).
    destruct (parse_field_quoted k v k' v' Hk Hv) as (Hp & Hf38 & Hfq).
    simpl. rewrite Hp, Hm. repeat split; constructor; auto.
    destruct k'; discriminate.
Qed.

(** Parsing an encoded query gives the fields back, and an encoded query
    consists of query characters. *)
Lemma parse_qsl_urlencode (l : list (str * str)) (q : str) :
  urlencode l = Some q ->
  parse_qsl q = l /\ Forall (fun c => is_query_char c = true) q.
Proof.
  unfold urlencode. destruct (urlencode_fields l) as [fields|] eqn:E; [|discriminate].
  intros [= <-]. destruct (urlencode_fields_facts l fields E) as (Hm & H38 & Hne & Hq).
  split; [|apply py_join_chars; [reflexivity|exact Hq]].
  unfold parse_qsl. destruct fields as [|f fs].
  - simpl in *. exact Hm.
  - rewrite split_on_join by (try discriminate; exact H38).
    rewrite <- Hm. f_equal.
    clear -Hne. induction Hne as [|g gs Hg _ IH]; [reflexivity|].
    simpl. destruct g; [contradiction|]. rewrite IH. reflexivity.
Qed.
End QueryRoundTrip.

(** *** Sorting and filtering twice *)

Lemma insert_by_in {A} (leb : A -> A -> bool) (x y : A) (l : list A) :
  In x (insert_by leb y l) <-> x = y \/ In x l.
Proof.
  induction l as [|z l IH]; simpl; [intuition|].
  destruct (leb y z); simpl; [intuition|]. rewrite IH. intuition.
Qed.

Lemma sort_by_in {A} (leb : A -> A -> bool) (x : A) (l : list A) :
  In x (sort_by leb l) <-> In x l.
Proof.
  induction l as [|y l IH]; simpl; [reflexivity|].
  rewrite insert_by_in, IH. intuition.
Qed.

Lemma sort_by_fixed {A} (leb : A -> A -> bool) (l : list A) :
  Sorted (fun x y => leb x y = true) l -> sort_by leb l = l.
Proof.
  induction 1 as [|x l _ IH Hhd]; simpl; [reflexivity|].
  rewrite IH. destruct Hhd as [|y l Hxy]; simpl; [reflexivity|].
  rewrite Hxy. reflexivity.
Qed.

Lemma filter_fixed {A} (f : A -> bool) (l : list A) :
  (forall x, In x l -> f x = true) -> List.filter f l = l.
Proof.
  induction l as [|x l IH]; simpl; intros Hall; [reflexivity|].
  rewrite (Hall x) by (left; reflexivity).
  rewrite IH; [reflexivity|]. intros y Hy. apply Hall. right. exact Hy.
Qed.

Lemma str_compare_antisym (a b : str) :
  str_compare b a = CompOpp (str_compare a b).
Proof.
  revert b. induction a as [|x a IH]; intros [|y b]; simpl; try reflexivity.
  rewrite (N.compare_antisym x y).
  destruct (x ?= y)%N; simpl; auto.
Qed.

Lemma pair_leb_total (p q : str * str) :
  pair_leb p q = true \/ pair_leb q p = true.
Proof.
  unfold pair_leb, pair_compare.
  rewrite (str_compare_antisym (fst p) (fst q)), (str_compare_antisym (snd p) (snd q)).
  destruct (str_compare (fst p) (fst q)); simpl; auto.
  destruct (str_compare (snd p) (snd q)); simpl; auto.
Qed.

(** Filtering and sorting the filtered, sorted fields changes nothing. *)
Lemma sort_filter_twice (f : str * str -> bool) (qs : list (str * str)) :
  let l := sort_by pair_leb (List.filter f qs) in
  sort_by pair_leb (List.filter f l) = l.
Proof.
  intros l. rewrite filter_fixed.
  - apply sort_by_fixed. subst l. apply sort_by_sorted, pair_leb_total.
  - subst l. intros x Hx. apply sort_by_in, filter_In in Hx. tauto.
Qed.

(** *** Lower case *)

Section LowerFacts.
Context `{PyRuntimeLaws}.

Lemma py_lower_app (a b : str) : py_lower (a ++ b) = py_lower a ++ py_lower b.
Proof. apply flat_map_app. Qed.

Lemma lower_cp_ascii (c : N) :
  is_ascii c = true ->
  exists d, lower_cp c = [d] /\ is_ascii d = true /\ is_ascii_upper d = false
            /\ (d = c \/ is_ascii_lower d = true).
Proof.
  intros Ha. unfold lower_cp. rewrite Ha.
  destruct (is_ascii_upper c) eqn:Hu.
  - exists (c + 32)%N. unfold is_ascii_upper, in_range in Hu.
    apply andb_true_iff in Hu as [Hlo Hhi]. apply N.leb_le in Hlo, Hhi.
    repeat split.
    + apply N.ltb_lt. lia.
    + unfold is_ascii_upper, in_range. apply andb_false_iff. right.
      apply N.leb_gt. lia.
    + right. unfold is_ascii_lower, in_range. apply andb_true_iff.
      split; apply N.leb_le; lia.
  - exists c. auto.
Qed.

Lemma lower_cp_stable (c : N) : py_lower (lower_cp c) = lower_cp c.
Proof.
  destruct (is_ascii c) eqn:Ha.
  - destruct (lower_cp_ascii c Ha) as (d & -> & Hd & Hu & _).
    unfold py_lower. simpl. unfold lower_cp. rewrite Hd, Hu. reflexivity.
  - unfold lower_cp at 2. unfold lower_cp. rewrite Ha.
    apply ucd_lower_stable, Ha.
Qed.

Lemma py_lower_idem (s : str) : py_lower (py_lower s) = py_lower s.
Proof.
  induction s as [|c s IH]; [reflexivity|].
  change (py_lower (c :: s)) with (lower_cp c ++ py_lower s).
  rewrite py_lower_app, lower_cp_stable, IH. reflexivity.
Qed.

(** Lower-casing brings in no ASCII character other than lower-case
    letters. *)
Lemma py_lower_chars (d : N) (s : str) :
  In d (py_lower s) ->
  is_ascii d = false \/ is_ascii_lower d = true \/ In d s.
Proof.
  induction s as [|c s IH]; [intros []|].
  change (py_lower (c :: s)) with (lower_cp c ++ py_lower s).
  rewrite in_app_iff. intros [Hin|Hin].
  - destruct (is_ascii c) eqn:Ha.
    + destruct (lower_cp_ascii c Ha) as (x & Hx & _ & _ & Hcase).
      rewrite Hx in Hin. destruct Hin as [<-|[]].
      destruct Hcase as [->|Hl]; [right; right; left; reflexivity|auto].
    + unfold lower_cp in Hin. rewrite Ha in Hin.
      destruct (ucd_lower_plain c d Ha Hin); auto.
  - destruct (IH Hin) as [?|[?|?]]; auto. right. right. right. assumption.
Qed.

Lemma py_lower_keeps (P : N -> bool) (s : str) :
  (forall d, is_ascii d = false -> P d = false) ->
  (forall d, is_ascii_lower d = true -> P d = false) ->
  Forall (fun c => P c = false) s ->
  Forall (fun c => P c = false) (py_lower s).
Proof.
  intros Hna Hlow Hs. apply List.Forall_forall. intros d Hd.
  destruct (py_lower_chars d s Hd) as [Ha|[Hl|Hin]]; auto.
  rewrite List.Forall_forall in Hs. auto.
Qed.
End LowerFacts.

(** *** The default port *)

Lemma cut_last_spec (ch : N) (s host port : str) :
  cut_last ch s = Some (host, port) -> s = host ++ ch :: port.
Proof.
  unfold cut_last. destruct (cut_first ch (rev s)) as [[b a]|] eqn:E; [|discriminate].
  intros [= <- <-]. apply cut_first_spec in E as [E _].
  apply (f_equal (@rev N)) in E. rewrite rev_involutive in E. rewrite E.
  rewrite rev_app_distr. simpl. rewrite <- app_assoc. reflexivity.
Qed.

(** Dropping the port keeps the authority or cuts ":80" or ":443" off its
    end. *)
Lemma drop_default_port_cases (scheme netloc : str) :
  drop_default_port scheme netloc = netloc
  \/ exists port,
       netloc = drop_default_port scheme netloc ++ 58%N :: port
       /\ (port = lit "80" \/ port = lit "443").
Proof.
  unfold drop_default_port.
  destruct (cut_last 58 netloc) as [[host port]|] eqn:E; [|auto].
  apply cut_last_spec in E.
  destruct (str_eqb scheme (lit "http") && str_eqb port (lit "80")) eqn:G1.
  - right. exists port. split; [exact E|]. left.
    apply andb_true_iff in G1 as [_ G]. apply str_eqb_eq in G. exact G.
  - destruct (str_eqb scheme (lit "https") && str_eqb port (lit "443")) eqn:G2; [|auto].
    right. exists port. split; [exact E|]. right.
    apply andb_true_iff in G2 as [_ G]. apply str_eqb_eq in G. exact G.
Qed.

Section PortFacts.
Context `{PyRuntimeLaws}.

Lemma drop_default_port_keeps (P : N -> Prop) (scheme netloc : str) :
  Forall P netloc -> Forall P (drop_default_port scheme netloc).
Proof.
  intros Hall. destruct (drop_default_port_cases scheme netloc) as [->|(port & E & _)];
    [exact Hall|].
  rewrite E in Hall. apply Forall_app in Hall as [Hh _]. exact Hh.
Qed.

Lemma drop_default_port_lower (scheme netloc : str) :
  py_lower netloc = netloc ->
  py_lower (drop_default_port scheme netloc) = drop_default_port scheme netloc.
Proof.
  intros Hfix.
  destruct (drop_default_port_cases scheme netloc) as [->|(port & E & Hport)];
    [exact Hfix|].
  set (host := drop_default_port scheme netloc) in *.
  rewrite E, py_lower_app in Hfix.
  assert (Hp : py_lower (58%N :: port) = 58%N :: port)
    by (destruct Hport as [->| ->]; reflexivity).
  rewrite Hp in Hfix. apply app_inv_tail in Hfix. exact Hfix.
Qed.
End PortFacts.

Lemma http_lower_scheme : lower_scheme (lit "http").
Proof. split; [reflexivity|]. repeat constructor. Qed.

Lemma rstrip_char_sub (ch x : N) (s : str) : In x (rstrip_char ch s) -> In x s.
Proof.
  destruct (rstrip_char_prefix ch s) as [post E]. intros Hin.
  rewrite E. apply in_or_app. left. exact Hin.
Qed.

Lemma rstrip_char_head (ch c : N) (s : str) :
  starts_with_or_empty c s -> starts_with_or_empty c (rstrip_char ch s).
Proof.
  destruct (rstrip_char_prefix ch s) as [post E]. intros Hs.
  destruct (rstrip_char ch s) as [|x t]; [exact I|].
  rewrite E in Hs. exact Hs.
Qed.

Lemma query_char_facts (q : str) :
  Forall (fun c => is_query_char c = true) q -> ~ In 35%N q /\ clean q.
Proof.
  intros Hq. rewrite List.Forall_forall in Hq. split.
  - intros Hin. apply Hq in Hin. discriminate.
  - apply List.Forall_forall. intros c Hc. apply Hq in Hc.
    unfold is_query_char in Hc.
    apply orb_true_iff in Hc as [Hc|Hc]; [apply orb_true_iff in Hc as [Hc|Hc]|].
    + apply quoted_char_facts in Hc. tauto.
    + apply N.eqb_eq in Hc. subst c. reflexivity.
    + apply N.eqb_eq in Hc. subst c. reflexivity.
Qed.

(** *** Idempotence *)

(** *** Paths without a trailing slash *)

Lemma lstrip_char_length (ch : N) (s : str) :
  (length (lstrip_char ch s) <= length s)%nat.
Proof.
  induction s as [|c s IH]; simpl; [lia|].
  destruct (c =? ch)%N; simpl; lia.
Qed.

Lemma rstrip_char_snoc (ch c : N) (s : str) :
  c <> ch -> rstrip_char ch (s ++ [c]) = s ++ [c].
Proof.
  intros Hne. unfold rstrip_char. rewrite rev_app_distr. simpl.
  apply N.eqb_neq in Hne. rewrite Hne. simpl. rewrite rev_involutive. reflexivity.
Qed.

Lemma rstrip_char_fixed (ch : N) (p : str) :
  rstrip_char ch p = p ->
  p = [] \/ exists s c, p = s ++ [c] /\ c <> ch.
Proof.
  destruct p as [|x p'] using rev_ind; [auto|]. clear IHp'.
  intros Hfix. right. exists p', x. split; [reflexivity|].
  intros ->. unfold rstrip_char in Hfix. rewrite rev_app_distr in Hfix.
  simpl in Hfix. rewrite N.eqb_refl in Hfix.
  apply (f_equal (@length N)) in Hfix.
  rewrite length_rev, length_app in Hfix. simpl in Hfix.
  pose proof (lstrip_char_length ch (rev p')) as Hle.
  rewrite length_rev in Hle. lia.
Qed.

(** A non-empty end of a path without a trailing slash has none either. *)
Lemma rstrip_char_tail (ch : N) (a b : str) :
  rstrip_char ch (a ++ b) = a ++ b -> rstrip_char ch b = b.
Proof.
  intros Hfix. destruct b as [|y b'] using rev_ind; [reflexivity|]. clear IHb'.
  apply rstrip_char_fixed in Hfix as [Hnil|(s & c & Heq & Hne)].
  - apply (f_equal (@length N)) in Hnil. rewrite !length_app in Hnil.
    simpl in Hnil. lia.
  - rewrite app_assoc in Heq. apply List.app_inj_tail in Heq as [_ ->].
    apply rstrip_char_snoc. exact Hne.
Qed.

Lemma rstrip_char_cons (ch c : N) (b : str) :
  rstrip_char ch b = b -> b <> [] -> rstrip_char ch (c :: b) = c :: b.
Proof.
  intros Hfix Hne. apply rstrip_char_fixed in Hfix as [->|(s & x & -> & Hx)];
    [contradiction|].
  change (c :: s ++ [x]) with ((c :: s) ++ [x]). apply rstrip_char_snoc. exact Hx.
Qed.

Lemma rooted_fixed (p : str) :
  rstrip_char 47 p = p -> rstrip_char 47 (rooted p) = rooted p.
Proof.
  intros Hfix. unfold rooted. destruct p as [|c p']; [reflexivity|].
  destruct (c =? 47)%N; [exact Hfix|].
  apply rstrip_char_cons; [exact Hfix|discriminate].
Qed.

Lemma rooted_head (p : str) : starts_with_or_empty 47 (rooted p).
Proof.
  unfold rooted. destruct p as [|c p']; [exact I|].
  destruct (N.eqb_spec c 47) as [->|Hne]; reflexivity.
Qed.

Lemma rooted_of_rooted (p : str) : starts_with_or_empty 47 p -> rooted p = p.
Proof.
  unfold rooted. destruct p as [|c p']; [reflexivity|]. simpl. intros ->. reflexivity.
Qed.

Lemma rooted_single (p : str) :
  py_startswith [47%N; 47%N] p = false ->
  py_startswith [47%N; 47%N] (rooted p) = false.
Proof.
  unfold rooted. destruct p as [|c p']; [reflexivity|].
  destruct (N.eqb_spec c 47) as [->|Hne]; [auto|].
  intros _. cbn [py_startswith].
  replace (47 =? c)%N with false by (symmetry; apply N.eqb_neq; congruence).
  reflexivity.
Qed.

Lemma rooted_sub (x : N) (p : str) : In x (rooted p) -> x = 47%N \/ In x p.
Proof.
  unfold rooted. destruct p as [|c p']; [intros []|].
  destruct (c =? 47)%N; [auto|]. intros [<-|Hin]; auto.
Qed.

(** *** What [urlunsplit] writes and what [urlsplit] reads of it *)

Lemma urlunsplit_written (scheme netloc path query : str) :
  scheme <> [] ->
  urlunsplit scheme netloc path query []
  = scheme ++ 58%N ::
      (if (if netloc is [] then false else true)
          || (in_uses_netloc scheme && negb (py_startswith [47%N; 47%N] path))
       then [47%N; 47%N] ++ netloc ++ rooted path
       else path) ++ query_part query.
Proof.
  intros Hs. unfold urlunsplit. fold (rooted path).
  destruct scheme as [|s0 scheme]; [contradiction|]. cbn [andb].
  destruct ((if netloc is [] then false else true)
            || (in_uses_netloc (s0 :: scheme)
                && negb (py_startswith [47%N; 47%N] path)));
    destruct query as [|q0 query]; cbn [query_part];
    rewrite ?app_nil_r; cbn [app]; rewrite <- ?app_assoc; cbn [app];
    rewrite <- ?app_assoc; reflexivity.
Qed.

Section Reading.
Context `{PyRuntime}.

(** Splitting a lower-case scheme, a colon and a body that holds no TAB, LF
    or CR: the scheme comes back and the body is read for authority, path
    and query. *)
Lemma urlsplit_written (scheme body netloc path query : str) :
  lower_scheme scheme -> clean body ->
  split_netloc body = (netloc, path ++ query_part query) ->
  ~ In 63%N path -> ~ In 35%N path -> ~ In 35%N query ->
  urlsplit (scheme ++ 58%N :: body)
  = if netloc_raises netloc then None
    else Some {| sr_scheme := scheme; sr_netloc := netloc; sr_path := path;
                 sr_query := query; sr_fragment := [] |}.
Proof.
  intros Hsch Hcb Hnl Hp63 Hp35 Hq35.
  destruct (lower_scheme_facts scheme Hsch) as (Hs58 & Hcs & Hsc).
  unfold urlsplit.
  assert (Hl : lstrip_c0 (scheme ++ 58%N :: body) = scheme ++ 58%N :: body).
  { destruct scheme as [|c sch]; [destruct Hsch as [[] _]|]. simpl.
    destruct Hsch as [Hlow _]. simpl in Hlow.
    unfold is_ascii_lower, in_range in Hlow.
    apply andb_true_iff in Hlow as [Hlo _]. apply N.leb_le in Hlo.
    replace (c <=? 32)%N with false by (symmetry; apply N.leb_gt; lia).
    reflexivity. }
  rewrite Hl. rewrite remove_unsafe_id.
  2:{ apply clean_app. split; [exact Hcs|]. constructor; [reflexivity|exact Hcb]. }
  rewrite (split_scheme_assembled scheme _ Hsch), Hnl.
  assert (Hr35 : ~ In 35%N (path ++ query_part query)).
  { rewrite in_app_iff. intros [Hin|Hin]; [auto|].
    unfold query_part in Hin. destruct query; [destruct Hin|].
    destruct Hin as [Heq|Hin]; [discriminate|auto]. }
  rewrite (cut_first_none 35 _ Hr35).
  destruct (netloc_raises netloc);
    [destruct (cut_first 63 _) as [[? ?]|]; reflexivity|].
  unfold query_part. destruct query as [|q0 query].
  - rewrite app_nil_r, (cut_first_none 63 path Hp63). reflexivity.
  - rewrite (cut_first_app 63 path (q0 :: query) Hp63). reflexivity.
Qed.

Lemma split_netloc_slashes (tail : str) :
  split_netloc (47%N :: 47%N :: tail) = span_until is_netloc_delim tail.
Proof. reflexivity. Qed.

Lemma split_netloc_none (url : str) :
  py_startswith [47%N; 47%N] url = false -> split_netloc url = ([], url).
Proof. intros Hs. rewrite split_netloc_eq, Hs. reflexivity. Qed.

Lemma startswith_slashes (url : str) :
  py_startswith [47%N; 47%N] url = true -> exists tail, url = 47%N :: 47%N :: tail.
Proof.
  destruct url as [|a [|b tail]]; cbn [py_startswith]; try discriminate.
  - rewrite andb_false_r. discriminate.
  - rewrite andb_true_r. intros Hs. apply andb_true_iff in Hs as [Ha Hb].
    apply N.eqb_eq in Ha, Hb. subst. eauto.
Qed.

Lemma query_part_head (query : str) :
  match query_part query with [] => True | c :: _ => is_netloc_delim c = true end.
Proof. destruct query; [exact I|reflexivity]. Qed.

Lemma startswith_slashes_query (path query : str) :
  py_startswith [47%N; 47%N] path = false ->
  py_startswith [47%N; 47%N] (path ++ query_part query) = false.
Proof.
  destruct path as [|a [|b tail]]; cbn [py_startswith app].
  - intros _. destruct query; reflexivity.
  - intros _. destruct query; cbn [query_part py_startswith];
      rewrite ?andb_false_r; reflexivity.
  - auto.
Qed.
End Reading.

(** *** The second pass *)

Section Settled.
Context `{PyRuntimeLaws}.

(** The second pass over a split whose scheme and query the first pass
    wrote: both come back as they are. *)
Lemma second_pass (n scheme netloc path query : str) (qs : list (str * str)) :
  lower_scheme scheme ->
  urlencode (sort_by pair_leb
               (List.filter (fun kv => negb (is_tracking_param (fst kv))) qs))
  = Some query ->
  urlsplit n = Some {| sr_scheme := scheme; sr_netloc := netloc; sr_path := path;
                       sr_query := query; sr_fragment := [] |} ->
  normalize_url_try n
  = Some (urlunsplit scheme (drop_default_port scheme (py_lower netloc))
            (rstrip_char 47 path) query []).
Proof.
  intros Hsch Henc Hsplit. unfold normalize_url_try. rewrite Hsplit.
  cbn [sr_scheme sr_netloc sr_path sr_query].
  rewrite (lower_scheme_fixed _ Hsch).
  destruct (parse_qsl_urlencode _ _ Henc) as [Hparse _]. rewrite Hparse.
  rewrite sort_filter_twice, Henc.
  destruct scheme; [destruct Hsch as [[] _]|reflexivity].
Qed.

(** A body that the second pass reads as [netloc2] and [path2], and writes
    back as it is, is a fixed point, or makes the second pass raise. *)
Lemma body_settled (scheme body netloc2 path2 query : str) (qs : list (str * str)) :
  lower_scheme scheme -> clean body ->
  urlencode (sort_by pair_leb
               (List.filter (fun kv => negb (is_tracking_param (fst kv))) qs))
  = Some query ->
  split_netloc body = (netloc2, path2 ++ query_part query) ->
  ~ In 63%N path2 -> ~ In 35%N path2 ->
  (netloc_raises netloc2 = false ->
   urlunsplit scheme (drop_default_port scheme (py_lower netloc2))
     (rstrip_char 47 path2) query []
   = scheme ++ 58%N :: body) ->
  normalize_url_try (scheme ++ 58%N :: body) = Some (scheme ++ 58%N :: body)
  \/ normalize_url_try (scheme ++ 58%N :: body) = None.
Proof.
  intros Hsch Hcb Henc Hnl Hp63 Hp35 Hback.
  destruct (parse_qsl_urlencode _ _ Henc) as [_ Hqchars].
  destruct (query_char_facts query Hqchars) as [Hq35 _].
  pose proof (urlsplit_written scheme body netloc2 path2 query
                Hsch Hcb Hnl Hp63 Hp35 Hq35) as Hsplit.
  destruct (netloc_raises netloc2).
  - right. unfold normalize_url_try. rewrite Hsplit. reflexivity.
  - left. rewrite (second_pass _ _ _ _ _ qs Hsch Henc Hsplit).
    rewrite Hback; reflexivity.
Qed.

Lemma drop_default_port_nil (scheme : str) : drop_default_port scheme [] = [].
Proof. reflexivity. Qed.

(** What the first pass assembles is a fixed point of the second, or makes
    it raise, when the authority stays. *)
Lemma assembled_settled (scheme netloc path query : str) (qs : list (str * str)) :
  lower_scheme scheme ->
  Forall (fun c => is_netloc_delim c = false) netloc -> clean netloc ->
  py_lower netloc = netloc ->
  (netloc <> [] -> starts_with_or_empty 47 path) ->
  ~ In 63%N path -> ~ In 35%N path -> clean path ->
  rstrip_char 47 path = path ->
  urlencode (sort_by pair_leb
               (List.filter (fun kv => negb (is_tracking_param (fst kv))) qs))
  = Some query ->
  authority_stays scheme netloc path = true ->
  let n := urlunsplit scheme netloc path query [] in
  normalize_url_try n = Some n \/ normalize_url_try n = None.
Proof.
  intros Hsch Hndelim Hnclean Hnlow Hphead Hp63 Hp35 Hpclean Hpfix Henc Hstay n.
  assert (Hsne : scheme <> [])
    by (destruct Hsch as [Hh _]; destruct scheme; [contradiction|discriminate]).
  destruct (parse_qsl_urlencode _ _ Henc) as [_ Hqchars].
  destruct (query_char_facts query Hqchars) as [_ Hqclean].
  assert (Hqpclean : clean (query_part query)).
  { unfold query_part. destruct query; [constructor|].
    constructor; [reflexivity|exact Hqclean]. }
  pose proof (urlunsplit_written scheme netloc path query Hsne) as Hn.
  fold n in Hn. rewrite Hn.
  unfold authority_stays in Hstay.
  destruct netloc as [|c0 nl'].
  - (* no authority assembled *)
    cbn [orb] in *.
    destruct (py_startswith [47%N; 47%N] path) eqn:Hss.
    + (* the path hides one *)
      rewrite andb_false_r.
      destruct (startswith_slashes _ Hss) as [tail Etail].
      rewrite Etail in Hstay. rewrite split_netloc_slashes in Hstay.
      destruct (span_until is_netloc_delim tail) as [host rest] eqn:Esp.
      apply span_until_spec in Esp as (Htail & Hhdelim & Hrhead).
      assert (Hrsub : forall x, In x rest -> In x path).
      { intros x Hx. rewrite Etail, Htail. right. right.
        apply in_or_app. right. exact Hx. }
      assert (Hrroot : starts_with_or_empty 47 rest).
      { destruct rest as [|x rest']; [exact I|]. simpl.
        unfold is_netloc_delim in Hrhead.
        apply orb_true_iff in Hrhead as [Hh|Hh];
          [apply orb_true_iff in Hh as [Hh|Hh]|]; apply N.eqb_eq in Hh; subst x.
        - reflexivity.
        - exfalso. apply Hp63, Hrsub. left. reflexivity.
        - exfalso. apply Hp35, Hrsub. left. reflexivity. }
      assert (Hrfix : rstrip_char 47 rest = rest).
      { apply (rstrip_char_tail 47 (47%N :: 47%N :: host) rest).
        cbn [app]. rewrite <- Htail, <- Etail. exact Hpfix. }
      apply (body_settled scheme _ host rest query qs); auto.
      * apply clean_app. split; [exact Hpclean|exact Hqpclean].
      * rewrite Etail. cbn [app]. rewrite split_netloc_slashes, Htail, <- app_assoc.
        apply span_until_app; [exact Hhdelim|].
        destruct rest as [|x rest']; [apply query_part_head|exact Hrhead].
      * intros Hok. rewrite Hok in Hstay. cbn [orb] in Hstay. rewrite Hrfix.
        rewrite urlunsplit_written by exact Hsne.
        destruct host as [|h0 host'].
        -- cbn [py_lower flat_map]. rewrite drop_default_port_nil.
           cbn [orb]. rewrite Hstay. rewrite (rooted_of_rooted rest Hrroot).
           rewrite Etail, Htail. reflexivity.
        -- apply str_eqb_eq in Hstay. rewrite Hstay. cbn [orb].
           rewrite (rooted_of_rooted rest Hrroot).
           rewrite Etail, Htail. cbn [app]. rewrite <- app_assoc. reflexivity.
    + (* nothing an authority could be read from *)
      rewrite andb_true_r.
      destruct (in_uses_netloc scheme) eqn:Huses.
      * apply (body_settled scheme _ [] (rooted path) query qs); auto.
        -- apply clean_app. split; [|exact Hqpclean].
           cbn [app]. constructor; [reflexivity|]. constructor; [reflexivity|].
           apply List.Forall_forall. intros x Hx.
           apply rooted_sub in Hx as [->|Hx]; [reflexivity|].
           unfold clean in Hpclean. rewrite List.Forall_forall in Hpclean. auto.
        -- cbn [app]. rewrite split_netloc_slashes.
           apply (span_until_app is_netloc_delim []); [constructor|].
           pose proof (rooted_head path) as Hr.
           destruct (rooted path) as [|x t]; [apply query_part_head|].
           simpl in Hr. subst x. reflexivity.
        -- intros Hin. apply rooted_sub in Hin as [Hx|Hin]; [discriminate|auto].
        -- intros Hin. apply rooted_sub in Hin as [Hx|Hin]; [discriminate|auto].
        -- intros _. cbn [py_lower flat_map]. rewrite drop_default_port_nil.
           rewrite (rooted_fixed path Hpfix).
           rewrite urlunsplit_written by exact Hsne.
           cbn [orb]. rewrite Huses, (rooted_single path Hss). cbn [andb negb].
           rewrite (rooted_of_rooted _ (rooted_head path)). reflexivity.
      * apply (body_settled scheme _ [] path query qs); auto.
        -- apply clean_app. split; [exact Hpclean|exact Hqpclean].
        -- apply split_netloc_none, startswith_slashes_query. exact Hss.
        -- intros _. cbn [py_lower flat_map]. rewrite drop_default_port_nil, Hpfix.
           rewrite urlunsplit_written by exact Hsne.
           cbn [orb]. rewrite Huses. reflexivity.
  - (* an authority *)
    cbn [orb].
    assert (Hroot : rooted path = path)
      by (apply rooted_of_rooted, Hphead; discriminate).
    rewrite Hroot.
    apply (body_settled scheme _ (c0 :: nl') path query qs); auto.
    + apply clean_app. split; [|exact Hqpclean].
      apply clean_app. split; [repeat constructor|].
      apply clean_app. split; [exact Hnclean|exact Hpclean].
    + cbn [app]. rewrite split_netloc_slashes.
      change (span_until is_netloc_delim (((c0 :: nl') ++ path) ++ query_part query)
              = (c0 :: nl', path ++ query_part query)).
      rewrite <- app_assoc. apply span_until_app; [exact Hndelim|].
      specialize (Hphead ltac:(discriminate)).
      destruct path as [|x t]; [apply query_part_head|].
      simpl in Hphead. subst x. reflexivity.
    + intros Hok. rewrite Hok in Hstay. cbn [orb] in Hstay.
      apply str_eqb_eq in Hstay. rewrite Hnlow, Hstay, Hpfix.
      rewrite urlunsplit_written by exact Hsne. cbn [orb]. rewrite Hroot.
      reflexivity.
Qed.
End Settled.

Section Idempotent.
Context `{PyRuntimeLaws}.

(** The second pass over the result of a first pass whose authority is
    settled finds nothing to change, or raises. *)
Lemma normalize_url_try_settled (r : str) (parts : SplitResult) (n : str) :
  urlsplit r = Some parts ->
  normalize_url_try r = Some n ->
  authority_settled parts = true ->
  n <> [] /\ (normalize_url_try n = Some n \/ normalize_url_try n = None).
Proof.
  intros Hsplit Htry Hset.
  unfold normalize_url_try in Htry. rewrite Hsplit in Htry.
  fold (normal_scheme parts) in Htry. fold (normal_netloc parts) in Htry.
  unfold authority_settled in Hset.
  set (scheme := normal_scheme parts) in *.
  set (netloc := normal_netloc parts) in *.
  set (path := rstrip_char 47 (sr_path parts)) in *.
  destruct (urlencode _) as [query|] eqn:Henc; [|discriminate].
  apply (inj Some) in Htry. subst n.
  destruct (urlsplit_facts r parts Hsplit)
    as (Hsch & Hdelim & Hcn & Hp63 & Hp35 & Hcp & Hhead).
  assert (Hscheme : lower_scheme scheme).
  { subst scheme. unfold normal_scheme. destruct Hsch as [->|Hl].
    - exact http_lower_scheme.
    - rewrite (lower_scheme_fixed _ Hl).
      destruct (sr_scheme parts); [destruct Hl as [[] _]|exact Hl]. }
  assert (Hsne : scheme <> [])
    by (destruct Hscheme as [Hh _]; destruct scheme; [contradiction|discriminate]).
  split.
  { rewrite urlunsplit_written by exact Hsne.
    destruct scheme; [contradiction|discriminate]. }
  apply (assembled_settled scheme netloc path query (parse_qsl (sr_query parts)));
    auto.
  - subst netloc. unfold normal_netloc. apply drop_default_port_keeps.
    apply py_lower_keeps; [| |exact Hdelim].
    + intros d Hd. unfold is_ascii in Hd. apply N.ltb_ge in Hd.
      unfold is_netloc_delim. repeat (apply orb_false_iff; split);
        apply N.eqb_neq; lia.
    + intros d Hd. unfold is_ascii_lower, in_range in Hd.
      apply andb_true_iff in Hd as [Hlo _]. apply N.leb_le in Hlo.
      unfold is_netloc_delim. repeat (apply orb_false_iff; split);
        apply N.eqb_neq; lia.
  - subst netloc. unfold normal_netloc. apply drop_default_port_keeps.
    apply py_lower_keeps; [| |exact Hcn].
    + intros d Hd. unfold is_ascii in Hd. apply N.ltb_ge in Hd.
      unfold is_unsafe. repeat (apply orb_false_iff; split);
        apply N.eqb_neq; lia.
    + intros d Hd. unfold is_ascii_lower, in_range in Hd.
      apply andb_true_iff in Hd as [Hlo _]. apply N.leb_le in Hlo.
      unfold is_unsafe. repeat (apply orb_false_iff; split);
        apply N.eqb_neq; lia.
  - subst netloc. unfold normal_netloc.
    apply drop_default_port_lower, py_lower_idem.
  - intros Hne. apply rstrip_char_head, Hhead.
    intros E. apply Hne. subst netloc. unfold normal_netloc. rewrite E.
    reflexivity.
  - intros Hin. apply Hp63, (rstrip_char_sub _ _ _ Hin).
  - intros Hin. apply Hp35, (rstrip_char_sub _ _ _ Hin).
  - eapply clean_sub; [|exact Hcp]. intros x. apply rstrip_char_sub.
  - apply rstrip_char_idem.
Qed.

(** C8, as the code has it: normalising a URL twice gives what normalising
    it once gives, for every input on which the [try] block raises, and for
    every other input whose normal form has no white space at its end and
    an authority that a second pass leaves alone. *)
Theorem normalize_url_idempotent (u : str) :
  normalize_url_try (py_strip u) = None
  \/ (py_strip (normalize_url u) = normalize_url u
      /\ exists parts, urlsplit (py_strip u) = Some parts
                       /\ authority_settled parts = true) ->
  normalize_url (normalize_url u) = normalize_url u.
Proof.
  intros [Hnone|(Hstrip & parts & Hsplit & Hset)];
    [apply normalize_url_raised; exact Hnone|].
  destruct (normalize_url_try (py_strip u)) as [n|] eqn:Htry;
    [|apply normalize_url_raised; exact Htry].
  assert (Hn : normalize_url u = match py_strip u with [] => [] | _ => n end).
  { unfold normalize_url. cbv zeta. rewrite Htry. reflexivity. }
  destruct (py_strip u) as [|c r] eqn:Er.
  { rewrite Hn. reflexivity. }
  rewrite Hn in *. clear Hn.
  destruct (normalize_url_try_settled (c :: r) parts n Hsplit Htry Hset)
    as [Hne Hagain].
  unfold normalize_url. cbv zeta. rewrite Hstrip.
  destruct n as [|x n']; [contradiction|].
  destruct Hagain as [-> | ->]; reflexivity.
Qed.
End Idempotent.

(** *** The authority condition is needed *)

Section Unsettled.
Context `{PyRuntimeLaws}.

(** A body that the second pass reads and writes back otherwise is not a
    fixed point. *)
Lemma body_unsettled (scheme body netloc2 path2 query : str) (qs : list (str * str)) :
  lower_scheme scheme -> clean body ->
  urlencode (sort_by pair_leb
               (List.filter (fun kv => negb (is_tracking_param (fst kv))) qs))
  = Some query ->
  split_netloc body = (netloc2, path2 ++ query_part query) ->
  ~ In 63%N path2 -> ~ In 35%N path2 ->
  netloc_raises netloc2 = false ->
  urlunsplit scheme (drop_default_port scheme (py_lower netloc2))
    (rstrip_char 47 path2) query []
  <> scheme ++ 58%N :: body ->
  exists m, normalize_url_try (scheme ++ 58%N :: body) = Some m
            /\ m <> scheme ++ 58%N :: body.
Proof.
  intros Hsch Hcb Henc Hnl Hp63 Hp35 Hok Hne.
  destruct (parse_qsl_urlencode _ _ Henc) as [_ Hqchars].
  destruct (query_char_facts query Hqchars) as [Hq35 _].
  pose proof (urlsplit_written scheme body netloc2 path2 query
                Hsch Hcb Hnl Hp63 Hp35 Hq35) as Hsplit.
  rewrite Hok in Hsplit.
  eexists. split; [exact (second_pass _ _ _ _ _ qs Hsch Henc Hsplit)|exact Hne].
Qed.

Lemma longer_differs (a b : str) : a <> [] -> b <> a ++ b.
Proof.
  intros Ha Heq. apply (f_equal (@length N)) in Heq.
  rewrite length_app in Heq. destruct a; [contradiction|simpl in Heq; lia].
Qed.

(** What the first pass assembles with an authority that does not stay is
    rewritten by the second. *)
Lemma assembled_unsettled (scheme netloc path query : str) (qs : list (str * str)) :
  lower_scheme scheme ->
  Forall (fun c => is_netloc_delim c = false) netloc -> clean netloc ->
  py_lower netloc = netloc ->
  (netloc <> [] -> starts_with_or_empty 47 path) ->
  ~ In 63%N path -> ~ In 35%N path -> clean path ->
  rstrip_char 47 path = path ->
  urlencode (sort_by pair_leb
               (List.filter (fun kv => negb (is_tracking_param (fst kv))) qs))
  = Some query ->
  authority_stays scheme netloc path = false ->
  let n := urlunsplit scheme netloc path query [] in
  exists m, normalize_url_try n = Some m /\ m <> n.
Proof.
  intros Hsch Hndelim Hnclean Hnlow Hphead Hp63 Hp35 Hpclean Hpfix Henc Hstay n.
  assert (Hsne : scheme <> [])
    by (destruct Hsch as [Hh _]; destruct scheme; [contradiction|discriminate]).
  destruct (parse_qsl_urlencode _ _ Henc) as [_ Hqchars].
  destruct (query_char_facts query Hqchars) as [_ Hqclean].
  assert (Hqpclean : clean (query_part query)).
  { unfold query_part. destruct query; [constructor|].
    constructor; [reflexivity|exact Hqclean]. }
  assert (Hcancel : forall b1 b2 : str,
            b2 <> b1 ->
            scheme ++ 58%N :: b2 ++ query_part query
            <> scheme ++ 58%N :: b1 ++ query_part query).
  { intros b1 b2 Hne Heq. apply app_inv_head in Heq.
    injection Heq as Heq. apply app_inv_tail in Heq. contradiction. }
  pose proof (urlunsplit_written scheme netloc path query Hsne) as Hn.
  fold n in Hn. rewrite Hn.
  unfold authority_stays in Hstay.
  destruct netloc as [|c0 nl'].
  - cbn [orb] in *.
    destruct (py_startswith [47%N; 47%N] path) eqn:Hss; [|discriminate].
    rewrite andb_false_r.
    destruct (startswith_slashes _ Hss) as [tail Etail].
    rewrite Etail in Hstay. rewrite split_netloc_slashes in Hstay.
    destruct (span_until is_netloc_delim tail) as [host rest] eqn:Esp.
    apply span_until_spec in Esp as (Htail & Hhdelim & Hrhead).
    apply orb_false_iff in Hstay as [Hok Hstay].
    assert (Hrsub : forall x, In x rest -> In x path).
    { intros x Hx. rewrite Etail, Htail. right. right.
      apply in_or_app. right. exact Hx. }
    assert (Hrroot : starts_with_or_empty 47 rest).
    { destruct rest as [|x rest']; [exact I|]. simpl.
      unfold is_netloc_delim in Hrhead.
      apply orb_true_iff in Hrhead as [Hh|Hh];
        [apply orb_true_iff in Hh as [Hh|Hh]|]; apply N.eqb_eq in Hh; subst x.
      - reflexivity.
      - exfalso. apply Hp63, Hrsub. left. reflexivity.
      - exfalso. apply Hp35, Hrsub. left. reflexivity. }
    assert (Hrfix : rstrip_char 47 rest = rest).
    { apply (rstrip_char_tail 47 (47%N :: 47%N :: host) rest).
      cbn [app]. rewrite <- Htail, <- Etail. exact Hpfix. }
    apply (body_unsettled scheme _ host rest query qs); auto.
    + apply clean_app. split; [exact Hpclean|exact Hqpclean].
    + rewrite Etail. cbn [app]. rewrite split_netloc_slashes, Htail, <- app_assoc.
      apply span_until_app; [exact Hhdelim|].
      destruct rest as [|x rest']; [apply query_part_head|exact Hrhead].
    + rewrite Hrfix, urlunsplit_written by exact Hsne.
      rewrite (rooted_of_rooted rest Hrroot).
      apply Hcancel. rewrite Etail, Htail.
      destruct host as [|h0 host'].
      * cbn [py_lower flat_map]. rewrite drop_default_port_nil.
        cbn [orb]. rewrite Hstay.
        apply (longer_differs [47%N; 47%N] rest). discriminate.
      * assert (Hnl2 : drop_default_port scheme (py_lower (h0 :: host')) <> h0 :: host').
        { intros E. rewrite E in Hstay. rewrite str_eqb_refl in Hstay. discriminate. }
        destruct (drop_default_port scheme (py_lower (h0 :: host'))) as [|d0 nl2].
        -- cbn [orb].
           destruct (in_uses_netloc scheme && negb (py_startswith [47%N; 47%N] rest)).
           ++ cbn [app]. intros Heq. injection Heq as Heq.
              revert Heq. apply (longer_differs (h0 :: host') rest). discriminate.
           ++ apply (longer_differs (47%N :: 47%N :: h0 :: host') rest). discriminate.
        -- cbn [orb app]. intros Heq. injection Heq as E0 Heq.
           apply app_inv_tail in Heq. apply Hnl2. congruence.
  - cbn [orb].
    apply orb_false_iff in Hstay as [Hok Hstay].
    assert (Hroot : rooted path = path)
      by (apply rooted_of_rooted, Hphead; discriminate).
    rewrite Hroot.
    apply (body_unsettled scheme _ (c0 :: nl') path query qs); auto.
    + apply clean_app. split; [|exact Hqpclean].
      apply clean_app. split; [repeat constructor|].
      apply clean_app. split; [exact Hnclean|exact Hpclean].
    + cbn [app]. rewrite split_netloc_slashes.
      change (span_until is_netloc_delim (((c0 :: nl') ++ path) ++ query_part query)
              = (c0 :: nl', path ++ query_part query)).
      rewrite <- app_assoc. apply span_until_app; [exact Hndelim|].
      specialize (Hphead ltac:(discriminate)).
      destruct path as [|x t]; [apply query_part_head|].
      simpl in Hphead. subst x. reflexivity.
    + rewrite Hnlow, Hpfix, urlunsplit_written by exact Hsne. rewrite Hroot.
      apply Hcancel.
      assert (Hnl2 : drop_default_port scheme (c0 :: nl') <> c0 :: nl').
      { intros E. rewrite E in Hstay. rewrite str_eqb_refl in Hstay. discriminate. }
      destruct (drop_default_port scheme (c0 :: nl')) as [|d0 nl2].
      * cbn [orb].
        destruct (in_uses_netloc scheme && negb (py_startswith [47%N; 47%N] path)).
        -- cbn [app]. intros Heq. injection Heq as Heq.
           revert Heq. apply (longer_differs (c0 :: nl') path). discriminate.
        -- apply (longer_differs (47%N :: 47%N :: c0 :: nl') path). discriminate.
      * cbn [orb app]. intros Heq. injection Heq as E0 Heq.
        apply app_inv_tail in Heq. apply Hnl2. congruence.
Qed.

(** The authority condition of the theorem is needed: a normal form without
    white space at its end whose authority is not settled is changed by the
    second pass. *)
Lemma normalize_url_unsettled (u : str) (parts : SplitResult) :
  urlsplit (py_strip u) = Some parts ->
  normalize_url_try (py_strip u) <> None ->
  py_strip u <> [] ->
  py_strip (normalize_url u) = normalize_url u ->
  authority_settled parts = false ->
  normalize_url (normalize_url u) <> normalize_url u.
Proof.
  intros Hsplit Htry Hne Hstrip Hset.
  destruct (normalize_url_try (py_strip u)) as [n|] eqn:Etry; [|contradiction].
  clear Htry.
  assert (Hn : normalize_url u = n).
  { unfold normalize_url. cbv zeta. rewrite Etry.
    destruct (py_strip u); [contradiction|reflexivity]. }
  rewrite Hn in *. clear Hn.
  assert (Hagain : n <> [] /\ exists m, normalize_url_try n = Some m /\ m <> n).
  { unfold normalize_url_try in Etry. rewrite Hsplit in Etry.
    fold (normal_scheme parts) in Etry. fold (normal_netloc parts) in Etry.
    unfold authority_settled in Hset.
    set (scheme := normal_scheme parts) in *.
    set (netloc := normal_netloc parts) in *.
    set (path := rstrip_char 47 (sr_path parts)) in *.
    destruct (urlencode _) as [query|] eqn:Henc; [|discriminate].
    apply (inj Some) in Etry. subst n.
    destruct (urlsplit_facts _ parts Hsplit)
      as (Hsch & Hdelim & Hcn & Hp63 & Hp35 & Hcp & Hhead).
    assert (Hscheme : lower_scheme scheme).
    { subst scheme. unfold normal_scheme. destruct Hsch as [->|Hl].
      - exact http_lower_scheme.
      - rewrite (lower_scheme_fixed _ Hl).
        destruct (sr_scheme parts); [destruct Hl as [[] _]|exact Hl]. }
    assert (Hsne : scheme <> [])
      by (destruct Hscheme as [Hh _]; destruct scheme; [contradiction|discriminate]).
    split.
    { rewrite urlunsplit_written by exact Hsne.
      destruct scheme; [contradiction|discriminate]. }
    apply (assembled_unsettled scheme netloc path query (parse_qsl (sr_query parts)));
      auto.
    - subst netloc. unfold normal_netloc. apply drop_default_port_keeps.
      apply py_lower_keeps; [| |exact Hdelim].
      + intros d Hd. unfold is_ascii in Hd. apply N.ltb_ge in Hd.
        unfold is_netloc_delim. repeat (apply orb_false_iff; split);
          apply N.eqb_neq; lia.
      + intros d Hd. unfold is_ascii_lower, in_range in Hd.
        apply andb_true_iff in Hd as [Hlo _]. apply N.leb_le in Hlo.
        unfold is_netloc_delim. repeat (apply orb_false_iff; split);
          apply N.eqb_neq; lia.
    - subst netloc. unfold normal_netloc. apply drop_default_port_keeps.
      apply py_lower_keeps; [| |exact Hcn].
      + intros d Hd. unfold is_ascii in Hd. apply N.ltb_ge in Hd.
        unfold is_unsafe. repeat (apply orb_false_iff; split);
          apply N.eqb_neq; lia.
      + intros d Hd. unfold is_ascii_lower, in_range in Hd.
        apply andb_true_iff in Hd as [Hlo _]. apply N.leb_le in Hlo.
        unfold is_unsafe. repeat (apply orb_false_iff; split);
          apply N.eqb_neq; lia.
    - subst netloc. unfold normal_netloc.
      apply drop_default_port_lower, py_lower_idem.
    - intros Hnn. apply rstrip_char_head, Hhead.
      intros E. apply Hnn. subst netloc. unfold normal_netloc. rewrite E.
      reflexivity.
    - intros Hin. apply Hp63, (rstrip_char_sub _ _ _ Hin).
    - intros Hin. apply Hp35, (rstrip_char_sub _ _ _ Hin).
    - eapply clean_sub; [|exact Hcp]. intros x. apply rstrip_char_sub.
    - apply rstrip_char_idem. }
  destruct Hagain as (Hnn & m & Hm & Hdiff).
  unfold normalize_url. cbv zeta. rewrite Hstrip.
  destruct n as [|x n']; [contradiction|]. rewrite Hm. exact Hdiff.
Qed.
End Unsettled.


(** The ASCII-only runtime satisfies the laws. *)
Lemma ascii_runtime_encode (s : str) (bs : list N) :
  @utf8_encode ascii_runtime s = Some bs -> bs = s /\ forallb is_ascii s = true.
Proof.
  revert bs. induction s as [|c s IH]; cbn [utf8_encode]; intros bs.
  - intros [= <-]. auto.
  - destruct (is_ascii c) eqn:Ha; [|discriminate].
    destruct (@utf8_encode ascii_runtime s) as [bs'|]; [|discriminate].
    intros [= <-]. destruct (IH bs' eq_refl) as [-> Hall].
    cbn [forallb app]. rewrite Ha, Hall. auto.
Qed.

Lemma ascii_runtime_roundtrip (s : str) (bs : list N) :
  @utf8_encode ascii_runtime s = Some bs -> @utf8_decode ascii_runtime bs = s.
Proof.
  intros E. apply ascii_runtime_encode in E as [-> Hall].
  unfold utf8_decode. rewrite Hall. reflexivity.
Qed.

#[export] Instance ascii_runtime_laws : @PyRuntimeLaws ascii_runtime.
Proof.
  split.
  - intros c Ha. unfold py_lower. simpl. unfold lower_cp. rewrite Ha. reflexivity.
  - intros c d Ha [<-|[]]. left. exact Ha.
  - intros c bs b Hc. discriminate.
  - exact ascii_runtime_roundtrip.
Qed.

Lemma normalize_url_idempotent_witness :
  @normalize_url ascii_runtime
    (@normalize_url ascii_runtime
       (lit "Example.com/News/Story/?utm_source=fb&ref=123"))
  = @normalize_url ascii_runtime
      (lit "Example.com/News/Story/?utm_source=fb&ref=123").
Proof.
  apply (@normalize_url_idempotent ascii_runtime ascii_runtime_laws).
  right. split; [vm_compute; reflexivity|].
  eexists. split; vm_compute; reflexivity.
Defined.

(** Inputs the theorem covers: one without an authority, one on which the
    [try] block raises (U+00E9 cannot be encoded by the ASCII-only
    runtime), and two whose path hides an authority that is already
    normal, or empty before a single slash. *)
Example normalize_url_covers :
  @normalize_url ascii_runtime (lit "mailto:Ops@Example.org")
  = lit "mailto:Ops@Example.org"
  /\ @normalize_url_try ascii_runtime (lit "a?x=" ++ [233%N]) = None
  /\ List.map (fun u => @normalize_url ascii_runtime (lit u))
       ["http:////bar/x"; "http://///x"]%string
     = List.map lit ["http://bar/x"; "http:///x"]%string
  /\ List.map (fun u => @normalize_url ascii_runtime (lit u))
       ["http://bar/x"; "http:///x"]%string
     = List.map lit ["http://bar/x"; "http:///x"]%string.
Proof. vm_compute. auto. Qed.

(** An empty authority hidden before a double slash, or under a scheme
    that takes no authority, is not written again. *)
Example normalize_url_empty_authority :
  List.map (fun u => @normalize_url ascii_runtime (lit u))
    ["http://////x"; "http:////x"; "foo://///x"; "foo:///x"]%string
  = List.map lit ["http:////x"; "http://x"; "foo:///x"; "foo:/x"]%string.
Proof. vm_compute. reflexivity. Qed.

(** Which of these inputs the hypothesis of the theorem admits: the first
    five are idempotent, the last four are not. *)
Example authority_settled_cases :
  List.map (fun u => @authority_settled ascii_runtime
                       <$> @urlsplit ascii_runtime (lit u))
    ["Example.com/Path/"; "mailto:Ops@Example.org"; "https://Example.com:443/a";
     "http:////bar/x"; "http://///x";
     "http://x:80:80/"; "http:////BAR/x"; "http://////x"; "foo://///x"]%string
  = [Some true; Some true; Some true; Some true; Some true;
     Some false; Some false; Some false; Some false].
Proof. vm_compute. reflexivity. Qed.


(** ** The cursor after one alert's turn *)

Section CursorFrame.
Context `{PyRuntime}.
Variables (cfg : config) (e : admin_env) (send : user_provider) (clk : clock).

Lemma fold_cursors {A} (step : world * counters -> A -> world * counters)
    (l : list A) (st : world * counters) :
  (forall st a, w_cursors (fst (step st a)) = w_cursors (fst st)) ->
  w_cursors (fst (fold_left step l st)) = w_cursors (fst st).
Proof.
  intros Hstep. revert st. induction l as [|a l IH]; intros st; simpl; [reflexivity|].
  rewrite IH. apply Hstep.
Qed.

Lemma mark_failed_cursors (d : due_row) (error : str) (w : world) :
  w_cursors (mark_delivery_failed cfg e clk d error w) = w_cursors w.
Proof.
  unfold mark_delivery_failed.
  destruct (max_attempts cfg <=? dr_attempt_count d + 1); [|reflexivity].
  destruct (log_delivery_giveup e _ _ _ _); reflexivity.
Qed.

Lemma claim_all_cursors (al : alert) (p : prefs) (now : Z)
    (rows : list (item * str * str)) (st : world * counters) :
  w_cursors (fst (claim_all al p now rows st)) = w_cursors (fst st).
Proof.
  unfold claim_all. apply fold_cursors. intros [w c] [[it k] u]. unfold claim_one.
  destruct (existsb _ _); [reflexivity|]. destruct (negb _); [reflexivity|].
  unfold claim_insert.
  destruct (insert_delivery _ _ _) as [[tbl nxt] [id|]]; reflexivity.
Qed.

Lemma process_batch_cursors (batch : list due_row) (st : world * counters) :
  w_cursors (fst (process_batch cfg e send clk batch st)) = w_cursors (fst st).
Proof.
  unfold process_batch. destruct batch as [|first rest]; [reflexivity|].
  destruct (outcome _) as [[] err].
  - rewrite fold_cursors; [reflexivity|]. intros st' d. reflexivity.
  - rewrite fold_cursors; [reflexivity|]. intros st' d. apply mark_failed_cursors.
Qed.

Lemma with_items_cursors (cat : catalog) (p : prefs) (due : list due_row)
    (st : world * counters) :
  w_cursors (fst (snd (with_items cfg e clk cat p due st))) = w_cursors (fst st).
Proof.
  revert st. induction due as [|d due IH]; intros st; simpl; [reflexivity|].
  destruct (negb (routed p d)); [apply IH|].
  destruct (existsb _ _).
  - specialize (IH st). destruct (with_items cfg e clk cat p due st). exact IH.
  - rewrite IH. apply mark_failed_cursors.
Qed.

Lemma dispatch_single_cursors (cat : catalog) (p : prefs) (due : list due_row)
    (st st' : world * counters) :
  dispatch_single cfg e send clk cat p due st = Some st' ->
  w_cursors (fst st') = w_cursors (fst st).
Proof.
  intros Hrun. apply dispatch_single_turns in Hrun. subst st'.
  apply fold_cursors. intros st' d. unfold single_turn.
  destruct (negb (routed p d)); [reflexivity|].
  destruct (existsb _ _); [|apply mark_failed_cursors].
  unfold process_single.
  destruct (str_eqb (dr_channel d) (lit "telegram")).
  - destruct (outcome _) as [[] err]; [reflexivity|].
    simpl. rewrite mark_failed_cursors. reflexivity.
  - simpl. apply mark_failed_cursors.
Qed.

Lemma dispatch_email_cursors (cat : catalog) (p : prefs) (due : list due_row)
    (st st' : world * counters) :
  dispatch_email cfg e send clk cat p due st = Some st' ->
  w_cursors (fst st') = w_cursors (fst st).
Proof.
  unfold dispatch_email.
  pose proof (with_items_cursors cat p due st) as Hw.
  destruct (with_items cfg e clk cat p due st) as [ready st1]. simpl in Hw.
  destruct (max_items_per_email cfg =? 0); [discriminate|].
  destruct (max_items_per_email cfg <? 0); intros [= <-]; [exact Hw|].
  rewrite fold_cursors; [exact Hw|]. intros st2 batch. apply process_batch_cursors.
Qed.

(** After an alert's turn, its cursor is the monotone merge of the prior
    cursor with the as-of timestamps the matcher returned in that turn. *)
Lemma process_alert_cursor (cat : catalog) (p : prefs) (al : alert)
    (w w' : world) (c c' : counters) (pu pu' : gmap str Z) :
  process_alert cfg e send clk cat p al (w, c, pu) = Some (w', c', pu') ->
  w_cursors w'
  = advance_cursor (al_alert_id al)
      (fst (scan_matches None
              (matcher cfg cat (db_now clk) al (w_cursors w !! al_alert_id al))))
      (w_cursors w).
Proof.
  unfold process_alert.
  destruct (scan_matches None _) as [max_ts rows]. simpl fst.
  pose proof (claim_all_cursors al p (db_now clk) rows (w, c)) as Hc.
  destruct (claim_all al p (db_now clk) rows (w, c)) as [w1 c1]. simpl in Hc.
  destruct (filter_due cfg pu _) as [pu1 due].
  destruct (str_eqb (al_channel al) (lit "email")).
  - destruct (dispatch_email _ _ _ _ _ _ _ _) as [[w2 c2]|] eqn:E; [|discriminate].
    intros [= <- <- <-]. apply dispatch_email_cursors in E. simpl in E.
    rewrite E, Hc. reflexivity.
  - destruct (dispatch_single _ _ _ _ _ _ _ _) as [[w2 c2]|] eqn:E; [|discriminate].
    intros [= <- <- <-]. apply dispatch_single_cursors in E. simpl in E.
    rewrite E, Hc. reflexivity.
Qed.

(** An alert's turn keeps the deliveries unique. *)
Lemma process_alert_unique (cat : catalog) (p : prefs) (al : alert)
    (w w' : world) (c c' : counters) (pu pu' : gmap str Z) :
  process_alert cfg e send clk cat p al (w, c, pu) = Some (w', c', pu') ->
  unique_keys (w_deliveries w) -> unique_keys (w_deliveries w').
Proof.
  intros Hrun. apply process_alert_writes in Hrun.
  apply table_writes_keys in Hrun. tauto.
Qed.
End CursorFrame.

(** ** The cursor after a run *)

Section CursorRun.
Context `{PyRuntime}.
Variables (cfg : config) (e : admin_env) (send : user_provider) (clk : clock).

(** C3: one alert's turn of the run leaves the alert's cursor at
    max(prior, T1..Tn), where T1..Tn are the as-of instants of the rows the
    matcher returned in that turn, taken in any order; the cursor never
    lies below its prior value; the order in which the scan meets the rows
    is immaterial (a catalog that returns the same rows in another order
    ends with the same cursors); and no other alert's cursor moves. *)
Theorem cursor_is_monotone_merge (cat : catalog) (p : prefs) (al : alert)
    (w w' : world) (c c' : counters) (pu pu' : gmap str Z) (last : Z) :
  process_alert cfg e send clk cat p al (w, c, pu) = Some (w', c', pu') ->
  w_cursors w !! al_alert_id al = Some last ->
  let matches := matcher cfg cat (db_now clk) al (Some last) in
  (forall ts, Permutation ts (as_of_instants matches) ->
     w_cursors w' !! al_alert_id al = Some (fold_right Z.max last ts))
  /\ last <= fold_right Z.max last (as_of_instants matches)
  /\ (forall cat' w2 c2 pu2,
        Permutation (matcher cfg cat' (db_now clk) al (Some last)) matches ->
        process_alert cfg e send clk cat' p al (w, c, pu) = Some (w2, c2, pu2) ->
        w_cursors w2 = w_cursors w')
  /\ (forall a, a <> al_alert_id al -> w_cursors w' !! a = w_cursors w !! a).
Proof.
  intros Hrun Hlast matches.
  apply process_alert_cursor in Hrun. rewrite Hlast in Hrun. fold matches in Hrun.
  assert (Hpost : forall ms,
            advance_cursor (al_alert_id al) (fst (scan_matches None ms)) (w_cursors w)
            = match fold_left merge_ts (as_of_instants ms) None with
              | Some t => <[al_alert_id al := Z.max last t]> (w_cursors w)
              | None => w_cursors w
              end).
  { intros ms. rewrite advance_cursor_instant, scan_instant, Hlast. reflexivity. }
  rewrite Hpost in Hrun. rewrite Hrun. repeat split.
  - intros ts0 Hperm.
    assert (Hmax : fold_right Z.max last ts0
                   = fold_right Z.max last (as_of_instants matches)).
    { apply (inj Some). rewrite <- !merge_ts_max. apply merge_ts_perm, Hperm. }
    rewrite Hmax. clear ts0 Hperm Hmax.
    destruct (as_of_instants matches) as [|t ts] eqn:E; simpl.
    + exact Hlast.
    + change (fold_left merge_ts ts (merge_ts None t))
        with (fold_left merge_ts ts (Some t)).
      rewrite merge_ts_max, lookup_insert_eq. f_equal.
      clear. induction ts as [|u ts IH]; simpl; lia.
  - apply fold_max_ge.
  - intros cat' w2 c2 pu2 Hperm Hrun2.
    apply process_alert_cursor in Hrun2. rewrite Hlast in Hrun2.
    rewrite Hrun2, Hpost.
    rewrite (merge_ts_perm (as_of_instants (matcher cfg cat' (db_now clk) al (Some last)))
               (as_of_instants matches)); [reflexivity|].
    unfold as_of_instants. apply omap_Permutation. exact Hperm.
  - intros a Hne.
    destruct (fold_left merge_ts (as_of_instants matches) None); [|reflexivity].
    apply lookup_insert_ne. congruence.
Qed.
(** On a first scan there is no prior cursor: the turn leaves the largest
    as-of instant the matcher returned, and no cursor when it returned
    none. *)
Lemma cursor_after_first_scan (cat : catalog) (p : prefs) (al : alert)
    (w w' : world) (c c' : counters) (pu pu' : gmap str Z) :
  process_alert cfg e send clk cat p al (w, c, pu) = Some (w', c', pu') ->
  w_cursors w !! al_alert_id al = None ->
  w_cursors w' !! al_alert_id al
  = fold_left merge_ts (as_of_instants (matcher cfg cat (db_now clk) al None)) None.
Proof.
  intros Hrun Hnone. apply process_alert_cursor in Hrun. rewrite Hnone in Hrun.
  rewrite Hrun, advance_cursor_instant, scan_instant, Hnone. simpl.
  destruct (fold_left merge_ts _ None) as [t|]; [|exact Hnone].
  apply lookup_insert_eq.
Qed.
End CursorRun.

Lemma cursor_is_monotone_merge_witness :
  match @process_alert ascii_runtime default_config sample_admin provider_down noon
          (sample_catalog true oil_articles) (get_user_prefs None []) oil_alert
          ({| w_deliveries := []; w_cursors := {[ 2 := 150 ]};
              w_notify := w_notify (sample_world []); w_trace := [];
              w_next_id := 1000 |},
           {| queued := 0; skipped := 0; sent := 0; failed := 0 |}, ∅) with
  | Some (w', _, _) =>
      List.map it_id
        (@matcher ascii_runtime default_config (sample_catalog true oil_articles)
           (db_now noon) oil_alert (Some 150)) = [21; 22]
      /\ as_of_instants
           (@matcher ascii_runtime default_config (sample_catalog true oil_articles)
              (db_now noon) oil_alert (Some 150)) = [100; 200]
      /\ w_cursors w' !! 2 = Some 200
  | None => False
  end.
Proof.
  destruct (@process_alert ascii_runtime default_config sample_admin provider_down
              noon (sample_catalog true oil_articles) (get_user_prefs None [])
              oil_alert
              ({| w_deliveries := []; w_cursors := {[ 2 := 150 ]};
                  w_notify := w_notify (sample_world []); w_trace := [];
                  w_next_id := 1000 |},
               {| queued := 0; skipped := 0; sent := 0; failed := 0 |}, ∅))
    as [[[w' c'] pu']|] eqn:E.
  - apply (@cursor_is_monotone_merge ascii_runtime default_config sample_admin
             provider_down noon (sample_catalog true oil_articles)
             (get_user_prefs None []) oil_alert _ w' _ c' ∅ pu' 150) in E.
    + destruct E as [E _]. change (al_alert_id oil_alert) with 2 in E.
      rewrite (E _ (Permutation_refl _)). vm_compute. auto.
    + vm_compute. reflexivity.
  - vm_compute in E. discriminate.
Defined.


(** ** The claim loop on a triple already claimed *)

(** A turn of the claim loop for a triple that is in the table leaves the
    table and the queued count alone; it adds to the skipped count exactly
    when the row was not passed over as a recent duplicate or for a
    disabled channel. *)
Lemma claim_one_existing `{PyRuntime} (al : alert) (p : prefs) (now : Z)
    (recent : list str) (priority : str) (row : item * str * str)
    (w : world) (c : counters) :
  In (claim_key al row) (List.map key_of (w_deliveries w)) ->
  let st' := claim_one al p now recent priority row (w, c) in
  table_of st' = w_deliveries w
  /\ queued (snd st') = queued c
  /\ skipped (snd st')
     = skipped c
       + (if existsb (str_eqb (snd (fst row))) recent
             || negb (existsb (str_eqb (al_channel al)) (channels_enabled p))
          then 0 else 1).
Proof.
  intros Hin st'. subst st'. unfold claim_one.
  destruct (existsb (str_eqb (snd (fst row))) recent); simpl.
  { repeat split; lia. }
  destruct (negb (existsb (str_eqb (al_channel al)) (channels_enabled p))); simpl.
  { repeat split; lia. }
  destruct row as [[it key] url]. unfold claim_insert, table_of.
  rewrite insert_delivery_present by exact Hin. simpl. auto.
Qed.

(** ** The worked examples of the specification *)

Example backoff_third_attempt : compute_backoff_seconds 3 60 3600 = 240.
Proof. reflexivity. Qed.

Example backoff_capped : compute_backoff_seconds 20 60 3600 = 3600.
Proof. reflexivity. Qed.

Example priority_query_is_p0 :
  @priority_for_search ascii_runtime oil_alert [lit "security"; lit "energy"]
  = lit "P0".
Proof. reflexivity. Qed.

Example priority_category_is_p1 :
  @priority_for_search ascii_runtime sample_alert [lit "security"; lit "energy"]
  = lit "P1".
Proof. reflexivity. Qed.

Example title_key_of_reuters_item :
  @compute_dedupe_key ascii_runtime reuters_item
  = (lit "reuters|breaking oil output rises reuters|2024-05-01", []).
Proof. reflexivity. Qed.

(** ** The retry delay *)

Lemma backoff_le_cap (a base cap : Z) : compute_backoff_seconds a base cap <= cap.
Proof. unfold compute_backoff_seconds. lia. Qed.

(** X1: the retry delay never exceeds the cap, never shrinks as the
    attempts grow, and is the base delay (capped) on the first attempt. *)
Theorem backoff_capped_and_monotone (a b base cap : Z) :
  0 <= base -> a <= b ->
  compute_backoff_seconds a base cap <= cap
  /\ compute_backoff_seconds a base cap <= compute_backoff_seconds b base cap
  /\ (a <= 1 -> compute_backoff_seconds a base cap = Z.min cap base).
Proof.
  intros Hbase Hab. split; [apply backoff_le_cap|]. split.
  - unfold compute_backoff_seconds.
    assert (2 ^ Z.max (a - 1) 0 <= 2 ^ Z.max (b - 1) 0)
      by (apply Z.pow_le_mono_r; lia).
    assert (base * 2 ^ Z.max (a - 1) 0 <= base * 2 ^ Z.max (b - 1) 0)
      by (apply Z.mul_le_mono_nonneg_l; lia).
    lia.
  - intros Ha. unfold compute_backoff_seconds.
    replace (Z.max (a - 1) 0) with 0 by lia. rewrite Z.pow_0_r, Z.mul_1_r.
    reflexivity.
Qed.

Lemma backoff_capped_and_monotone_witness :
  0 <= 60 /\ 3 <= 4
  /\ compute_backoff_seconds 3 60 3600 <= 3600
  /\ compute_backoff_seconds 3 60 3600 <= compute_backoff_seconds 4 60 3600
  /\ (3 <= 1 -> compute_backoff_seconds 3 60 3600 = Z.min 3600 60).
Proof.
  split; [lia|]. split; [lia|].
  apply (backoff_capped_and_monotone 3 4 60 3600); lia.
Defined.

(** ** The error class of a raised exception *)

Lemma startswith_app (p s : str) : py_startswith p (p ++ s) = true.
Proof. induction p as [|c p IH]; simpl; [reflexivity|]. rewrite N.eqb_refl. exact IH. Qed.

Lemma skipn_length_app {A} (l s : list A) : skipn (length l) (l ++ s) = s.
Proof. induction l as [|x l IH]; simpl; [reflexivity|exact IH]. Qed.

Lemma after_sub_prefix (p s : str) : after_sub p (p ++ s) = Some s.
Proof.
  destruct p as [|c p]; [destruct s; reflexivity|].
  change (after_sub (c :: p) ((c :: p) ++ s))
    with (if py_startswith (c :: p) ((c :: p) ++ s)
          then Some (skipn (length (c :: p)) ((c :: p) ++ s))
          else after_sub (c :: p) (p ++ s)).
  rewrite startswith_app, skipn_length_app. reflexivity.
Qed.

Lemma span_until_colon (a b : str) :
  ~ In 58%N a -> span_until (N.eqb 58) (a ++ 58%N :: b) = (a, 58%N :: b).
Proof.
  induction a as [|c a IH]; intros Hnot; cbn [span_until app].
  - rewrite N.eqb_refl. reflexivity.
  - destruct (N.eqb_spec 58 c) as [E|Hne];
      [exfalso; apply Hnot; left; symmetry; exact E|].
    rewrite IH; [reflexivity|]. intros Hin. apply Hnot. right. exact Hin.
Qed.

Section ErrorClass.
Context `{PyRuntime}.

(** X2: the error recorded for a raised exception classifies as the
    exception's type name, so the give-up cooldown key of a channel does not
    depend on the exception's message. *)
Theorem giveup_class_of_exception (ty msg msg' channel : str) :
  ty <> [] -> ~ In 58%N ty ->
  classify_giveup_error (snd (outcome (SendRaise ty msg))) = py_strip ty
  /\ giveup_cooldown_key channel (snd (outcome (SendRaise ty msg)))
     = giveup_cooldown_key channel (snd (outcome (SendRaise ty msg'))).
Proof.
  intros Hty Hcolon.
  assert (Hclass : forall m,
            classify_giveup_error (snd (outcome (SendRaise ty m))) = py_strip ty).
  { intros m. cbn [outcome snd]. unfold classify_giveup_error.
    rewrite after_sub_prefix.
    change (lit ":" ++ m) with (58%N :: m).
    rewrite span_until_colon by exact Hcolon. cbn [fst].
    destruct ty as [|c ty]; [contradiction|]. reflexivity. }
  split; [apply Hclass|].
  unfold giveup_cooldown_key. rewrite !Hclass. reflexivity.
Qed.

End ErrorClass.

Lemma giveup_class_of_exception_witness :
  lit "Timeout" <> [] /\ ~ In 58%N (lit "Timeout")
  /\ @classify_giveup_error ascii_runtime
       (snd (outcome (SendRaise (lit "Timeout") (lit "read timed out: 20s"))))
     = @py_strip ascii_runtime (lit "Timeout")
  /\ @giveup_cooldown_key ascii_runtime (lit "email")
       (snd (outcome (SendRaise (lit "Timeout") (lit "read timed out: 20s"))))
     = @giveup_cooldown_key ascii_runtime (lit "email")
         (snd (outcome (SendRaise (lit "Timeout") (lit "connect refused")))).
Proof.
  assert (H1 : lit "Timeout" <> []) by discriminate.
  assert (H2 : ~ In 58%N (lit "Timeout")).
  { vm_compute. intros Hin. repeat (destruct Hin as [Hin|Hin]; [discriminate|]). exact Hin. }
  split; [exact H1|]. split; [exact H2|].
  exact (@giveup_class_of_exception ascii_runtime (lit "Timeout")
           (lit "read timed out: 20s") (lit "connect refused") (lit "email") H1 H2).
Defined.

(** ** Preferences and routing *)

Lemma list_or_nonempty {A} (x : option (list A)) (d : list A) :
  d <> [] -> list_or x d <> [].
Proof. intros Hd. destruct x as [[|a l]|]; simpl; [exact Hd|discriminate|exact Hd]. Qed.

(** X3: whatever the preference row holds, the preferences in force have a
    non-zero dedupe window and non-empty immediate, digest and channel
    lists: a NULL, a zero or an empty array falls back to the default. *)
Theorem prefs_fall_back_to_defaults (row : option prefs_row) (env : list str) :
  let p := get_user_prefs row env in
  dedupe_window_sec p <> 0
  /\ immediate_priorities p <> []
  /\ digest_priorities p <> []
  /\ channels_enabled p <> []
  /\ (priority_categories p = [] -> env = []).
Proof.
  destruct row as [r|]; cbn [get_user_prefs dedupe_window_sec immediate_priorities
    digest_priorities channels_enabled priority_categories].
  - split.
    { destruct (pr_dedupe_window_sec r) as [w|]; [|discriminate].
      destruct (Z.eqb_spec w 0); [discriminate|assumption]. }
    split; [apply list_or_nonempty; discriminate|].
    split; [apply list_or_nonempty; discriminate|].
    split; [apply list_or_nonempty; discriminate|].
    destruct (pr_priority_categories r) as [[|a l]|]; simpl; auto. discriminate.
  - repeat split; try discriminate. auto.
Qed.

Section Routing.
Context `{PyRuntime}.

Lemma priority_is_known (al : alert) (p1 : list str) :
  priority_for_search al p1 = lit "P0"
  \/ priority_for_search al p1 = lit "P1"
  \/ priority_for_search al p1 = lit "P2".
Proof.
  unfold priority_for_search.
  destruct (py_strip (al_query al)); [|auto].
  destruct (py_lower _); [auto|].
  destruct (existsb _ p1); auto.
Qed.

(** X4: for an owner without preference row, or with a row whose two
    priority arrays are NULL or empty, every delivery carrying a priority
    computed by [priority_for_search] is routed. *)
Theorem default_routing_drops_nothing (row : option prefs_row) (env p1 : list str)
    (al : alert) (d : due_row) :
  match row with
  | Some r => list_or (pr_immediate_priorities r) [] = []
              /\ list_or (pr_digest_priorities r) [] = []
  | None => True
  end ->
  dr_priority d = Some (priority_for_search al p1) ->
  routed (get_user_prefs row env) d = true.
Proof.
  intros Hrow Hpr. unfold routed. rewrite Hpr.
  assert (Himm : immediate_priorities (get_user_prefs row env) = [lit "P0"]).
  { destruct row as [r|]; [|reflexivity]. destruct Hrow as [Hi _]. simpl.
    destruct (pr_immediate_priorities r) as [[|a l]|]; try reflexivity. discriminate. }
  assert (Hdig : digest_priorities (get_user_prefs row env) = [lit "P1"; lit "P2"]).
  { destruct row as [r|]; [|reflexivity]. destruct Hrow as [_ Hd]. simpl.
    destruct (pr_digest_priorities r) as [[|a l]|]; try reflexivity. discriminate. }
  rewrite Himm, Hdig.
  destruct (priority_is_known al p1) as [E|[E|E]]; rewrite E; reflexivity.
Qed.

End Routing.

Lemma default_routing_drops_nothing_witness :
  routed (get_user_prefs None []) (sample_due 7 0) = true.
Proof.
  apply (@default_routing_drops_nothing ascii_runtime None [] [lit "energy"]
           sample_alert (sample_due 7 0)); [exact I|reflexivity].
Defined.

(** ** Batches *)

Lemma chunks_fuel_spec {A} (n : nat) (fuel : nat) (l : list A) :
  (0 < n)%nat -> (length l <= fuel)%nat ->
  concat (chunks_fuel fuel n l) = l
  /\ Forall (fun b => b <> [] /\ (length b <= n)%nat) (chunks_fuel fuel n l).
Proof.
  intros Hn. revert l. induction fuel as [|f IH]; intros l Hlen.
  - destruct l; [|simpl in Hlen; lia]. split; [reflexivity|constructor].
  - destruct l as [|x l]; [split; [reflexivity|constructor]|].
    cbn [chunks_fuel concat].
    destruct (IH (skipn n (x :: l))) as [Hc Hf].
    { rewrite length_skipn. simpl in *. lia. }
    split.
    + rewrite Hc. apply firstn_skipn.
    + constructor; [|exact Hf]. split.
      * destruct n; [lia|]. discriminate.
      * rewrite length_firstn. lia.
Qed.

(** X5: the e-mail batches are a partition of the ready deliveries, in
    order: none is empty and none exceeds the batch size. *)
Theorem chunks_partition_the_batch {A} (n : nat) (l : list A) :
  (0 < n)%nat ->
  concat (chunks n l) = l
  /\ Forall (fun b => b <> [] /\ (length b <= n)%nat) (chunks n l).
Proof. intros Hn. apply chunks_fuel_spec; [exact Hn|reflexivity]. Qed.

Lemma chunks_partition_the_batch_witness :
  (0 < 2)%nat
  /\ concat (chunks 2 [1; 2; 3; 4; 5]) = [1; 2; 3; 4; 5]
  /\ Forall (fun b => b <> [] /\ (length b <= 2)%nat) (chunks 2 [1; 2; 3; 4; 5]).
Proof.
  split; [lia|]. apply (chunks_partition_the_batch 2 [1; 2; 3; 4; 5]). lia.
Defined.

(** ** The per-owner cap *)

Lemma filter_due_counts (cfg : config) (due : list due_row) (pu : gmap str Z)
    (u : str) :
  let r := filter_due cfg pu due in
  default 0 (fst r !! u) = default 0 (pu !! u) + sends_of u (snd r)
  /\ sublist (snd r) due
  /\ (default 0 (pu !! u) <= max_per_user cfg ->
      default 0 (fst r !! u) <= max_per_user cfg).
Proof.
  revert pu. induction due as [|d due IH]; intros pu; cbn [filter_due].
  - cbn [fst snd]. unfold sends_of. simpl. repeat split; try lia. constructor.
  - set (n := default 0 (pu !! dr_user_id d)).
    assert (Hset : forall m, default 0 (<[dr_user_id d := m]> pu !! u)
                    = if str_eqb (dr_user_id d) u then m else default 0 (pu !! u)).
    { intros m. destruct (str_eqb (dr_user_id d) u) eqn:E.
      - apply str_eqb_eq in E. subst u. rewrite lookup_insert_eq. reflexivity.
      - rewrite lookup_insert_ne; [reflexivity|]. intros Heq.
        apply str_eqb_eq in Heq. congruence. }
    destruct (max_per_user cfg <=? n) eqn:Hcap.
    + destruct (IH (<[dr_user_id d := n]> pu)) as (Hc & Hs & Hb).
      rewrite Hset in Hc, Hb.
      assert (Hn : (if str_eqb (dr_user_id d) u then n else default 0 (pu !! u))
                   = default 0 (pu !! u)).
      { destruct (str_eqb (dr_user_id d) u) eqn:E; [|reflexivity].
        apply str_eqb_eq in E. subst u. reflexivity. }
      rewrite Hn in Hc, Hb. repeat split; auto. apply sublist_cons. exact Hs.
    + rewrite insert_insert_eq.
      destruct (IH (<[dr_user_id d := n + 1]> pu)) as (Hc & Hs & Hb).
      destruct (filter_due cfg (<[dr_user_id d := n + 1]> pu) due) as [pu' l].
      cbn [fst snd] in *. rewrite Hset in Hc, Hb.
      apply Z.leb_gt in Hcap.
      unfold sends_of in *. cbn [List.filter].
      destruct (str_eqb (dr_user_id d) u) eqn:E.
      * apply str_eqb_eq in E. subst u. fold n.
        cbn [length]. repeat split; [lia|apply sublist_skip; exact Hs|].
        intros _. apply Hb. lia.
      * repeat split; [lia|apply sublist_skip; exact Hs|exact Hb].
Qed.

(** X6: the per-owner cap holds through the due filter: an owner's count
    grows by the deliveries kept for that owner, stays within
    [max_per_user], and the kept deliveries are the due ones in order,
    less the ones over the cap. *)
Theorem per_owner_cap_holds (cfg : config) (due : list due_row) (pu : gmap str Z)
    (u : str) :
  default 0 (pu !! u) <= max_per_user cfg ->
  let r := filter_due cfg pu due in
  default 0 (fst r !! u) = default 0 (pu !! u) + sends_of u (snd r)
  /\ default 0 (fst r !! u) <= max_per_user cfg
  /\ sublist (snd r) due.
Proof.
  intros Hle r. destruct (filter_due_counts cfg due pu u) as (Hc & Hs & Hb).
  fold r in Hc, Hs, Hb. auto.
Qed.

Lemma per_owner_cap_holds_witness :
  let r := filter_due default_config ∅ [sample_due 1 0; sample_due 2 0] in
  default 0 (fst r !! lit "u1")
  = default 0 ((∅ : gmap str Z) !! lit "u1") + sends_of (lit "u1") (snd r)
  /\ default 0 (fst r !! lit "u1") <= max_per_user default_config
  /\ sublist (snd r) [sample_due 1 0; sample_due 2 0].
Proof.
  apply (per_owner_cap_holds default_config [sample_due 1 0; sample_due 2 0] ∅
           (lit "u1")).
  vm_compute. discriminate.
Defined.

(** ** Rows the dispatcher leaves alone *)

Lemma in_update_where (k : dkey) (f : delivery -> delivery) (tbl : list delivery)
    (row : delivery) :
  In row (update_where k f tbl) ->
  exists d, In d tbl /\ row = (if has_key k d then f d else d).
Proof.
  unfold update_where. intros Hin. apply in_map_iff in Hin as [d [Heq Hin]].
  exists d. auto.
Qed.

Lemma update_where_keeps (k : dkey) (f : delivery -> delivery) (tbl : list delivery)
    (row : delivery) :
  key_of row <> k -> In row tbl -> In row (update_where k f tbl).
Proof.
  intros Hne Hin. unfold update_where. apply in_map_iff. exists row.
  split; [|exact Hin].
  destruct (has_key k row) eqn:E; [|reflexivity].
  apply has_key_true in E. contradiction.
Qed.

Lemma terminal_never_due (cfg : config) (now : Z) (d : delivery) :
  terminal cfg d -> is_due (max_attempts cfg) now d = false.
Proof.
  intros [Hs|Ha]; [|apply exhausted_never_due; exact Ha].
  unfold is_due. rewrite Hs. reflexivity.
Qed.

Lemma in_firstn {A} (n : nat) (l : list A) (x : A) : In x (firstn n l) -> In x l.
Proof.
  revert l. induction n as [|n IH]; intros [|y l]; simpl; try tauto.
  intros [->|Hin]; auto.
Qed.

(** Every row of the due query stands for an eligible delivery of the
    alert, on the alert's channel. *)
Lemma due_query_rows (cfg : config) (now : Z) (al : alert) (tbl : list delivery)
    (r : due_row) :
  In r (due_query cfg now al tbl) ->
  exists d, In d tbl /\ r = to_due_row al d
            /\ d_alert_id d = al_alert_id al /\ d_channel d = al_channel al
            /\ is_due (max_attempts cfg) now d = true.
Proof.
  unfold due_query. intros Hin. apply in_map_iff in Hin as [d [<- Hin]].
  apply in_firstn, sort_by_in, filter_In in Hin as [Hin Hc].
  apply andb_true_iff in Hc as [Hc Hdue]. apply andb_true_iff in Hc as [Ha Hch].
  exists d. repeat split; auto.
  - apply Z.eqb_eq. exact Ha.
  - apply str_eqb_eq. exact Hch.
Qed.

Lemma filter_due_in (cfg : config) (due : list due_row) (pu : gmap str Z) (r : due_row) :
  In r (snd (filter_due cfg pu due)) -> In r due.
Proof.
  revert pu. induction due as [|d due IH]; intros pu; cbn [filter_due]; [auto|].
  destruct (max_per_user cfg <=? _).
  - intros Hin. right. eapply IH, Hin.
  - specialize (IH (<[dr_user_id d := default 0 (pu !! dr_user_id d) + 1]>
                      (<[dr_user_id d := default 0 (pu !! dr_user_id d)]> pu))).
    destruct (filter_due cfg _ due) as [pu' l]. cbn [snd] in *.
    intros [->|Hin]; [left; reflexivity|right; apply IH, Hin].
Qed.

Lemma unique_keys_inj (tbl : list delivery) (a b : delivery) :
  unique_keys tbl -> In a tbl -> In b tbl -> key_of a = key_of b -> a = b.
Proof.
  unfold unique_keys. induction tbl as [|x tbl IH]; simpl; [tauto|].
  intros Hnd Ha Hb Hk. apply NoDup_cons in Hnd as [Hnot Hnd].
  destruct Ha as [->|Ha], Hb as [->|Hb]; auto.
  - exfalso. apply Hnot, list_elem_of_In. rewrite Hk. apply in_map. exact Hb.
  - exfalso. apply Hnot, list_elem_of_In. rewrite <- Hk. apply in_map. exact Ha.
Qed.

Section Frozen.
Context `{PyRuntime}.
Variables (cfg : config) (e : admin_env) (send : user_provider) (clk : clock).
Variable row : delivery.

Lemma mark_sent_keeps (d : due_row) (w : world) :
  dr_key d <> key_of row -> In row (w_deliveries w) ->
  In row (w_deliveries (mark_delivery_sent clk d w)).
Proof. intros Hne Hin. apply update_where_keeps; [congruence|exact Hin]. Qed.

Lemma mark_failed_keeps (d : due_row) (error : str) (w : world) :
  dr_key d <> key_of row -> In row (w_deliveries w) ->
  In row (w_deliveries (mark_delivery_failed cfg e clk d error w)).
Proof.
  intros Hne Hin. rewrite mark_failed_deliveries.
  apply update_where_keeps; [congruence|exact Hin].
Qed.

Lemma fold_keeps {A} (P : A -> Prop)
    (step : world * counters -> A -> world * counters)
    (l : list A) (st : world * counters) :
  (forall st a, P a -> In row (table_of st) -> In row (table_of (step st a))) ->
  Forall P l -> In row (table_of st) -> In row (table_of (fold_left step l st)).
Proof.
  intros Hstep Hall. revert st. induction Hall as [|a l Ha _ IH]; intros st Hin; simpl.
  - exact Hin.
  - apply IH, Hstep; assumption.
Qed.

Lemma process_batch_keeps (batch : list due_row) (st : world * counters) :
  misses_row row batch -> In row (table_of st) ->
  In row (table_of (process_batch cfg e send clk batch st)).
Proof.
  intros Hm Hin. unfold process_batch. destruct batch as [|first rest]; [exact Hin|].
  destruct (outcome _) as [[] err].
  - apply (fold_keeps (fun d => dr_key d <> key_of row)); [|exact Hm|exact Hin].
    intros st' d Hd Hin'. apply mark_sent_keeps; assumption.
  - apply (fold_keeps (fun d => dr_key d <> key_of row)); [|exact Hm|exact Hin].
    intros st' d Hd Hin'. apply mark_failed_keeps; assumption.
Qed.

Lemma process_single_keeps (d : due_row) (st : world * counters) :
  dr_key d <> key_of row -> In row (table_of st) ->
  In row (table_of (process_single cfg e send clk d st)).
Proof.
  intros Hne Hin. unfold process_single.
  destruct (str_eqb (dr_channel d) (lit "telegram")).
  - destruct (outcome _) as [[] err].
    + apply mark_sent_keeps; assumption.
    + apply mark_failed_keeps; assumption.
  - apply mark_failed_keeps; assumption.
Qed.

Lemma with_items_keeps (cat : catalog) (p : prefs) (due : list due_row)
    (st : world * counters) :
  misses_row row due -> In row (table_of st) ->
  misses_row row (fst (with_items cfg e clk cat p due st))
  /\ In row (table_of (snd (with_items cfg e clk cat p due st))).
Proof.
  intros Hm. revert st. induction Hm as [|d due Hd _ IH]; intros st Hin; simpl.
  - split; [constructor|exact Hin].
  - destruct (negb (routed p d)); [apply IH, Hin|].
    destruct (existsb _ _).
    + specialize (IH st Hin). destruct (with_items cfg e clk cat p due st).
      destruct IH as [IH1 IH2]. split; [constructor; assumption|exact IH2].
    + apply IH. apply mark_failed_keeps; assumption.
Qed.

Lemma misses_row_chunks (n : nat) (l : list due_row) :
  (0 < n)%nat -> misses_row row l -> Forall (misses_row row) (chunks n l).
Proof.
  intros Hn Hm. unfold chunks.
  assert (Hgen : forall fuel l', misses_row row l' -> Forall (misses_row row) (chunks_fuel fuel n l')).
  { induction fuel as [|f IH]; intros l' Hl'; [constructor|].
    destruct l' as [|x l']; [constructor|]. cbn [chunks_fuel]. constructor.
    - unfold misses_row in *. rewrite List.Forall_forall in *.
      intros d Hd. apply Hl'. eapply in_firstn, Hd.
    - apply IH. unfold misses_row in *. rewrite List.Forall_forall in *.
      intros d Hd. apply Hl'.
      rewrite <- (firstn_skipn n (x :: l')). apply in_or_app. right. exact Hd. }
  apply Hgen, Hm.
Qed.

Lemma dispatch_email_keeps (cat : catalog) (p : prefs) (due : list due_row)
    (st st' : world * counters) :
  misses_row row due -> In row (table_of st) ->
  dispatch_email cfg e send clk cat p due st = Some st' ->
  In row (table_of st').
Proof.
  intros Hm Hin. unfold dispatch_email.
  destruct (with_items_keeps cat p due st Hm Hin) as [Hready Hin1].
  destruct (with_items cfg e clk cat p due st) as [ready st1]. cbn [fst snd] in *.
  destruct (Z.eqb_spec (max_items_per_email cfg) 0) as [|Hnz]; [discriminate|].
  destruct (Z.ltb_spec (max_items_per_email cfg) 0) as [|Hpos];
    intros [= <-]; [exact Hin1|].
  apply (fold_keeps (misses_row row)); [|apply misses_row_chunks; [lia|exact Hready]|exact Hin1].
  intros st2 batch Hb Hin2. apply process_batch_keeps; assumption.
Qed.

Lemma dispatch_single_keeps (cat : catalog) (p : prefs) (due : list due_row)
    (st st' : world * counters) :
  dispatch_single cfg e send clk cat p due st = Some st' ->
  misses_row row due -> In row (table_of st) ->
  In row (table_of st').
Proof.
  intros Hrun Hm Hin. apply dispatch_single_turns in Hrun. subst st'.
  apply (fold_keeps (fun d => dr_key d <> key_of row)); [|exact Hm|exact Hin].
  intros st' d Hd Hin'. unfold single_turn.
  destruct (negb (routed p d)); [exact Hin'|].
  destruct (existsb _ _); [apply process_single_keeps; assumption|].
  apply mark_failed_keeps; assumption.
Qed.

Lemma claim_all_keeps (al : alert) (p : prefs) (now : Z)
    (rows : list (item * str * str)) (st : world * counters) :
  In row (table_of st) -> In row (table_of (claim_all al p now rows st)).
Proof.
  unfold claim_all.
  apply (fold_keeps (fun _ => True)); [|apply List.Forall_forall; auto].
  intros st' r _ Hin. unfold claim_one.
  destruct (existsb _ _); [exact Hin|]. destruct (negb _); [exact Hin|].
  destruct r as [[it key] url], st' as [w c]. unfold claim_insert, insert_delivery.
  destruct (existsb _ _); unfold table_of; simpl; [exact Hin|].
  apply in_or_app. left. exact Hin.
Qed.

(** A finished delivery is out of every due set of a table with unique
    keys that holds it. *)
Lemma terminal_misses_due (al : alert) (pu : gmap str Z) (tbl : list delivery) :
  unique_keys tbl -> In row tbl -> terminal cfg row ->
  misses_row row (snd (filter_due cfg pu (due_query cfg (db_now clk) al tbl))).
Proof.
  intros Hu Hin Hterm. apply List.Forall_forall. intros r Hr.
  apply filter_due_in, due_query_rows in Hr as (d & Hd & -> & _ & _ & Hdue).
  intros Hk. change (key_of d = key_of row) in Hk.
  assert (d = row) by (eapply unique_keys_inj; eauto).
  subst d. rewrite (terminal_never_due cfg _ row Hterm) in Hdue. discriminate.
Qed.

End Frozen.

Section FrozenRun.
Context `{PyRuntime}.
Variables (cfg : config) (e : admin_env) (send : user_provider) (clk : clock).

(** X7: one alert's turn of the sweep leaves every finished delivery (sent,
    or out of attempts) of a table with unique keys exactly as it was. *)
Theorem finished_deliveries_are_frozen (cat : catalog) (p : prefs) (al : alert)
    (w w' : world) (c c' : counters) (pu pu' : gmap str Z) (row : delivery) :
  unique_keys (w_deliveries w) ->
  In row (w_deliveries w) ->
  terminal cfg row ->
  process_alert cfg e send clk cat p al (w, c, pu) = Some (w', c', pu') ->
  In row (w_deliveries w').
Proof.
  intros Hu Hin Hterm. unfold process_alert.
  destruct (scan_matches None _) as [max_ts rows].
  pose proof (claim_all_writes al p (db_now clk) rows (w, c)) as Hw.
  pose proof (claim_all_keeps row al p (db_now clk) rows (w, c) Hin) as Hin1.
  destruct (claim_all al p (db_now clk) rows (w, c)) as [w1 c1].
  unfold table_of in Hw, Hin1. cbn [fst] in Hw, Hin1. cbn [w_deliveries].
  apply table_writes_keys in Hw as [_ Hu1]. specialize (Hu1 Hu).
  pose proof (terminal_misses_due cfg clk row al pu (w_deliveries w1) Hu1 Hin1 Hterm)
    as Hmiss.
  destruct (filter_due cfg pu _) as [pu1 due]. cbn [snd] in Hmiss.
  destruct (str_eqb (al_channel al) (lit "email")).
  - destruct (dispatch_email _ _ _ _ _ _ _ _) as [[w2 c2]|] eqn:E; [|discriminate].
    intros [= <- <- <-].
    apply (dispatch_email_keeps cfg e send clk row) in E; [exact E|exact Hmiss|exact Hin1].
  - destruct (dispatch_single _ _ _ _ _ _ _ _) as [[w2 c2]|] eqn:E; [|discriminate].
    intros [= <- <- <-].
    apply (dispatch_single_keeps cfg e send clk row) in E;
      [exact E|exact Hmiss|exact Hin1].
Qed.

(** X8: after a failure, no row of the failed delivery is due before the
    backoff computed for the new attempt count has elapsed. *)
Theorem failed_delivery_waits (d : due_row) (error : str) (w : world)
    (row : delivery) (max_att now' : Z) :
  In row (w_deliveries (mark_delivery_failed cfg e clk d error w)) ->
  key_of row = dr_key d ->
  now' < db_now clk
         + compute_backoff_seconds (dr_attempt_count d + 1)
             (retry_base_sec cfg) (retry_max_sec cfg) * usec_per_sec ->
  is_due max_att now' row = false.
Proof.
  rewrite mark_failed_deliveries. intros Hin Hk Hnow.
  apply in_update_where in Hin as (d0 & _ & ->).
  assert (Hkey : has_key (dr_key d) d0 = true).
  { destruct (has_key (dr_key d) d0) eqn:E; [reflexivity|].
    apply has_key_true in Hk. congruence. }
  rewrite Hkey. unfold is_due. cbn [failed_row d_status d_next_attempt_at].
  replace (_ <=? now') with false by (symmetry; apply Z.leb_gt; exact Hnow).
  rewrite andb_false_r. reflexivity.
Qed.

End FrozenRun.

(** ** What a claim creates *)

Lemma existsb_str_eqb (k : str) (l : list str) :
  existsb (str_eqb k) l = true <-> In k l.
Proof.
  rewrite existsb_exists. split.
  - intros [x [Hin Hx]]. apply str_eqb_eq in Hx. subst x. exact Hin.
  - intros Hin. exists k. split; [exact Hin|apply str_eqb_refl].
Qed.

Lemma recent_keys_spec (tbl : list delivery) (al : alert) (p : prefs) (now : Z)
    (keys : list str) (k : str) :
  In k (recent_keys tbl al p now keys) <->
  exists d, In d tbl /\ d_dedupe_key d = Some k
            /\ d_user_id d = al_user_id al /\ d_channel d = al_channel al
            /\ In k keys
            /\ now - dedupe_window_sec p * usec_per_sec <= d_created_at d.
Proof.
  unfold recent_keys. rewrite in_flat_map. split.
  - intros [d [Hin Hk]]. exists d. split; [exact Hin|].
    destruct (d_dedupe_key d) as [k'|]; [|destruct Hk].
    destruct (_ && _) eqn:E in Hk; [|destruct Hk].
    destruct Hk as [->|[]].
    repeat (apply andb_true_iff in E as [E ?]).
    repeat split; auto.
    + apply str_eqb_eq. assumption.
    + apply str_eqb_eq. assumption.
    + apply existsb_str_eqb. assumption.
    + apply Z.leb_le. assumption.
  - intros (d & Hin & Hk & Hu & Hc & Hkeys & Hw). exists d. split; [exact Hin|].
    rewrite Hk.
    replace (str_eqb (d_user_id d) (al_user_id al)) with true
      by (symmetry; apply str_eqb_eq; exact Hu).
    replace (str_eqb (d_channel d) (al_channel al)) with true
      by (symmetry; apply str_eqb_eq; exact Hc).
    replace (existsb (str_eqb k) keys) with true
      by (symmetry; apply existsb_str_eqb; exact Hkeys).
    replace (_ <=? d_created_at d) with true by (symmetry; apply Z.leb_le; exact Hw).
    replace (existsb (status_eqb (d_status d)) [PENDING; FAILED; SENT]) with true
      by (destruct (d_status d); reflexivity).
    left. reflexivity.
Qed.

Section Claims.
Context `{PyRuntime}.

(** The rows a claim loop adds, whatever list of recent keys it reads. *)
Lemma claim_loop_rows (al : alert) (p : prefs) (now : Z) (recent : list str)
    (priority : str) (rows : list (item * str * str)) (st : world * counters)
    (d : delivery) :
  In d (table_of (fold_left (fun st row => claim_one al p now recent priority row st)
                    rows st)) ->
  In d (table_of st)
  \/ (fresh_claim al now d
      /\ d_priority d = Some priority
      /\ In (al_channel al) (channels_enabled p)
      /\ exists row, In row rows
                     /\ d_article_id d = it_id (fst (fst row))
                     /\ d_dedupe_key d = Some (snd (fst row))
                     /\ ~ In (snd (fst row)) recent).
Proof.
  revert st. induction rows as [|row rows IH]; intros st; simpl; [auto|].
  intros Hin. apply IH in Hin as [Hin|(Hf & Hp & Hc & r & Hr & Hrest)].
  - unfold claim_one in Hin.
    destruct (existsb (str_eqb (snd (fst row))) recent) eqn:Erec; [auto|].
    destruct (existsb (str_eqb (al_channel al)) (channels_enabled p)) eqn:Ech;
      simpl in Hin; [|auto].
    destruct row as [[it key] url], st as [w c].
    unfold claim_insert, insert_delivery, table_of in Hin.
    destruct (existsb _ (w_deliveries w)); simpl in Hin; [auto|].
    apply in_app_or in Hin as [Hin|[<-|[]]]; [auto|]. right.
    split; [repeat split|]. split; [reflexivity|].
    split; [apply existsb_str_eqb; exact Ech|].
    exists (it, key, url). repeat split; [left; reflexivity|].
    cbn [fst snd] in *. intros Hk. apply existsb_str_eqb in Hk. rewrite Hk in Erec. discriminate.
  - right. split; [exact Hf|]. split; [exact Hp|]. split; [exact Hc|].
    exists r. split; [right; exact Hr|exact Hrest].
Qed.

(** X9: the claim loop only appends: every row of the table afterwards was
    there before or is a fresh PENDING delivery of the alert for one of the
    matches, with no attempt made, due at once, on an enabled channel. *)
Theorem claims_are_fresh_and_pending (al : alert) (p : prefs) (now : Z)
    (rows : list (item * str * str)) (w : world) (c : counters) (d : delivery) :
  In d (table_of (claim_all al p now rows (w, c))) ->
  In d (w_deliveries w)
  \/ (fresh_claim al now d
      /\ (forall max_att, 0 < max_att -> is_due max_att now d = true)
      /\ In (al_channel al) (channels_enabled p)
      /\ exists row, In row rows /\ d_article_id d = it_id (fst (fst row))
                     /\ d_dedupe_key d = Some (snd (fst row))).
Proof.
  unfold claim_all. intros Hin.
  apply claim_loop_rows in Hin as [Hin|(Hf & _ & Hc & r & Hr & Ha & Hk & _)];
    [left; exact Hin|right].
  split; [exact Hf|]. split.
  { intros max_att Hpos. destruct Hf as (Hs & Hn & _ & Hnext & _). unfold is_due.
    rewrite Hs, Hn, Hnext. simpl. rewrite Z.leb_refl.
    apply Z.ltb_lt in Hpos. rewrite Hpos. reflexivity. }
  split; [exact Hc|]. exists r. auto.
Qed.

(** X10: a dedupe key that one of the owner's deliveries on the same channel
    carries, created inside the dedupe window, is not claimed again: the
    claim loop adds no row with that key. *)
Theorem recent_duplicate_is_not_claimed (al : alert) (p : prefs) (now : Z)
    (rows : list (item * str * str)) (w : world) (c : counters)
    (old d : delivery) (k : str) :
  In old (w_deliveries w) ->
  d_dedupe_key old = Some k ->
  d_user_id old = al_user_id al ->
  d_channel old = al_channel al ->
  now - dedupe_window_sec p * usec_per_sec <= d_created_at old ->
  In d (table_of (claim_all al p now rows (w, c))) ->
  d_dedupe_key d = Some k ->
  In d (w_deliveries w).
Proof.
  intros Hold Hk Hu Hc Hw Hin Hdk. unfold claim_all in Hin.
  apply claim_loop_rows in Hin as [Hin|(_ & _ & _ & r & Hr & _ & Hrk & Hnot)];
    [exact Hin|].
  exfalso. apply Hnot. rewrite Hdk in Hrk. injection Hrk as Hrk. rewrite <- Hrk.
  destruct rows as [|r0 rows]; [destruct Hr|].
  apply recent_keys_spec. exists old. repeat split; auto.
  apply in_map_iff. exists r. split; [symmetry; exact Hrk|exact Hr].
Qed.

End Claims.



(** ** What the matcher returns *)

Lemma left_join_fst (sources : list source_row) (a : article) (r : joined_row) :
  In r (left_join_sources sources a) -> fst r = a.
Proof.
  unfold left_join_sources. destruct (a_source_id a) as [sid|].
  - destruct (List.filter _ sources) as [|s ss] eqn:E.
    + intros [<-|[]]. reflexivity.
    + intros Hin. apply in_map_iff in Hin as [s' [<- _]]. reflexivity.
  - intros [<-|[]]. reflexivity.
Qed.

Lemma sql_and_true (a b : option bool) :
  sql_true (sql_and a b) = true <-> a = Some true /\ b = Some true.
Proof. destruct a as [[]|], b as [[]|]; simpl; intuition congruence. Qed.

Section MatcherWindow.
Context `{PyRuntime}.

Lemma search_where_window (cat : catalog) (sq : search_sql) (p : search_params)
    (now : Z) (r : joined_row) :
  sql_true (search_where cat sq p now r) = true ->
  exists t, eval_ts (sq_ts_expr sq) (fst r) = Some t
            /\ match p_start_ts p with
               | Some s => s
               | None => now - p_days p * usec_per_day
               end <= t.
Proof.
  unfold search_where. intros Hw. apply sql_and_true in Hw as [Hw _].
  destruct (eval_ts _ _) as [t|]; [|discriminate].
  exists t. split; [reflexivity|]. injection Hw as Hw. apply Z.leb_le. exact Hw.
Qed.

(** X11: every match is an article of the catalog with a non-NULL as-of
    timestamp at or after the start of the search window, and there are at
    most max(max_per_user, max_items_per_email) matches. *)
Theorem matches_lie_in_the_window (cfg : config) (cat : catalog) (now : Z)
    (al : alert) (cursor : option Z) :
  Forall
    (fun it =>
       exists a t, In a (cat_articles cat) /\ it_id it = a_id a
                   /\ it_title it = a_title a /\ it_url it = a_url a
                   /\ it_ts it = Some {| dt_instant := t;
                                         dt_utcoffset := cat_utcoffset cat |}
                   /\ window_start cfg now al cursor <= t)
    (matcher cfg cat now al cursor)
  /\ (length (matcher cfg cat now al cursor)
      <= Z.to_nat (Z.max (max_per_user cfg) (max_items_per_email cfg)))%nat.
Proof.
  unfold matcher, run_search. split.
  - apply List.Forall_forall. intros it Hin.
    apply in_map_iff in Hin as [r [<- Hin]].
    apply in_firstn, sort_by_in, filter_In in Hin as [Hin Hw].
    apply in_flat_map in Hin as [a [Ha Hr]].
    assert (Hfst : fst r = a).
    { destruct (sq_join_sources _); [eapply left_join_fst, Hr|].
      destruct Hr as [<-|[]]. reflexivity. }
    apply search_where_window in Hw as [t [Ht Hle]].
    exists a, t. unfold project_row. rewrite Hfst in *. cbn [it_id it_title it_url it_ts].
    rewrite Ht. repeat split; auto.
    unfold window_start. destruct cursor; exact Hle.
  - rewrite length_map, length_firstn. cbn [search_params_of p_limit]. lia.
Qed.

End MatcherWindow.

(** ** The substring fallback *)

Lemma like_percent_unfold (p s : str) :
  like_match (37%N :: p) s
  = like_match p s
    || match s with [] => false | _ :: s' => like_match (37%N :: p) s' end.
Proof. destruct s; reflexivity. Qed.

Lemma like_percent (p s : str) :
  like_match (37%N :: p) s = true
  <-> exists a b, s = a ++ b /\ like_match p b = true.
Proof.
  induction s as [|x s IH]; rewrite like_percent_unfold.
  - rewrite orb_false_r. split.
    + intros Hm. exists [], []. auto.
    + intros (a & b & Heq & Hm). symmetry in Heq.
      apply app_eq_nil in Heq as [-> ->]. exact Hm.
  - rewrite orb_true_iff, IH. split.
    + intros [Hm|(a & b & -> & Hm)].
      * exists [], (x :: s). auto.
      * exists (x :: a), b. auto.
    + intros (a & b & Heq & Hm). destruct a as [|y a].
      * left. simpl in Heq. subst b. exact Hm.
      * right. injection Heq as -> ->. exists a, b. auto.
Qed.

Lemma like_plain_char (c : N) (p s : str) :
  is_like_meta c = false ->
  like_match (c :: p) s
  = match s with [] => false | x :: s' => (x =? c)%N && like_match p s' end.
Proof.
  unfold is_like_meta. intros Hm.
  apply orb_false_iff in Hm as [Hm H92]. apply orb_false_iff in Hm as [H37 H95].
  cbn [like_match]. rewrite H37, H95, H92. reflexivity.
Qed.

Lemma like_prefix (q s : str) :
  Forall (fun c => is_like_meta c = false) q ->
  like_match (q ++ [37%N]) s = true <-> exists b, s = q ++ b.
Proof.
  intros Hq. revert s. induction Hq as [|c q Hc _ IH]; intros s.
  - cbn [app]. rewrite like_percent. split; [intros _; exists s; reflexivity|].
    intros _. exists s, []. rewrite app_nil_r. split; reflexivity.
  - cbn [app]. rewrite like_plain_char by exact Hc. destruct s as [|x s].
    + split; [discriminate|]. intros [b Hb]. discriminate.
    + rewrite andb_true_iff, IH, N.eqb_eq. split.
      * intros [-> [b ->]]. exists b. reflexivity.
      * intros [b Hb]. injection Hb as -> ->. split; [reflexivity|]. exists b. reflexivity.
Qed.

Lemma like_contains (q s : str) :
  Forall (fun c => is_like_meta c = false) q ->
  like_match ((37%N :: q) ++ [37%N]) s = true <-> occurs_in q s.
Proof.
  intros Hq. cbn [app]. rewrite like_percent. unfold occurs_in. split.
  - intros (a & b & -> & Hm). apply like_prefix in Hm as [b' ->]; [|exact Hq].
    exists a, b'. reflexivity.
  - intros (a & b & ->). exists a, (q ++ b). split; [reflexivity|].
    apply like_prefix; [exact Hq|]. exists b. reflexivity.
Qed.

Lemma sql_or_true (a b : option bool) :
  sql_true (sql_or a b) = true <-> a = Some true \/ b = Some true.
Proof. destruct a as [[]|], b as [[]|]; simpl; intuition congruence. Qed.

Section Substring.
Context `{PyRuntime}.

Lemma sql_any_true (l : list (option bool)) :
  sql_true (sql_any l) = true <-> In (Some true) l.
Proof.
  unfold sql_any. induction l as [|x l IH]; cbn [fold_right].
  - simpl. split; [discriminate|tauto].
  - rewrite sql_or_true. fold (sql_any l).
    assert (Hr : sql_any l = Some true <-> sql_true (sql_any l) = true).
    { destruct (sql_any l) as [[]|]; simpl; intuition congruence. }
    rewrite Hr, IH. simpl. intuition.
Qed.

(** X12: for a query without [LIKE] metacharacters, the ILIKE fallback
    accepts a row exactly when the lower-cased query occurs in the
    lower-cased text of one of the searched columns. *)
Theorem ilike_fallback_is_substring_search (cfg : config) (cat : catalog)
    (al : alert) (cursor : option Z) (cols : list column) (r : joined_row) :
  Forall (fun c => is_like_meta c = false) (py_lower (py_strip (al_query al))) ->
  sql_true (eval_where_q cat (WhereIlike cols) (search_params_of cfg al cursor) r)
  = true
  <-> exists c s, In c cols /\ col_value r c = Some s
                  /\ occurs_in (py_lower (py_strip (al_query al))) (py_lower s).
Proof.
  intros Hq. cbn [eval_where_q search_params_of p_q_like].
  rewrite sql_any_true, in_map_iff.
  assert (Hlow : py_lower ((37%N :: py_strip (al_query al)) ++ [37%N])
                 = (37%N :: py_lower (py_strip (al_query al))) ++ [37%N]).
  { cbn [app]. change (py_lower (37%N :: ?x)) with (lower_cp 37 ++ py_lower x).
    unfold py_lower. rewrite flat_map_app. reflexivity. }
  split.
  - intros [c [Hm Hin]]. unfold sql_ilike in Hm.
    destruct (col_value r c) as [s|] eqn:Hs; [|discriminate].
    apply (inj Some) in Hm. rewrite Hlow in Hm. apply like_contains in Hm; [|exact Hq].
    exists c, s. auto.
  - intros (c & s & Hin & Hs & Hocc). exists c. split; [|exact Hin].
    unfold sql_ilike. rewrite Hs, Hlow. f_equal. apply like_contains; assumption.
Qed.

End Substring.

(** ** Closed instances *)

Lemma finished_deliveries_are_frozen_witness :
  match @process_alert ascii_runtime default_config sample_admin provider_down noon
          (sample_catalog false []) (get_user_prefs None []) sample_alert
          (sample_world [sample_delivery 7 5; sample_delivery 8 0],
           {| queued := 0; skipped := 0; sent := 0; failed := 0 |}, ∅) with
  | Some (w', _, _) => In (sample_delivery 7 5) (w_deliveries w')
  | None => False
  end.
Proof.
  destruct (@process_alert ascii_runtime default_config sample_admin provider_down
              noon (sample_catalog false []) (get_user_prefs None []) sample_alert
              (sample_world [sample_delivery 7 5; sample_delivery 8 0],
               {| queued := 0; skipped := 0; sent := 0; failed := 0 |}, ∅))
    as [[[w' c'] pu']|] eqn:E.
  - apply (@finished_deliveries_are_frozen ascii_runtime default_config sample_admin
             provider_down noon (sample_catalog false []) (get_user_prefs None [])
             sample_alert _ w' _ c' ∅ pu' (sample_delivery 7 5)) in E.
    + exact E.
    + unfold unique_keys. apply (bool_decide_unpack _). vm_compute. exact I.
    + left. reflexivity.
    + right. vm_compute. discriminate.
  - vm_compute in E. discriminate.
Defined.

Lemma failed_delivery_waits_witness :
  is_due 5 (db_now noon + 59 * usec_per_sec)
    (failed_row (lit "resend_status=500") 60 (db_now noon) (sample_delivery 4 0))
  = false.
Proof.
  apply (@failed_delivery_waits ascii_runtime default_config sample_admin noon
           (sample_due 4 0) (lit "resend_status=500")
           (sample_world [sample_delivery 4 0])).
  - vm_compute. left. reflexivity.
  - reflexivity.
  - vm_compute. reflexivity.
Defined.

Lemma claims_are_fresh_and_pending_witness :
  let d := new_delivery 1000 0 sample_alert 5 (lit "unknown:5") [] (lit "P2") in
  In d (w_deliveries (sample_world []))
  \/ (fresh_claim sample_alert 0 d
      /\ (forall max_att, 0 < max_att -> is_due max_att 0 d = true)
      /\ In (al_channel sample_alert) (channels_enabled (get_user_prefs None []))
      /\ exists row, In row [(stamped_item 5 300, lit "unknown:5", ([] : str))]
                     /\ d_article_id d = it_id (fst (fst row))
                     /\ d_dedupe_key d = Some (snd (fst row))).
Proof.
  apply (@claims_are_fresh_and_pending ascii_runtime sample_alert
           (get_user_prefs None []) 0 [(stamped_item 5 300, lit "unknown:5", ([] : str))]
           (sample_world []) {| queued := 0; skipped := 0; sent := 0; failed := 0 |}).
  vm_compute. left. reflexivity.
Defined.

Lemma recent_duplicate_is_not_claimed_witness :
  In (sample_delivery 4 0) (w_deliveries (sample_world [sample_delivery 4 0])).
Proof.
  apply (@recent_duplicate_is_not_claimed ascii_runtime sample_alert
           (get_user_prefs None []) 1000 [(stamped_item 9 300, lit "unknown:4", ([] : str))]
           (sample_world [sample_delivery 4 0])
           {| queued := 0; skipped := 0; sent := 0; failed := 0 |}
           (sample_delivery 4 0) (sample_delivery 4 0) (lit "unknown:4")).
  - left. reflexivity.
  - reflexivity.
  - reflexivity.
  - reflexivity.
  - vm_compute. discriminate.
  - vm_compute. left. reflexivity.
  - reflexivity.
Defined.

Lemma ilike_fallback_is_substring_search_witness :
  let r : joined_row :=
    (sample_article 22 "Weekly market report" "Crude oil output rises" 200, None) in
  sql_true (@eval_where_q ascii_runtime (sample_catalog false oil_articles)
              (WhereIlike [ColSummary; ColContent])
              (@search_params_of ascii_runtime default_config oil_alert None) r)
  = true
  <-> exists c s, In c [ColSummary; ColContent] /\ col_value r c = Some s
                  /\ occurs_in (@py_lower ascii_runtime
                                  (@py_strip ascii_runtime (al_query oil_alert)))
                       (@py_lower ascii_runtime s).
Proof.
  apply (@ilike_fallback_is_substring_search ascii_runtime default_config
           (sample_catalog false oil_articles) oil_alert None
           [ColSummary; ColContent]).
  vm_compute. repeat constructor.
Defined.

(** ** Normalised titles *)

Section TitleShape.
Context `{PyRuntime}.

Lemma space_is_space : py_isspace 32%N = true.
Proof. reflexivity. Qed.

Lemma space_not_alnum : py_isalnum 32%N = false.
Proof. reflexivity. Qed.

(** The scan keeps alphanumeric code points and spaces only. *)
Lemma title_scan_chars (P : N -> Prop) (b : bool) (s : str) :
  Forall P s ->
  Forall (fun c => c = 32%N \/ (py_isalnum c = true /\ P c)) (title_scan b s).
Proof.
  intros Hs. revert b. induction Hs as [|c s Hc _ IH]; intros b; cbn [title_scan].
  - constructor.
  - destruct (py_isalnum c) eqn:E.
    + constructor; [right; auto|apply IH].
    + destruct b; [apply IH|]. constructor; [left; reflexivity|apply IH].
Qed.

(** The words of [split]: what is being read, then the rest. *)

Lemma split_ws_words (P : N -> Prop) (s cur : str) :
  Forall (fun c => P c /\ py_isspace c = false) cur ->
  Forall P s ->
  Forall (fun w => w <> [] /\ Forall (fun c => P c /\ py_isspace c = false) w)
    (split_ws_aux cur s).
Proof.
  intros Hcur Hs. revert cur Hcur.
  induction Hs as [|c s Hc _ IH]; intros cur Hcur; cbn [split_ws_aux].
  - destruct cur as [|x cur]; constructor; [|constructor].
    split.
    + intros E. apply (f_equal (@length N)) in E. rewrite length_rev in E. discriminate.
    + apply List.Forall_rev. exact Hcur.
  - destruct (py_isspace c) eqn:E.
    + apply List.Forall_app. split; [|apply IH; constructor].
      destruct cur as [|x cur]; constructor; [|constructor].
      split.
      * intros E'. apply (f_equal (@length N)) in E'. rewrite length_rev in E'.
        discriminate.
      * apply List.Forall_rev. exact Hcur.
    + apply IH. constructor; auto.
Qed.

Lemma title_words_of (P : N -> Prop) (raw : str) :
  Forall P (py_lower raw) ->
  exists words,
    normalize_title raw = py_join (lit " ") words
    /\ Forall (fun w => title_word w /\ Forall P w) words.
Proof.
  intros HP. unfold normalize_title. cbv zeta.
  exists (py_split_ws (title_scan false (py_lower raw))). split; [reflexivity|].
  pose proof (title_scan_chars P false (py_lower raw) HP) as Hscan.
  pose proof (split_ws_words _ _ [] (List.Forall_nil _) Hscan) as Hw.
  unfold py_split_ws. eapply List.Forall_impl; [|exact Hw].
  intros w [Hne Hall]. split; [split; [exact Hne|]|].
  - eapply List.Forall_impl; [|exact Hall]. intros c [[->|[Ha _]] Hsp].
    + rewrite space_is_space in Hsp. discriminate.
    + auto.
  - eapply List.Forall_impl; [|exact Hall]. intros c [[->|[_ Hc]] Hsp].
    + rewrite space_is_space in Hsp. discriminate.
    + exact Hc.
Qed.

(** X13: a normalised title is a list of non-empty words of alphanumeric
    code points, none of them white space, joined by single spaces. *)
Theorem normalized_title_is_single_spaced (raw : str) :
  exists words,
    normalize_title raw = py_join (lit " ") words /\ Forall title_word words.
Proof.
  destruct (title_words_of (fun _ => True) raw) as (words & Heq & Hw).
  { apply List.Forall_forall. auto. }
  exists words. split; [exact Heq|].
  eapply List.Forall_impl; [|exact Hw]. intros w [Hw' _]. exact Hw'.
Qed.

End TitleShape.

Section TitleIdempotent.
Context `{PyRuntime}.

Lemma py_lower_fixed (s : str) :
  Forall (fun c => lower_cp c = [c]) s -> py_lower s = s.
Proof.
  induction 1 as [|c s Hc _ IH]; [reflexivity|].
  change (py_lower (c :: s)) with (lower_cp c ++ py_lower s).
  rewrite Hc, IH. reflexivity.
Qed.

Lemma py_join_cons2 (sep w w2 : str) (ws : list str) :
  py_join sep (w :: w2 :: ws) = w ++ sep ++ py_join sep (w2 :: ws).
Proof. reflexivity. Qed.

Lemma py_join_forall (P : N -> Prop) (sep : str) (words : list str) :
  Forall P sep -> Forall (Forall P) words -> Forall P (py_join sep words).
Proof.
  intros Hsep Hw. induction Hw as [|w ws Hw _ IH]; [constructor|].
  destruct ws as [|w2 ws]; [exact Hw|].
  rewrite py_join_cons2. apply List.Forall_app. split; [exact Hw|].
  apply List.Forall_app. split; [exact Hsep|exact IH].
Qed.

Lemma title_scan_word (w rest : str) (b : bool) :
  w <> [] -> Forall (fun c => py_isalnum c = true) w ->
  title_scan b (w ++ rest) = w ++ title_scan false rest.
Proof.
  intros Hne Hw. revert b. induction Hw as [|c w Hc Hw IH]; intros b; [contradiction|].
  cbn [app title_scan]. rewrite Hc. f_equal.
  destruct w as [|c' w]; [reflexivity|]. apply IH. discriminate.
Qed.

Lemma title_scan_joined (words : list str) (b : bool) :
  Forall title_word words ->
  title_scan b (py_join (lit " ") words) = py_join (lit " ") words.
Proof.
  intros Hw. revert b. induction Hw as [|w ws [Hne Hc] _ IH]; intros b; [reflexivity|].
  assert (Ha : Forall (fun c => py_isalnum c = true) w).
  { eapply List.Forall_impl; [|exact Hc]. intros c [Ha _]. exact Ha. }
  destruct ws as [|w2 ws].
  - cbn [py_join]. rewrite <- (app_nil_r w) at 1.
    rewrite title_scan_word by assumption. apply app_nil_r.
  - rewrite py_join_cons2. rewrite title_scan_word by assumption. f_equal.
    change (lit " " ++ ?x) with (32%N :: x). cbn [title_scan].
    rewrite space_not_alnum. f_equal. apply IH.
Qed.

Lemma split_ws_word (w rest cur : str) :
  Forall (fun c => py_isspace c = false) w ->
  split_ws_aux cur (w ++ rest) = split_ws_aux (rev w ++ cur) rest.
Proof.
  intros Hw. revert cur. induction Hw as [|c w Hc _ IH]; intros cur; [reflexivity|].
  cbn [app split_ws_aux]. rewrite Hc, IH. cbn [rev]. rewrite <- app_assoc. reflexivity.
Qed.

Lemma split_ws_joined (words : list str) :
  Forall title_word words ->
  py_split_ws (py_join (lit " ") words) = words.
Proof.
  unfold py_split_ws.
  induction 1 as [|w ws [Hne Hc] _ IH]; [reflexivity|].
  assert (Hs : Forall (fun c => py_isspace c = false) w).
  { eapply List.Forall_impl; [|exact Hc]. intros c [_ Hs]. exact Hs. }
  assert (Hrev : forall tl, (match rev w ++ [] with [] => tl | _ :: _ => [rev (rev w ++ [])] end)
                 = [w] /\ True).
  { intros tl. rewrite app_nil_r. split; [|exact I].
    destruct (rev w) as [|x r] eqn:E.
    - apply (f_equal (@length N)) in E. rewrite length_rev in E.
      destruct w; [contradiction|discriminate].
    - rewrite <- E, rev_involutive. reflexivity. }
  destruct ws as [|w2 ws].
  - cbn [py_join]. rewrite <- (app_nil_r w) at 1. rewrite split_ws_word by exact Hs.
    cbn [split_ws_aux]. apply Hrev.
  - rewrite py_join_cons2, split_ws_word by exact Hs.
    change (lit " " ++ ?x) with (32%N :: x). cbn [split_ws_aux].
    rewrite space_is_space. rewrite IH.
    destruct (Hrev []) as [-> _]. reflexivity.
Qed.

(** X14: under a lower-casing that settles, normalising a normalised title
    changes nothing. *)
Theorem normalize_title_idempotent (raw : str) :
  lower_settles ->
  normalize_title (normalize_title raw) = normalize_title raw.
Proof.
  intros Hlow.
  destruct (title_words_of (fun c => lower_cp c = [c]) raw) as (words & Heq & Hw).
  { apply List.Forall_forall. intros d Hd. unfold py_lower in Hd.
    apply in_flat_map in Hd as [c [_ Hd]]. eapply Hlow, Hd. }
  assert (Hwords : Forall title_word words).
  { eapply List.Forall_impl; [|exact Hw]. intros w [Hw' _]. exact Hw'. }
  rewrite Heq. unfold normalize_title at 1. cbv zeta.
  rewrite py_lower_fixed.
  - rewrite title_scan_joined, split_ws_joined by exact Hwords. reflexivity.
  - apply py_join_forall; [repeat constructor|].
    eapply List.Forall_impl; [|exact Hw]. intros w [_ Hf]. exact Hf.
Qed.

End TitleIdempotent.

Lemma ascii_lower_settles : @lower_settles ascii_runtime.
Proof.
  intros c d Hin. unfold lower_cp in *. cbn [ucd_lower ascii_runtime] in *.
  destruct (is_ascii c) eqn:Ha.
  - destruct Hin as [<-|[]].
    destruct (is_ascii_upper c) eqn:Hu.
    + unfold is_ascii_upper, in_range in Hu.
      apply andb_true_iff in Hu as [Hlo Hhi]. apply N.leb_le in Hlo, Hhi.
      replace (is_ascii (c + 32)) with true
        by (symmetry; apply N.ltb_lt; lia).
      replace (is_ascii_upper (c + 32)) with false; [reflexivity|].
      symmetry. unfold is_ascii_upper, in_range. apply andb_false_iff. right.
      apply N.leb_gt. lia.
    + rewrite Ha, Hu. reflexivity.
  - destruct Hin as [<-|[]]. rewrite Ha. reflexivity.
Qed.

Lemma normalize_title_idempotent_witness :
  @normalize_title ascii_runtime (@normalize_title ascii_runtime breaking_title)
  = @normalize_title ascii_runtime breaking_title.
Proof.
  apply (@normalize_title_idempotent ascii_runtime breaking_title).
  exact ascii_lower_settles.
Defined.

(** ** The dedupe key of a match *)

Lemma str_of_date_nonempty (d : Z * Z * Z) : str_of_date d <> [].
Proof.
  destruct d as [[y m] dd]. unfold str_of_date.
  destruct (zero_pad 4 y); discriminate.
Qed.

Lemma py_join_nonempty (sep : str) (parts : list str) :
  parts <> [] -> Forall (fun p => p <> []) parts -> py_join sep parts <> [].
Proof.
  intros Hne Hall. destruct Hall as [|p ps Hp _]; [contradiction|].
  destruct ps as [|p2 ps]; [exact Hp|].
  change (py_join sep (p :: p2 :: ps)) with (p ++ sep ++ py_join sep (p2 :: ps)).
  destruct p; [contradiction|discriminate].
Qed.

Lemma nonempty_parts_last (parts : list str) (last : str) :
  last <> [] -> nonempty_parts (parts ++ [last]) = nonempty_parts parts ++ [last].
Proof.
  intros Hne. unfold nonempty_parts. rewrite List.filter_app. f_equal. simpl.
  destruct last; [contradiction|reflexivity].
Qed.

Section KeyShape.
Context `{PyRuntime}.

(** X15: a dedupe key is never empty; its second component is the normalised
    URL of the item, and is the key itself whenever it is not empty. *)
Theorem dedupe_key_is_never_empty (it : item) :
  fst (compute_dedupe_key it) <> []
  /\ snd (compute_dedupe_key it) = normalize_url (or_empty (it_url it))
  /\ (snd (compute_dedupe_key it) <> [] ->
      fst (compute_dedupe_key it) = snd (compute_dedupe_key it)).
Proof.
  unfold compute_dedupe_key. cbv zeta.
  destruct (normalize_url (or_empty (it_url it))) as [|c u] eqn:Hu.
  - cbn [fst snd]. split; [|split; [reflexivity|intros []; reflexivity]].
    destruct (List.filter _ _) as [|p ps] eqn:Hf; [discriminate|].
    apply py_join_nonempty; [discriminate|].
    rewrite <- Hf. apply List.Forall_forall. intros q Hq.
    apply filter_In in Hq as [_ Hq]. destruct q; [discriminate|discriminate].
  - cbn [fst snd]. split; [discriminate|]. split; reflexivity.
Qed.

(** A stamped item without URL: the key is the join of the parts, the
    date last. *)
Lemma dated_key (it : item) (t : datetime) :
  it_ts it = Some t ->
  normalize_url (or_empty (it_url it)) = [] ->
  fst (compute_dedupe_key it)
  = py_join (lit "|")
      (nonempty_parts [key_source it; key_title it] ++ [str_of_date (dt_date t)]).
Proof.
  intros Hts Hu. unfold compute_dedupe_key. cbv zeta. rewrite Hu, Hts. cbn [dt_or fst].
  fold (key_source it). fold (key_title it).
  change [key_source it; key_title it; str_of_date (dt_date t)]
    with ([key_source it; key_title it] ++ [str_of_date (dt_date t)]).
  fold (nonempty_parts ([key_source it; key_title it] ++ [str_of_date (dt_date t)])).
  rewrite nonempty_parts_last by apply str_of_date_nonempty.
  destruct (nonempty_parts [key_source it; key_title it] ++ [_]) as [|p ps] eqn:E.
  - apply app_eq_nil in E as [_ E]. discriminate.
  - reflexivity.
Qed.

Lemma matched_item_stamped (cfg : config) (cat : catalog) (now : Z) (al : alert)
    (cursor : option Z) (it : item) :
  In it (matcher cfg cat now al cursor) ->
  exists t, it_ts it = Some {| dt_instant := t; dt_utcoffset := cat_utcoffset cat |}.
Proof.
  unfold matcher, run_search. intros Hin.
  apply in_map_iff in Hin as [r [<- Hin]].
  apply in_firstn, sort_by_in, filter_In in Hin as [_ Hw].
  apply search_where_window in Hw as [t [Ht _]].
  exists t. unfold project_row. cbn [it_ts]. rewrite Ht. reflexivity.
Qed.

(** X16: every match is keyed by its normalised URL or, without one, by the
    non-empty ones of its source and its normalised title followed by its
    as-of date in the session's time zone, joined by a bar; the key
    [unknown:<id>] is never given to a match. *)
Theorem matches_get_url_or_dated_keys (cfg : config) (cat : catalog) (now : Z)
    (al : alert) (cursor : option Z) :
  Forall
    (fun it =>
       (snd (compute_dedupe_key it) <> []
        /\ fst (compute_dedupe_key it) = normalize_url (or_empty (it_url it)))
       \/ (snd (compute_dedupe_key it) = []
           /\ exists t,
                it_ts it = Some {| dt_instant := t;
                                   dt_utcoffset := cat_utcoffset cat |}
                /\ fst (compute_dedupe_key it)
                   = py_join (lit "|")
                       (nonempty_parts [key_source it; key_title it]
                        ++ [str_of_date
                              (dt_date {| dt_instant := t;
                                          dt_utcoffset := cat_utcoffset cat |})])))
    (matcher cfg cat now al cursor).
Proof.
  apply List.Forall_forall. intros it Hin.
  destruct (matched_item_stamped _ _ _ _ _ _ Hin) as [t Ht].
  destruct (normalize_url (or_empty (it_url it))) as [|c u] eqn:Hu.
  - right. split.
    + unfold compute_dedupe_key. cbv zeta. rewrite Hu. reflexivity.
    + exists t. split; [exact Ht|]. apply dated_key; assumption.
  - left. unfold compute_dedupe_key. cbv zeta. rewrite Hu. cbn [fst snd].
    split; [discriminate|reflexivity].
Qed.

End KeyShape.

(** ** Sorting is a function of the multiset *)

Lemma str_compare_eq (a b : str) : str_compare a b = Eq -> a = b.
Proof.
  revert b. induction a as [|x a IH]; intros [|y b]; simpl; try discriminate; auto.
  destruct (N.compare_spec x y) as [->|_|_]; try discriminate.
  intros E. f_equal. apply IH, E.
Qed.

Lemma str_compare_refl (a : str) : str_compare a a = Eq.
Proof. induction a as [|x a IH]; simpl; [reflexivity|]. rewrite N.compare_refl. exact IH. Qed.

Lemma str_compare_lt_trans (a b c : str) :
  str_compare a b = Lt -> str_compare b c = Lt -> str_compare a c = Lt.
Proof.
  revert b c. induction a as [|x a IH]; intros [|y b] [|z c]; simpl;
    try discriminate; auto.
  destruct (N.compare_spec x y) as [->|Hxy|Hxy]; try discriminate.
  - destruct (N.compare_spec y z) as [->|Hyz|Hyz]; try discriminate; auto.
    apply IH.
  - intros _. destruct (N.compare_spec y z) as [->|Hyz|Hyz]; try discriminate.
    + intros _. destruct (N.compare_spec x z); [lia|reflexivity|lia].
    + intros _. destruct (N.compare_spec x z); [lia|reflexivity|lia].
Qed.

Lemma pair_compare_eq (p q : str * str) : pair_compare p q = Eq -> p = q.
Proof.
  unfold pair_compare. destruct p as [a b], q as [c d]. simpl.
  destruct (str_compare a c) eqn:E; try discriminate.
  intros E'. apply str_compare_eq in E, E'. congruence.
Qed.

Lemma pair_compare_lt_trans (p q r : str * str) :
  pair_compare p q = Lt -> pair_compare q r = Lt -> pair_compare p r = Lt.
Proof.
  unfold pair_compare. destruct p as [a b], q as [c d], r as [e f]. simpl.
  destruct (str_compare a c) eqn:E1; try discriminate;
    destruct (str_compare c e) eqn:E2; try discriminate.
  - apply str_compare_eq in E1, E2. subst. rewrite str_compare_refl.
    apply str_compare_lt_trans.
  - apply str_compare_eq in E1. subst. rewrite E2. auto.
  - apply str_compare_eq in E2. subst. rewrite E1. auto.
  - rewrite (str_compare_lt_trans _ _ _ E1 E2). auto.
Qed.

Lemma pair_compare_antisym (p q : str * str) :
  pair_compare q p = CompOpp (pair_compare p q).
Proof.
  unfold pair_compare.
  rewrite (str_compare_antisym (fst p) (fst q)), (str_compare_antisym (snd p) (snd q)).
  destruct (str_compare (fst p) (fst q)); simpl; auto.
Qed.

Lemma pair_leb_trans (p q r : str * str) :
  pair_leb p q = true -> pair_leb q r = true -> pair_leb p r = true.
Proof.
  unfold pair_leb.
  destruct (pair_compare p q) eqn:E1; try discriminate;
    destruct (pair_compare q r) eqn:E2; try discriminate; intros _ _.
  - apply pair_compare_eq in E1. subst. rewrite E2. reflexivity.
  - apply pair_compare_eq in E1. subst. rewrite E2. reflexivity.
  - apply pair_compare_eq in E2. subst. rewrite E1. reflexivity.
  - rewrite (pair_compare_lt_trans _ _ _ E1 E2). reflexivity.
Qed.

Lemma pair_leb_antisym (p q : str * str) :
  pair_leb p q = true -> pair_leb q p = true -> p = q.
Proof.
  unfold pair_leb. rewrite (pair_compare_antisym p q).
  destruct (pair_compare p q) eqn:E; simpl; try discriminate.
  intros _ _. apply pair_compare_eq, E.
Qed.

Section SortPerm.
Context {A : Type} (leb : A -> A -> bool).
Hypothesis leb_total : forall x y, leb x y = true \/ leb y x = true.
Hypothesis leb_trans : forall x y z, leb x y = true -> leb y z = true -> leb x z = true.
Hypothesis leb_antisym : forall x y, leb x y = true -> leb y x = true -> x = y.

Lemma insert_by_perm (x : A) (l : list A) : Permutation (insert_by leb x l) (x :: l).
Proof.
  induction l as [|y l IH]; simpl; [reflexivity|].
  destruct (leb x y); [reflexivity|].
  rewrite IH. apply perm_swap.
Qed.

Lemma sort_by_perm (l : list A) : Permutation (sort_by leb l) l.
Proof.
  induction l as [|x l IH]; simpl; [reflexivity|].
  rewrite insert_by_perm. constructor. exact IH.
Qed.

Lemma sorted_perm_eq (l1 l2 : list A) :
  StronglySorted (fun x y => leb x y = true) l1 ->
  StronglySorted (fun x y => leb x y = true) l2 ->
  Permutation l1 l2 -> l1 = l2.
Proof.
  intros H1. revert l2. induction H1 as [|x l1 Hs1 IH Hx]; intros l2 H2 Hp.
  - apply Permutation_nil in Hp. auto.
  - destruct H2 as [|y l2 Hs2 Hy].
    + apply Permutation_sym, Permutation_nil in Hp. discriminate.
    + assert (x = y).
      { assert (Hxin : In x (y :: l2)).
        { apply (Permutation_in _ Hp). left. reflexivity. }
        assert (Hyin : In y (x :: l1)).
        { apply (Permutation_in _ (Permutation_sym Hp)). left. reflexivity. }
        destruct Hxin as [->|Hxin]; [reflexivity|].
        destruct Hyin as [->|Hyin]; [reflexivity|].
        rewrite List.Forall_forall in Hx, Hy.
        apply leb_antisym; auto. }
      subst y. f_equal. apply IH; [exact Hs2|].
      eapply Permutation_cons_inv, Hp.
Qed.

Lemma sort_by_of_perm (l1 l2 : list A) :
  Permutation l1 l2 -> sort_by leb l1 = sort_by leb l2.
Proof.
  intros Hp. apply sorted_perm_eq.
  - apply Sorted_StronglySorted; [intros x y z; apply leb_trans|].
    apply sort_by_sorted, leb_total.
  - apply Sorted_StronglySorted; [intros x y z; apply leb_trans|].
    apply sort_by_sorted, leb_total.
  - rewrite !sort_by_perm. exact Hp.
Qed.
End SortPerm.

(** ** What follows a [?] or a [#] does not reach the scheme, the
       authority or the path *)

Lemma lstrip_c0_app (u : str) (x : N) (t : str) :
  (32 < x)%N -> lstrip_c0 (u ++ x :: t) = lstrip_c0 u ++ x :: t.
Proof.
  intros Hx. induction u as [|c u IH]; cbn [app lstrip_c0].
  - replace (x <=? 32)%N with false by (symmetry; apply N.leb_gt; exact Hx).
    reflexivity.
  - destruct (c <=? 32)%N; [exact IH|reflexivity].
Qed.

Lemma remove_unsafe_app (a b : str) :
  remove_unsafe (a ++ b) = remove_unsafe a ++ remove_unsafe b.
Proof. unfold remove_unsafe, remove_char. rewrite !List.filter_app. reflexivity. Qed.

Lemma remove_unsafe_cons (x : N) (t : str) :
  is_unsafe x = false -> remove_unsafe (x :: t) = x :: remove_unsafe t.
Proof.
  unfold is_unsafe. intros Hx.
  apply orb_false_iff in Hx as [Hx H13]. apply orb_false_iff in Hx as [H9 H10].
  unfold remove_unsafe, remove_char. cbn [List.filter].
  rewrite H9. cbn [negb List.filter]. rewrite H13. cbn [negb List.filter].
  rewrite H10. reflexivity.
Qed.

Lemma remove_unsafe_in (x : N) (s : str) : In x (remove_unsafe s) -> In x s.
Proof.
  unfold remove_unsafe. intros Hin.
  apply remove_char_in in Hin as [Hin _].
  apply remove_char_in in Hin as [Hin _].
  apply remove_char_in in Hin as [Hin _]. exact Hin.
Qed.

Lemma cut_first_app_r (ch : N) (s a b t : str) :
  cut_first ch s = Some (a, b) -> cut_first ch (s ++ t) = Some (a, b ++ t).
Proof.
  intros E. apply cut_first_spec in E as [-> Hnot].
  rewrite <- app_assoc. cbn [app]. apply cut_first_app, Hnot.
Qed.

Lemma cut_first_none_inv (ch : N) (s : str) : cut_first ch s = None -> ~ In ch s.
Proof.
  induction s as [|c s IH]; cbn [cut_first]; [intros _ []|].
  destruct (N.eqb_spec c ch) as [->|Hne]; [discriminate|].
  destruct (cut_first ch s) as [[a b]|]; [discriminate|].
  intros _ [Heq|Hin]; [congruence|]. apply IH; auto.
Qed.

Lemma cut_first_skip (ch : N) (a s : str) :
  ~ In ch a ->
  cut_first ch (a ++ s)
  = match cut_first ch s with Some (p, q) => Some (a ++ p, q) | None => None end.
Proof.
  induction a as [|c a IH]; intros Hnot; cbn [app cut_first].
  - destruct (cut_first ch s) as [[p q]|]; reflexivity.
  - destruct (N.eqb_spec c ch) as [->|Hne]; [exfalso; apply Hnot; left; reflexivity|].
    rewrite IH by (intros Hin; apply Hnot; right; exact Hin).
    destruct (cut_first ch s) as [[p q]|]; reflexivity.
Qed.

Lemma span_until_suffix (stop : N -> bool) (s : str) (x : N) (t : str) :
  stop x = true ->
  span_until stop (s ++ x :: t)
  = (fst (span_until stop s), snd (span_until stop s) ++ x :: t).
Proof.
  intros Hx. induction s as [|c s IH]; cbn [app span_until].
  - rewrite Hx. reflexivity.
  - destruct (stop c); [reflexivity|]. rewrite IH.
    destruct (span_until stop s) as [a b]. reflexivity.
Qed.

Lemma span_until_in (stop : N -> bool) (s : str) (y : N) :
  In y (snd (span_until stop s)) -> In y s.
Proof.
  destruct (span_until stop s) as [a b] eqn:E.
  apply span_until_spec in E as (-> & _ & _). cbn [snd].
  intros Hin. apply in_or_app. right. exact Hin.
Qed.

Lemma split_netloc_in (url : str) (y : N) :
  In y (snd (split_netloc url)) -> In y url.
Proof.
  rewrite split_netloc_eq. destruct (py_startswith [47%N; 47%N] url) eqn:E; [|auto].
  destruct url as [|a [|b rest]]; cbn [skipn]; intros Hin;
    apply span_until_in in Hin.
  - destruct Hin.
  - destruct Hin.
  - right. right. exact Hin.
Qed.

Lemma split_netloc_suffix (r : str) (x : N) (t : str) :
  is_netloc_delim x = true -> x <> 47%N ->
  split_netloc (r ++ x :: t)
  = (fst (split_netloc r), snd (split_netloc r) ++ x :: t).
Proof.
  intros Hx Hne. rewrite !split_netloc_eq.
  apply N.eqb_neq in Hne. rewrite N.eqb_sym in Hne.
  destruct r as [|a [|b rest]]; cbn [app py_startswith skipn].
  - rewrite Hne. reflexivity.
  - rewrite Hne. cbn [andb]. rewrite !andb_false_r. reflexivity.
  - destruct ((47 =? a)%N && ((47 =? b)%N && true)); [|reflexivity].
    apply span_until_suffix, Hx.
Qed.

Section UrlSuffix.
Context `{PyRuntime}.

Lemma split_scheme_suffix (a : str) (x : N) (t : str) :
  is_scheme_char x = false -> x <> 58%N ->
  split_scheme (a ++ x :: t)
  = (fst (split_scheme a), snd (split_scheme a) ++ x :: t).
Proof.
  intros Hx Hne. unfold split_scheme.
  destruct (cut_first 58 a) as [[pre post]|] eqn:E.
  - rewrite (cut_first_app_r _ _ _ _ (x :: t) E).
    destruct pre as [|c pre]; [reflexivity|].
    destruct (is_ascii c && is_ascii_alpha c && forallb is_scheme_char (c :: pre));
      reflexivity.
  - apply cut_first_none_inv in E.
    rewrite (cut_first_skip 58 a (x :: t) E). cbn [cut_first].
    replace (x =? 58)%N with false by (symmetry; apply N.eqb_neq; exact Hne).
    destruct (cut_first 58 t) as [[p q]|]; [|reflexivity].
    destruct (a ++ x :: p) as [|c pre] eqn:Epre; [reflexivity|].
    replace (forallb is_scheme_char (c :: pre)) with false;
      [rewrite andb_false_r; reflexivity|].
    symmetry. rewrite <- Epre, forallb_app. cbn [forallb]. rewrite Hx.
    rewrite andb_false_r. reflexivity.
Qed.

(** The split of [u ++ x :: t] for a delimiter [x] that [u] is free of:
    scheme and authority are those of [u], and what is left to cut is what
    is left of [u], then [x], then [t] without TAB, CR and LF. *)
Lemma urlsplit_before (u : str) (x : N) (t : str) :
  (x = 35%N \/ x = 63%N) ->
  let url0 := remove_unsafe (lstrip_c0 u) in
  let sp1 := split_scheme url0 in
  let sp2 := split_netloc (snd sp1) in
  remove_unsafe (lstrip_c0 (u ++ x :: t)) = url0 ++ x :: remove_unsafe t
  /\ split_scheme (url0 ++ x :: remove_unsafe t)
     = (fst sp1, snd sp1 ++ x :: remove_unsafe t)
  /\ split_netloc (snd sp1 ++ x :: remove_unsafe t)
     = (fst sp2, snd sp2 ++ x :: remove_unsafe t)
  /\ (forall y, In y (snd sp2) -> In y u).
Proof.
  intros Hx url0 sp1 sp2.
  assert (Hfacts : (32 < x)%N /\ is_unsafe x = false /\ is_scheme_char x = false
                   /\ x <> 58%N /\ x <> 47%N /\ is_netloc_delim x = true).
  { destruct Hx as [->| ->]; repeat split; try reflexivity; try discriminate. }
  destruct Hfacts as (H32 & Hun & Hsc & H58 & H47 & Hdel).
  split; [|split; [|split]].
  - rewrite lstrip_c0_app by exact H32.
    rewrite remove_unsafe_app, remove_unsafe_cons by exact Hun. reflexivity.
  - apply split_scheme_suffix; assumption.
  - apply split_netloc_suffix; assumption.
  - intros y Hy. subst sp2. apply split_netloc_in in Hy.
    destruct sp1 as [scheme url1] eqn:E1. subst sp1.
    apply split_scheme_facts in E1 as [_ Hsub]. cbn [snd] in Hy.
    apply Hsub in Hy. subst url0. apply remove_unsafe_in, lstrip_c0_in in Hy. exact Hy.
Qed.

End UrlSuffix.

Section UrlParts.
Context `{PyRuntime}.

Lemma normalize_url_try_parts (raw : str) :
  normalize_url_try raw
  = match urlsplit raw with
    | None => None
    | Some parts =>
        match urlencode (sort_by pair_leb (kept_fields (sr_query parts))) with
        | None => None
        | Some query =>
            Some (urlunsplit (normal_scheme parts) (normal_netloc parts)
                    (rstrip_char 47 (sr_path parts)) query [])
        end
    end.
Proof. reflexivity. Qed.

Lemma urlsplit_fragment (u f : str) :
  ~ In 35%N u ->
  urlsplit (u ++ 35%N :: f) = with_fragment (remove_unsafe f) <$> urlsplit u.
Proof.
  intros Hnot. unfold urlsplit.
  destruct (urlsplit_before u 35 f (or_introl eq_refl)) as (H0 & H1 & H2 & Hsub).
  cbv zeta in H0, H1, H2, Hsub. cbv zeta. rewrite H0, H1.
  destruct (split_scheme (remove_unsafe (lstrip_c0 u))) as [scheme url1].
  cbn [fst snd] in *. rewrite H2.
  destruct (split_netloc url1) as [netloc url2]. cbn [fst snd] in *.
  assert (H35 : ~ In 35%N url2) by (intros Hin; apply Hnot, Hsub, Hin).
  rewrite (cut_first_app 35 url2 _ H35), (cut_first_none 35 url2 H35).
  destruct (cut_first 63 url2) as [[path query]|];
    destruct (netloc_raises netloc); reflexivity.
Qed.

Lemma urlsplit_query (b q : str) :
  ~ In 63%N b -> ~ In 35%N b -> ~ In 35%N q ->
  urlsplit (b ++ 63%N :: q) = with_query (remove_unsafe q) <$> urlsplit b.
Proof.
  intros H63 H35 Hq. unfold urlsplit.
  destruct (urlsplit_before b 63 q (or_intror eq_refl)) as (H0 & H1 & H2 & Hsub).
  cbv zeta in H0, H1, H2, Hsub. cbv zeta. rewrite H0, H1.
  destruct (split_scheme (remove_unsafe (lstrip_c0 b))) as [scheme url1].
  cbn [fst snd] in *. rewrite H2.
  destruct (split_netloc url1) as [netloc url2]. cbn [fst snd] in *.
  assert (H35' : ~ In 35%N url2) by (intros Hin; apply H35, Hsub, Hin).
  assert (H63' : ~ In 63%N url2) by (intros Hin; apply H63, Hsub, Hin).
  assert (Hall : ~ In 35%N (url2 ++ 63%N :: remove_unsafe q)).
  { intros Hin. apply in_app_or in Hin as [Hin|[Hin|Hin]]; [auto|discriminate|].
    apply Hq, remove_unsafe_in, Hin. }
  rewrite (cut_first_none 35 _ Hall), (cut_first_none 35 url2 H35').
  rewrite (cut_first_app 63 url2 _ H63'), (cut_first_none 63 url2 H63').
  destruct (netloc_raises netloc); reflexivity.
Qed.

Lemma fragment_try (u f : str) :
  ~ In 35%N u -> normalize_url_try (u ++ 35%N :: f) = normalize_url_try u.
Proof.
  intros Hnot. rewrite !normalize_url_try_parts, (urlsplit_fragment u f Hnot).
  destruct (urlsplit u) as [parts|]; reflexivity.
Qed.

Lemma query_try (b q1 q2 : str) :
  ~ In 63%N b -> ~ In 35%N b -> ~ In 35%N q1 -> ~ In 35%N q2 ->
  Permutation (kept_fields (remove_unsafe q1)) (kept_fields (remove_unsafe q2)) ->
  normalize_url_try (b ++ 63%N :: q1) = normalize_url_try (b ++ 63%N :: q2).
Proof.
  intros H63 H35 Hq1 Hq2 Hperm.
  rewrite !normalize_url_try_parts, !urlsplit_query by assumption.
  destruct (urlsplit b) as [parts|]; [|reflexivity].
  cbn [fmap option_fmap option_map with_query sr_query].
  rewrite (sort_by_of_perm pair_leb pair_leb_total pair_leb_trans pair_leb_antisym
             _ _ Hperm).
  reflexivity.
Qed.

Lemma lstrip_app_nonspace (a : str) (x : N) (t : str) :
  py_isspace x = false -> py_lstrip (a ++ x :: t) = py_lstrip a ++ x :: t.
Proof.
  intros Hx. induction a as [|c a IH]; cbn [app py_lstrip].
  - rewrite Hx. reflexivity.
  - destruct (py_isspace c); [exact IH|reflexivity].
Qed.

Lemma rstrip_app_nonspace (a : str) (x : N) (t : str) :
  py_isspace x = false -> py_rstrip (a ++ x :: t) = a ++ x :: py_rstrip t.
Proof.
  intros Hx. unfold py_rstrip.
  rewrite rev_app_distr. cbn [rev]. rewrite <- app_assoc. cbn [app].
  rewrite lstrip_app_nonspace by exact Hx.
  rewrite rev_app_distr. cbn [rev]. rewrite rev_involutive, <- app_assoc.
  reflexivity.
Qed.

Lemma strip_head_nonspace (u : str) :
  py_strip u = u -> match u with [] => True | c :: _ => py_isspace c = false end.
Proof.
  intros Hu. unfold py_strip in Hu. pose proof (lstrip_head u) as Hh.
  destruct (py_lstrip u) as [|c t] eqn:E.
  - rewrite <- Hu. exact I.
  - rewrite rstrip_cons in Hu by exact Hh. rewrite <- Hu. exact Hh.
Qed.

Lemma strip_suffixed (u : str) (x : N) (t : str) :
  py_strip u = u -> u <> [] -> py_isspace x = false ->
  py_strip (u ++ x :: t) = u ++ x :: py_rstrip t.
Proof.
  intros Hu Hne Hx. pose proof (strip_head_nonspace u Hu) as Hh.
  destruct u as [|c u]; [contradiction|].
  unfold py_strip. cbn [app]. rewrite lstrip_id by exact Hh.
  change (c :: u ++ x :: t) with ((c :: u) ++ x :: t).
  apply rstrip_app_nonspace, Hx.
Qed.

Lemma normalize_url_stripped (x : str) :
  py_strip x = x -> x <> [] ->
  normalize_url x = default x (normalize_url_try x).
Proof.
  intros Hx Hne. unfold normalize_url. cbv zeta. rewrite Hx.
  destruct x as [|c x]; [contradiction|].
  destruct (normalize_url_try (c :: x)); reflexivity.
Qed.

(** X17: a fragment does not change the normalised URL of an address that
    normalises. *)
Theorem fragment_is_ignored (u f : str) :
  py_strip u = u -> u <> [] -> ~ In 35%N u ->
  normalize_url_try u <> None ->
  normalize_url (u ++ 35%N :: f) = normalize_url u.
Proof.
  intros Hu Hne Hnot Htry.
  rewrite (normalize_url_stripped u Hu Hne).
  unfold normalize_url. cbv zeta.
  rewrite (strip_suffixed u 35 f Hu Hne eq_refl).
  destruct (u ++ 35%N :: py_rstrip f) as [|c r] eqn:E.
  { apply app_eq_nil in E as [_ E]. discriminate. }
  rewrite <- E, fragment_try by exact Hnot.
  destruct (normalize_url_try u) as [n|]; [reflexivity|contradiction].
Qed.

(** X18: two stripped addresses with the same text before the question mark
    whose queries keep the same fields, in whatever order and with whatever
    tracking fields among them, normalise alike. *)
Theorem query_order_and_tracking_are_ignored (b q1 q2 : str) :
  ~ In 63%N b -> ~ In 35%N b -> ~ In 35%N q1 -> ~ In 35%N q2 ->
  py_strip (b ++ 63%N :: q1) = b ++ 63%N :: q1 ->
  py_strip (b ++ 63%N :: q2) = b ++ 63%N :: q2 ->
  Permutation (kept_fields (remove_unsafe q1)) (kept_fields (remove_unsafe q2)) ->
  normalize_url_try (b ++ 63%N :: q1) <> None ->
  normalize_url (b ++ 63%N :: q1) = normalize_url (b ++ 63%N :: q2).
Proof.
  intros H63 H35 Hq1 Hq2 Hs1 Hs2 Hperm Htry.
  assert (Hne : forall q, b ++ 63%N :: q <> []).
  { intros q E. apply app_eq_nil in E as [_ E]. discriminate. }
  rewrite (normalize_url_stripped _ Hs1 (Hne q1)),
          (normalize_url_stripped _ Hs2 (Hne q2)).
  rewrite <- (query_try b q1 q2) by assumption.
  destruct (normalize_url_try (b ++ 63%N :: q1)); [reflexivity|contradiction].
Qed.

End UrlParts.

Lemma fragment_is_ignored_witness :
  @normalize_url ascii_runtime (lit "https://Example.com/a/?b=1" ++ 35%N :: lit "top")
  = @normalize_url ascii_runtime (lit "https://Example.com/a/?b=1").
Proof.
  apply (@fragment_is_ignored ascii_runtime (lit "https://Example.com/a/?b=1")
           (lit "top")).
  - vm_compute. reflexivity.
  - discriminate.
  - apply has_char_not_in. vm_compute. reflexivity.
  - vm_compute. discriminate.
Defined.

Lemma query_order_and_tracking_are_ignored_witness :
  @normalize_url ascii_runtime
    (lit "https://example.com/a" ++ 63%N :: lit "b=1&utm_source=news&a=2")
  = @normalize_url ascii_runtime
      (lit "https://example.com/a" ++ 63%N :: lit "a=2&b=1").
Proof.
  apply (@query_order_and_tracking_are_ignored ascii_runtime
           (lit "https://example.com/a") (lit "b=1&utm_source=news&a=2")
           (lit "a=2&b=1")).
  - apply has_char_not_in. vm_compute. reflexivity.
  - apply has_char_not_in. vm_compute. reflexivity.
  - apply has_char_not_in. vm_compute. reflexivity.
  - apply has_char_not_in. vm_compute. reflexivity.
  - vm_compute. reflexivity.
  - vm_compute. reflexivity.
  - vm_compute. apply perm_swap.
  - vm_compute. discriminate.
Defined.

(** ** The text of a message *)

Section StripMore.
Context `{PyRuntime}.

Lemma lstrip_decomp (s : str) :
  exists pre, s = pre ++ py_lstrip s /\ Forall (fun c => py_isspace c = true) pre.
Proof.
  induction s as [|c s (pre & Heq & Hpre)]; cbn [py_lstrip].
  - exists []. split; [reflexivity|constructor].
  - destruct (py_isspace c) eqn:E.
    + exists (c :: pre). split; [cbn [app]; f_equal; exact Heq|constructor; assumption].
    + exists []. split; [reflexivity|constructor].
Qed.

Lemma strip_nil_spaces (s : str) :
  py_strip s = [] -> Forall (fun c => py_isspace c = true) s.
Proof.
  unfold py_strip, py_rstrip. intros E.
  apply (f_equal (@rev N)) in E. rewrite rev_involutive in E. cbn [rev] in E.
  destruct (lstrip_decomp (rev (py_lstrip s))) as (pre & Heq & Hpre).
  rewrite E, app_nil_r in Heq.
  assert (Hl : Forall (fun c => py_isspace c = true) (py_lstrip s)).
  { rewrite <- (rev_involutive (py_lstrip s)), Heq. apply List.Forall_rev, Hpre. }
  destruct (lstrip_decomp s) as (pre' & Heq' & Hpre').
  rewrite Heq'. apply List.Forall_app. split; assumption.
Qed.

Lemma strip_nonempty (s : str) (c : N) :
  In c s -> py_isspace c = false -> py_strip s <> [].
Proof.
  intros Hin Hc E. apply strip_nil_spaces in E.
  rewrite List.Forall_forall in E. rewrite (E c Hin) in Hc. discriminate.
Qed.

Lemma strip_last_nonspace (z : str) :
  py_strip z = z ->
  match rev z with [] => True | c :: _ => py_isspace c = false end.
Proof.
  intros Hz. rewrite <- Hz. unfold py_strip, py_rstrip. rewrite rev_involutive.
  apply lstrip_head.
Qed.



Lemma rstrip_snoc_nonspace (w : str) (l : N) :
  py_isspace l = false -> py_rstrip (w ++ [l]) = w ++ [l].
Proof.
  intros Hl. unfold py_rstrip. rewrite rev_app_distr. cbn [rev app].
  rewrite lstrip_id by exact Hl. cbn [rev]. rewrite rev_involutive. reflexivity.
Qed.

(** Text between a stripped head and a stripped tail is already stripped. *)
Lemma strip_between (a m z : str) :
  py_strip a = a -> a <> [] -> py_strip z = z -> z <> [] ->
  py_strip (a ++ m ++ z) = a ++ m ++ z.
Proof.
  intros Ha Hane Hz Hzne.
  pose proof (strip_head_nonspace a Ha) as Hh.
  pose proof (strip_last_nonspace z Hz) as Hl.
  destruct a as [|c a]; [contradiction|].
  destruct (rev z) as [|l z'] eqn:Ez.
  { apply (f_equal (@rev N)) in Ez. rewrite rev_involutive in Ez. contradiction. }
  apply (f_equal (@rev N)) in Ez. rewrite rev_involutive in Ez. cbn [rev] in Ez.
  subst z. unfold py_strip. cbn [app]. rewrite lstrip_id by exact Hh.
  replace (c :: a ++ m ++ rev z' ++ [l]) with ((c :: a ++ m ++ rev z') ++ [l])
    by (cbn [app]; rewrite <- !app_assoc; reflexivity).
  apply rstrip_snoc_nonspace, Hl.
Qed.

End StripMore.

Lemma py_join_snoc (sep x last : str) (l : list str) :
  exists mid, py_join sep (x :: l ++ [last]) = x ++ mid ++ last.
Proof.
  revert x. induction l as [|y l IH]; intros x.
  - exists sep. reflexivity.
  - destruct (IH y) as [mid Hmid]. exists (sep ++ y ++ mid).
    change (py_join sep (x :: (y :: l) ++ [last]))
      with (x ++ sep ++ py_join sep (y :: l ++ [last])).
    rewrite Hmid, <- !app_assoc. reflexivity.
Qed.

Lemma py_join_in (sep : str) (lines : list str) (line : str) (c : N) :
  In line lines -> In c line -> In c (py_join sep lines).
Proof.
  intros Hl Hc. induction lines as [|x lines IH]; [destruct Hl|].
  destruct lines as [|y lines].
  - destruct Hl as [->|[]]. exact Hc.
  - change (py_join sep (x :: y :: lines)) with (x ++ sep ++ py_join sep (y :: lines)).
    destruct Hl as [->|Hl].
    + apply in_or_app. left. exact Hc.
    + apply in_or_app. right. apply in_or_app. right. apply IH, Hl.
Qed.

Section MessageShape.
Context `{PyRuntime}.

(** X19: a message for an article with a title and a link starts with the
    stripped title and ends with the stripped link. *)
Theorem message_runs_from_title_to_link (it : item) :
  py_strip (or_empty (it_title it)) <> [] ->
  py_strip (or_empty (it_url it)) <> [] ->
  exists mid,
    format_message it
    = py_strip (or_empty (it_title it)) ++ mid ++ py_strip (or_empty (it_url it)).
Proof.
  intros Ht Hu. unfold format_message. cbv zeta.
  set (title := py_strip (or_empty (it_title it))) in *.
  set (url := py_strip (or_empty (it_url it))) in *.
  set (meta := py_join (lit " | ") _). set (summary := py_strip (or_empty (it_summary it))).
  replace (not_empty url) with true by (destruct url; [contradiction|reflexivity]).
  assert (Hfin : forall l, exists mid,
            py_strip (py_join nl (title :: l ++ [url])) = title ++ mid ++ url).
  { intros l. destruct (py_join_snoc nl title url l) as [mid ->].
    exists mid. apply strip_between; try assumption; apply strip_idem. }
  destruct (not_empty summary), (not_empty meta); cbn [app].
  - apply (Hfin [meta; []; py_prefix 600 summary; []]).
  - apply (Hfin [[]; py_prefix 600 summary; []]).
  - apply (Hfin [meta; []]).
  - apply (Hfin [[]]).
Qed.

End MessageShape.

Section MessageEmpty.
Context `{PyRuntime}.

Lemma stripped_head (s : str) :
  py_strip s = []
  \/ exists c, In c (py_strip s) /\ In c (py_prefix 600 (py_strip s))
               /\ py_isspace c = false.
Proof.
  pose proof (strip_head_nonspace (py_strip s) (strip_idem s)) as Hh.
  destruct (py_strip s) as [|c t]; [left; reflexivity|right].
  exists c. repeat split; [left; reflexivity|left; reflexivity|exact Hh].
Qed.

Lemma not_empty_true (s : str) : not_empty s = true <-> s <> [].
Proof. destruct s; simpl; split; congruence. Qed.

(** X20: a message is empty exactly when the article has no title, source,
    category, summary or link left after stripping. *)
Theorem message_is_empty_iff (it : item) :
  format_message it = []
  <-> py_strip (or_empty (it_title it)) = []
      /\ py_strip (or_empty (it_source_name it)) = []
      /\ py_strip (or_empty (it_category_guess it)) = []
      /\ py_strip (or_empty (it_summary it)) = []
      /\ py_strip (or_empty (it_url it)) = [].
Proof.
  unfold format_message. cbv zeta.
  set (title := py_strip (or_empty (it_title it))).
  set (source := py_strip (or_empty (it_source_name it))).
  set (cat := py_strip (or_empty (it_category_guess it))).
  set (url := py_strip (or_empty (it_url it))).
  set (summary := py_strip (or_empty (it_summary it))).
  set (meta := py_join (lit " | ") _).
  set (lines := if not_empty url then _ else _).
  split.
  - intros E. apply strip_nil_spaces in E. rewrite List.Forall_forall in E.
    assert (Hno : forall line c, In line lines -> In c line -> py_isspace c = false -> False).
    { intros line c Hl Hc Hsp. rewrite (E c) in Hsp; [discriminate|].
      eapply py_join_in; eassumption. }
    assert (Htitle : In title lines).
    { subst lines. destruct (not_empty url), (not_empty summary), (not_empty meta);
        cbn [app]; left; reflexivity. }
    assert (Hmeta : meta <> [] -> In meta lines).
    { intros Hm. apply not_empty_true in Hm. subst lines. rewrite Hm.
      destruct (not_empty url), (not_empty summary); cbn [app]; right; left; reflexivity. }
    assert (Hsum : summary <> [] -> In (py_prefix 600 summary) lines).
    { intros Hs. apply not_empty_true in Hs. subst lines. rewrite Hs.
      destruct (not_empty url), (not_empty meta); cbn [app In]; tauto. }
    assert (Hurl : url <> [] -> In url lines).
    { intros Hu. apply not_empty_true in Hu. subst lines. rewrite Hu.
      destruct (not_empty summary), (not_empty meta); cbn [app In]; tauto. }
    assert (Hpart : forall part c, In part [source; cat] -> In c part ->
                      py_isspace c = false -> False).
    { intros part c Hp Hc Hsp.
      assert (Hin : In part (List.filter not_empty [source; cat])).
      { apply filter_In. split; [exact Hp|]. apply not_empty_true.
        intros ->. destruct Hc. }
      assert (Hcm : In c meta) by (eapply py_join_in; eassumption).
      apply (Hno meta c); [|exact Hcm|exact Hsp].
      apply Hmeta. intros Em. rewrite Em in Hcm. destruct Hcm. }
    repeat split.
    + destruct (stripped_head (or_empty (it_title it))) as [E'|(c & Hc & _ & Hsp)];
        [exact E'|]. exfalso. eapply Hno; eauto.
    + destruct (stripped_head (or_empty (it_source_name it))) as [E'|(c & Hc & _ & Hsp)];
        [exact E'|]. exfalso. eapply (Hpart source); eauto. left. reflexivity.
    + destruct (stripped_head (or_empty (it_category_guess it)))
        as [E'|(c & Hc & _ & Hsp)]; [exact E'|].
      exfalso. eapply (Hpart cat); eauto. right. left. reflexivity.
    + destruct (stripped_head (or_empty (it_summary it))) as [E'|(c & Hc & Hc' & Hsp)];
        [exact E'|]. exfalso. eapply (Hno (py_prefix 600 summary)); eauto.
      apply Hsum. intros Es. fold summary in Hc. rewrite Es in Hc. destruct Hc.
    + destruct (stripped_head (or_empty (it_url it))) as [E'|(c & Hc & _ & Hsp)];
        [exact E'|]. exfalso. eapply (Hno url); eauto.
      apply Hurl. intros Eu. fold url in Hc. rewrite Eu in Hc. destruct Hc.
  - intros (Ht & Hs & Hc & Hsum & Hu). subst lines meta.
    rewrite Ht, Hs, Hc, Hsum, Hu. reflexivity.
Qed.

End MessageEmpty.

(** ** The groups of an e-mail batch *)

Lemma setdefault_append_keys (key : str) (it : item) (g : list (str * list item)) :
  List.map fst (setdefault_append key it g)
  = if existsb (str_eqb key) (List.map fst g)
    then List.map fst g else List.map fst g ++ [key].
Proof.
  induction g as [|[k items] g IH]; cbn [setdefault_append List.map existsb fst];
    [reflexivity|].
  destruct (str_eqb k key) eqn:E.
  - apply str_eqb_eq in E. subst k. rewrite str_eqb_refl. reflexivity.
  - replace (str_eqb key k) with false.
    + cbn [orb List.map fst]. rewrite IH.
      destruct (existsb _ _); reflexivity.
    + symmetry. apply str_eqb_ne. intros ->. rewrite str_eqb_refl in E. discriminate.
Qed.

Lemma setdefault_append_nodup (key : str) (it : item) (g : list (str * list item)) :
  NoDup (List.map fst g) -> NoDup (List.map fst (setdefault_append key it g)).
Proof.
  intros Hnd. rewrite setdefault_append_keys.
  destruct (existsb (str_eqb key) (List.map fst g)) eqn:E; [exact Hnd|].
  apply NoDup_app. split; [exact Hnd|]. split; [|apply NoDup_singleton].
  intros k Hk Hk'. apply list_elem_of_In in Hk, Hk'. destruct Hk' as [<-|[]].
  apply existsb_str_eqb in Hk. congruence.
Qed.

Lemma setdefault_append_in (key : str) (it : item) (g : list (str * list item))
    (k : str) (items : list item) :
  NoDup (List.map fst g) ->
  In (k, items) (setdefault_append key it g)
  <-> (k <> key /\ In (k, items) g)
      \/ (k = key
          /\ ((exists old, In (key, old) g /\ items = old ++ [it])
              \/ (~ In key (List.map fst g) /\ items = [it]))).
Proof.
  induction g as [|[k0 items0] g IH]; intros Hnd;
    cbn [setdefault_append List.map fst In].
  - split.
    + intros [[= -> ->]|[]]. right. split; [reflexivity|]. right. split; [tauto|reflexivity].
    + intros [[_ []]|[-> [[old [[] _]]|[_ ->]]]]. left. reflexivity.
  - apply NoDup_cons in Hnd as [Hnot Hnd]. specialize (IH Hnd).
    assert (Hnot' : forall x, ~ In (k0, x) g).
    { intros x Hx. apply Hnot, list_elem_of_In.
      apply (in_map fst) in Hx. exact Hx. }
    destruct (str_eqb k0 key) eqn:E.
    + apply str_eqb_eq in E. subst k0. cbn [In]. split.
      * intros [[= <- <-]|Hin].
        -- right. split; [reflexivity|]. left. exists items0. split; [left|]; reflexivity.
        -- destruct (decide (k = key)) as [->|Hne]; [exfalso; eapply Hnot', Hin|].
           left. split; [exact Hne|right; exact Hin].
      * intros [[Hne [[= -> _]|Hin]]|[-> [[old [[[= <-]|Hin] ->]]|[Hn _]]]].
        -- contradiction.
        -- right. exact Hin.
        -- left. reflexivity.
        -- exfalso. eapply Hnot', Hin.
        -- exfalso. apply Hn. left. reflexivity.
    + assert (Hk0 : k0 <> key).
      { intros ->. rewrite str_eqb_refl in E. discriminate. }
      cbn [In]. rewrite IH. split.
      * intros [[= <- <-]|[[Hne Hin]|[-> [[old [Hin ->]]|[Hn ->]]]]].
        -- left. split; [exact Hk0|left; reflexivity].
        -- left. split; [exact Hne|right; exact Hin].
        -- right. split; [reflexivity|]. left. exists old. split; [right; exact Hin|reflexivity].
        -- right. split; [reflexivity|]. right. split; [|reflexivity].
           intros [Heq|Hin]; [congruence|contradiction].
      * intros [[Hne [[= <- <-]|Hin]]|[-> [[old [[[= Heq _]|Hin] ->]]|[Hn ->]]]].
        -- left. reflexivity.
        -- right. left. split; assumption.
        -- congruence.
        -- right. right. split; [reflexivity|]. left. exists old. split; [exact Hin|reflexivity].
        -- right. right. split; [reflexivity|]. right. split; [|reflexivity].
           intros Hin. apply Hn. right. exact Hin.
Qed.

Lemma setdefault_append_total (key : str) (it : item) (g : list (str * list item)) :
  group_total (setdefault_append key it g) = S (group_total g).
Proof.
  unfold group_total.
  induction g as [|[k items] g IH]; [reflexivity|].
  cbn [setdefault_append]. destruct (str_eqb k key).
  - simpl. rewrite length_app. simpl. lia.
  - simpl in *. rewrite IH. lia.
Qed.

Lemma items_of_snoc (k : str) (batch : list (due_row * item)) (di : due_row * item) :
  items_of k (batch ++ [di])
  = items_of k batch ++ (if str_eqb (group_key di) k then [snd di] else []).
Proof.
  unfold items_of. rewrite List.filter_app, List.map_app. cbn [List.filter].
  destruct (str_eqb (group_key di) k); reflexivity.
Qed.

Lemma grouped_step (batch : list (due_row * item)) (g : list (str * list item))
    (di : due_row * item) :
  grouped_as batch g ->
  grouped_as (batch ++ [di]) (setdefault_append (group_key di) (snd di) g).
Proof.
  intros (Hnd & Hin & Htot). split; [|split].
  - apply setdefault_append_nodup, Hnd.
  - intros k items. rewrite (setdefault_append_in _ _ _ _ _ Hnd), items_of_snoc.
    destruct (str_eqb (group_key di) k) eqn:E.
    + apply str_eqb_eq in E. split.
      * intros [[Hne _]|[_ [[old [Hold ->]]|[Hn ->]]]]; [congruence| |].
        -- apply Hin in Hold as [_ Hold]. rewrite E in Hold. rewrite <- Hold.
           split; [destruct old; discriminate|reflexivity].
        -- split; [discriminate|].
           destruct (items_of k batch) as [|x l] eqn:Ei; [reflexivity|].
           exfalso. apply Hn. rewrite E.
           change k with (fst (k, x :: l)). apply in_map. apply Hin.
           split; [discriminate|]. symmetry. exact Ei.
      * intros [_ ->]. right. split; [symmetry; exact E|].
        destruct (items_of k batch) as [|x l] eqn:Ei.
        -- right. split; [|reflexivity]. intros Hk.
           apply in_map_iff in Hk as [[k' items'] [Hk' Hin']]. cbn [fst] in Hk'.
           subst k'. rewrite E in Hin'. apply Hin in Hin' as [Hne' Heq'].
           rewrite Ei in Heq'. contradiction.
        -- left. exists (x :: l). rewrite E. split; [|reflexivity].
           apply Hin. split; [discriminate|]. symmetry. exact Ei.
    + rewrite app_nil_r.
      assert (Hne : k <> group_key di).
      { intros ->. rewrite str_eqb_refl in E. discriminate. }
      rewrite <- Hin. split.
      * intros [[_ H1]|[Heq _]]; [exact H1|contradiction].
      * intros H1. left. split; assumption.
  - rewrite setdefault_append_total, Htot, length_app. cbn [length]. lia.
Qed.

Lemma grouped_fold (batch pre : list (due_row * item)) (g : list (str * list item)) :
  grouped_as pre g ->
  grouped_as (pre ++ batch)
    (fold_left (fun g di => setdefault_append (group_key di) (snd di) g) batch g).
Proof.
  revert pre g. induction batch as [|di batch IH]; intros pre g Hg; cbn [fold_left].
  - rewrite app_nil_r. exact Hg.
  - replace (pre ++ di :: batch) with ((pre ++ [di]) ++ batch)
      by (rewrite <- app_assoc; reflexivity).
    apply IH, grouped_step, Hg.
Qed.

(** X21: the groups of a batch have distinct keys; the group of a key holds
    exactly the batch's items filed under it, in batch order, and is never
    empty; together the groups hold as many items as the batch. *)
Theorem groups_partition_the_batch (batch : list (due_row * item)) :
  NoDup (List.map fst (group_batch batch))
  /\ (forall k items,
        In (k, items) (group_batch batch)
        <-> items <> [] /\ items = items_of k batch)
  /\ group_total (group_batch batch) = length batch.
Proof.
  apply (grouped_fold batch [] []). split; [constructor|]. split; [|reflexivity].
  intros k items. split; [intros []|]. intros [Hne ->]. contradiction.
Qed.

(** ** The digest of a batch *)

Lemma group_count_le_total (g : list (str * list item)) :
  Forall (fun x => snd x <> []) g -> (length g <= group_total g)%nat.
Proof.
  unfold group_total. induction 1 as [|[k items] g Hne _ IH]; simpl in *; [lia|].
  destruct items; [contradiction|]. simpl. lia.
Qed.

Lemma batch_items_total (g : list (str * list item)) :
  Forall (fun x => snd x <> []) g ->
  exists firsts, batch_items g = Some firsts /\ length firsts = length g.
Proof.
  induction 1 as [|[k items] g Hne _ (firsts & Hf & Hlen)]; cbn [batch_items].
  - exists []. auto.
  - destruct items as [|first items]; [contradiction|]. rewrite Hf.
    exists (first :: firsts). simpl. auto.
Qed.

Section Digest.
Context `{PyRuntime}.

Lemma format_groups_total (g : list (str * list item)) :
  Forall (fun x => snd x <> []) g ->
  exists blocks, format_groups (List.map snd g) = Some blocks
                 /\ length blocks = length g.
Proof.
  induction 1 as [|[k items] g Hne _ (blocks & Hb & Hlen)];
    cbn [List.map format_groups snd].
  - exists []. auto.
  - destruct items as [|first items]; [contradiction|]. rewrite Hb.
    cbn [format_group]. eexists. split; [reflexivity|]. simpl. auto.
Qed.

(** X22: the digest of a batch is always produced; its header counts every
    delivery of the batch, while its blocks, like the items counted in the
    subject, are one per group. *)
Theorem digest_counts_every_delivery (batch : list (due_row * item)) :
  exists blocks firsts,
    format_groups (List.map snd (group_batch batch)) = Some blocks
    /\ batch_items (group_batch batch) = Some firsts
    /\ length blocks = length firsts
    /\ (length firsts <= length batch)%nat
    /\ format_grouped_digest (group_batch batch)
       = Some (py_strip (digest_header (length batch) ++ nl ++ nl
                         ++ py_join block_sep blocks)).
Proof.
  destruct (grouped_fold batch [] []) as (_ & Hin & Htot).
  { split; [constructor|]. split; [|reflexivity].
    intros k items. split; [intros []|]. intros [Hne ->]. contradiction. }
  cbn [app] in Hin, Htot. fold (group_batch batch) in Hin, Htot.
  assert (Hne : Forall (fun x => snd x <> []) (group_batch batch)).
  { apply List.Forall_forall. intros [k items] Hx. apply Hin in Hx as [Hx _]. exact Hx. }
  destruct (format_groups_total _ Hne) as (blocks & Hb & Hbl).
  destruct (batch_items_total _ Hne) as (firsts & Hf & Hfl).
  exists blocks, firsts. repeat split; try assumption.
  - congruence.
  - rewrite Hfl, <- Htot. apply group_count_le_total, Hne.
  - unfold format_grouped_digest. cbv zeta. rewrite Hb.
    fold (group_total (group_batch batch)). rewrite Htot. reflexivity.
Qed.

(** What the source loop keeps true after [seen] items. *)
Lemma group_sources_loop (items seen : list item) (acc : gset str * list str) :
  (forall k, k ∈ fst acc <-> In k (List.map py_lower (snd acc))) ->
  NoDup (List.map py_lower (snd acc)) ->
  (forall src, In src (snd acc) ->
     src <> [] /\ exists it, In it seen /\ src = py_strip (or_empty (it_source_name it))) ->
  (forall it, In it seen -> py_strip (or_empty (it_source_name it)) <> [] ->
     In (py_lower (py_strip (or_empty (it_source_name it))))
        (List.map py_lower (snd acc))) ->
  let out :=
    snd (fold_left
           (fun (acc : gset str * list str) it =>
              let src := py_strip (or_empty (it_source_name it)) in
              let key := py_lower src in
              if not_empty src && negb (bool_decide (key ∈ fst acc))
              then ({[ key ]} ∪ fst acc, snd acc ++ [src])
              else acc)
           items acc) in
  NoDup (List.map py_lower out)
  /\ (forall src, In src out ->
        src <> [] /\ exists it, In it (seen ++ items)
                                /\ src = py_strip (or_empty (it_source_name it)))
  /\ (forall it, In it (seen ++ items) ->
        py_strip (or_empty (it_source_name it)) <> [] ->
        In (py_lower (py_strip (or_empty (it_source_name it))))
           (List.map py_lower out)).
Proof.
  revert seen acc. induction items as [|it items IH]; intros seen acc Hset Hnd Hfrom Hcov.
  - cbn [fold_left]. rewrite app_nil_r. auto.
  - cbn [fold_left]. cbv zeta.
    replace (seen ++ it :: items) with ((seen ++ [it]) ++ items)
      by (rewrite <- app_assoc; reflexivity).
    set (src := py_strip (or_empty (it_source_name it))).
    destruct (not_empty src && negb (bool_decide (py_lower src ∈ fst acc))) eqn:E.
    + apply andb_true_iff in E as [Hne Hnew].
      apply not_empty_true in Hne.
      apply negb_true_iff, bool_decide_eq_false in Hnew.
      apply IH; cbn [fst snd].
      * intros k. rewrite List.map_app, in_app_iff, elem_of_union, elem_of_singleton, Hset.
        cbn [List.map In]. intuition congruence.
      * rewrite List.map_app. apply NoDup_app. split; [exact Hnd|].
        split; [|apply NoDup_singleton].
        intros k Hk Hk'. apply list_elem_of_In in Hk, Hk'. destruct Hk' as [<-|[]].
        apply Hnew, Hset, Hk.
      * intros s Hs. apply in_app_or in Hs as [Hs|[<-|[]]].
        -- destruct (Hfrom s Hs) as (Hn & x & Hx & Heq). split; [exact Hn|].
           exists x. split; [apply in_or_app; left; exact Hx|exact Heq].
        -- split; [exact Hne|]. exists it. split; [|reflexivity].
           apply in_or_app. right. left. reflexivity.
      * intros x Hx Hxne. rewrite List.map_app, in_app_iff.
        apply in_app_or in Hx as [Hx|[<-|[]]]; [left; apply Hcov; assumption|].
        right. left. reflexivity.
    + apply IH; try assumption.
      * intros s Hs. destruct (Hfrom s Hs) as (Hn & x & Hx & Heq). split; [exact Hn|].
        exists x. split; [apply in_or_app; left; exact Hx|exact Heq].
      * intros x Hx Hxne. apply in_app_or in Hx as [Hx|[<-|[]]]; [apply Hcov; assumption|].
        apply andb_false_iff in E as [E|E].
        -- apply not_empty_true in Hxne. fold src in Hxne. congruence.
        -- apply negb_false_iff, bool_decide_eq_true in E. apply Hset, E.
Qed.

(** X23: a group lists each source once, whatever its case: the listed names
    are non-empty stripped source names of the group's items, distinct in
    lower case, and every item's non-empty source name is among them in
    lower case. *)
Theorem sources_are_listed_once (items : list item) :
  NoDup (List.map py_lower (group_sources items))
  /\ (forall src, In src (group_sources items) ->
        src <> [] /\ exists it, In it items
                                /\ src = py_strip (or_empty (it_source_name it)))
  /\ (forall it, In it items ->
        py_strip (or_empty (it_source_name it)) <> [] ->
        In (py_lower (py_strip (or_empty (it_source_name it))))
           (List.map py_lower (group_sources items))).
Proof.
  apply (group_sources_loop items [] (∅, [])); cbn [fst snd List.map].
  - intros k. rewrite elem_of_empty. simpl. tauto.
  - constructor.
  - intros src [].
  - intros it [].
Qed.

End Digest.

(** ** The article fetched for a delivery *)

Lemma filter_none {A} (f : A -> bool) (l : list A) :
  (forall y, In y l -> f y = false) -> List.filter f l = [].
Proof.
  induction l as [|x l IH]; cbn [List.filter]; intros Hall; [reflexivity|].
  rewrite (Hall x) by (left; reflexivity). apply IH.
  intros y Hy. apply Hall. right. exact Hy.
Qed.

Lemma filter_unique_id (l : list article) (a : article) :
  NoDup (List.map a_id l) -> In a l ->
  List.filter (fun x => a_id x =? a_id a) l = [a].
Proof.
  induction l as [|x l IH]; cbn [List.map List.filter]; [intros _ []|].
  intros Hnd Hin. apply NoDup_cons in Hnd as [Hnot Hnd].
  assert (Hrest : forall y, In y l -> a_id y <> a_id x).
  { intros y Hy Heq. apply Hnot, list_elem_of_In. rewrite <- Heq. apply in_map, Hy. }
  destruct Hin as [->|Hin].
  - rewrite Z.eqb_refl. f_equal. apply filter_none.
    intros y Hy. apply Z.eqb_neq. apply Hrest, Hy.
  - replace (a_id x =? a_id a) with false; [apply IH; assumption|].
    symmetry. apply Z.eqb_neq. intros Heq. apply (Hrest a Hin). congruence.
Qed.

Lemma filter_at_most_one (sources : list source_row) (sid : str) :
  NoDup (List.map s_id sources) ->
  List.filter (fun s => str_eqb (s_id s) sid) sources = []
  \/ exists s, List.filter (fun s => str_eqb (s_id s) sid) sources = [s].
Proof.
  induction sources as [|x l IH]; cbn [List.map List.filter]; [auto|].
  intros Hnd. apply NoDup_cons in Hnd as [Hnot Hnd].
  destruct (str_eqb (s_id x) sid) eqn:E; [|apply IH, Hnd].
  right. exists x. f_equal. apply filter_none. intros y Hy.
  apply str_eqb_ne. intros Heq. apply str_eqb_eq in E.
  apply Hnot, list_elem_of_In. rewrite E, <- Heq. apply in_map, Hy.
Qed.

Lemma left_join_single (sources : list source_row) (a : article) (r : joined_row) :
  NoDup (List.map s_id sources) ->
  In r (left_join_sources sources a) -> left_join_sources sources a = [r].
Proof.
  intros Hnd. unfold left_join_sources. destruct (a_source_id a) as [sid|].
  - destruct (filter_at_most_one sources sid Hnd) as [->|[s ->]];
      cbn [List.map]; intros [<-|[]]; reflexivity.
  - intros [<-|[]]. reflexivity.
Qed.

Lemma picks_agree (ts : ts_expr) (sc : schema) :
  sq_join_sources (pick_search_sql ts sc)
  = bi_join_sources (pick_article_by_id_sql sc)
  /\ sq_summary_expr (pick_search_sql ts sc)
     = bi_summary_expr (pick_article_by_id_sql sc)
  /\ sq_category_select_expr (pick_search_sql ts sc)
     = bi_category_select_expr (pick_article_by_id_sql sc).
Proof.
  unfold pick_search_sql, pick_article_by_id_sql.
  destruct (has_search_tsv sc); [repeat split|].
  destruct (opt_col _ _ ++ _); repeat split.
Qed.

Section Refetch.
Context `{PyRuntime}.

(** X24: when article ids and source ids are unique, the article fetched by
    id for a delivery is the matched row, less its as-of timestamp. *)
Theorem refetched_article_is_the_match (cfg : config) (cat : catalog) (now : Z)
    (al : alert) (cursor : option Z) (it : item) :
  NoDup (List.map a_id (cat_articles cat)) ->
  NoDup (List.map s_id (cat_sources cat)) ->
  In it (matcher cfg cat now al cursor) ->
  article_by_id cat (pick_article_by_id_sql (cat_schema cat)) (it_id it)
  = Some (without_ts it).
Proof.
  intros Hids Hsrc Hin. unfold matcher, run_search in Hin.
  set (sq := pick_search_sql _ _) in Hin.
  apply in_map_iff in Hin as [r [<- Hin]].
  apply in_firstn, sort_by_in, filter_In in Hin as [Hin _].
  apply in_flat_map in Hin as [a [Ha Hr]].
  destruct (picks_agree (pick_article_ts_expr (has_published_at (cat_schema cat)))
              (cat_schema cat)) as (Hj & Hs & Hc).
  fold sq in Hj, Hs, Hc.
  assert (Hfst : fst r = a).
  { destruct (sq_join_sources sq); [eapply left_join_fst, Hr|].
    destruct Hr as [<-|[]]. reflexivity. }
  unfold article_by_id. cbv zeta.
  replace (it_id (project_row cat sq r)) with (a_id a)
    by (unfold project_row; cbn [it_id]; rewrite Hfst; reflexivity).
  rewrite (filter_unique_id _ a Hids Ha). cbn [flat_map]. rewrite app_nil_r.
  rewrite <- Hj.
  assert (Hrows : (if sq_join_sources sq
                   then left_join_sources (cat_sources cat) a
                   else [(a, None)]) = [r]).
  { destruct (sq_join_sources sq); [apply left_join_single; assumption|].
    destruct Hr as [<-|[]]. reflexivity. }
  rewrite Hrows. cbn [List.map head]. f_equal.
  unfold project_by_id, project_row, without_ts.
  cbn [it_id it_title it_url it_summary it_category_guess it_ts it_source_name
       it_source it_published_at it_created_at].
  rewrite <- Hj, <- Hs, <- Hc. reflexivity.
Qed.

End Refetch.

(** ** Filters on columns the catalog lacks *)

Section MissingColumns.
Context `{PyRuntime}.

Lemma run_search_ext (cat : catalog) (sq : search_sql) (p p' : search_params)
    (now : Z) :
  p_q p = p_q p' -> p_limit p = p_limit p' ->
  (forall r, search_where cat sq p now r = search_where cat sq p' now r) ->
  run_search cat sq p now = run_search cat sq p' now.
Proof.
  intros Hq Hl Hw. unfold run_search. rewrite Hl. f_equal. f_equal.
  assert (Hord : order_leb cat sq p = order_leb cat sq p').
  { unfold order_leb, row_rank. rewrite Hq. reflexivity. }
  rewrite Hord. f_equal. apply List.filter_ext. intros r. rewrite Hw. reflexivity.
Qed.

(** X25: a catalog with neither a category column nor any source column
    ignores the category and the source of a saved search: the matches are
    the same whatever the two filters say. *)
Theorem filters_on_missing_columns_are_ignored (cfg : config) (cat : catalog)
    (now : Z) (al : alert) (cursor : option Z) (category source : option str) :
  has_category_guess (cat_schema cat) = false ->
  has_category (cat_schema cat) = false ->
  has_source_name (cat_schema cat) = false ->
  has_source (cat_schema cat) = false ->
  has_source_id (cat_schema cat) = false ->
  matcher cfg cat now (with_filters category source al) cursor
  = matcher cfg cat now al cursor.
Proof.
  intros Hg Hc Hn Hs Hi. unfold matcher. apply run_search_ext; try reflexivity.
  intros r. unfold search_where. cbv zeta.
  replace (sq_category_expr (pick_search_sql _ (cat_schema cat))) with (@None column).
  - replace (sq_source_filters (pick_search_sql _ (cat_schema cat))) with (@nil column).
    + cbn [search_params_of with_filters p_start_ts p_days p_q_present p_category
           al_category al_source al_query al_days p_source].
      f_equal. f_equal. f_equal.
      destruct source, (al_source al); reflexivity.
    + unfold pick_search_sql. rewrite Hn, Hs, Hi, andb_false_r.
      destruct (has_search_tsv _); [reflexivity|].
      destruct (opt_col _ _ ++ _); reflexivity.
  - unfold pick_search_sql. rewrite Hg, Hc.
    destruct (has_search_tsv _); [reflexivity|].
    destruct (opt_col _ _ ++ _); reflexivity.
Qed.

End MissingColumns.

Lemma filters_on_missing_columns_are_ignored_witness :
  @matcher ascii_runtime default_config bare_catalog 1000
    (with_filters (Some (lit "sports")) (Some (lit "AFP")) oil_alert) None
  = @matcher ascii_runtime default_config bare_catalog 1000 oil_alert None.
Proof.
  apply (@filters_on_missing_columns_are_ignored ascii_runtime default_config
           bare_catalog 1000 oil_alert None (Some (lit "sports")) (Some (lit "AFP")));
    reflexivity.
Defined.

Lemma message_runs_from_title_to_link_witness :
  exists mid,
    @format_message ascii_runtime linked_item
    = @py_strip ascii_runtime (or_empty (it_title linked_item)) ++ mid
      ++ @py_strip ascii_runtime (or_empty (it_url linked_item)).
Proof.
  apply (@message_runs_from_title_to_link ascii_runtime linked_item);
    vm_compute; discriminate.
Defined.

Lemma refetched_article_is_the_match_witness :
  match @matcher ascii_runtime default_config (sample_catalog false oil_articles)
          1000 oil_alert None with
  | it :: _ =>
      article_by_id (sample_catalog false oil_articles)
        (pick_article_by_id_sql (cat_schema (sample_catalog false oil_articles)))
        (it_id it)
      = Some (without_ts it)
  | [] => False
  end.
Proof.
  destruct (@matcher ascii_runtime default_config (sample_catalog false oil_articles)
              1000 oil_alert None) as [|it rest] eqn:E.
  - vm_compute in E. discriminate.
  - apply (@refetched_article_is_the_match ascii_runtime default_config
             (sample_catalog false oil_articles) 1000 oil_alert None it).
    + apply (bool_decide_unpack _). vm_compute. exact I.
    + constructor.
    + rewrite E. left. reflexivity.
Defined.

(** ** One attempt per delivery and pass *)

Lemma update_once (k : dkey) (f : delivery -> delivery) (ks : list dkey)
    (tbl0 tbl : list delivery) :
  key_preserving f ->
  (forall r, d_attempt_count (f r) = d_attempt_count r + 1) ->
  marked_once ks tbl0 tbl -> ~ In k ks ->
  marked_once (k :: ks) tbl0 (update_where k f tbl).
Proof.
  intros Hkey Hatt Hm Hk k' row0 H0.
  destruct (Hm k' row0 H0) as (row & Hf & Hin & Hout).
  destruct (decide (k' = k)) as [->|Hne].
  - exists (f row). rewrite (find_update_same _ _ Hkey), Hf. split; [reflexivity|].
    split.
    + intros _. rewrite Hatt, (Hout Hk). reflexivity.
    + intros Hn. exfalso. apply Hn. left. reflexivity.
  - exists row. rewrite (find_update_other _ _ Hkey) by exact Hne.
    split; [exact Hf|]. split.
    + intros [Heq|Hin']; [congruence|auto].
    + intros Hn. apply Hout. intros Hin'. apply Hn. right. exact Hin'.
Qed.

Lemma within_update (k : dkey) (f : delivery -> delivery) (P : dkey -> Prop)
    (tbl0 tbl : list delivery) :
  key_preserving f ->
  (forall r, d_attempt_count (f r) = d_attempt_count r + 1) ->
  marked_within P tbl0 tbl -> ~ P k ->
  marked_within (fun x => P x \/ x = k) tbl0 (update_where k f tbl).
Proof.
  intros Hkey Hatt (ks & Hm & HP) Hk. exists (k :: ks). split.
  - apply update_once; auto.
  - intros x [<-|Hx]; auto.
Qed.

Lemma within_weaken (P Q : dkey -> Prop) (tbl0 tbl : list delivery) :
  (forall k, P k -> Q k) -> marked_within P tbl0 tbl -> marked_within Q tbl0 tbl.
Proof. intros HPQ (ks & Hm & HP). exists ks. split; auto. Qed.

Lemma within_refl (tbl : list delivery) : marked_within (fun _ => False) tbl tbl.
Proof.
  exists []. split; [|intros k []]. intros k row0 H0. exists row0.
  split; [exact H0|]. split; [intros []|reflexivity].
Qed.

Section OnePass.
Context `{PyRuntime}.
Variables (cfg : config) (e : admin_env) (send : user_provider) (clk : clock).
Variable tbl0 : list delivery.

Lemma mark_sent_within (d : due_row) (w : world) (P : dkey -> Prop) :
  marked_within P tbl0 (w_deliveries w) -> ~ P (dr_key d) ->
  marked_within (fun k => P k \/ k = dr_key d) tbl0
    (w_deliveries (mark_delivery_sent clk d w)).
Proof.
  intros Hm Hd. apply within_update; auto. apply sent_row_keeps_key.
Qed.

Lemma mark_failed_within (d : due_row) (error : str) (w : world) (P : dkey -> Prop) :
  marked_within P tbl0 (w_deliveries w) -> ~ P (dr_key d) ->
  marked_within (fun k => P k \/ k = dr_key d) tbl0
    (w_deliveries (mark_delivery_failed cfg e clk d error w)).
Proof.
  intros Hm Hd. rewrite mark_failed_deliveries.
  apply within_update; auto. apply failed_row_keeps_key.
Qed.

Lemma fold_within {A} (key : A -> dkey)
    (step : world * counters -> A -> world * counters) (l : list A)
    (P : dkey -> Prop) (st : world * counters) :
  (forall Q st a, marked_within Q tbl0 (table_of st) -> ~ Q (key a) ->
     marked_within (fun k => Q k \/ k = key a) tbl0 (table_of (step st a))) ->
  NoDup (List.map key l) ->
  (forall k, In k (List.map key l) -> ~ P k) ->
  marked_within P tbl0 (table_of st) ->
  marked_within (fun k => P k \/ In k (List.map key l)) tbl0
    (table_of (fold_left step l st)).
Proof.
  intros Hstep. revert P st. induction l as [|a l IH]; intros P st Hnd HP Hm;
    cbn [fold_left List.map].
  - eapply within_weaken; [|exact Hm]. auto.
  - apply NoDup_cons in Hnd as [Hnot Hnd].
    eapply within_weaken; [|apply (IH (fun k => P k \/ k = key a))].
    + cbn [In]. intros k [[HPk| ->]|Hin]; auto.
    + exact Hnd.
    + intros k Hk [HPk| ->].
      * apply (HP k); [right; exact Hk|exact HPk].
      * apply Hnot, list_elem_of_In, Hk.
    + apply Hstep; [exact Hm|]. apply HP. left. reflexivity.
Qed.

Lemma process_batch_within (batch : list due_row) (P : dkey -> Prop)
    (st : world * counters) :
  NoDup (List.map dr_key batch) ->
  (forall k, In k (List.map dr_key batch) -> ~ P k) ->
  marked_within P tbl0 (table_of st) ->
  marked_within (fun k => P k \/ In k (List.map dr_key batch)) tbl0
    (table_of (process_batch cfg e send clk batch st)).
Proof.
  intros Hnd HP Hm. unfold process_batch.
  destruct batch as [|first rest] eqn:Eb.
  { eapply within_weaken; [|exact Hm]. auto. }
  rewrite <- Eb in *. clear Eb.
  destruct (outcome _) as [[] err].
  - apply (fold_within dr_key); try assumption.
    intros Q st' d HQ Hd. apply mark_sent_within; assumption.
  - apply (fold_within dr_key); try assumption.
    intros Q st' d HQ Hd. apply mark_failed_within; assumption.
Qed.

Lemma fold_batches_within (batches : list (list due_row)) (P : dkey -> Prop)
    (st : world * counters) :
  NoDup (List.map dr_key (concat batches)) ->
  (forall k, In k (List.map dr_key (concat batches)) -> ~ P k) ->
  marked_within P tbl0 (table_of st) ->
  marked_within (fun k => P k \/ In k (List.map dr_key (concat batches))) tbl0
    (table_of (fold_left (fun st batch => process_batch cfg e send clk batch st)
                 batches st)).
Proof.
  revert P st. induction batches as [|b bs IH]; intros P st Hnd HP Hm;
    cbn [fold_left concat].
  - eapply within_weaken; [|exact Hm]. auto.
  - cbn [concat] in Hnd, HP. rewrite List.map_app in Hnd, HP.
    apply NoDup_app in Hnd as (Hb & Hdis & Hbs).
    eapply within_weaken;
      [|apply (IH (fun k => P k \/ In k (List.map dr_key b)))].
    + intros k [[HPk|Hk]|Hk]; auto; right; rewrite List.map_app;
        apply in_or_app; auto.
    + exact Hbs.
    + intros k Hk [HPk|Hkb].
      * apply (HP k); [apply in_or_app; right; exact Hk|exact HPk].
      * apply (Hdis k); apply list_elem_of_In; assumption.
    + apply process_batch_within; [exact Hb| |exact Hm].
      intros k Hk. apply HP, in_or_app. left. exact Hk.
Qed.

Lemma with_items_within (cat : catalog) (p : prefs) (due : list due_row)
    (P : dkey -> Prop) (st : world * counters) :
  NoDup (List.map dr_key due) ->
  (forall k, In k (List.map dr_key due) -> ~ P k) ->
  marked_within P tbl0 (table_of st) ->
  let r := with_items cfg e clk cat p due st in
  NoDup (List.map dr_key (fst r))
  /\ (forall k, In k (List.map dr_key (fst r)) -> In k (List.map dr_key due))
  /\ marked_within
       (fun k => P k \/ (In k (List.map dr_key due)
                         /\ ~ In k (List.map dr_key (fst r))))
       tbl0 (table_of (snd r)).
Proof.
  revert P st. induction due as [|d due IH]; intros P st Hnd HP Hm;
    cbn [with_items List.map].
  - cbn [fst snd List.map]. split; [constructor|]. split; [auto|].
    eapply within_weaken; [|exact Hm]. auto.
  - apply NoDup_cons in Hnd as [Hnot Hnd].
    assert (Hnot' : ~ In (dr_key d) (List.map dr_key due)).
    { intros Hin. apply Hnot, list_elem_of_In, Hin. }
    destruct (negb (routed p d)).
    + destruct (IH P st Hnd) as (Hr1 & Hr2 & Hr3);
        [intros k Hk; apply HP; right; exact Hk|exact Hm|].
      split; [exact Hr1|]. split; [intros k Hk; right; apply Hr2, Hk|].
      eapply within_weaken; [|exact Hr3].
      intros k [HPk|[Hk Hn]]; [left; exact HPk|right]. split; [right; exact Hk|exact Hn].
    + destruct (existsb _ _).
      * destruct (IH P st Hnd) as (Hr1 & Hr2 & Hr3);
          [intros k Hk; apply HP; right; exact Hk|exact Hm|].
        destruct (with_items cfg e clk cat p due st) as [l st'].
        cbn [fst snd List.map] in *. split; [|split].
        -- apply NoDup_cons. split; [|exact Hr1].
           intros Hin. apply list_elem_of_In in Hin. apply Hnot', Hr2, Hin.
        -- intros k [<-|Hk]; [left; reflexivity|right; apply Hr2, Hk].
        -- eapply within_weaken; [|exact Hr3].
           intros k [HPk|[Hk Hn]]; [left; exact HPk|right].
           split; [right; exact Hk|]. intros [<-|Hin]; [contradiction|contradiction].
      * destruct (IH (fun k => P k \/ k = dr_key d)
                    (mark_delivery_failed cfg e clk d (lit "missing_article") (fst st),
                     bump_failed (snd st)) Hnd) as (Hr1 & Hr2 & Hr3).
        -- intros k Hk [HPk| ->]; [|contradiction].
           apply (HP k); [right; exact Hk|exact HPk].
        -- apply mark_failed_within; [exact Hm|]. apply HP. left. reflexivity.
        -- split; [exact Hr1|]. split; [intros k Hk; right; apply Hr2, Hk|].
           eapply within_weaken; [|exact Hr3].
           intros k [[HPk| ->]|[Hk Hn]].
           ++ left. exact HPk.
           ++ right. split; [left; reflexivity|]. intros Hin. apply Hnot', Hr2, Hin.
           ++ right. split; [right; exact Hk|exact Hn].
Qed.

Lemma dispatch_email_within (cat : catalog) (p : prefs) (due : list due_row)
    (P : dkey -> Prop) (st st' : world * counters) :
  NoDup (List.map dr_key due) ->
  (forall k, In k (List.map dr_key due) -> ~ P k) ->
  marked_within P tbl0 (table_of st) ->
  dispatch_email cfg e send clk cat p due st = Some st' ->
  marked_within (fun k => P k \/ In k (List.map dr_key due)) tbl0 (table_of st').
Proof.
  intros Hnd HP Hm. unfold dispatch_email.
  destruct (with_items_within cat p due P st Hnd HP Hm) as (Hr1 & Hr2 & Hr3).
  destruct (with_items cfg e clk cat p due st) as [ready st1]. cbn [fst snd] in *.
  destruct (Z.eqb_spec (max_items_per_email cfg) 0) as [|Hnz]; [discriminate|].
  destruct (Z.ltb_spec (max_items_per_email cfg) 0) as [|Hpos]; intros [= <-].
  - eapply within_weaken; [|exact Hr3]. intros k [HPk|[Hk _]]; auto.
  - destruct (chunks_fuel_spec (Z.to_nat (max_items_per_email cfg)) (length ready)
                ready) as [Hcat _]; [lia|reflexivity|].
    fold (chunks (Z.to_nat (max_items_per_email cfg)) ready) in Hcat.
    eapply within_weaken; [|apply fold_batches_within; [| |exact Hr3]].
    + rewrite Hcat. intros k [[HPk|[Hk _]]|Hk]; auto.
    + rewrite Hcat. exact Hr1.
    + rewrite Hcat. intros k Hk [HPk|[_ Hn]]; [|contradiction].
      apply (HP k); [apply Hr2, Hk|exact HPk].
Qed.

Lemma dispatch_single_within (cat : catalog) (p : prefs) (due : list due_row)
    (P : dkey -> Prop) (st st' : world * counters) :
  dispatch_single cfg e send clk cat p due st = Some st' ->
  NoDup (List.map dr_key due) ->
  (forall k, In k (List.map dr_key due) -> ~ P k) ->
  marked_within P tbl0 (table_of st) ->
  marked_within (fun k => P k \/ In k (List.map dr_key due)) tbl0 (table_of st').
Proof.
  intros Hrun Hnd HP Hm. apply dispatch_single_turns in Hrun. subst st'.
  apply (fold_within dr_key); try assumption.
  intros Q st' d HQ Hd. unfold single_turn.
  destruct (negb (routed p d)); [eapply within_weaken; [|exact HQ]; auto|].
  destruct (existsb _ _); [|apply mark_failed_within; assumption].
  unfold process_single.
  destruct (str_eqb (dr_channel d) (lit "telegram")).
  - destruct (outcome _) as [[] err].
    + apply mark_sent_within; assumption.
    + apply mark_failed_within; assumption.
  - apply mark_failed_within; assumption.
Qed.

End OnePass.

(** The keys of the due rows of a table with unique keys are distinct. *)
Lemma NoDup_firstn {A} (n : nat) (l : list A) : NoDup l -> NoDup (firstn n l).
Proof.
  revert l. induction n as [|n IH]; intros [|x l] Hnd; cbn [firstn];
    try constructor.
  - apply NoDup_cons in Hnd as [Hnot Hnd]. intros Hin. apply Hnot.
    apply list_elem_of_In. apply list_elem_of_In in Hin. eapply in_firstn, Hin.
  - apply NoDup_cons in Hnd as [_ Hnd]. apply IH, Hnd.
Qed.

Lemma NoDup_map_filter {A B} (f : A -> B) (g : A -> bool) (l : list A) :
  NoDup (List.map f l) -> NoDup (List.map f (List.filter g l)).
Proof.
  induction l as [|x l IH]; cbn [List.map List.filter]; [auto|].
  intros Hnd. apply NoDup_cons in Hnd as [Hnot Hnd].
  destruct (g x); [|apply IH, Hnd]. cbn [List.map]. apply NoDup_cons.
  split; [|apply IH, Hnd]. intros Hin. apply Hnot.
  apply list_elem_of_In. apply list_elem_of_In in Hin.
  apply in_map_iff in Hin as [y [Hy Hin]]. apply filter_In in Hin as [Hin _].
  rewrite <- Hy. apply in_map, Hin.
Qed.

Lemma due_query_keys (cfg : config) (now : Z) (al : alert) (tbl : list delivery) :
  unique_keys tbl -> NoDup (List.map dr_key (due_query cfg now al tbl)).
Proof.
  intros Hu. unfold due_query. rewrite List.map_map.
  change (fun x => dr_key (to_due_row al x)) with key_of.
  rewrite <- firstn_map. apply NoDup_firstn.
  match goal with
  | |- NoDup (List.map key_of (sort_by ?leb ?l)) =>
      assert (Hp : Permutation (List.map key_of (sort_by leb l)) (List.map key_of l))
        by (apply Permutation_map, sort_by_perm)
  end.
  rewrite Hp. apply NoDup_map_filter, Hu.
Qed.

Lemma filter_due_keys (cfg : config) (due : list due_row) (pu : gmap str Z) :
  NoDup (List.map dr_key due) ->
  NoDup (List.map dr_key (snd (filter_due cfg pu due))).
Proof.
  revert pu. induction due as [|d due IH]; intros pu Hnd; cbn [filter_due];
    [constructor|].
  apply NoDup_cons in Hnd as [Hnot Hnd].
  destruct (max_per_user cfg <=? _); [apply IH, Hnd|].
  specialize (IH (<[dr_user_id d := default 0 (pu !! dr_user_id d) + 1]>
                    (<[dr_user_id d := default 0 (pu !! dr_user_id d)]> pu)) Hnd).
  pose proof (filter_due_in cfg due
                (<[dr_user_id d := default 0 (pu !! dr_user_id d) + 1]>
                   (<[dr_user_id d := default 0 (pu !! dr_user_id d)]> pu))) as Hsub.
  destruct (filter_due cfg _ due) as [pu' l]. cbn [snd List.map] in *.
  apply NoDup_cons. split; [|exact IH].
  intros Hin. apply Hnot. apply list_elem_of_In. apply list_elem_of_In in Hin.
  apply in_map_iff in Hin as [x [Hx Hin]]. rewrite <- Hx. apply in_map, Hsub, Hin.
Qed.

Section OnePassRun.
Context `{PyRuntime}.
Variables (cfg : config) (e : admin_env) (send : user_provider) (clk : clock).

Lemma claim_all_find (al : alert) (p : prefs) (now : Z)
    (rows : list (item * str * str)) (st : world * counters) (k : dkey)
    (row : delivery) :
  find_delivery (table_of st) k = Some row ->
  find_delivery (table_of (claim_all al p now rows st)) k = Some row.
Proof.
  unfold claim_all. generalize (match rows with
                                | [] => []
                                | _ :: _ => recent_keys (w_deliveries (fst st)) al p now
                                              (List.map (fun r => snd (fst r)) rows)
                                end).
  intros recent. revert st. induction rows as [|r rows IH]; intros st Hf;
    cbn [fold_left]; [exact Hf|].
  apply IH. unfold claim_one.
  destruct (existsb _ recent); [exact Hf|]. destruct (negb _); [exact Hf|].
  destruct r as [[it key] url], st as [w c]. unfold claim_insert, insert_delivery.
  unfold table_of in *. cbn [fst] in *.
  destruct (existsb _ (w_deliveries w)); cbn [fst w_deliveries]; [exact Hf|].
  apply find_delivery_app, Hf.
Qed.

(** X26: in one alert's turn of the sweep over a table with unique keys, a
    delivery is either left exactly as it was or attempted once: its
    attempt count never grows by more than one. *)
Theorem one_attempt_per_pass (cat : catalog) (p : prefs) (al : alert)
    (w w' : world) (c c' : counters) (pu pu' : gmap str Z) (k : dkey)
    (row : delivery) :
  unique_keys (w_deliveries w) ->
  process_alert cfg e send clk cat p al (w, c, pu) = Some (w', c', pu') ->
  find_delivery (w_deliveries w) k = Some row ->
  exists row', find_delivery (w_deliveries w') k = Some row'
               /\ (row' = row \/ d_attempt_count row' = d_attempt_count row + 1).
Proof.
  intros Hu Hrun Hrow. unfold process_alert in Hrun.
  destruct (scan_matches None _) as [max_ts rows].
  pose proof (claim_all_writes al p (db_now clk) rows (w, c)) as Hw.
  pose proof (claim_all_find al p (db_now clk) rows (w, c) k row Hrow) as Hrow1.
  destruct (claim_all al p (db_now clk) rows (w, c)) as [w1 c1].
  unfold table_of in Hw, Hrow1. cbn [fst] in Hw, Hrow1. cbn [w_deliveries] in Hrun.
  apply table_writes_keys in Hw as [_ Hu1]. specialize (Hu1 Hu).
  pose proof (filter_due_keys cfg _ pu
                (due_query_keys cfg (db_now clk) al (w_deliveries w1) Hu1)) as Hnd.
  destruct (filter_due cfg pu _) as [pu1 due]. cbn [snd] in Hnd.
  assert (Hfin : marked_within (fun k => False \/ In k (List.map dr_key due))
                   (w_deliveries w1) (w_deliveries w')).
  { destruct (str_eqb (al_channel al) (lit "email")).
    - destruct (dispatch_email _ _ _ _ _ _ _ _) as [[w2 c2]|] eqn:E; [|discriminate].
      injection Hrun as <- <- <-.
      apply (dispatch_email_within cfg e send clk (w_deliveries w1) cat p due
               (fun _ => False)) in E; auto.
      apply within_refl.
    - destruct (dispatch_single _ _ _ _ _ _ _ _) as [[w2 c2]|] eqn:E; [|discriminate].
      injection Hrun as <- <- <-.
      apply (dispatch_single_within cfg e send clk (w_deliveries w1) cat p due
               (fun _ => False)) in E; auto.
      apply within_refl. }
  destruct Hfin as (ks & Hm & _).
  destruct (Hm k row Hrow1) as (row' & Hf & Hin & Hout).
  exists row'. split; [exact Hf|].
  destruct (in_dec (fun a b => decide (a = b)) k ks) as [Hk|Hk]; auto.
Qed.

End OnePassRun.

Lemma one_attempt_per_pass_witness :
  match @process_alert ascii_runtime default_config sample_admin provider_down noon
          (sample_catalog false []) (get_user_prefs None []) sample_alert
          (sample_world [sample_delivery 7 5; sample_delivery 8 0],
           {| queued := 0; skipped := 0; sent := 0; failed := 0 |}, ∅) with
  | Some (w', _, _) =>
      exists row', find_delivery (w_deliveries w') (key_of (sample_delivery 8 0))
                   = Some row'
                   /\ (row' = sample_delivery 8 0
                       \/ d_attempt_count row'
                          = d_attempt_count (sample_delivery 8 0) + 1)
  | None => False
  end.
Proof.
  destruct (@process_alert ascii_runtime default_config sample_admin provider_down
              noon (sample_catalog false []) (get_user_prefs None []) sample_alert
              (sample_world [sample_delivery 7 5; sample_delivery 8 0],
               {| queued := 0; skipped := 0; sent := 0; failed := 0 |}, ∅))
    as [[[w' c'] pu']|] eqn:E.
  - apply (@one_attempt_per_pass ascii_runtime default_config sample_admin
             provider_down noon (sample_catalog false []) (get_user_prefs None [])
             sample_alert _ w' _ c' ∅ pu' (key_of (sample_delivery 8 0))
             (sample_delivery 8 0)) in E.
    + exact E.
    + unfold unique_keys. apply (bool_decide_unpack _). vm_compute. exact I.
    + vm_compute. reflexivity.
  - vm_compute in E. discriminate.
Defined.

(** ** The due query *)

(** X27: the due query returns deliveries of the table that belong to the
    alert and its channel and are eligible at [now], soonest
    [next_attempt_at] first, and at most [max_per_user] of them. *)
Theorem due_rows_are_eligible_and_ordered (cfg : config) (now : Z) (al : alert)
    (tbl : list delivery) :
  exists rows,
    due_query cfg now al tbl = List.map (to_due_row al) rows
    /\ Forall (fun d => In d tbl /\ d_alert_id d = al_alert_id al
                        /\ d_channel d = al_channel al
                        /\ is_due (max_attempts cfg) now d = true) rows
    /\ Sorted (fun x y => default 0 (d_next_attempt_at x)
                          <= default 0 (d_next_attempt_at y)) rows
    /\ (length rows <= Z.to_nat (max_per_user cfg))%nat.
Proof.
  unfold due_query. eexists. split; [reflexivity|]. split; [|split].
  - apply List.Forall_forall. intros d Hin.
    apply in_firstn, sort_by_in, filter_In in Hin as [Hin Hc].
    apply andb_true_iff in Hc as [Hc Hdue]. apply andb_true_iff in Hc as [Ha Hch].
    repeat split; auto; [apply Z.eqb_eq, Ha|apply str_eqb_eq, Hch].
  - apply Sorted_firstn.
    eapply Sorted_weaken; [|apply sort_by_sorted].
    + intros x y Hxy. apply Z.leb_le, Hxy.
    + intros x y. destruct (Z.leb_spec (default 0 (d_next_attempt_at x))
                              (default 0 (d_next_attempt_at y))); [auto|].
      right. apply Z.leb_le. lia.
  - rewrite length_firstn. lia.
Qed.

(** ** Cooldown keys *)

Section OtherKeys.
Context `{PyRuntime}.

(** X28: an escalation, whether or not it passes its cooldown check, leaves
    the cooldown timestamp of every other key as it was. *)
Theorem escalation_leaves_other_keys (e : admin_env) (key key' : str)
    (cooldown now : Z) (fs fs' : notify_file) (evs : list event) :
  escalate e key cooldown now fs = Some (fs', evs) ->
  key' <> key ->
  last_notified fs' key' = last_notified fs key'.
Proof.
  unfold escalate. intros Hrun Hne.
  destruct (admin_notify_enabled e); [|injection Hrun as <- _; reflexivity].
  destruct (admin_should_notify_with_cooldown key cooldown now fs)
    as [[[] fs1]|] eqn:E; [|injection Hrun as <- _|discriminate].
  - injection Hrun as <- _. apply cooldown_pass in E as [_ ->].
    unfold last_notified. simpl.
    rewrite lookup_insert_ne by congruence. reflexivity.
  - unfold admin_should_notify_with_cooldown in E.
    destruct (nf_unreadable fs key); [discriminate|].
    destruct (_ <? cooldown); [injection E as <-; reflexivity|].
    destruct (nf_writable fs); discriminate.
Qed.

End OtherKeys.

Lemma escalation_leaves_other_keys_witness :
  last_notified
    (fst (@log_delivery_giveup ascii_runtime sample_admin 50000
            {| nf_data := Some {[ lit "backlog:global" := 49000 ]};
               nf_unreadable := fun _ => false; nf_writable := true |}
            (lit "email") (lit "resend_status=500")))
    (lit "backlog:global")
  = 49000.
Proof.
  unfold log_delivery_giveup, notify_admin_giveup.
  destruct (@escalate ascii_runtime sample_admin
              (@giveup_cooldown_key ascii_runtime (lit "email")
                 (lit "resend_status=500"))
              (giveup_cooldown_sec sample_admin) 50000
              {| nf_data := Some {[ lit "backlog:global" := 49000 ]};
                 nf_unreadable := fun _ => false; nf_writable := true |})
    as [[fs' evs]|] eqn:E.
  - cbn [fst].
    rewrite (@escalation_leaves_other_keys ascii_runtime sample_admin _
               (lit "backlog:global") _ _ _ fs' evs E).
    + vm_compute. reflexivity.
    + vm_compute. discriminate.
  - vm_compute in E. discriminate.
Defined.
